(** * Scheduler-Module: a shallow embedding of the six scheduling policies
      and of the framework that selects between them.

    Every policy of the C sources keeps its state in file-level statics: a
    fixed pool of link nodes, a free list threaded through the pool, one or
    more ready lists threaded through the same [next]/[prev] fields, cached
    counters and a statistics record.  The embedding keeps exactly that
    shape: a pool is a [list] of node records addressed by index, a C
    pointer into the pool is an [option nat] ([None] is [NULL]), and every
    C function is a computation in a state-and-failure monad over the
    record of the file's statics.

    A computation yields [None] when the C function does not return
    normally: a load or store through [NULL] (or outside the pool), a
    division by zero, or a loop that is still running when its iteration
    budget ([fuel]) is used up.  Interrupt masking ([disable]/[restore]),
    the binary semaphores and [kprintf] are outside the model; the external
    [context_switch] is recorded as an event in a log. *)

From Stdlib Require Import ZArith Lia Bool QArith Qround.
From stdpp Require Import base list.
Local Open Scope Z_scope.

(** ** Machine integers *)

Module Mach.

Definition wrap32 (x : Z) : Z := x mod 2 ^ 32.
Definition wrap64 (x : Z) : Z := x mod 2 ^ 64.

(** Two's complement reading of a 64-bit pattern ([int64_t]). *)
Definition swrap64 (x : Z) : Z := (x + 2 ^ 63) mod 2 ^ 64 - 2 ^ 63.

(** [max64] of cfs.c. *)
Definition max64 (a b : Z) : Z := if a >? b then a else b.

(** Pointer equality on pool pointers. *)
Definition ptr_eqb (p q : option nat) : bool :=
  match p, q with
  | None, None => true
  | Some i, Some j => Nat.eqb i j
  | _, _ => false
  end.

Definition is_null (p : option nat) : bool :=
  match p with None => true | Some _ => false end.

End Mach.

(** ** The state-and-failure monad *)

Module Monad.

Definition M (S A : Type) : Type := S -> option (A * S).

Definition ret {S A} (a : A) : M S A := fun s => Some (a, s).

Definition bind {S A B} (m : M S A) (k : A -> M S B) : M S B :=
  fun s => match m s with Some (a, s') => k a s' | None => None end.

Definition gets {S A} (f : S -> A) : M S A := fun s => Some (f s, s).

Definition modify {S} (f : S -> S) : M S unit := fun s => Some (tt, f s).

(** Abnormal termination (trap). *)
Definition fault {S A} : M S A := fun _ => None.

Definition lift {S A} (o : option A) : M S A :=
  fun s => match o with Some a => Some (a, s) | None => None end.

Definition when {S} (b : bool) (m : M S unit) : M S unit :=
  if b then m else ret tt.

(** Run a computation on a sub-state selected by a lens. *)
Definition zoom {S T A} (get : S -> T) (set : T -> S -> S) (m : M T A) : M S A :=
  fun s => match m (get s) with
           | Some (a, t) => Some (a, set t s)
           | None => None
           end.

Declare Scope m_scope.
Delimit Scope m_scope with M.

Notation "x <- y ;; z" := (bind y (fun x => z))
  (at level 20, y at level 99, z at level 200, only parsing) : m_scope.
Notation "' p <- y ;; z" := (bind y (fun x => let p := x in z))
  (at level 20, p pattern, y at level 99, z at level 200, only parsing) : m_scope.
Notation "x ;; z" := (bind x (fun _ => z))
  (at level 100, z at level 200, only parsing, right associativity) : m_scope.

(** A C loop with local variables [L]: [step] runs one test-and-body and
    says whether the loop goes round again ([inl], with the new locals) or
    is left ([inr], with the value the code after the loop needs).  The
    loop traps when [fuel] iterations were not enough. *)
Fixpoint loop {S L R} (fuel : nat) (step : L -> M S (L + R)) (l : L) : M S R :=
  match fuel with
  | O => fault
  | Datatypes.S f =>
      bind (step l) (fun x =>
        match x with
        | inl l' => loop f step l'
        | inr r => ret r
        end)
  end.

(** The final state of a run, when there is one. *)
Definition exec {S A} (m : M S A) (s : S) : option S :=
  match m s with Some (_, s') => Some s' | None => None end.

(** The returned value of a run, when there is one. *)
Definition eval {S A} (m : M S A) (s : S) : option A :=
  match m s with Some (a, _) => Some a | None => None end.

(** [preserves R m]: every normal run of [m] relates its initial and final
    state by [R]. *)
Definition preserves {S A} (R : S -> S -> Prop) (m : M S A) : Prop :=
  forall s a s', m s = Some (a, s') -> R s s'.

(** [returns m Q s]: the run of [m] from [s] ends normally, with a value
    and a final state that satisfy [Q]. *)
Definition returns {S A} (m : M S A) (Q : A -> S -> Prop) (s : S) : Prop :=
  exists a s', m s = Some (a, s') /\ Q a s'.

End Monad.

Import Mach Monad.
Local Open Scope m_scope.

(** ** Lists threaded through a pool

    The policies keep their queues as singly linked lists of nodes of a
    static pool; a pointer is the index of a slot, or [None] for [NULL].
    [seg nx pool p l q] says that following the link [nx] from [p] visits
    the slots [l] one after the other and then arrives at [q]. *)

Module Links.

Section Links.
Context {N : Type} (nx : N -> option nat).

Fixpoint seg (pool : list N) (p : option nat) (l : list nat) (q : option nat) : Prop :=
  match l with
  | [] => p = q
  | i :: l' => p = Some i /\ exists n, pool !! i = Some n /\ seg pool (nx n) l' q
  end.

(** A [NULL]-terminated list. *)
Definition linked (pool : list N) (p : option nat) (l : list nat) : Prop :=
  seg pool p l None.

End Links.

(** Ascending order: every element is at most its successor. *)
Fixpoint ascending (l : list Z) : Prop :=
  match l with
  | a :: ((b :: _) as l') => a <= b /\ ascending l'
  | _ => True
  end.

(** The values of a field along a list of slots. *)
Definition along {N A} (f : N -> A) (pool : list N) (l : list nat) : list A :=
  omap (fun i => f <$> pool !! i) l.

End Links.

(** ** cfs.h, cfs.c: the completely fair scheduler *)

Module CFS.

Definition CFS_TARGET_LATENCY : Z := 20.
Definition CFS_MIN_GRANULARITY : Z := 4.
Definition CFS_NICE_DEFAULT : Z := 0.
Definition CFS_NICE_LEVELS : Z := 40.
Definition CFS_WEIGHT_NICE0 : Z := 1024.
Definition CFS_SLEEPER_BONUS : bool := true.
Definition CFS_MAX_TASKS : nat := 256.

(** [cfs_task_t].  The red-black fields [left], [right], [parent] and
    [color] are never read or written by cfs.c and are left out. *)
Record cfs_task := mk_task {
  pid : Z;
  nice : Z;
  weight : Z;
  vruntime : Z;
  exec_start : Z;
  sum_exec : Z;
  prev_sum_exec : Z;
  sleep_start : Z;
  on_rq : bool;
  next : option nat;
  prev : option nat
}.

(** What [memset (task, 0, sizeof (cfs_task_t))] leaves. *)
Definition zero_task : cfs_task :=
  mk_task 0 0 0 0 0 0 0 0 false None None.

Definition set_pid v t := mk_task v (nice t) (weight t) (vruntime t) (exec_start t) (sum_exec t) (prev_sum_exec t) (sleep_start t) (on_rq t) (next t) (prev t).
Definition set_nice v t := mk_task (pid t) v (weight t) (vruntime t) (exec_start t) (sum_exec t) (prev_sum_exec t) (sleep_start t) (on_rq t) (next t) (prev t).
Definition set_weight v t := mk_task (pid t) (nice t) v (vruntime t) (exec_start t) (sum_exec t) (prev_sum_exec t) (sleep_start t) (on_rq t) (next t) (prev t).
Definition set_vruntime v t := mk_task (pid t) (nice t) (weight t) v (exec_start t) (sum_exec t) (prev_sum_exec t) (sleep_start t) (on_rq t) (next t) (prev t).
Definition set_exec_start v t := mk_task (pid t) (nice t) (weight t) (vruntime t) v (sum_exec t) (prev_sum_exec t) (sleep_start t) (on_rq t) (next t) (prev t).
Definition set_sum_exec v t := mk_task (pid t) (nice t) (weight t) (vruntime t) (exec_start t) v (prev_sum_exec t) (sleep_start t) (on_rq t) (next t) (prev t).
Definition set_prev_sum_exec v t := mk_task (pid t) (nice t) (weight t) (vruntime t) (exec_start t) (sum_exec t) v (sleep_start t) (on_rq t) (next t) (prev t).
Definition set_sleep_start v t := mk_task (pid t) (nice t) (weight t) (vruntime t) (exec_start t) (sum_exec t) (prev_sum_exec t) v (on_rq t) (next t) (prev t).
Definition set_on_rq v t := mk_task (pid t) (nice t) (weight t) (vruntime t) (exec_start t) (sum_exec t) (prev_sum_exec t) (sleep_start t) v (next t) (prev t).
Definition set_next v t := mk_task (pid t) (nice t) (weight t) (vruntime t) (exec_start t) (sum_exec t) (prev_sum_exec t) (sleep_start t) (on_rq t) v (prev t).
Definition set_prev v t := mk_task (pid t) (nice t) (weight t) (vruntime t) (exec_start t) (sum_exec t) (prev_sum_exec t) (sleep_start t) (on_rq t) (next t) v.

(** [cfs_rq_t]; the field [next] of the C struct is [rq_next] here. *)
Record cfs_rq := mk_rq {
  nr_running : Z;
  min_vruntime : Z;
  clock : Z;
  clock_task : Z;
  load_weight : Z;
  tasks_timeline : option nat;
  curr : option nat;
  rq_next : option nat;
  leftmost : option nat
}.

Definition zero_rq : cfs_rq := mk_rq 0 0 0 0 0 None None None None.

Definition set_nr_running v q := mk_rq v (min_vruntime q) (clock q) (clock_task q) (load_weight q) (tasks_timeline q) (curr q) (rq_next q) (leftmost q).
Definition set_min_vruntime v q := mk_rq (nr_running q) v (clock q) (clock_task q) (load_weight q) (tasks_timeline q) (curr q) (rq_next q) (leftmost q).
Definition set_clock v q := mk_rq (nr_running q) (min_vruntime q) v (clock_task q) (load_weight q) (tasks_timeline q) (curr q) (rq_next q) (leftmost q).
Definition set_clock_task v q := mk_rq (nr_running q) (min_vruntime q) (clock q) v (load_weight q) (tasks_timeline q) (curr q) (rq_next q) (leftmost q).
Definition set_load_weight v q := mk_rq (nr_running q) (min_vruntime q) (clock q) (clock_task q) v (tasks_timeline q) (curr q) (rq_next q) (leftmost q).
Definition set_tasks_timeline v q := mk_rq (nr_running q) (min_vruntime q) (clock q) (clock_task q) (load_weight q) v (curr q) (rq_next q) (leftmost q).
Definition set_curr v q := mk_rq (nr_running q) (min_vruntime q) (clock q) (clock_task q) (load_weight q) (tasks_timeline q) v (rq_next q) (leftmost q).
Definition set_leftmost v q := mk_rq (nr_running q) (min_vruntime q) (clock q) (clock_task q) (load_weight q) (tasks_timeline q) (curr q) (rq_next q) v.

(** [cfs_stats_t] without the [double] field [fairness_index], which cfs.c
    only ever clears. *)
Record cfs_stats := mk_stats {
  switches : Z;
  total_runtime : Z;
  wait_time : Z;
  sleep_time : Z;
  nr_migrations : Z
}.

Definition zero_stats : cfs_stats := mk_stats 0 0 0 0 0.

Definition set_switches v x := mk_stats v (total_runtime x) (wait_time x) (sleep_time x) (nr_migrations x).
Definition set_total_runtime v x := mk_stats (switches x) v (wait_time x) (sleep_time x) (nr_migrations x).
Definition set_sleep_time v x := mk_stats (switches x) (total_runtime x) (wait_time x) v (nr_migrations x).

(** The statics of cfs.c, and the log of calls of the external
    [context_switch (old, new)], most recent first. *)
Record state := mk_state {
  rq : cfs_rq;
  task_pool : list cfs_task;
  free_tasks : option nat;
  stats : cfs_stats;
  system_clock : Z;
  ctx_log : list (Z * Z)
}.

Definition set_rq v s := mk_state v (task_pool s) (free_tasks s) (stats s) (system_clock s) (ctx_log s).
Definition set_task_pool v s := mk_state (rq s) v (free_tasks s) (stats s) (system_clock s) (ctx_log s).
Definition set_free_tasks v s := mk_state (rq s) (task_pool s) v (stats s) (system_clock s) (ctx_log s).
Definition set_stats v s := mk_state (rq s) (task_pool s) (free_tasks s) v (system_clock s) (ctx_log s).
Definition set_system_clock v s := mk_state (rq s) (task_pool s) (free_tasks s) (stats s) v (ctx_log s).
Definition set_ctx_log v s := mk_state (rq s) (task_pool s) (free_tasks s) (stats s) (system_clock s) v.

(** The statics as the C runtime zero-initialises them. *)
Definition boot : state :=
  mk_state zero_rq (replicate CFS_MAX_TASKS zero_task) None zero_stats 0 [].

(** [*p] as an rvalue. *)
Definition rd (i : nat) : M state cfs_task :=
  fun s => match task_pool s !! i with
           | Some t => Some (t, s)
           | None => None
           end.

(** [p->field = v], as the field update [f]. *)
Definition upd (i : nat) (f : cfs_task -> cfs_task) : M state unit :=
  fun s => match task_pool s !! i with
           | Some t => Some (tt, set_task_pool (<[i := f t]> (task_pool s)) s)
           | None => None
           end.

Definition upd_rq (f : cfs_rq -> cfs_rq) : M state unit :=
  modify (fun s => set_rq (f (rq s)) s).

Definition upd_stats (f : cfs_stats -> cfs_stats) : M state unit :=
  modify (fun s => set_stats (f (stats s)) s).

(** The external [context_switch]. *)
Definition context_switch (old new : Z) : M state unit :=
  modify (fun s => set_ctx_log ((old, new) :: ctx_log s) s).

Definition cfs_weight_table : list Z :=
  [ 88761; 71755; 56483; 46273; 36291;
    29154; 23254; 18705; 14949; 11916;
    9548;  7620;  6100;  4904;  3906;
    3121;  2501;  1991;  1586;  1277;
    1024;  820;   655;   526;   423;
    335;   272;   215;   172;   137;
    110;   87;    70;    56;    45;
    36;    29;    23;    18;    15 ].

Definition alloc_task : M state (option nat) :=
  f <- gets free_tasks ;;
  match f with
  | None => ret None
  | Some i =>
      t <- rd i ;;
      modify (set_free_tasks (next t)) ;;
      upd i (fun _ => zero_task) ;;
      ret (Some i)
  end.

Definition free_task (task : option nat) : M state unit :=
  match task with
  | None => ret tt
  | Some i =>
      f <- gets free_tasks ;;
      upd i (set_next f) ;;
      modify (set_free_tasks (Some i))
  end.

Definition find_task (fuel : nat) (p : Z) : M state (option nat) :=
  task <- gets (fun s => tasks_timeline (rq s)) ;;
  loop fuel (fun task : option nat =>
    match task with
    | None => ret (inr None)
    | Some i =>
        t <- rd i ;;
        if pid t =? p then ret (inr (Some i)) else ret (inl (next t))
    end) task.

Definition insert_task (fuel : nat) (task : nat) : M state unit :=
  upd task (set_on_rq true) ;;
  tl <- gets (fun s => tasks_timeline (rq s)) ;;
  match tl with
  | None =>
      upd task (set_prev None) ;;
      upd task (set_next None) ;;
      upd_rq (set_tasks_timeline (Some task)) ;;
      upd_rq (set_leftmost (Some task))
  | Some _ =>
      pv <- loop fuel (fun '(cur, pv) =>
              match cur with
              | None => ret (inr pv)
              | Some c =>
                  ct <- rd c ;;
                  tt_ <- rd task ;;
                  if vruntime ct <=? vruntime tt_
                  then ret (inl (next ct, Some c))
                  else ret (inr pv)
              end) (tl, @None nat) ;;
      match pv with
      | None =>
          upd task (set_prev None) ;;
          hd <- gets (fun s => tasks_timeline (rq s)) ;;
          upd task (set_next hd) ;;
          hd' <- gets (fun s => tasks_timeline (rq s)) ;;
          h <- lift hd' ;;
          upd h (set_prev (Some task)) ;;
          upd_rq (set_tasks_timeline (Some task)) ;;
          upd_rq (set_leftmost (Some task))
      | Some p =>
          upd task (set_prev (Some p)) ;;
          pt <- rd p ;;
          upd task (set_next (next pt)) ;;
          pt' <- rd p ;;
          match next pt' with
          | Some n => upd n (set_prev (Some task))
          | None => ret tt
          end ;;
          upd p (set_next (Some task))
      end
  end.

Definition remove_task (task : nat) : M state unit :=
  t <- rd task ;;
  if negb (on_rq t) then ret tt else
  upd task (set_on_rq false) ;;
  tl <- gets (fun s => tasks_timeline (rq s)) ;;
  when (ptr_eqb tl (Some task))
       (t1 <- rd task ;; upd_rq (set_tasks_timeline (next t1))) ;;
  lm <- gets (fun s => leftmost (rq s)) ;;
  when (ptr_eqb lm (Some task))
       (t1 <- rd task ;; upd_rq (set_leftmost (next t1))) ;;
  t2 <- rd task ;;
  match prev t2 with
  | Some p => upd p (set_next (next t2))
  | None => ret tt
  end ;;
  t3 <- rd task ;;
  match next t3 with
  | Some n => upd n (set_prev (prev t3))
  | None => ret tt
  end ;;
  upd task (set_prev None) ;;
  upd task (set_next None).

(** The loop of [cfs_init] that threads the free list through the pool,
    from the last slot down to slot 0. *)
Fixpoint build_free_list (n : nat) (pool : list cfs_task) (free : option nat)
  : list cfs_task * option nat :=
  match n with
  | O => (pool, free)
  | Datatypes.S i => build_free_list i (alter (set_next free) i pool) (Some i)
  end.

Definition cfs_init : M state unit :=
  modify (fun s =>
    let '(pool, free) := build_free_list CFS_MAX_TASKS (task_pool s) None in
    set_free_tasks free (set_task_pool pool s)) ;;
  modify (set_rq zero_rq) ;;
  upd_rq (set_min_vruntime 0) ;;
  modify (set_stats zero_stats) ;;
  modify (set_system_clock 0).

Definition cfs_shutdown (fuel : nat) : M state unit :=
  task <- gets (fun s => tasks_timeline (rq s)) ;;
  loop fuel (fun task : option nat =>
    match task with
    | None => ret (inr tt)
    | Some i =>
        t <- rd i ;;
        free_task (Some i) ;;
        ret (inl (next t))
    end) task ;;
  modify (set_rq zero_rq).

Definition cfs_nice_to_weight (n : Z) : Z :=
  let index := n + 20 in
  let index := if index <? 0 then 0 else index in
  let index := if index >=? CFS_NICE_LEVELS then CFS_NICE_LEVELS - 1 else index in
  nth (Z.to_nat index) cfs_weight_table 0.

Definition cfs_calc_delta (delta_exec w : Z) : Z :=
  if w =? 0 then delta_exec
  else wrap64 (delta_exec * CFS_WEIGHT_NICE0) / w.

Definition cfs_update_vruntime (task : option nat) (delta_exec : Z) : M state unit :=
  match task with
  | None => ret tt
  | Some i =>
      t <- rd i ;;
      let delta_vruntime := cfs_calc_delta delta_exec (weight t) in
      upd i (fun t => set_vruntime (wrap64 (vruntime t + delta_vruntime)) t) ;;
      upd i (fun t => set_sum_exec (wrap64 (sum_exec t + delta_exec)) t) ;;
      upd_stats (fun x => set_total_runtime (wrap64 (total_runtime x + delta_exec)) x)
  end.

Definition cfs_update_min_vruntime : M state unit :=
  v0 <- gets (fun s => min_vruntime (rq s)) ;;
  c <- gets (fun s => curr (rq s)) ;;
  v1 <- match c with
        | Some i => t <- rd i ;; ret (vruntime t)
        | None => ret v0
        end ;;
  lm <- gets (fun s => leftmost (rq s)) ;;
  v2 <- match lm with
        | Some l =>
            lt <- rd l ;;
            match c with
            | None => ret (vruntime lt)
            | Some _ => if vruntime lt <? v1 then ret (vruntime lt) else ret v1
            end
        | None => ret v1
        end ;;
  upd_rq (fun q => set_min_vruntime (max64 (min_vruntime q) v2) q).

Definition cfs_sched_latency : M state Z :=
  n <- gets (fun s => nr_running (rq s)) ;;
  if n >? 8 then ret (wrap32 (CFS_MIN_GRANULARITY * n))
  else ret CFS_TARGET_LATENCY.

Definition cfs_place_task (task : nat) (initial : bool) : M state unit :=
  v <- gets (fun s => min_vruntime (rq s)) ;;
  v' <- (if initial then
           latency <- cfs_sched_latency ;;
           t <- rd task ;;
           ret (wrap64 (v + cfs_calc_delta (latency / 2) (weight t)))
         else ret v) ;;
  upd task (fun t => set_vruntime (max64 (vruntime t) v') t).

Definition cfs_timeslice (task : option nat) : M state Z :=
  n <- gets (fun s => nr_running (rq s)) ;;
  match task with
  | None => ret CFS_TARGET_LATENCY
  | Some i =>
      if n =? 0 then ret CFS_TARGET_LATENCY else
      latency <- cfs_sched_latency ;;
      t <- rd i ;;
      lw <- gets (fun s => load_weight (rq s)) ;;
      if lw =? 0 then fault else
      let slice := wrap32 (latency * weight t) / lw in
      if slice <? CFS_MIN_GRANULARITY then ret CFS_MIN_GRANULARITY else ret slice
  end.

Definition update_current : M state unit :=
  c <- gets (fun s => curr (rq s)) ;;
  match c with
  | None => ret tt
  | Some i =>
      now <- gets (fun s => clock_task (rq s)) ;;
      t <- rd i ;;
      let delta_exec := wrap64 (now - exec_start t) in
      if delta_exec =? 0 then ret tt else
      cfs_update_vruntime (Some i) delta_exec ;;
      upd i (set_exec_start now) ;;
      cfs_update_min_vruntime
  end.

Definition cfs_pick_next_task : M state (option nat) :=
  gets (fun s => leftmost (rq s)).

Definition cfs_check_preempt : M state bool :=
  c <- gets (fun s => curr (rq s)) ;;
  n <- gets (fun s => leftmost (rq s)) ;;
  match c, n with
  | Some ci, Some ni =>
      ct <- rd ci ;;
      nt <- rd ni ;;
      let gran := cfs_calc_delta CFS_MIN_GRANULARITY (weight ct) in
      ret (wrap64 (vruntime nt + gran) <? vruntime ct)
  | _, _ => ret (is_null c && negb (is_null n))
  end.

Definition cfs_put_prev_task (fuel : nat) : M state unit :=
  p <- gets (fun s => curr (rq s)) ;;
  match p with
  | None => ret tt
  | Some i =>
      update_current ;;
      t <- rd i ;;
      when (on_rq t) (remove_task i ;; insert_task fuel i) ;;
      upd_rq (set_curr None)
  end.

Definition cfs_set_curr_task (task : nat) : M state unit :=
  ct <- gets (fun s => clock_task (rq s)) ;;
  upd task (set_exec_start ct) ;;
  upd_rq (set_curr (Some task)).

Definition cfs_schedule (fuel : nat) : M state unit :=
  sc <- gets system_clock ;;
  upd_rq (set_clock sc) ;;
  sc' <- gets system_clock ;;
  upd_rq (set_clock_task sc') ;;
  c <- gets (fun s => curr (rq s)) ;;
  when (negb (is_null c)) update_current ;;
  cfs_put_prev_task fuel ;;
  nx <- cfs_pick_next_task ;;
  match nx with
  | None => ret tt
  | Some n =>
      remove_task n ;;
      cfs_set_curr_task n ;;
      c' <- gets (fun s => curr (rq s)) ;;
      old_pid <- match c' with
                 | Some ci => t <- rd ci ;; ret (pid t)
                 | None => ret (-1)
                 end ;;
      nt <- rd n ;;
      if negb (old_pid =? pid nt) then
        upd_stats (fun x => set_switches (wrap64 (switches x + 1)) x) ;;
        nt' <- rd n ;;
        context_switch old_pid (pid nt')
      else ret tt
  end.

Definition cfs_yield (fuel : nat) : M state unit :=
  c <- gets (fun s => curr (rq s)) ;;
  match c with
  | None => ret tt
  | Some i =>
      update_current ;;
      lm <- gets (fun s => leftmost (rq s)) ;;
      match lm with
      | Some l =>
          t <- rd i ;;
          lt <- rd l ;;
          upd i (set_vruntime (max64 (vruntime t) (vruntime lt)))
      | None => ret tt
      end ;;
      cfs_schedule fuel
  end.

Definition cfs_preempt (fuel : nat) : M state unit := cfs_schedule fuel.

Definition cfs_enqueue (fuel : nat) (p : Z) : M state unit :=
  found <- find_task fuel p ;;
  task <- match found with
          | None =>
              a <- alloc_task ;;
              match a with
              | None => ret None
              | Some i =>
                  upd i (set_pid p) ;;
                  upd i (set_nice CFS_NICE_DEFAULT) ;;
                  upd i (set_weight (cfs_nice_to_weight CFS_NICE_DEFAULT)) ;;
                  mv <- gets (fun s => min_vruntime (rq s)) ;;
                  upd i (set_vruntime mv) ;;
                  upd i (set_sum_exec 0) ;;
                  cfs_place_task i true ;;
                  ret (Some i)
              end
          | Some i =>
              t <- rd i ;;
              if on_rq t then ret None
              else cfs_place_task i false ;; ret (Some i)
          end ;;
  match task with
  | None => ret tt
  | Some i =>
      insert_task fuel i ;;
      upd_rq (fun q => set_nr_running (wrap32 (nr_running q + 1)) q) ;;
      t <- rd i ;;
      upd_rq (fun q => set_load_weight (wrap32 (load_weight q + weight t)) q) ;;
      _ <- cfs_check_preempt ;;
      ret tt
  end.

Definition cfs_dequeue (fuel : nat) (p : Z) : M state unit :=
  found <- find_task fuel p ;;
  match found with
  | None => ret tt
  | Some i =>
      c <- gets (fun s => curr (rq s)) ;;
      when (ptr_eqb (Some i) c) (update_current ;; upd_rq (set_curr None)) ;;
      t <- rd i ;;
      when (on_rq t)
           (remove_task i ;;
            upd_rq (fun q => set_nr_running (wrap32 (nr_running q - 1)) q) ;;
            t' <- rd i ;;
            upd_rq (fun q => set_load_weight (wrap32 (load_weight q - weight t')) q)) ;;
      free_task (Some i) ;;
      cfs_update_min_vruntime
  end.

Definition cfs_sleep (fuel : nat) (p : Z) : M state unit :=
  found <- find_task fuel p ;;
  match found with
  | None => ret tt
  | Some i =>
      sc <- gets system_clock ;;
      upd i (set_sleep_start sc) ;;
      c <- gets (fun s => curr (rq s)) ;;
      when (ptr_eqb (Some i) c) (update_current ;; upd_rq (set_curr None)) ;;
      t <- rd i ;;
      when (on_rq t)
           (remove_task i ;;
            upd_rq (fun q => set_nr_running (wrap32 (nr_running q - 1)) q) ;;
            t' <- rd i ;;
            upd_rq (fun q => set_load_weight (wrap32 (load_weight q - weight t')) q))
  end.

Definition cfs_sleeper_credit (task : nat) (sleep_time : Z) : M state Z :=
  latency <- cfs_sched_latency ;;
  t <- rd task ;;
  let max_credit := cfs_calc_delta (latency / 2) (weight t) in
  let credit := cfs_calc_delta sleep_time (weight t) / 2 in
  if credit >? max_credit then ret max_credit else ret credit.

Definition cfs_wakeup (fuel : nat) (p : Z) : M state unit :=
  found <- find_task fuel p ;;
  match found with
  | None => ret tt
  | Some i =>
      t <- rd i ;;
      if on_rq t then ret tt else
      sc <- gets system_clock ;;
      let slept := wrap64 (sc - sleep_start t) in
      upd_stats (fun x => set_sleep_time (wrap64 (sleep_time x + slept)) x) ;;
      when (CFS_SLEEPER_BONUS && (slept >? 0))
           (credit <- cfs_sleeper_credit i slept ;;
            t1 <- rd i ;;
            when (vruntime t1 >? credit)
                 (upd i (fun t => set_vruntime (wrap64 (vruntime t - credit)) t))) ;;
      cfs_place_task i false ;;
      insert_task fuel i ;;
      upd_rq (fun q => set_nr_running (wrap32 (nr_running q + 1)) q) ;;
      t2 <- rd i ;;
      upd_rq (fun q => set_load_weight (wrap32 (load_weight q + weight t2)) q) ;;
      _ <- cfs_check_preempt ;;
      ret tt
  end.

Definition cfs_tick (fuel : nat) : M state unit :=
  modify (fun s => set_system_clock (wrap64 (system_clock s + 1)) s) ;;
  sc <- gets system_clock ;;
  upd_rq (set_clock sc) ;;
  upd_rq (set_clock_task sc) ;;
  c <- gets (fun s => curr (rq s)) ;;
  match c with
  | None => ret tt
  | Some i =>
      update_current ;;
      ideal_runtime <- cfs_timeslice (Some i) ;;
      t <- rd i ;;
      let actual_runtime := wrap64 (sum_exec t - prev_sum_exec t) in
      if actual_runtime >=? ideal_runtime then
        n <- gets (fun s => nr_running (rq s)) ;;
        if n >? 1 then
          upd i (fun t => set_prev_sum_exec (sum_exec t) t) ;;
          cfs_schedule fuel
        else ret tt
      else ret tt
  end.

(** The operations of the policy after [cfs_init], as one type. *)
Inductive op :=
| Tick
| Schedule
| Yield
| Preempt
| Enqueue (p : Z)
| Dequeue (p : Z)
| Sleep (p : Z)
| Wakeup (p : Z).

Definition run_op (fuel : nat) (o : op) : M state unit :=
  match o with
  | Tick => cfs_tick fuel
  | Schedule => cfs_schedule fuel
  | Yield => cfs_yield fuel
  | Preempt => cfs_preempt fuel
  | Enqueue p => cfs_enqueue fuel p
  | Dequeue p => cfs_dequeue fuel p
  | Sleep p => cfs_sleep fuel p
  | Wakeup p => cfs_wakeup fuel p
  end.

Fixpoint run_ops (fuel : nat) (os : list op) : M state unit :=
  match os with
  | [] => ret tt
  | o :: os' => run_op fuel o ;; run_ops fuel os'
  end.

(** A run from the zero-initialised statics: [cfs_init], then [os]. *)
Definition after (os : list op) : option state :=
  exec (cfs_init ;; run_ops 300 os) boot.

(** Tasks 1 and 2 have been enqueued: they are on the timeline in slots 0
    and 1, both at virtual runtime 10. *)
Definition two_tasks : state :=
  Eval vm_compute in default boot (after [Enqueue 1; Enqueue 2]).

(** The latency the specification states:
    max (TARGET_LATENCY, MIN_GRANULARITY * nr_running). *)
Definition spec_latency (n : Z) : Z :=
  Z.max CFS_TARGET_LATENCY (CFS_MIN_GRANULARITY * n).

(** [min_vruntime] has not moved backwards from [s] to [s']. *)
Definition mv_le (s s' : state) : Prop :=
  min_vruntime (rq s) <= min_vruntime (rq s').

(** No [context_switch] was called and no switch was counted from [s] to
    [s']. *)
Definition quiet (s s' : state) : Prop :=
  ctx_log s' = ctx_log s /\ switches (stats s') = switches (stats s).

End CFS.

(** ** lottery.h, lottery.c: lottery scheduling *)

Module Lottery.

Definition DEFAULT_QUANTUM : Z := 10.
Definition LOTTERY_DEFAULT_TICKETS : Z := 100.
Definition LOTTERY_MIN_TICKETS : Z := 1.
Definition LOTTERY_MAX_TICKETS : Z := 10000.
Definition LOTTERY_COMPENSATION_ENABLED : bool := true.
Definition LOTTERY_MAX_ENTRIES : nat := 256.

(** [lottery_entry_t]. *)
Record lottery_entry := mk_entry {
  pid : Z;
  base_tickets : Z;
  current_tickets : Z;
  compensation : Z;
  wins : Z;
  total_tickets_held : Z;
  next : option nat
}.

Definition zero_entry : lottery_entry := mk_entry 0 0 0 0 0 0 None.

Definition set_pid v e := mk_entry v (base_tickets e) (current_tickets e) (compensation e) (wins e) (total_tickets_held e) (next e).
Definition set_base_tickets v e := mk_entry (pid e) v (current_tickets e) (compensation e) (wins e) (total_tickets_held e) (next e).
Definition set_current_tickets v e := mk_entry (pid e) (base_tickets e) v (compensation e) (wins e) (total_tickets_held e) (next e).
Definition set_compensation v e := mk_entry (pid e) (base_tickets e) (current_tickets e) v (wins e) (total_tickets_held e) (next e).
Definition set_wins v e := mk_entry (pid e) (base_tickets e) (current_tickets e) (compensation e) v (total_tickets_held e) (next e).
Definition set_total_tickets_held v e := mk_entry (pid e) (base_tickets e) (current_tickets e) (compensation e) (wins e) v (next e).
Definition set_next v e := mk_entry (pid e) (base_tickets e) (current_tickets e) (compensation e) (wins e) (total_tickets_held e) v.

(** [lottery_stats_t] without the [double] field [fairness_index]. *)
Record lottery_stats := mk_stats {
  total_lotteries : Z;
  st_total_tickets : Z;
  st_participant_count : Z;
  tickets_transferred : Z;
  compensation_given : Z
}.

Definition zero_stats : lottery_stats := mk_stats 0 0 0 0 0.

Definition set_total_lotteries v x := mk_stats v (st_total_tickets x) (st_participant_count x) (tickets_transferred x) (compensation_given x).
Definition set_st_total_tickets v x := mk_stats (total_lotteries x) v (st_participant_count x) (tickets_transferred x) (compensation_given x).
Definition set_st_participant_count v x := mk_stats (total_lotteries x) (st_total_tickets x) v (tickets_transferred x) (compensation_given x).
Definition set_tickets_transferred v x := mk_stats (total_lotteries x) (st_total_tickets x) (st_participant_count x) v (compensation_given x).
Definition set_compensation_given v x := mk_stats (total_lotteries x) (st_total_tickets x) (st_participant_count x) (tickets_transferred x) v.

(** The statics of lottery.c and the log of [context_switch] calls. *)
Record state := mk_state {
  lottery_pool : option nat;
  total_tickets : Z;
  participant_count : Z;
  compensation_enabled : bool;
  current_pid : Z;
  time_remaining : Z;
  stats : lottery_stats;
  random_state : Z;
  entry_pool : list lottery_entry;
  free_entries : option nat;
  ctx_log : list (Z * Z)
}.

Definition set_lottery_pool v s := mk_state v (total_tickets s) (participant_count s) (compensation_enabled s) (current_pid s) (time_remaining s) (stats s) (random_state s) (entry_pool s) (free_entries s) (ctx_log s).
Definition set_total_tickets v s := mk_state (lottery_pool s) v (participant_count s) (compensation_enabled s) (current_pid s) (time_remaining s) (stats s) (random_state s) (entry_pool s) (free_entries s) (ctx_log s).
Definition set_participant_count v s := mk_state (lottery_pool s) (total_tickets s) v (compensation_enabled s) (current_pid s) (time_remaining s) (stats s) (random_state s) (entry_pool s) (free_entries s) (ctx_log s).
Definition set_compensation_enabled v s := mk_state (lottery_pool s) (total_tickets s) (participant_count s) v (current_pid s) (time_remaining s) (stats s) (random_state s) (entry_pool s) (free_entries s) (ctx_log s).
Definition set_current_pid v s := mk_state (lottery_pool s) (total_tickets s) (participant_count s) (compensation_enabled s) v (time_remaining s) (stats s) (random_state s) (entry_pool s) (free_entries s) (ctx_log s).
Definition set_time_remaining v s := mk_state (lottery_pool s) (total_tickets s) (participant_count s) (compensation_enabled s) (current_pid s) v (stats s) (random_state s) (entry_pool s) (free_entries s) (ctx_log s).
Definition set_stats v s := mk_state (lottery_pool s) (total_tickets s) (participant_count s) (compensation_enabled s) (current_pid s) (time_remaining s) v (random_state s) (entry_pool s) (free_entries s) (ctx_log s).
Definition set_random_state v s := mk_state (lottery_pool s) (total_tickets s) (participant_count s) (compensation_enabled s) (current_pid s) (time_remaining s) (stats s) v (entry_pool s) (free_entries s) (ctx_log s).
Definition set_entry_pool v s := mk_state (lottery_pool s) (total_tickets s) (participant_count s) (compensation_enabled s) (current_pid s) (time_remaining s) (stats s) (random_state s) v (free_entries s) (ctx_log s).
Definition set_free_entries v s := mk_state (lottery_pool s) (total_tickets s) (participant_count s) (compensation_enabled s) (current_pid s) (time_remaining s) (stats s) (random_state s) (entry_pool s) v (ctx_log s).
Definition set_ctx_log v s := mk_state (lottery_pool s) (total_tickets s) (participant_count s) (compensation_enabled s) (current_pid s) (time_remaining s) (stats s) (random_state s) (entry_pool s) (free_entries s) v.

(** The statics as their initialisers leave them. *)
Definition boot : state :=
  mk_state None 0 0 LOTTERY_COMPENSATION_ENABLED (-1) 0 zero_stats 1
           (replicate LOTTERY_MAX_ENTRIES zero_entry) None [].

Definition rd (i : nat) : M state lottery_entry :=
  fun s => match entry_pool s !! i with
           | Some e => Some (e, s)
           | None => None
           end.

Definition upd (i : nat) (f : lottery_entry -> lottery_entry) : M state unit :=
  fun s => match entry_pool s !! i with
           | Some e => Some (tt, set_entry_pool (<[i := f e]> (entry_pool s)) s)
           | None => None
           end.

Definition upd_stats (f : lottery_stats -> lottery_stats) : M state unit :=
  modify (fun s => set_stats (f (stats s)) s).

Definition context_switch (old new : Z) : M state unit :=
  modify (fun s => set_ctx_log ((old, new) :: ctx_log s) s).

(** [stats.total_tickets = total_tickets] (a [uint64_t] from a [uint32_t]). *)
Definition sync_total : M state unit :=
  modify (fun s => set_stats (set_st_total_tickets (total_tickets s) (stats s)) s).

Definition sync_count : M state unit :=
  modify (fun s => set_stats (set_st_participant_count (participant_count s) (stats s)) s).

(** C [float] values are modelled by exact rationals: the rounding of IEEE
    single precision is not modelled.  [(uint32_t) q] truncates toward zero
    and is undefined (here: a trap) when the result does not fit. *)
Definition float := Q.

Definition to_uint32 (q : float) : option Z :=
  let z := if Qle_bool 0 q then Qfloor q else Qceiling q in
  if (0 <=? z) && (z <? 2 ^ 32) then Some z else None.

Definition of_uint32 (z : Z) : float := inject_Z z.

(** The generator of lottery.c: a linear congruential step, then bits
    16..30 of the new state. *)
Definition lcg_step (st : Z) : Z := wrap32 (st * 1103515245 + 12345).

Definition lcg_output (st : Z) : Z := Z.land (Z.shiftr st 16) 32767.

Definition random_next : M state Z :=
  modify (fun s => set_random_state (lcg_step (random_state s)) s) ;;
  st <- gets random_state ;;
  ret (lcg_output st).

Definition random_range (max : Z) : M state Z :=
  if max =? 0 then ret 0
  else r <- random_next ;; ret (r mod max).

Definition alloc_entry : M state (option nat) :=
  f <- gets free_entries ;;
  match f with
  | None => ret None
  | Some i =>
      e <- rd i ;;
      modify (set_free_entries (next e)) ;;
      upd i (fun _ => zero_entry) ;;
      ret (Some i)
  end.

Definition free_entry (entry : option nat) : M state unit :=
  match entry with
  | None => ret tt
  | Some i =>
      f <- gets free_entries ;;
      upd i (set_next f) ;;
      modify (set_free_entries (Some i))
  end.

(** One round of the loop of [find_entry]. *)
Definition find_step (p : Z) (entry : option nat)
  : M state (option nat + option nat) :=
  match entry with
  | None => ret (inr None)
  | Some i =>
      e <- rd i ;;
      if pid e =? p then ret (inr (Some i)) else ret (inl (next e))
  end.

Definition find_entry (fuel : nat) (p : Z) : M state (option nat) :=
  entry <- gets lottery_pool ;;
  loop fuel (find_step p) entry.

Definition recalculate_totals (fuel : nat) : M state unit :=
  modify (set_total_tickets 0) ;;
  modify (set_participant_count 0) ;;
  entry <- gets lottery_pool ;;
  loop fuel (fun entry : option nat =>
    match entry with
    | None => ret (inr tt)
    | Some i =>
        e <- rd i ;;
        modify (fun s => set_total_tickets (wrap32 (total_tickets s + current_tickets e)) s) ;;
        modify (fun s => set_participant_count (wrap32 (participant_count s + 1)) s) ;;
        ret (inl (next e))
    end) entry ;;
  sync_total ;;
  sync_count.

Fixpoint build_free_list (n : nat) (pool : list lottery_entry) (free : option nat)
  : list lottery_entry * option nat :=
  match n with
  | O => (pool, free)
  | Datatypes.S i => build_free_list i (alter (set_next free) i pool) (Some i)
  end.

Definition lottery_init : M state unit :=
  modify (fun s =>
    let '(pool, free) := build_free_list LOTTERY_MAX_ENTRIES (entry_pool s) None in
    set_free_entries free (set_entry_pool pool s)) ;;
  modify (set_lottery_pool None) ;;
  modify (set_total_tickets 0) ;;
  modify (set_participant_count 0) ;;
  modify (set_current_pid (-1)) ;;
  modify (set_time_remaining 0) ;;
  modify (set_compensation_enabled LOTTERY_COMPENSATION_ENABLED) ;;
  modify (set_stats zero_stats) ;;
  modify (set_random_state 1).

Definition lottery_shutdown (fuel : nat) : M state unit :=
  entry <- gets lottery_pool ;;
  loop fuel (fun entry : option nat =>
    match entry with
    | None => ret (inr tt)
    | Some i =>
        e <- rd i ;;
        free_entry (Some i) ;;
        ret (inl (next e))
    end) entry ;;
  modify (set_lottery_pool None) ;;
  modify (set_total_tickets 0) ;;
  modify (set_participant_count 0) ;;
  modify (set_current_pid (-1)).

(** [entry->wins++; stats.total_lotteries++; return entry->pid;] *)
Definition win (i : nat) : M state Z :=
  upd i (fun e => set_wins (wrap64 (wins e + 1)) e) ;;
  upd_stats (fun x => set_total_lotteries (wrap64 (total_lotteries x + 1)) x) ;;
  e <- rd i ;;
  ret (pid e).

(** One round of the walk of [lottery_draw]: add the entry's tickets to
    [counter]; the entry wins when [counter] is above the winning ticket. *)
Definition draw_step (winning_ticket : Z) (st : option nat * Z)
  : M state ((option nat * Z) + option Z) :=
  let '(entry, counter) := st in
  match entry with
  | None => ret (inr None)
  | Some i =>
      e <- rd i ;;
      let counter := wrap32 (counter + current_tickets e) in
      if counter >? winning_ticket
      then p <- win i ;; ret (inr (Some p))
      else ret (inl (next e, counter))
  end.

Definition lottery_draw (fuel : nat) : M state Z :=
  hd <- gets lottery_pool ;;
  tot <- gets total_tickets ;;
  if is_null hd || (tot =? 0) then ret (-1) else
  winning_ticket <- random_range tot ;;
  found <- loop fuel (draw_step winning_ticket) (hd, 0) ;;
  match found with
  | Some p => ret p
  | None =>
      hd' <- gets lottery_pool ;;
      match hd' with
      | Some h => win h
      | None => ret (-1)
      end
  end.

Definition lottery_schedule (fuel : nat) : M state unit :=
  cp <- gets current_pid ;;
  tr <- gets time_remaining ;;
  keep <- (if (cp >=? 0) && (tr >? 0)
           then cur <- find_entry fuel cp ;; ret (negb (is_null cur))
           else ret false) ;;
  if keep : bool then ret tt else
  winner <- lottery_draw fuel ;;
  if winner <? 0 then ret tt else
  cp' <- gets current_pid ;;
  if negb (winner =? cp') then
    modify (set_current_pid winner) ;;
    modify (set_time_remaining DEFAULT_QUANTUM) ;;
    context_switch cp' winner
  else
    modify (set_time_remaining DEFAULT_QUANTUM).

Definition lottery_enqueue (fuel : nat) (p : Z) : M state unit :=
  found <- find_entry fuel p ;;
  if negb (is_null found) then ret tt else
  a <- alloc_entry ;;
  match a with
  | None => ret tt
  | Some i =>
      upd i (set_pid p) ;;
      upd i (set_base_tickets LOTTERY_DEFAULT_TICKETS) ;;
      upd i (set_current_tickets LOTTERY_DEFAULT_TICKETS) ;;
      upd i (set_compensation 0) ;;
      upd i (set_wins 0) ;;
      upd i (set_total_tickets_held 0) ;;
      hd <- gets lottery_pool ;;
      upd i (set_next hd) ;;
      modify (set_lottery_pool (Some i)) ;;
      e <- rd i ;;
      modify (fun s => set_total_tickets (wrap32 (total_tickets s + current_tickets e)) s) ;;
      modify (fun s => set_participant_count (wrap32 (participant_count s + 1)) s) ;;
      sync_total ;;
      sync_count
  end.

(** One round of the loop of [lottery_dequeue], with the locals
    ([prev], [entry]). *)
Definition dequeue_step (p : Z) (st : option nat * option nat)
  : M state ((option nat * option nat) + unit) :=
  let '(pv, entry) := st in
  match entry with
  | None => ret (inr tt)
  | Some i =>
      e <- rd i ;;
      if pid e =? p then
        match pv with
        | None => modify (set_lottery_pool (next e))
        | Some pi => upd pi (set_next (next e))
        end ;;
        e1 <- rd i ;;
        modify (fun s => set_total_tickets (wrap32 (total_tickets s - current_tickets e1)) s) ;;
        modify (fun s => set_participant_count (wrap32 (participant_count s - 1)) s) ;;
        sync_total ;;
        sync_count ;;
        free_entry (Some i) ;;
        cp <- gets current_pid ;;
        when (cp =? p)
             (modify (set_current_pid (-1)) ;; modify (set_time_remaining 0)) ;;
        ret (inr tt)
      else ret (inl (Some i, next e))
  end.

Definition lottery_dequeue (fuel : nat) (p : Z) : M state unit :=
  hd <- gets lottery_pool ;;
  loop fuel (dequeue_step p) (@None nat, hd).

Definition lottery_set_tickets (fuel : nat) (p : Z) (tickets : Z) : M state Z :=
  found <- find_entry fuel p ;;
  match found with
  | None => ret 0
  | Some i =>
      let tickets := if tickets <? LOTTERY_MIN_TICKETS then LOTTERY_MIN_TICKETS else tickets in
      let tickets := if tickets >? LOTTERY_MAX_TICKETS then LOTTERY_MAX_TICKETS else tickets in
      e <- rd i ;;
      let old := base_tickets e in
      modify (fun s => set_total_tickets (wrap32 (total_tickets s - current_tickets e)) s) ;;
      upd i (set_base_tickets tickets) ;;
      upd i (fun e => set_current_tickets (wrap32 (tickets + compensation e)) e) ;;
      e' <- rd i ;;
      modify (fun s => set_total_tickets (wrap32 (total_tickets s + current_tickets e')) s) ;;
      sync_total ;;
      ret old
  end.

Definition lottery_add_tickets (fuel : nat) (p : Z) (tickets : Z) : M state unit :=
  found <- find_entry fuel p ;;
  match found with
  | None => ret tt
  | Some i =>
      e <- rd i ;;
      let new_tickets := wrap32 (base_tickets e + tickets) in
      let new_tickets := if new_tickets >? LOTTERY_MAX_TICKETS then LOTTERY_MAX_TICKETS else new_tickets in
      _ <- lottery_set_tickets fuel p new_tickets ;;
      ret tt
  end.

Definition lottery_remove_tickets (fuel : nat) (p : Z) (tickets : Z) : M state unit :=
  found <- find_entry fuel p ;;
  match found with
  | None => ret tt
  | Some i =>
      e <- rd i ;;
      let new_tickets :=
        if tickets >=? base_tickets e then LOTTERY_MIN_TICKETS
        else wrap32 (base_tickets e - tickets) in
      _ <- lottery_set_tickets fuel p new_tickets ;;
      ret tt
  end.

Definition lottery_transfer_tickets (fuel : nat) (from_pid to_pid : Z) (tickets : Z)
  : M state Z :=
  from <- find_entry fuel from_pid ;;
  to <- find_entry fuel to_pid ;;
  match from, to with
  | Some fi, Some ti =>
      fe <- rd fi ;;
      let available := wrap32 (base_tickets fe - LOTTERY_MIN_TICKETS) in
      let to_transfer := if tickets <? available then tickets else available in
      if to_transfer =? 0 then ret 0 else
      te <- rd ti ;;
      let space := wrap32 (LOTTERY_MAX_TICKETS - base_tickets te) in
      let to_transfer := if to_transfer >? space then space else to_transfer in
      fe' <- rd fi ;;
      _ <- lottery_set_tickets fuel from_pid (wrap32 (base_tickets fe' - to_transfer)) ;;
      te' <- rd ti ;;
      _ <- lottery_set_tickets fuel to_pid (wrap32 (base_tickets te' + to_transfer)) ;;
      upd_stats (fun x => set_tickets_transferred (wrap32 (tickets_transferred x + to_transfer)) x) ;;
      ret to_transfer
  | _, _ => ret 0
  end.

Definition lottery_compensate (fuel : nat) (p : Z) (fraction_used : float) : M state unit :=
  en <- gets compensation_enabled ;;
  if negb en then ret tt else
  found <- find_entry fuel p ;;
  match found with
  | None => ret tt
  | Some i =>
      (if Qle_bool fraction_used 0 || Qle_bool 1 fraction_used then
         e <- rd i ;;
         modify (fun s => set_total_tickets (wrap32 (total_tickets s - compensation e)) s) ;;
         upd i (set_compensation 0) ;;
         upd i (fun e => set_current_tickets (base_tickets e) e) ;;
         e' <- rd i ;;
         modify (fun s => set_total_tickets (wrap32 (total_tickets s + current_tickets e')) s)
       else
         e <- rd i ;;
         comp <- lift (to_uint32 (of_uint32 (base_tickets e) * (1 / fraction_used - 1))%Q) ;;
         modify (fun s => set_total_tickets (wrap32 (total_tickets s - compensation e)) s) ;;
         upd i (set_compensation comp) ;;
         upd i (fun e => set_current_tickets (wrap32 (base_tickets e + comp)) e) ;;
         e' <- rd i ;;
         modify (fun s => set_total_tickets (wrap32 (total_tickets s + current_tickets e')) s) ;;
         upd_stats (fun x => set_compensation_given (wrap32 (compensation_given x + comp)) x)) ;;
      sync_total
  end.

Definition lottery_compensation_enable (fuel : nat) (enable : bool) : M state unit :=
  modify (set_compensation_enabled enable) ;;
  if enable then ret tt else
  entry <- gets lottery_pool ;;
  loop fuel (fun entry : option nat =>
    match entry with
    | None => ret (inr tt)
    | Some i =>
        e <- rd i ;;
        modify (fun s => set_total_tickets (wrap32 (total_tickets s - compensation e)) s) ;;
        upd i (set_compensation 0) ;;
        upd i (fun e => set_current_tickets (base_tickets e) e) ;;
        e' <- rd i ;;
        ret (inl (next e'))
    end) entry ;;
  sync_total.

Definition lottery_inflate (fuel : nat) (factor : float) : M state unit :=
  if Qle_bool factor 0 then ret tt else
  entry <- gets lottery_pool ;;
  loop fuel (fun entry : option nat =>
    match entry with
    | None => ret (inr tt)
    | Some i =>
        e <- rd i ;;
        new_base <- lift (to_uint32 (of_uint32 (base_tickets e) * factor)%Q) ;;
        let new_base := if new_base <? LOTTERY_MIN_TICKETS then LOTTERY_MIN_TICKETS else new_base in
        let new_base := if new_base >? LOTTERY_MAX_TICKETS then LOTTERY_MAX_TICKETS else new_base in
        upd i (set_base_tickets new_base) ;;
        upd i (fun e => set_current_tickets (wrap32 (new_base + compensation e)) e) ;;
        e' <- rd i ;;
        ret (inl (next e'))
    end) entry ;;
  recalculate_totals fuel.

Definition lottery_yield (fuel : nat) : M state unit :=
  cp <- gets current_pid ;;
  en <- gets compensation_enabled ;;
  when ((cp >=? 0) && en)
       (tr <- gets time_remaining ;;
        let fraction := (1 - of_uint32 tr / of_uint32 DEFAULT_QUANTUM)%Q in
        lottery_compensate fuel cp fraction) ;;
  modify (set_time_remaining 0) ;;
  lottery_schedule fuel.

Definition lottery_preempt (fuel : nat) : M state unit :=
  modify (set_time_remaining 0) ;;
  lottery_schedule fuel.

Definition lottery_tick (fuel : nat) : M state unit :=
  tr <- gets time_remaining ;;
  when (tr >? 0)
       (modify (fun s => set_time_remaining (wrap32 (time_remaining s - 1)) s) ;;
        cp <- gets current_pid ;;
        when (cp >=? 0)
             (found <- find_entry fuel cp ;;
              match found with
              | Some i =>
                  upd i (fun e => set_total_tickets_held
                                    (wrap64 (total_tickets_held e + current_tickets e)) e)
              | None => ret tt
              end)) ;;
  tr' <- gets time_remaining ;;
  when (tr' =? 0) (lottery_schedule fuel).

(** [lottery_validate]; the messages it prints are not modelled. *)
Definition lottery_validate (fuel : nat) : M state bool :=
  hd <- gets lottery_pool ;;
  '(valid, counted_tickets, counted_participants) <-
    loop fuel (fun '(entry, valid, ct, cp) =>
      match entry with
      | None => ret (inr (valid, ct, cp))
      | Some i =>
          e <- rd i ;;
          let ct := wrap32 (ct + current_tickets e) in
          let cp := wrap32 (cp + 1) in
          let valid :=
            if (base_tickets e <? LOTTERY_MIN_TICKETS) || (base_tickets e >? LOTTERY_MAX_TICKETS)
            then false else valid in
          let valid :=
            if negb (current_tickets e =? wrap32 (base_tickets e + compensation e))
            then false else valid in
          ret (inl (next e, valid, ct, cp))
      end) (hd, true, 0, 0) ;;
  tot <- gets total_tickets ;;
  cnt <- gets participant_count ;;
  let valid := if negb (counted_tickets =? tot) then false else valid in
  let valid := if negb (counted_participants =? cnt) then false else valid in
  ret valid.

Definition lottery_set_seed (seed : Z) : M state unit :=
  modify (set_random_state seed).

(** The operations C2 ranges over, as one type. *)
Inductive op :=
| Enqueue (p : Z)
| Dequeue (p : Z)
| SetTickets (p tickets : Z)
| AddTickets (p tickets : Z)
| RemoveTickets (p tickets : Z)
| TransferTickets (from_pid to_pid tickets : Z)
| Compensate (p : Z) (fraction_used : float)
| CompensationEnable (enable : bool)
| Inflate (factor : float).

Definition run_op (fuel : nat) (o : op) : M state unit :=
  match o with
  | Enqueue p => lottery_enqueue fuel p
  | Dequeue p => lottery_dequeue fuel p
  | SetTickets p t => _ <- lottery_set_tickets fuel p t ;; ret tt
  | AddTickets p t => lottery_add_tickets fuel p t
  | RemoveTickets p t => lottery_remove_tickets fuel p t
  | TransferTickets a b t => _ <- lottery_transfer_tickets fuel a b t ;; ret tt
  | Compensate p f => lottery_compensate fuel p f
  | CompensationEnable b => lottery_compensation_enable fuel b
  | Inflate f => lottery_inflate fuel f
  end.

Fixpoint run_ops (fuel : nat) (os : list op) : M state unit :=
  match os with
  | [] => ret tt
  | o :: os' => run_op fuel o ;; run_ops fuel os'
  end.

Definition after (os : list op) : option state :=
  exec (lottery_init ;; run_ops 300 os) boot.

(** The pool after [lottery_init] and the enqueues of pids 1 and 2: pid 2
    in slot 1 at the head, pid 1 in slot 0 behind it, 100 tickets each. *)
Definition two_entries : state :=
  Eval vm_compute in default boot (after [Enqueue 1; Enqueue 2]).

(** The pool after five enqueues (pids 1 to 5, pid 5 at the head) in which
    pids 2 to 5 were then given 10000 tickets each: 40100 tickets in all,
    the 100 of pid 1 at the far end of the list. *)
Definition heavy_pool : state :=
  Eval vm_compute in
    default boot (after [Enqueue 1; Enqueue 2; Enqueue 3; Enqueue 4; Enqueue 5;
                         SetTickets 2 10000; SetTickets 3 10000;
                         SetTickets 4 10000; SetTickets 5 10000]).

(** The entries of the pool in list order: [chain pool p l] says that
    following [next] from [p] visits exactly the slots [l] and then [NULL]. *)
Fixpoint chain (pool : list lottery_entry) (p : option nat) (l : list nat) : Prop :=
  match l with
  | [] => p = None
  | i :: l' => p = Some i /\ exists e, pool !! i = Some e /\ chain pool (next e) l'
  end.

(** The tickets held along a list of slots. *)
Definition tickets_of (pool : list lottery_entry) (l : list nat) : list Z :=
  omap (fun i => current_tickets <$> pool !! i) l.

Definition sum_tickets (ts : list Z) : Z := foldr Z.add 0 ts.

(** The invariant of the specification on a pool whose entries are the
    slots [l]: every entry has current = base + compensation and
    1 <= base <= 10000, and the cached total is the sum of the current
    tickets. *)
Definition entry_ok (e : lottery_entry) : Prop :=
  current_tickets e = base_tickets e + compensation e /\
  LOTTERY_MIN_TICKETS <= base_tickets e <= LOTTERY_MAX_TICKETS.

Definition pool_invariant (s : state) (l : list nat) : Prop :=
  chain (entry_pool s) (lottery_pool s) l /\
  (forall i e, In i l -> entry_pool s !! i = Some e -> entry_ok e) /\
  sum_tickets (tickets_of (entry_pool s) l) = total_tickets s.

(** No other entry of the list [l] holds the pid [p] of slot [i]. *)
Definition only_entry (s : state) (l : list nat) (p : Z) (i : nat) : Prop :=
  forall j ej, In j l -> entry_pool s !! j = Some ej -> pid ej = p -> j = i.

(** The winner as the specification words it: walk the entries, add up
    their current tickets, stop at the first entry at which the running
    sum is strictly above the winning ticket. *)
Fixpoint first_exceeding (pool : list lottery_entry) (w : Z) (acc : Z) (l : list nat)
  : option nat :=
  match l with
  | [] => None
  | i :: l' =>
      match pool !! i with
      | Some e =>
          let acc' := acc + current_tickets e in
          if acc' >? w then Some i else first_exceeding pool w acc' l'
      | None => None
      end
  end.

(** What [lottery_enqueue (p)] followed at once by [lottery_dequeue (p)]
    leaves, for a pid that was not in the pool: the statics as they were,
    but for the slot at the head of the free list, which was recycled and
    keeps the payload of the entry just removed. *)
Definition recycled (s : state) (p : Z) : option state :=
  match free_entries s with
  | None => Some s
  | Some i =>
      match entry_pool s !! i with
      | Some e =>
          Some (set_entry_pool
                  (<[i := mk_entry p LOTTERY_DEFAULT_TICKETS LOTTERY_DEFAULT_TICKETS
                                   0 0 0 (next e)]> (entry_pool s)) s)
      | None => None
      end
  end.

End Lottery.

(** ** The kernel environment the policies share

    kernel.h and process.h are not part of the sources.  What the
    scheduler uses of them is modelled here: the process table with the
    fields [pstate] and [pprio], the current pid, the [need_resched] flag
    of scheduler.c, and the external [context_switch].  NPROC, the size of
    the process table and of the node pools, is a variable of each policy
    that uses it. *)

Module Env.

Inductive pstate_t := PR_FREE | PR_CURR | PR_READY | PR_SLEEP | PR_WAIT | PR_SUSP.

Definition pstate_eqb (a b : pstate_t) : bool :=
  match a, b with
  | PR_FREE, PR_FREE | PR_CURR, PR_CURR | PR_READY, PR_READY
  | PR_SLEEP, PR_SLEEP | PR_WAIT, PR_WAIT | PR_SUSP, PR_SUSP => true
  | _, _ => false
  end.

Record proc_t := mk_proc {
  pstate : pstate_t;
  pprio : Z
}.

Definition set_pstate v p := mk_proc v (pprio p).
Definition set_pprio v p := mk_proc (pstate p) v.

Record t := mk_env {
  proctab : list proc_t;
  currpid : Z;
  need_resched : bool;
  ctx_log : list (Z * Z)
}.

Definition set_proctab v e := mk_env v (currpid e) (need_resched e) (ctx_log e).
Definition set_currpid v e := mk_env (proctab e) v (need_resched e) (ctx_log e).
Definition set_need_resched v e := mk_env (proctab e) (currpid e) v (ctx_log e).
Definition set_ctx_log v e := mk_env (proctab e) (currpid e) (need_resched e) v.

(** [proctab[p]] as an rvalue; an index outside the table traps. *)
Definition rd_proc (p : Z) : M t proc_t :=
  fun e => if p <? 0 then None else
           match proctab e !! Z.to_nat p with
           | Some x => Some (x, e)
           | None => None
           end.

Definition upd_proc (p : Z) (f : proc_t -> proc_t) : M t unit :=
  fun e => if p <? 0 then None else
           match proctab e !! Z.to_nat p with
           | Some x => Some (tt, set_proctab (<[Z.to_nat p := f x]> (proctab e)) e)
           | None => None
           end.

Definition context_switch (old new : Z) : M t unit :=
  modify (fun e => set_ctx_log ((old, new) :: ctx_log e) e).

(** [if (proctab[p].pstate == PR_CURR) proctab[p].pstate = PR_READY;] *)
Definition curr_to_ready (p : Z) : M t unit :=
  x <- rd_proc p ;;
  when (pstate_eqb (pstate x) PR_CURR) (upd_proc p (set_pstate PR_READY)).

(** A four-slot process table with every process ready at priority 50 and
    nothing running, for the runs shown with NPROC = 4. *)
Definition env4 : t :=
  mk_env (replicate 4 (mk_proc PR_READY 50)) (-1) false [].

End Env.

(** ** round_robin.h, round_robin.c *)

Module RR.

Definition RR_DEFAULT_QUANTUM : Z := 10.
Definition RR_MIN_QUANTUM : Z := 1.
Definition RR_MAX_QUANTUM : Z := 100.

(** [rr_node_t]. *)
Record rr_node := mk_node {
  pid : Z;
  time_remaining : Z;
  total_time : Z;
  rounds : Z;
  next : option nat;
  prev : option nat
}.

Definition zero_node : rr_node := mk_node 0 0 0 0 None None.

Definition set_pid v n := mk_node v (time_remaining n) (total_time n) (rounds n) (next n) (prev n).
Definition set_time_remaining v n := mk_node (pid n) v (total_time n) (rounds n) (next n) (prev n).
Definition set_total_time v n := mk_node (pid n) (time_remaining n) v (rounds n) (next n) (prev n).
Definition set_rounds v n := mk_node (pid n) (time_remaining n) (total_time n) v (next n) (prev n).
Definition set_next v n := mk_node (pid n) (time_remaining n) (total_time n) (rounds n) v (prev n).
Definition set_prev v n := mk_node (pid n) (time_remaining n) (total_time n) (rounds n) (next n) v.

(** [rr_stats_t]. *)
Record rr_stats_t := mk_stats {
  total_processes : Z;
  total_context_switches : Z;
  total_quantum_expires : Z;
  avg_wait_time : Z;
  current_queue_length : Z;
  max_queue_length : Z
}.

Definition zero_stats : rr_stats_t := mk_stats 0 0 0 0 0 0.

Definition set_total_processes v x := mk_stats v (total_context_switches x) (total_quantum_expires x) (avg_wait_time x) (current_queue_length x) (max_queue_length x).
Definition set_total_context_switches v x := mk_stats (total_processes x) v (total_quantum_expires x) (avg_wait_time x) (current_queue_length x) (max_queue_length x).
Definition set_total_quantum_expires v x := mk_stats (total_processes x) (total_context_switches x) v (avg_wait_time x) (current_queue_length x) (max_queue_length x).
Definition set_current_queue_length v x := mk_stats (total_processes x) (total_context_switches x) (total_quantum_expires x) (avg_wait_time x) v (max_queue_length x).
Definition set_max_queue_length v x := mk_stats (total_processes x) (total_context_switches x) (total_quantum_expires x) (avg_wait_time x) (current_queue_length x) v.

(** The statics of round_robin.c, and the environment. *)
Record state := mk_state {
  rr_queue_head : option nat;
  rr_current : option nat;
  rr_node_pool : list rr_node;
  rr_free_nodes : option nat;
  rr_queue_count : Z;
  rr_quantum : Z;
  rr_quantum_remaining : Z;
  rr_stats : rr_stats_t;
  env : Env.t
}.

Definition set_rr_queue_head v s := mk_state v (rr_current s) (rr_node_pool s) (rr_free_nodes s) (rr_queue_count s) (rr_quantum s) (rr_quantum_remaining s) (rr_stats s) (env s).
Definition set_rr_current v s := mk_state (rr_queue_head s) v (rr_node_pool s) (rr_free_nodes s) (rr_queue_count s) (rr_quantum s) (rr_quantum_remaining s) (rr_stats s) (env s).
Definition set_rr_node_pool v s := mk_state (rr_queue_head s) (rr_current s) v (rr_free_nodes s) (rr_queue_count s) (rr_quantum s) (rr_quantum_remaining s) (rr_stats s) (env s).
Definition set_rr_free_nodes v s := mk_state (rr_queue_head s) (rr_current s) (rr_node_pool s) v (rr_queue_count s) (rr_quantum s) (rr_quantum_remaining s) (rr_stats s) (env s).
Definition set_rr_queue_count v s := mk_state (rr_queue_head s) (rr_current s) (rr_node_pool s) (rr_free_nodes s) v (rr_quantum s) (rr_quantum_remaining s) (rr_stats s) (env s).
Definition set_rr_quantum v s := mk_state (rr_queue_head s) (rr_current s) (rr_node_pool s) (rr_free_nodes s) (rr_queue_count s) v (rr_quantum_remaining s) (rr_stats s) (env s).
Definition set_rr_quantum_remaining v s := mk_state (rr_queue_head s) (rr_current s) (rr_node_pool s) (rr_free_nodes s) (rr_queue_count s) (rr_quantum s) v (rr_stats s) (env s).
Definition set_rr_stats v s := mk_state (rr_queue_head s) (rr_current s) (rr_node_pool s) (rr_free_nodes s) (rr_queue_count s) (rr_quantum s) (rr_quantum_remaining s) v (env s).
Definition set_env v s := mk_state (rr_queue_head s) (rr_current s) (rr_node_pool s) (rr_free_nodes s) (rr_queue_count s) (rr_quantum s) (rr_quantum_remaining s) (rr_stats s) v.

Definition rd (i : nat) : M state rr_node :=
  fun s => match rr_node_pool s !! i with
           | Some n => Some (n, s)
           | None => None
           end.

Definition upd (i : nat) (f : rr_node -> rr_node) : M state unit :=
  fun s => match rr_node_pool s !! i with
           | Some n => Some (tt, set_rr_node_pool (<[i := f n]> (rr_node_pool s)) s)
           | None => None
           end.

Definition upd_stats (f : rr_stats_t -> rr_stats_t) : M state unit :=
  modify (fun s => set_rr_stats (f (rr_stats s)) s).

(** Run a computation of the environment. *)
Definition in_env {A} (m : M Env.t A) : M state A := zoom env set_env m.

Section WithNPROC.

Variable NPROC : nat.

(** The statics at program start, with a given environment. *)
Definition boot (e : Env.t) : state :=
  mk_state None None (replicate NPROC zero_node) None 0
           RR_DEFAULT_QUANTUM RR_DEFAULT_QUANTUM zero_stats e.

(** The [for] loop of [rr_pool_init], from slot [i] up to NPROC - 2. *)
Fixpoint pool_init_loop (n : nat) (i : nat) (pool : list rr_node) : list rr_node :=
  match n with
  | O => pool
  | Datatypes.S n' =>
      pool_init_loop n' (Datatypes.S i)
        (alter (fun x => set_pid (-1) (set_prev None (set_next (Some (Datatypes.S i)) x))) i pool)
  end.

Definition rr_pool_init : M state unit :=
  if Nat.eqb NPROC 0 then fault else
  modify (set_rr_free_nodes (Some 0%nat)) ;;
  modify (fun s => set_rr_node_pool (pool_init_loop (NPROC - 1) 0 (rr_node_pool s)) s) ;;
  upd (NPROC - 1) (set_next None).

Definition rr_node_alloc : M state (option nat) :=
  f <- gets rr_free_nodes ;;
  match f with
  | None => ret None
  | Some i =>
      n <- rd i ;;
      modify (set_rr_free_nodes (next n)) ;;
      upd i (set_next None) ;;
      upd i (set_prev None) ;;
      upd i (set_pid (-1)) ;;
      q <- gets rr_quantum ;;
      upd i (set_time_remaining q) ;;
      upd i (set_total_time 0) ;;
      upd i (set_rounds 0) ;;
      ret (Some i)
  end.

Definition rr_node_free (node : option nat) : M state unit :=
  match node with
  | None => ret tt
  | Some i =>
      f <- gets rr_free_nodes ;;
      upd i (set_next f) ;;
      modify (set_rr_free_nodes (Some i))
  end.

(** One round of the [do ... while (node != rr_queue_head)] loop of
    [rr_find_node]. *)
Definition find_step (p : Z) (head : nat) (node : option nat)
  : M state (option nat + option nat) :=
  match node with
  | None => fault
  | Some i =>
      n <- rd i ;;
      if pid n =? p then ret (inr (Some i))
      else if ptr_eqb (next n) (Some head) then ret (inr None)
      else ret (inl (next n))
  end.

Definition rr_find_node (fuel : nat) (p : Z) : M state (option nat) :=
  hd <- gets rr_queue_head ;;
  match hd with
  | None => ret None
  | Some h => loop fuel (find_step p h) (Some h)
  end.

Definition round_robin_init : M state unit :=
  rr_pool_init ;;
  modify (set_rr_queue_head None) ;;
  modify (set_rr_current None) ;;
  modify (set_rr_queue_count 0) ;;
  modify (set_rr_quantum RR_DEFAULT_QUANTUM) ;;
  modify (set_rr_quantum_remaining RR_DEFAULT_QUANTUM) ;;
  modify (set_rr_stats zero_stats).

Definition round_robin_shutdown : M state unit :=
  modify (set_rr_queue_head None) ;;
  modify (set_rr_current None) ;;
  modify (set_rr_queue_count 0).

Definition round_robin_enqueue (fuel : nat) (p : Z) : M state unit :=
  if (p <? 0) || (p >=? Z.of_nat NPROC) then ret tt else
  found <- rr_find_node fuel p ;;
  if negb (is_null found) then ret tt else
  a <- rr_node_alloc ;;
  match a with
  | None => ret tt
  | Some node =>
      upd node (set_pid p) ;;
      q <- gets rr_quantum ;;
      upd node (set_time_remaining q) ;;
      hd <- gets rr_queue_head ;;
      match hd with
      | None =>
          upd node (set_next (Some node)) ;;
          upd node (set_prev (Some node)) ;;
          modify (set_rr_queue_head (Some node)) ;;
          modify (set_rr_current (Some node))
      | Some h =>
          upd node (set_next (Some h)) ;;
          hn <- rd h ;;
          upd node (set_prev (prev hn)) ;;
          hn' <- rd h ;;
          tl <- lift (prev hn') ;;
          upd tl (set_next (Some node)) ;;
          upd h (set_prev (Some node))
      end ;;
      modify (fun s => set_rr_queue_count (wrap32 (rr_queue_count s + 1)) s) ;;
      upd_stats (fun x => set_total_processes (wrap32 (total_processes x + 1)) x) ;;
      c <- gets rr_queue_count ;;
      mx <- gets (fun s => max_queue_length (rr_stats s)) ;;
      when (c >? mx) (upd_stats (set_max_queue_length c)) ;;
      c' <- gets rr_queue_count ;;
      upd_stats (set_current_queue_length c')
  end.

Definition round_robin_dequeue (fuel : nat) (p : Z) : M state unit :=
  if (p <? 0) || (p >=? Z.of_nat NPROC) then ret tt else
  found <- rr_find_node fuel p ;;
  match found with
  | None => ret tt
  | Some node =>
      n <- rd node ;;
      (if ptr_eqb (next n) (Some node) then
         modify (set_rr_queue_head None) ;;
         modify (set_rr_current None)
       else
         n1 <- rd node ;;
         pv <- lift (prev n1) ;;
         upd pv (set_next (next n1)) ;;
         n2 <- rd node ;;
         nx <- lift (next n2) ;;
         upd nx (set_prev (prev n2)) ;;
         hd <- gets rr_queue_head ;;
         when (ptr_eqb (Some node) hd)
              (n3 <- rd node ;; modify (set_rr_queue_head (next n3))) ;;
         cur <- gets rr_current ;;
         when (ptr_eqb (Some node) cur)
              (n4 <- rd node ;; modify (set_rr_current (next n4)))) ;;
      modify (fun s => set_rr_queue_count (wrap32 (rr_queue_count s - 1)) s) ;;
      c <- gets rr_queue_count ;;
      upd_stats (set_current_queue_length c) ;;
      rr_node_free (Some node)
  end.

Definition round_robin_pick_next : M state Z :=
  cur <- gets rr_current ;;
  match cur with
  | None => ret (-1)
  | Some i => n <- rd i ;; ret (pid n)
  end.

Definition round_robin_rotate : M state unit :=
  cur <- gets rr_current ;;
  c <- gets rr_queue_count ;;
  match cur with
  | Some i =>
      if c >? 1 then
        upd i (fun n => set_rounds (wrap32 (rounds n + 1)) n) ;;
        n <- rd i ;;
        modify (set_rr_current (next n)) ;;
        nx <- lift (next n) ;;
        q <- gets rr_quantum ;;
        upd nx (set_time_remaining q)
      else ret tt
  | None => ret tt
  end.

Definition round_robin_schedule : M state unit :=
  next_pid <- round_robin_pick_next ;;
  if next_pid <? 0 then ret tt else
  cp <- gets (fun s => Env.currpid (env s)) ;;
  if negb (next_pid =? cp) then
    in_env (Env.curr_to_ready cp) ;;
    in_env (Env.upd_proc next_pid (Env.set_pstate Env.PR_CURR)) ;;
    in_env (modify (Env.set_currpid next_pid)) ;;
    upd_stats (fun x => set_total_context_switches (wrap64 (total_context_switches x + 1)) x) ;;
    in_env (Env.context_switch cp next_pid)
  else ret tt.

Definition round_robin_yield : M state unit :=
  cur <- gets rr_current ;;
  match cur with
  | Some i => upd i (set_time_remaining 0)
  | None => ret tt
  end ;;
  cp <- gets (fun s => Env.currpid (env s)) ;;
  in_env (Env.curr_to_ready cp) ;;
  round_robin_rotate ;;
  round_robin_schedule.

Definition round_robin_preempt : M state unit := round_robin_yield.

Definition round_robin_set_quantum (quantum : Z) : M state unit :=
  let quantum := if quantum <? RR_MIN_QUANTUM then RR_MIN_QUANTUM else quantum in
  let quantum := if quantum >? RR_MAX_QUANTUM then RR_MAX_QUANTUM else quantum in
  modify (set_rr_quantum quantum).

Definition round_robin_tick : M state unit :=
  cur <- gets rr_current ;;
  cp <- gets (fun s => Env.currpid (env s)) ;;
  match cur with
  | None => ret tt
  | Some i =>
      n <- rd i ;;
      if pid n =? cp then
        upd i (fun n => set_total_time (wrap64 (total_time n + 1)) n) ;;
        n1 <- rd i ;;
        when (time_remaining n1 >? 0)
             (upd i (fun n => set_time_remaining (wrap32 (time_remaining n - 1)) n)) ;;
        n2 <- rd i ;;
        when (time_remaining n2 =? 0)
             (upd_stats (fun x => set_total_quantum_expires (wrap64 (total_quantum_expires x + 1)) x) ;;
              round_robin_rotate ;;
              in_env (modify (Env.set_need_resched true)))
      else ret tt
  end.

(** What [round_robin_enqueue (p)] followed at once by
    [round_robin_dequeue (p)] leaves, for a pid that was not queued: the
    queue, the cursor, the count and the free list as they were; the slot
    at the head of the free list recycled, with the payload and the [prev]
    link that the enqueue wrote; and the statistics advanced
    ([total_processes] counts the enqueue, [max_queue_length] has seen the
    longer queue, [current_queue_length] is the count). *)
Definition recycled (s : state) (p : Z) : option state :=
  if (p <? 0) || (p >=? Z.of_nat NPROC) then Some s else
  match rr_free_nodes s with
  | None => Some s
  | Some i =>
      match rr_node_pool s !! i with
      | None => None
      | Some e =>
          let pv := match rr_queue_head s with
                    | None => Some i
                    | Some h => from_option prev None (rr_node_pool s !! h)
                    end in
          let c1 := wrap32 (rr_queue_count s + 1) in
          let st := rr_stats s in
          let st1 := set_total_processes (wrap32 (total_processes st + 1)) st in
          let st2 := if c1 >? max_queue_length st then set_max_queue_length c1 st1 else st1 in
          let st3 := set_current_queue_length (rr_queue_count s) st2 in
          Some (set_rr_stats st3
                  (set_rr_node_pool
                     (<[i := mk_node p (rr_quantum s) 0 0 (next e) pv]> (rr_node_pool s)) s))
      end
  end.

(** A run from the boot statics: [round_robin_init], then the pids of
    [ps] enqueued in turn. *)
Definition after (e : Env.t) (ps : list Z) : option state :=
  exec (round_robin_init ;;
        foldr (fun p k => round_robin_enqueue 8 p ;; k) (ret tt) ps) (boot e).

End WithNPROC.

(** The ring after [round_robin_init] and the enqueues of pids 1 and 2,
    with NPROC = 4: slot 0 (pid 1) at the head, slot 1 (pid 2) behind it. *)
Definition two_nodes : state :=
  Eval vm_compute in default (boot 4 Env.env4) (after 4 Env.env4 [1; 2]).

(** The ready ring as a list of slots: following [next] from [from]
    visits the slots [l] one after the other and then arrives at [to]. *)
Fixpoint ring_seg (pool : list rr_node) (from : nat) (l : list nat) (to : nat) : Prop :=
  match l with
  | [] => from = to
  | i :: l' =>
      from = i /\ exists n n', pool !! i = Some n /\ next n = Some n' /\ ring_seg pool n' l' to
  end.

(** The successors of the slots of a segment. *)
Definition succs (l : list nat) (to : nat) : list nat :=
  match l with
  | [] => []
  | _ :: l' => l' ++ [to]
  end.

(** [ring s h l]: the queue of [s] is the ring of the distinct slots [l],
    entered at [h]; the head's [prev] is the last slot. *)
Definition ring (s : state) (h : nat) (l : list nat) : Prop :=
  rr_queue_head s = Some h /\
  l <> [] /\ NoDup l /\
  ring_seg (rr_node_pool s) h l h /\
  exists hn, rr_node_pool s !! h = Some hn /\ prev hn = last l.

(** The ring read from the cursor: [lc] starts with the slot of
    [rr_current], and following [next] from it visits the distinct slots
    [lc] one after the other and comes back to it. *)
Definition ring_at_cursor (s : state) (lc : list nat) : Prop :=
  exists c, rr_current s = Some c /\ hd_error lc = Some c /\ NoDup lc /\
            ring_seg (rr_node_pool s) c lc c.

(** [k] calls of [round_robin_rotate], with the pid that
    [round_robin_pick_next] gives after each of them. *)
Fixpoint rotate_picks (k : nat) : M state (list Z) :=
  match k with
  | O => ret []
  | S k' =>
      round_robin_rotate ;;
      p <- round_robin_pick_next ;;
      ps <- rotate_picks k' ;;
      ret (p :: ps)
  end.

(** The queue of [s] is empty with no cursor, or it is the ring of the
    slots [l] with the cursor on one of them. *)
Definition queue_wf (s : state) (l : list nat) : Prop :=
  match rr_queue_head s with
  | None => l = [] /\ rr_current s = None
  | Some h => ring s h l /\ exists c, rr_current s = Some c /\ In c l
  end.

End RR.

(** ** priority.h, priority.c: priority scheduling with aging *)

Module Prio.

Definition PRIORITY_MAX : Z := 99.
Definition PRIORITY_DEFAULT : Z := 50.

(** [prio_node_t]. *)
Record prio_node := mk_node {
  pid : Z;
  base_priority : Z;
  current_priority : Z;
  wait_time : Z;
  last_run : Z;
  cpu_burst : Z;
  io_bound : bool;
  next : option nat
}.

Definition zero_node : prio_node := mk_node 0 0 0 0 0 0 false None.

Definition set_pid v n := mk_node v (base_priority n) (current_priority n) (wait_time n) (last_run n) (cpu_burst n) (io_bound n) (next n).
Definition set_base_priority v n := mk_node (pid n) v (current_priority n) (wait_time n) (last_run n) (cpu_burst n) (io_bound n) (next n).
Definition set_current_priority v n := mk_node (pid n) (base_priority n) v (wait_time n) (last_run n) (cpu_burst n) (io_bound n) (next n).
Definition set_wait_time v n := mk_node (pid n) (base_priority n) (current_priority n) v (last_run n) (cpu_burst n) (io_bound n) (next n).
Definition set_last_run v n := mk_node (pid n) (base_priority n) (current_priority n) (wait_time n) v (cpu_burst n) (io_bound n) (next n).
Definition set_cpu_burst v n := mk_node (pid n) (base_priority n) (current_priority n) (wait_time n) (last_run n) v (io_bound n) (next n).
Definition set_io_bound v n := mk_node (pid n) (base_priority n) (current_priority n) (wait_time n) (last_run n) (cpu_burst n) v (next n).
Definition set_next v n := mk_node (pid n) (base_priority n) (current_priority n) (wait_time n) (last_run n) (cpu_burst n) (io_bound n) v.

(** [prio_stats_t]. *)
Record prio_stats_t := mk_stats {
  total_schedules : Z;
  context_switches : Z;
  priority_changes : Z;
  aging_boosts : Z;
  starvation_boosts : Z;
  preemptions : Z;
  current_queue_length : Z;
  avg_wait_time : Z
}.

Definition zero_stats : prio_stats_t := mk_stats 0 0 0 0 0 0 0 0.

Definition set_total_schedules v x := mk_stats v (context_switches x) (priority_changes x) (aging_boosts x) (starvation_boosts x) (preemptions x) (current_queue_length x) (avg_wait_time x).
Definition set_context_switches v x := mk_stats (total_schedules x) v (priority_changes x) (aging_boosts x) (starvation_boosts x) (preemptions x) (current_queue_length x) (avg_wait_time x).
Definition set_priority_changes v x := mk_stats (total_schedules x) (context_switches x) v (aging_boosts x) (starvation_boosts x) (preemptions x) (current_queue_length x) (avg_wait_time x).
Definition set_aging_boosts v x := mk_stats (total_schedules x) (context_switches x) (priority_changes x) v (starvation_boosts x) (preemptions x) (current_queue_length x) (avg_wait_time x).
Definition set_starvation_boosts v x := mk_stats (total_schedules x) (context_switches x) (priority_changes x) (aging_boosts x) v (preemptions x) (current_queue_length x) (avg_wait_time x).
Definition set_preemptions v x := mk_stats (total_schedules x) (context_switches x) (priority_changes x) (aging_boosts x) (starvation_boosts x) v (current_queue_length x) (avg_wait_time x).
Definition set_current_queue_length v x := mk_stats (total_schedules x) (context_switches x) (priority_changes x) (aging_boosts x) (starvation_boosts x) (preemptions x) v (avg_wait_time x).
Definition set_avg_wait_time v x := mk_stats (total_schedules x) (context_switches x) (priority_changes x) (aging_boosts x) (starvation_boosts x) (preemptions x) (current_queue_length x) v.

(** The statics of priority.c, and the environment. *)
Record state := mk_state {
  prio_queue : option nat;
  prio_node_pool : list prio_node;
  prio_free_nodes : option nat;
  prio_queue_count : Z;
  aging_enabled : bool;
  aging_interval : Z;
  aging_counter : Z;
  prio_stats : prio_stats_t;
  prio_ticks : Z;
  env : Env.t
}.

Definition set_prio_queue v s := mk_state v (prio_node_pool s) (prio_free_nodes s) (prio_queue_count s) (aging_enabled s) (aging_interval s) (aging_counter s) (prio_stats s) (prio_ticks s) (env s).
Definition set_prio_node_pool v s := mk_state (prio_queue s) v (prio_free_nodes s) (prio_queue_count s) (aging_enabled s) (aging_interval s) (aging_counter s) (prio_stats s) (prio_ticks s) (env s).
Definition set_prio_free_nodes v s := mk_state (prio_queue s) (prio_node_pool s) v (prio_queue_count s) (aging_enabled s) (aging_interval s) (aging_counter s) (prio_stats s) (prio_ticks s) (env s).
Definition set_prio_queue_count v s := mk_state (prio_queue s) (prio_node_pool s) (prio_free_nodes s) v (aging_enabled s) (aging_interval s) (aging_counter s) (prio_stats s) (prio_ticks s) (env s).
Definition set_aging_enabled v s := mk_state (prio_queue s) (prio_node_pool s) (prio_free_nodes s) (prio_queue_count s) v (aging_interval s) (aging_counter s) (prio_stats s) (prio_ticks s) (env s).
Definition set_aging_interval v s := mk_state (prio_queue s) (prio_node_pool s) (prio_free_nodes s) (prio_queue_count s) (aging_enabled s) v (aging_counter s) (prio_stats s) (prio_ticks s) (env s).
Definition set_aging_counter v s := mk_state (prio_queue s) (prio_node_pool s) (prio_free_nodes s) (prio_queue_count s) (aging_enabled s) (aging_interval s) v (prio_stats s) (prio_ticks s) (env s).
Definition set_prio_stats v s := mk_state (prio_queue s) (prio_node_pool s) (prio_free_nodes s) (prio_queue_count s) (aging_enabled s) (aging_interval s) (aging_counter s) v (prio_ticks s) (env s).
Definition set_prio_ticks v s := mk_state (prio_queue s) (prio_node_pool s) (prio_free_nodes s) (prio_queue_count s) (aging_enabled s) (aging_interval s) (aging_counter s) (prio_stats s) v (env s).
Definition set_env v s := mk_state (prio_queue s) (prio_node_pool s) (prio_free_nodes s) (prio_queue_count s) (aging_enabled s) (aging_interval s) (aging_counter s) (prio_stats s) (prio_ticks s) v.

Definition rd (i : nat) : M state prio_node :=
  fun s => match prio_node_pool s !! i with
           | Some n => Some (n, s)
           | None => None
           end.

Definition upd (i : nat) (f : prio_node -> prio_node) : M state unit :=
  fun s => match prio_node_pool s !! i with
           | Some n => Some (tt, set_prio_node_pool (<[i := f n]> (prio_node_pool s)) s)
           | None => None
           end.

Definition upd_stats (f : prio_stats_t -> prio_stats_t) : M state unit :=
  modify (fun s => set_prio_stats (f (prio_stats s)) s).

Definition in_env {A} (m : M Env.t A) : M state A := zoom env set_env m.

(** The tunables of priority.h that the sources do not define. *)
Record config := mk_config {
  NPROC : nat;
  PRIO_AGING_ENABLED : bool;
  PRIO_AGING_INTERVAL : Z;
  PRIO_AGING_AMOUNT : Z;
  PRIO_STARVATION_THRESHOLD : Z;
  PRIO_STARVATION_BOOST : Z
}.

Section WithConfig.

Variable cfg : config.

Definition boot (e : Env.t) : state :=
  mk_state None (replicate (NPROC cfg) zero_node) None 0
           (PRIO_AGING_ENABLED cfg) (PRIO_AGING_INTERVAL cfg) 0 zero_stats 0 e.

Fixpoint pool_init_loop (n : nat) (i : nat) (pool : list prio_node) : list prio_node :=
  match n with
  | O => pool
  | Datatypes.S n' =>
      pool_init_loop n' (Datatypes.S i)
        (alter (fun x => set_pid (-1) (set_next (Some (Datatypes.S i)) x)) i pool)
  end.

Definition prio_pool_init : M state unit :=
  if Nat.eqb (NPROC cfg) 0 then fault else
  modify (set_prio_free_nodes (Some 0%nat)) ;;
  modify (fun s => set_prio_node_pool (pool_init_loop (NPROC cfg - 1) 0 (prio_node_pool s)) s) ;;
  upd (NPROC cfg - 1) (set_next None).

Definition prio_node_alloc : M state (option nat) :=
  f <- gets prio_free_nodes ;;
  match f with
  | None => ret None
  | Some i =>
      n <- rd i ;;
      modify (set_prio_free_nodes (next n)) ;;
      upd i (set_next None) ;;
      upd i (set_pid (-1)) ;;
      upd i (set_base_priority PRIORITY_DEFAULT) ;;
      upd i (set_current_priority PRIORITY_DEFAULT) ;;
      upd i (set_wait_time 0) ;;
      upd i (set_last_run 0) ;;
      upd i (set_cpu_burst 0) ;;
      upd i (set_io_bound false) ;;
      ret (Some i)
  end.

Definition prio_node_free (node : option nat) : M state unit :=
  match node with
  | None => ret tt
  | Some i =>
      f <- gets prio_free_nodes ;;
      upd i (set_next f) ;;
      modify (set_prio_free_nodes (Some i))
  end.

Definition prio_find_node (fuel : nat) (p : Z) : M state (option nat) :=
  hd <- gets prio_queue ;;
  loop fuel (fun node : option nat =>
    match node with
    | None => ret (inr None)
    | Some i =>
        n <- rd i ;;
        if pid n =? p then ret (inr (Some i)) else ret (inl (next n))
    end) hd.

Definition priority_init : M state unit :=
  prio_pool_init ;;
  modify (set_prio_queue None) ;;
  modify (set_prio_queue_count 0) ;;
  modify (set_aging_enabled (PRIO_AGING_ENABLED cfg)) ;;
  modify (set_aging_interval (PRIO_AGING_INTERVAL cfg)) ;;
  modify (set_aging_counter 0) ;;
  modify (set_prio_stats zero_stats) ;;
  modify (set_prio_ticks 0).

Definition priority_shutdown : M state unit :=
  modify (set_prio_queue None) ;;
  modify (set_prio_queue_count 0).

Definition priority_insert_ordered (fuel : nat) (p : Z) : M state unit :=
  a <- prio_node_alloc ;;
  match a with
  | None => ret tt
  | Some node =>
      upd node (set_pid p) ;;
      pr <- in_env (Env.rd_proc p) ;;
      upd node (set_base_priority (Env.pprio pr)) ;;
      pr' <- in_env (Env.rd_proc p) ;;
      upd node (set_current_priority (Env.pprio pr')) ;;
      upd node (set_wait_time 0) ;;
      tk <- gets prio_ticks ;;
      upd node (set_last_run tk) ;;
      n <- rd node ;;
      let priority := current_priority n in
      hd <- gets prio_queue ;;
      '(pv, cur) <- loop fuel (fun '(pv, cur) =>
          match cur with
          | None => ret (inr (pv, cur))
          | Some c =>
              cn <- rd c ;;
              if current_priority cn >=? priority
              then ret (inl (Some c, next cn))
              else ret (inr (pv, cur))
          end) (@None nat, hd) ;;
      upd node (set_next cur) ;;
      match pv with
      | None => modify (set_prio_queue (Some node))
      | Some pi => upd pi (set_next (Some node))
      end ;;
      modify (fun s => set_prio_queue_count (wrap32 (prio_queue_count s + 1)) s) ;;
      c <- gets prio_queue_count ;;
      upd_stats (set_current_queue_length c)
  end.

Definition priority_enqueue (fuel : nat) (p : Z) : M state unit :=
  if (p <? 0) || (p >=? Z.of_nat (NPROC cfg)) then ret tt else
  found <- prio_find_node fuel p ;;
  if negb (is_null found) then ret tt else
  priority_insert_ordered fuel p.

Definition priority_dequeue (fuel : nat) (p : Z) : M state unit :=
  if (p <? 0) || (p >=? Z.of_nat (NPROC cfg)) then ret tt else
  hd <- gets prio_queue ;;
  '(pv, cur) <- loop fuel (fun '(pv, cur) =>
      match cur with
      | None => ret (inr (pv, cur))
      | Some c =>
          cn <- rd c ;;
          if negb (pid cn =? p)
          then ret (inl (Some c, next cn))
          else ret (inr (pv, cur))
      end) (@None nat, hd) ;;
  match cur with
  | None => ret tt
  | Some c =>
      cn <- rd c ;;
      match pv with
      | None => modify (set_prio_queue (next cn))
      | Some pi => upd pi (set_next (next cn))
      end ;;
      modify (fun s => set_prio_queue_count (wrap32 (prio_queue_count s - 1)) s) ;;
      k <- gets prio_queue_count ;;
      upd_stats (set_current_queue_length k) ;;
      prio_node_free (Some c)
  end.

Definition priority_pick_next : M state Z :=
  hd <- gets prio_queue ;;
  match hd with
  | None => ret (-1)
  | Some i => n <- rd i ;; ret (pid n)
  end.

Definition priority_schedule (fuel : nat) : M state unit :=
  upd_stats (fun x => set_total_schedules (wrap64 (total_schedules x + 1)) x) ;;
  next_pid <- priority_pick_next ;;
  if next_pid <? 0 then ret tt else
  cp <- gets (fun s => Env.currpid (env s)) ;;
  if negb (next_pid =? cp) then
    in_env (Env.curr_to_ready cp) ;;
    in_env (Env.upd_proc next_pid (Env.set_pstate Env.PR_CURR)) ;;
    in_env (modify (Env.set_currpid next_pid)) ;;
    next_node <- prio_find_node fuel next_pid ;;
    match next_node with
    | Some i =>
        n <- rd i ;;
        upd_stats (fun x => set_avg_wait_time
                              (wrap32 (wrap64 (avg_wait_time x + wait_time n) / 2)) x) ;;
        upd i (set_wait_time 0) ;;
        tk <- gets prio_ticks ;;
        upd i (set_last_run tk)
    | None => ret tt
    end ;;
    priority_dequeue fuel next_pid ;;
    upd_stats (fun x => set_context_switches (wrap64 (context_switches x + 1)) x) ;;
    in_env (Env.context_switch cp next_pid)
  else ret tt.

(** [if (proctab[currpid].pstate == PR_CURR) { ... = PR_READY;
    priority_enqueue (currpid); }] *)
Definition requeue_current (fuel : nat) : M state unit :=
  cp <- gets (fun s => Env.currpid (env s)) ;;
  pr <- in_env (Env.rd_proc cp) ;;
  when (Env.pstate_eqb (Env.pstate pr) Env.PR_CURR)
       (in_env (Env.upd_proc cp (Env.set_pstate Env.PR_READY)) ;;
        cp' <- gets (fun s => Env.currpid (env s)) ;;
        priority_enqueue fuel cp').

Definition priority_yield (fuel : nat) : M state unit :=
  requeue_current fuel ;;
  priority_schedule fuel.

Definition priority_preempt (fuel : nat) : M state unit :=
  upd_stats (fun x => set_preemptions (wrap32 (preemptions x + 1)) x) ;;
  requeue_current fuel ;;
  priority_schedule fuel.

Definition priority_set (fuel : nat) (p : Z) (priority : Z) : M state unit :=
  if (p <? 0) || (p >=? Z.of_nat (NPROC cfg)) then ret tt else
  let priority := if priority >? PRIORITY_MAX then PRIORITY_MAX else priority in
  in_env (Env.upd_proc p (Env.set_pprio priority)) ;;
  found <- prio_find_node fuel p ;;
  match found with
  | Some node =>
      upd node (set_base_priority priority) ;;
      upd node (set_current_priority priority) ;;
      hd <- gets prio_queue ;;
      '(pv, cur) <- loop fuel (fun '(pv, cur) =>
          match cur with
          | None => ret (inr (pv, cur))
          | Some c =>
              if negb (Nat.eqb c node)
              then cn <- rd c ;; ret (inl (Some c, next cn))
              else ret (inr (pv, cur))
          end) (@None nat, hd) ;;
      match cur with
      | None => ret tt
      | Some _ =>
          n <- rd node ;;
          match pv with
          | None => modify (set_prio_queue (next n))
          | Some pi => upd pi (set_next (next n))
          end ;;
          modify (fun s => set_prio_queue_count (wrap32 (prio_queue_count s - 1)) s) ;;
          prio_node_free (Some node) ;;
          priority_insert_ordered fuel p
      end
  | None => ret tt
  end ;;
  upd_stats (fun x => set_priority_changes (wrap32 (priority_changes x + 1)) x) ;;
  pr <- in_env (Env.rd_proc p) ;;
  cp <- gets (fun s => Env.currpid (env s)) ;;
  when (Env.pstate_eqb (Env.pstate pr) Env.PR_READY || (p =? cp))
       (in_env (modify (Env.set_need_resched true))).

Definition priority_age_all (fuel : nat) : M state unit :=
  en <- gets aging_enabled ;;
  if negb en then ret tt else
  hd <- gets prio_queue ;;
  loop fuel (fun node : option nat =>
    match node with
    | None => ret (inr tt)
    | Some i =>
        n <- rd i ;;
        when (current_priority n <? PRIORITY_MAX)
             (upd i (fun n => set_current_priority
                                (wrap32 (current_priority n + PRIO_AGING_AMOUNT cfg)) n) ;;
              n1 <- rd i ;;
              when (current_priority n1 >? PRIORITY_MAX)
                   (upd i (set_current_priority PRIORITY_MAX)) ;;
              upd_stats (fun x => set_aging_boosts (wrap32 (aging_boosts x + 1)) x)) ;;
        n2 <- rd i ;;
        ret (inl (next n2))
    end) hd.

Definition priority_check_starvation (fuel : nat) : M state unit :=
  hd <- gets prio_queue ;;
  loop fuel (fun node : option nat =>
    match node with
    | None => ret (inr tt)
    | Some i =>
        n <- rd i ;;
        when (wait_time n >? PRIO_STARVATION_THRESHOLD cfg)
             (upd i (fun n => set_current_priority
                                (wrap32 (current_priority n + PRIO_STARVATION_BOOST cfg)) n) ;;
              n1 <- rd i ;;
              when (current_priority n1 >? PRIORITY_MAX)
                   (upd i (set_current_priority PRIORITY_MAX)) ;;
              upd_stats (fun x => set_starvation_boosts (wrap32 (starvation_boosts x + 1)) x) ;;
              upd i (set_wait_time 0)) ;;
        n2 <- rd i ;;
        ret (inl (next n2))
    end) hd.

Definition priority_tick (fuel : nat) : M state unit :=
  modify (fun s => set_prio_ticks (wrap64 (prio_ticks s + 1)) s) ;;
  hd <- gets prio_queue ;;
  loop fuel (fun node : option nat =>
    match node with
    | None => ret (inr tt)
    | Some i =>
        upd i (fun n => set_wait_time (wrap64 (wait_time n + 1)) n) ;;
        n <- rd i ;;
        ret (inl (next n))
    end) hd ;;
  en <- gets aging_enabled ;;
  when en
       (modify (fun s => set_aging_counter (wrap32 (aging_counter s + 1)) s) ;;
        ac <- gets aging_counter ;;
        ai <- gets aging_interval ;;
        when (ac >=? ai)
             (priority_age_all fuel ;;
              modify (set_aging_counter 0))) ;;
  priority_check_starvation fuel ;;
  hd' <- gets prio_queue ;;
  cp <- gets (fun s => Env.currpid (env s)) ;;
  match hd' with
  | Some h =>
      if cp >=? 0 then
        hn <- rd h ;;
        top <- in_env (Env.rd_proc (pid hn)) ;;
        cur <- in_env (Env.rd_proc cp) ;;
        when (Env.pprio top >? Env.pprio cur)
             (in_env (modify (Env.set_need_resched true)))
      else ret tt
  | None => ret tt
  end.

(** [priority_validate]; the messages it prints are not modelled. *)
Definition priority_validate : M state bool :=
  hd <- gets prio_queue ;;
  '(valid, count) <-
    loop (Datatypes.S (Datatypes.S (NPROC cfg))) (fun '(pv, node, valid, count) =>
      match node with
      | None => ret (inr (valid, count))
      | Some i =>
          n <- rd i ;;
          let count := count + 1 in
          let valid :=
            if (pid n <? 0) || (pid n >=? Z.of_nat (NPROC cfg)) then false else valid in
          valid' <- match pv with
                    | Some pi =>
                        pn <- rd pi ;;
                        if current_priority n >? current_priority pn
                        then ret false else ret valid
                    | None => ret valid
                    end ;;
          if count >? Z.of_nat (NPROC cfg)
          then ret (inr (false, count))
          else ret (inl (Some i, next n, valid', count))
      end) (@None nat, hd, true, 0) ;;
  c <- gets prio_queue_count ;;
  ret (if negb (count =? c) then false else valid).

(** The operations C3 ranges over, as one type. *)
Inductive op :=
| Enqueue (p : Z)
| Dequeue (p : Z)
| SetPriority (p priority : Z)
| Tick
| Schedule
| Yield
| Preempt.

Definition run_op (fuel : nat) (o : op) : M state unit :=
  match o with
  | Enqueue p => priority_enqueue fuel p
  | Dequeue p => priority_dequeue fuel p
  | SetPriority p x => priority_set fuel p x
  | Tick => priority_tick fuel
  | Schedule => priority_schedule fuel
  | Yield => priority_yield fuel
  | Preempt => priority_preempt fuel
  end.

Fixpoint run_ops (fuel : nat) (os : list op) : M state unit :=
  match os with
  | [] => ret tt
  | o :: os' => run_op fuel o ;; run_ops fuel os'
  end.

End WithConfig.

(** Sample values for the tunables, and a four-slot process table in which
    process 0 runs and processes 1 and 2 are ready at priorities 50 and 49. *)
Definition sample_config : config := mk_config 4 true 100 1 1000 10.

Definition env3 : Env.t :=
  Env.mk_env [Env.mk_proc Env.PR_CURR 60; Env.mk_proc Env.PR_READY 50;
              Env.mk_proc Env.PR_READY 49; Env.mk_proc Env.PR_FREE 0] 0 false [].

(** Process 2 becomes ready, one tick later process 1 does, and 999 more
    ticks pass. *)
Definition starving_run : list op :=
  [Enqueue 2; Tick; Enqueue 1] ++ replicate 999 Tick.

Definition starving : state :=
  Eval vm_compute in
    default (boot sample_config env3)
      (exec (priority_init sample_config ;; run_ops sample_config 8 starving_run)
            (boot sample_config env3)).

(** Processes 2 and 1 of [env3] made ready, in this order: pid 1
    (priority 50) is at the head of the list, in slot 1, and pid 2
    (priority 49) behind it, in slot 0. *)
Definition two_ready : state :=
  Eval vm_compute in
    default (boot sample_config env3)
      (exec (priority_init sample_config ;; run_ops sample_config 8 [Enqueue 2; Enqueue 1])
            (boot sample_config env3)).

(** The current priorities along the ready list, head first; [None] when
    the list is not a [NULL]-terminated chain of at most [fuel] nodes. *)
Fixpoint priorities (fuel : nat) (pool : list prio_node) (p : option nat)
  : option (list Z) :=
  match p with
  | None => Some []
  | Some i =>
      match fuel with
      | O => None
      | Datatypes.S f =>
          match pool !! i with
          | Some n => cons (current_priority n) <$> priorities f pool (next n)
          | None => None
          end
      end
  end.

(** Descending order: every element is at least its successor. *)
Fixpoint descending (l : list Z) : Prop :=
  match l with
  | a :: ((b :: _) as l') => a >= b /\ descending l'
  | _ => True
  end.

(** The invariant of the specification: the ready list is sorted
    descending by [current_priority]. *)
Definition sorted_queue (s : state) : Prop :=
  exists l, priorities (Datatypes.S (length (prio_node_pool s)))
                       (prio_node_pool s) (prio_queue s) = Some l /\
            descending l.

End Prio.

(** ** multilevel_queue.h, multilevel_queue.c: multi-level feedback queue *)

Module MLFQ.

Definition MLFQ_NUM_LEVELS : Z := 8.
Definition MLFQ_BOOST_INTERVAL : Z := 1000.
Definition MLFQ_MAX_WAIT_TIME : Z := 500.
Definition MLFQ_IO_BONUS_LEVELS : Z := 2.

(** [mlfq_node_t]. *)
Record mlfq_node := mk_node {
  pid : Z;
  level : Z;
  time_allotment : Z;
  time_used : Z;
  arrival_time : Z;
  io_count : Z;
  next : option nat;
  prev : option nat
}.

Definition zero_node : mlfq_node := mk_node 0 0 0 0 0 0 None None.

Definition set_pid v n := mk_node v (level n) (time_allotment n) (time_used n) (arrival_time n) (io_count n) (next n) (prev n).
Definition set_level v n := mk_node (pid n) v (time_allotment n) (time_used n) (arrival_time n) (io_count n) (next n) (prev n).
Definition set_time_allotment v n := mk_node (pid n) (level n) v (time_used n) (arrival_time n) (io_count n) (next n) (prev n).
Definition set_time_used v n := mk_node (pid n) (level n) (time_allotment n) v (arrival_time n) (io_count n) (next n) (prev n).
Definition set_arrival_time v n := mk_node (pid n) (level n) (time_allotment n) (time_used n) v (io_count n) (next n) (prev n).
Definition set_io_count v n := mk_node (pid n) (level n) (time_allotment n) (time_used n) (arrival_time n) v (next n) (prev n).
Definition set_next v n := mk_node (pid n) (level n) (time_allotment n) (time_used n) (arrival_time n) (io_count n) v (prev n).
Definition set_prev v n := mk_node (pid n) (level n) (time_allotment n) (time_used n) (arrival_time n) (io_count n) (next n) v.

(** [mlfq_queue_t]. *)
Record mlfq_queue := mk_queue {
  head : option nat;
  tail : option nat;
  count : Z;
  quantum : Z;
  allotment : Z
}.

Definition zero_queue : mlfq_queue := mk_queue None None 0 0 0.

Definition set_head v q := mk_queue v (tail q) (count q) (quantum q) (allotment q).
Definition set_tail v q := mk_queue (head q) v (count q) (quantum q) (allotment q).
Definition set_count v q := mk_queue (head q) (tail q) v (quantum q) (allotment q).
Definition set_quantum v q := mk_queue (head q) (tail q) (count q) v (allotment q).
Definition set_allotment v q := mk_queue (head q) (tail q) (count q) (quantum q) v.

(** [mlfq_stats_t]. *)
Record mlfq_stats_t := mk_stats {
  total_schedules : Z;
  context_switches : Z;
  promotions : Z;
  demotions : Z;
  priority_boosts : Z;
  io_bonuses : Z;
  per_level_count : list Z;
  per_level_time : list Z
}.

Definition zero_stats : mlfq_stats_t :=
  mk_stats 0 0 0 0 0 0 (replicate 8 0) (replicate 8 0).

Definition set_total_schedules v x := mk_stats v (context_switches x) (promotions x) (demotions x) (priority_boosts x) (io_bonuses x) (per_level_count x) (per_level_time x).
Definition set_context_switches v x := mk_stats (total_schedules x) v (promotions x) (demotions x) (priority_boosts x) (io_bonuses x) (per_level_count x) (per_level_time x).
Definition set_promotions v x := mk_stats (total_schedules x) (context_switches x) v (demotions x) (priority_boosts x) (io_bonuses x) (per_level_count x) (per_level_time x).
Definition set_demotions v x := mk_stats (total_schedules x) (context_switches x) (promotions x) v (priority_boosts x) (io_bonuses x) (per_level_count x) (per_level_time x).
Definition set_priority_boosts v x := mk_stats (total_schedules x) (context_switches x) (promotions x) (demotions x) v (io_bonuses x) (per_level_count x) (per_level_time x).
Definition set_io_bonuses v x := mk_stats (total_schedules x) (context_switches x) (promotions x) (demotions x) (priority_boosts x) v (per_level_count x) (per_level_time x).
Definition set_per_level_count v x := mk_stats (total_schedules x) (context_switches x) (promotions x) (demotions x) (priority_boosts x) (io_bonuses x) v (per_level_time x).
Definition set_per_level_time v x := mk_stats (total_schedules x) (context_switches x) (promotions x) (demotions x) (priority_boosts x) (io_bonuses x) (per_level_count x) v.

(** The statics of multilevel_queue.c, and the environment. *)
Record state := mk_state {
  mlfq_queues : list mlfq_queue;
  mlfq_node_pool : list mlfq_node;
  mlfq_free_nodes : option nat;
  level_quantums : list Z;
  level_allotments : list Z;
  boost_enabled : bool;
  boost_interval : Z;
  boost_counter : Z;
  io_bonus_enabled : bool;
  current_node : option nat;
  current_time_used : Z;
  mlfq_stats : mlfq_stats_t;
  mlfq_ticks : Z;
  env : Env.t
}.

Definition set_mlfq_queues v s := mk_state v (mlfq_node_pool s) (mlfq_free_nodes s) (level_quantums s) (level_allotments s) (boost_enabled s) (boost_interval s) (boost_counter s) (io_bonus_enabled s) (current_node s) (current_time_used s) (mlfq_stats s) (mlfq_ticks s) (env s).
Definition set_mlfq_node_pool v s := mk_state (mlfq_queues s) v (mlfq_free_nodes s) (level_quantums s) (level_allotments s) (boost_enabled s) (boost_interval s) (boost_counter s) (io_bonus_enabled s) (current_node s) (current_time_used s) (mlfq_stats s) (mlfq_ticks s) (env s).
Definition set_mlfq_free_nodes v s := mk_state (mlfq_queues s) (mlfq_node_pool s) v (level_quantums s) (level_allotments s) (boost_enabled s) (boost_interval s) (boost_counter s) (io_bonus_enabled s) (current_node s) (current_time_used s) (mlfq_stats s) (mlfq_ticks s) (env s).
Definition set_level_quantums v s := mk_state (mlfq_queues s) (mlfq_node_pool s) (mlfq_free_nodes s) v (level_allotments s) (boost_enabled s) (boost_interval s) (boost_counter s) (io_bonus_enabled s) (current_node s) (current_time_used s) (mlfq_stats s) (mlfq_ticks s) (env s).
Definition set_level_allotments v s := mk_state (mlfq_queues s) (mlfq_node_pool s) (mlfq_free_nodes s) (level_quantums s) v (boost_enabled s) (boost_interval s) (boost_counter s) (io_bonus_enabled s) (current_node s) (current_time_used s) (mlfq_stats s) (mlfq_ticks s) (env s).
Definition set_boost_enabled v s := mk_state (mlfq_queues s) (mlfq_node_pool s) (mlfq_free_nodes s) (level_quantums s) (level_allotments s) v (boost_interval s) (boost_counter s) (io_bonus_enabled s) (current_node s) (current_time_used s) (mlfq_stats s) (mlfq_ticks s) (env s).
Definition set_boost_interval v s := mk_state (mlfq_queues s) (mlfq_node_pool s) (mlfq_free_nodes s) (level_quantums s) (level_allotments s) (boost_enabled s) v (boost_counter s) (io_bonus_enabled s) (current_node s) (current_time_used s) (mlfq_stats s) (mlfq_ticks s) (env s).
Definition set_boost_counter v s := mk_state (mlfq_queues s) (mlfq_node_pool s) (mlfq_free_nodes s) (level_quantums s) (level_allotments s) (boost_enabled s) (boost_interval s) v (io_bonus_enabled s) (current_node s) (current_time_used s) (mlfq_stats s) (mlfq_ticks s) (env s).
Definition set_io_bonus_enabled v s := mk_state (mlfq_queues s) (mlfq_node_pool s) (mlfq_free_nodes s) (level_quantums s) (level_allotments s) (boost_enabled s) (boost_interval s) (boost_counter s) v (current_node s) (current_time_used s) (mlfq_stats s) (mlfq_ticks s) (env s).
Definition set_current_node v s := mk_state (mlfq_queues s) (mlfq_node_pool s) (mlfq_free_nodes s) (level_quantums s) (level_allotments s) (boost_enabled s) (boost_interval s) (boost_counter s) (io_bonus_enabled s) v (current_time_used s) (mlfq_stats s) (mlfq_ticks s) (env s).
Definition set_current_time_used v s := mk_state (mlfq_queues s) (mlfq_node_pool s) (mlfq_free_nodes s) (level_quantums s) (level_allotments s) (boost_enabled s) (boost_interval s) (boost_counter s) (io_bonus_enabled s) (current_node s) v (mlfq_stats s) (mlfq_ticks s) (env s).
Definition set_mlfq_stats v s := mk_state (mlfq_queues s) (mlfq_node_pool s) (mlfq_free_nodes s) (level_quantums s) (level_allotments s) (boost_enabled s) (boost_interval s) (boost_counter s) (io_bonus_enabled s) (current_node s) (current_time_used s) v (mlfq_ticks s) (env s).
Definition set_mlfq_ticks v s := mk_state (mlfq_queues s) (mlfq_node_pool s) (mlfq_free_nodes s) (level_quantums s) (level_allotments s) (boost_enabled s) (boost_interval s) (boost_counter s) (io_bonus_enabled s) (current_node s) (current_time_used s) (mlfq_stats s) v (env s).
Definition set_env v s := mk_state (mlfq_queues s) (mlfq_node_pool s) (mlfq_free_nodes s) (level_quantums s) (level_allotments s) (boost_enabled s) (boost_interval s) (boost_counter s) (io_bonus_enabled s) (current_node s) (current_time_used s) (mlfq_stats s) (mlfq_ticks s) v.

(** [a[i]] for an array of the statics; an index outside the array traps. *)
Definition at_index {A} (a : list A) (i : Z) : option A :=
  if i <? 0 then None else a !! Z.to_nat i.

Definition rd (i : nat) : M state mlfq_node :=
  fun s => match mlfq_node_pool s !! i with
           | Some n => Some (n, s)
           | None => None
           end.

Definition upd (i : nat) (f : mlfq_node -> mlfq_node) : M state unit :=
  fun s => match mlfq_node_pool s !! i with
           | Some n => Some (tt, set_mlfq_node_pool (<[i := f n]> (mlfq_node_pool s)) s)
           | None => None
           end.

(** [mlfq_queues[l]]. *)
Definition rdq (l : Z) : M state mlfq_queue :=
  fun s => match at_index (mlfq_queues s) l with
           | Some q => Some (q, s)
           | None => None
           end.

Definition updq (l : Z) (f : mlfq_queue -> mlfq_queue) : M state unit :=
  fun s => match at_index (mlfq_queues s) l with
           | Some q => Some (tt, set_mlfq_queues (<[Z.to_nat l := f q]> (mlfq_queues s)) s)
           | None => None
           end.

Definition rd_quantum (l : Z) : M state Z :=
  fun s => match at_index (level_quantums s) l with
           | Some q => Some (q, s)
           | None => None
           end.

Definition rd_allotment (l : Z) : M state Z :=
  fun s => match at_index (level_allotments s) l with
           | Some q => Some (q, s)
           | None => None
           end.

Definition upd_stats (f : mlfq_stats_t -> mlfq_stats_t) : M state unit :=
  modify (fun s => set_mlfq_stats (f (mlfq_stats s)) s).

(** [mlfq_stats.per_level_count[l] += d] in 32 bits. *)
Definition add_level_count (l : Z) (d : Z) : M state unit :=
  fun s => match at_index (per_level_count (mlfq_stats s)) l with
           | Some c =>
               Some (tt, set_mlfq_stats
                           (set_per_level_count
                              (<[Z.to_nat l := wrap32 (c + d)]>
                                 (per_level_count (mlfq_stats s)))
                              (mlfq_stats s)) s)
           | None => None
           end.

(** [mlfq_stats.per_level_time[l]++] in 64 bits. *)
Definition incr_level_time (l : Z) : M state unit :=
  fun s => match at_index (per_level_time (mlfq_stats s)) l with
           | Some c =>
               Some (tt, set_mlfq_stats
                           (set_per_level_time
                              (<[Z.to_nat l := wrap64 (c + 1)]>
                                 (per_level_time (mlfq_stats s)))
                              (mlfq_stats s)) s)
           | None => None
           end.

Definition in_env {A} (m : M Env.t A) : M state A := zoom env set_env m.

(** NPROC and the eight MLFQ_Qk_QUANTUM macros, which the sources do not
    define. *)
Record config := mk_config {
  NPROC : nat;
  MLFQ_QUANTUMS : list Z
}.

Section WithConfig.

Variable cfg : config.

(** The statics as the loader leaves them. *)
Definition boot (e : Env.t) : state :=
  mk_state (replicate 8 zero_queue) (replicate (NPROC cfg) zero_node) None
           (take 8 (MLFQ_QUANTUMS cfg ++ replicate 8 0)) (replicate 8 0)
           true MLFQ_BOOST_INTERVAL 0 true None 0 zero_stats 0 e.

Fixpoint pool_init_loop (n : nat) (i : nat) (pool : list mlfq_node) : list mlfq_node :=
  match n with
  | O => pool
  | Datatypes.S n' =>
      pool_init_loop n' (Datatypes.S i)
        (alter (fun x => set_pid (-1) (set_prev None (set_next (Some (Datatypes.S i)) x)))
               i pool)
  end.

Definition mlfq_pool_init : M state unit :=
  if Nat.eqb (NPROC cfg) 0 then fault else
  modify (set_mlfq_free_nodes (Some 0%nat)) ;;
  modify (fun s => set_mlfq_node_pool
                     (pool_init_loop (NPROC cfg - 1) 0 (mlfq_node_pool s)) s) ;;
  upd (NPROC cfg - 1) (set_next None).

Definition mlfq_node_alloc : M state (option nat) :=
  f <- gets mlfq_free_nodes ;;
  match f with
  | None => ret None
  | Some i =>
      n <- rd i ;;
      modify (set_mlfq_free_nodes (next n)) ;;
      upd i (set_next None) ;;
      upd i (set_prev None) ;;
      upd i (set_pid (-1)) ;;
      upd i (set_level 0) ;;
      a0 <- rd_allotment 0 ;;
      upd i (set_time_allotment a0) ;;
      upd i (set_time_used 0) ;;
      upd i (set_arrival_time 0) ;;
      upd i (set_io_count 0) ;;
      ret (Some i)
  end.

Definition mlfq_node_free (node : option nat) : M state unit :=
  match node with
  | None => ret tt
  | Some i =>
      f <- gets mlfq_free_nodes ;;
      upd i (set_next f) ;;
      modify (set_mlfq_free_nodes (Some i))
  end.

(** The inner [while] of [mlfq_find_node], on the queue of one level. *)
Definition find_in_level (fuel : nat) (p : Z) (lvl : nat) : M state (option nat) :=
  q <- rdq (Z.of_nat lvl) ;;
  loop fuel (fun node : option nat =>
    match node with
    | None => ret (inr None)
    | Some i =>
        n <- rd i ;;
        if pid n =? p then ret (inr (Some i)) else ret (inl (next n))
    end) (head q).

(** Modelled from the spec: the store through [out_level], which the
    source lacks (its block under [if (out_level != NULL)] is empty); the
    specification says the out parameter is meant to be populated, so the
    level at which the node was found is returned beside the node.  The
    rest is the [for] of [mlfq_find_node] from level [lvl] on, [levels]
    levels being left. *)
Fixpoint find_from (levels : nat) (lvl : nat) (fuel : nat) (p : Z)
  : M state (option (nat * Z)) :=
  match levels with
  | O => ret None
  | Datatypes.S r =>
      f <- find_in_level fuel p lvl ;;
      match f with
      | Some i => ret (Some (i, Z.of_nat lvl))
      | None => find_from r (Datatypes.S lvl) fuel p
      end
  end.

Definition mlfq_find_node (fuel : nat) (p : Z) : M state (option (nat * Z)) :=
  find_from 8 0 fuel p.

Definition mlfq_add_to_level (node : nat) (lvl : Z) : M state unit :=
  let lvl := if lvl >=? MLFQ_NUM_LEVELS then MLFQ_NUM_LEVELS - 1 else lvl in
  upd node (set_level lvl) ;;
  upd node (set_next None) ;;
  q <- rdq lvl ;;
  upd node (set_prev (tail q)) ;;
  q1 <- rdq lvl ;;
  match tail q1 with
  | Some t => upd t (set_next (Some node))
  | None => updq lvl (set_head (Some node))
  end ;;
  updq lvl (set_tail (Some node)) ;;
  updq lvl (fun q => set_count (wrap32 (count q + 1)) q) ;;
  add_level_count lvl 1.

Definition mlfq_remove_from_queue (node : nat) : M state unit :=
  n <- rd node ;;
  let lvl := level n in
  match prev n with
  | Some pv => n1 <- rd node ;; upd pv (set_next (next n1))
  | None => n1 <- rd node ;; updq lvl (set_head (next n1))
  end ;;
  n2 <- rd node ;;
  match next n2 with
  | Some nx => n3 <- rd node ;; upd nx (set_prev (prev n3))
  | None => n3 <- rd node ;; updq lvl (set_tail (prev n3))
  end ;;
  updq lvl (fun q => set_count (wrap32 (count q - 1)) q) ;;
  add_level_count lvl (-1) ;;
  upd node (set_next None) ;;
  upd node (set_prev None).

(** The [for] of [mlfq_init] over the levels. *)
Fixpoint init_levels (levels : nat) (i : nat) : M state unit :=
  match levels with
  | O => ret tt
  | Datatypes.S r =>
      let l := Z.of_nat i in
      updq l (set_head None) ;;
      updq l (set_tail None) ;;
      updq l (set_count 0) ;;
      q <- rd_quantum l ;;
      updq l (set_quantum q) ;;
      q' <- rd_quantum l ;;
      updq l (set_allotment (wrap32 (q' * 2))) ;;
      q'' <- rd_quantum l ;;
      modify (fun s => set_level_allotments
                         (<[i := wrap32 (q'' * 2)]> (level_allotments s)) s) ;;
      init_levels r (Datatypes.S i)
  end.

Definition mlfq_init : M state unit :=
  mlfq_pool_init ;;
  init_levels 8 0 ;;
  modify (set_boost_enabled true) ;;
  modify (set_boost_interval MLFQ_BOOST_INTERVAL) ;;
  modify (set_boost_counter 0) ;;
  modify (set_io_bonus_enabled true) ;;
  modify (set_current_node None) ;;
  modify (set_current_time_used 0) ;;
  modify (set_mlfq_stats zero_stats) ;;
  modify (set_mlfq_ticks 0).

Fixpoint shutdown_levels (levels : nat) (i : nat) : M state unit :=
  match levels with
  | O => ret tt
  | Datatypes.S r =>
      let l := Z.of_nat i in
      updq l (set_head None) ;;
      updq l (set_tail None) ;;
      updq l (set_count 0) ;;
      shutdown_levels r (Datatypes.S i)
  end.

Definition mlfq_shutdown : M state unit :=
  shutdown_levels 8 0 ;;
  modify (set_current_node None).

Definition mlfq_enqueue (fuel : nat) (p : Z) : M state unit :=
  if (p <? 0) || (p >=? Z.of_nat (NPROC cfg)) then ret tt else
  found <- mlfq_find_node fuel p ;;
  match found with
  | Some _ => ret tt
  | None =>
      a <- mlfq_node_alloc ;;
      match a with
      | None => ret tt
      | Some node =>
          pr <- in_env (Env.rd_proc p) ;;
          let start_level :=
            if Env.pprio pr >=? 75 then 0
            else if Env.pprio pr >=? 50 then 2
            else if Env.pprio pr >=? 25 then 4
            else 6 in
          upd node (set_pid p) ;;
          al <- rd_allotment start_level ;;
          upd node (set_time_allotment al) ;;
          upd node (set_time_used 0) ;;
          tk <- gets mlfq_ticks ;;
          upd node (set_arrival_time tk) ;;
          upd node (set_io_count 0) ;;
          mlfq_add_to_level node start_level
      end
  end.

Definition mlfq_dequeue (fuel : nat) (p : Z) : M state unit :=
  if (p <? 0) || (p >=? Z.of_nat (NPROC cfg)) then ret tt else
  found <- mlfq_find_node fuel p ;;
  match found with
  | None => ret tt
  | Some (node, _) =>
      cur <- gets current_node ;;
      when (ptr_eqb cur (Some node)) (modify (set_current_node None)) ;;
      mlfq_remove_from_queue node ;;
      mlfq_node_free (Some node)
  end.

(** The [for] of [mlfq_pick_next]. *)
Fixpoint pick_from (levels : nat) (i : nat) : M state Z :=
  match levels with
  | O => ret (-1)
  | Datatypes.S r =>
      q <- rdq (Z.of_nat i) ;;
      match head q with
      | Some h => n <- rd h ;; ret (pid n)
      | None => pick_from r (Datatypes.S i)
      end
  end.

Definition mlfq_pick_next : M state Z := pick_from 8 0.

Definition mlfq_move_to_level (fuel : nat) (p : Z) (lvl : Z) : M state unit :=
  if (p <? 0) || (p >=? Z.of_nat (NPROC cfg)) || (lvl >=? MLFQ_NUM_LEVELS)
  then ret tt else
  found <- mlfq_find_node fuel p ;;
  match found with
  | None => ret tt
  | Some (node, _) =>
      mlfq_remove_from_queue node ;;
      al <- rd_allotment lvl ;;
      upd node (set_time_allotment al) ;;
      upd node (set_time_used 0) ;;
      tk <- gets mlfq_ticks ;;
      upd node (set_arrival_time tk) ;;
      mlfq_add_to_level node lvl
  end.

Definition mlfq_demote (fuel : nat) (p : Z) : M state unit :=
  found <- mlfq_find_node fuel p ;;
  match found with
  | None => ret tt
  | Some (node, lvl) =>
      if lvl >=? MLFQ_NUM_LEVELS - 1 then
        upd node (set_time_used 0) ;;
        al <- rd_allotment lvl ;;
        upd node (set_time_allotment al)
      else
        mlfq_remove_from_queue node ;;
        let lvl := wrap32 (lvl + 1) in
        al <- rd_allotment lvl ;;
        upd node (set_time_allotment al) ;;
        upd node (set_time_used 0) ;;
        tk <- gets mlfq_ticks ;;
        upd node (set_arrival_time tk) ;;
        mlfq_add_to_level node lvl ;;
        upd_stats (fun x => set_demotions (wrap32 (demotions x + 1)) x)
  end.

Definition mlfq_promote (fuel : nat) (p : Z) : M state unit :=
  found <- mlfq_find_node fuel p ;;
  match found with
  | None => ret tt
  | Some (node, lvl) =>
      if lvl =? 0 then ret tt else
        mlfq_remove_from_queue node ;;
        let lvl := wrap32 (lvl - 1) in
        al <- rd_allotment lvl ;;
        upd node (set_time_allotment al) ;;
        upd node (set_time_used 0) ;;
        tk <- gets mlfq_ticks ;;
        upd node (set_arrival_time tk) ;;
        mlfq_add_to_level node lvl ;;
        upd_stats (fun x => set_promotions (wrap32 (promotions x + 1)) x)
  end.

(** In [mlfq_schedule] the search is for the pid of a queue head, so it
    finds a node; were it to fail, [level] would be read uninitialised,
    which traps here. *)
Definition mlfq_schedule (fuel : nat) : M state unit :=
  upd_stats (fun x => set_total_schedules (wrap64 (total_schedules x + 1)) x) ;;
  next_pid <- mlfq_pick_next ;;
  if next_pid <? 0 then ret tt else
  found <- mlfq_find_node fuel next_pid ;;
  cp <- gets (fun s => Env.currpid (env s)) ;;
  if negb (next_pid =? cp) then
    in_env (Env.curr_to_ready cp) ;;
    in_env (Env.upd_proc next_pid (Env.set_pstate Env.PR_CURR)) ;;
    in_env (modify (Env.set_currpid next_pid)) ;;
    modify (set_current_node (fst <$> found)) ;;
    modify (set_current_time_used 0) ;;
    upd_stats (fun x => set_context_switches (wrap64 (context_switches x + 1)) x) ;;
    match found with
    | Some (_, lvl) => incr_level_time lvl
    | None => fault
    end ;;
    in_env (Env.context_switch cp next_pid)
  else ret tt.

(** [if (proctab[currpid].pstate == PR_CURR) proctab[currpid].pstate =
    PR_READY; current_node = NULL; mlfq_schedule ();], the common end of
    [mlfq_yield] and [mlfq_preempt]. *)
Definition leave_cpu (fuel : nat) : M state unit :=
  cp <- gets (fun s => Env.currpid (env s)) ;;
  in_env (Env.curr_to_ready cp) ;;
  modify (set_current_node None) ;;
  mlfq_schedule fuel.

Definition mlfq_yield (fuel : nat) : M state unit :=
  cur <- gets current_node ;;
  match cur with
  | Some c =>
      upd c (fun n => set_io_count (wrap32 (io_count n + 1)) n) ;;
      upd c (set_time_used 0) ;;
      en <- gets io_bonus_enabled ;;
      n <- rd c ;;
      when (en && (io_count n >? 5))
           (n1 <- rd c ;;
            mlfq_promote fuel (pid n1) ;;
            upd c (set_io_count 0) ;;
            upd_stats (fun x => set_io_bonuses (wrap32 (io_bonuses x + 1)) x))
  | None => ret tt
  end ;;
  leave_cpu fuel.

(** The accounting block of [mlfq_preempt]:
    [if (current_node != NULL) { current_node->time_used +=
    level_quantums[current_node->level]; if (current_node->time_used >=
    current_node->time_allotment) mlfq_demote (current_node->pid); else {
    mlfq_remove_from_queue (current_node); mlfq_add_to_level (current_node,
    current_node->level); } }] *)
Definition preempt_account (fuel : nat) : M state unit :=
  cur <- gets current_node ;;
  match cur with
  | Some c =>
      n <- rd c ;;
      q <- rd_quantum (level n) ;;
      upd c (fun n => set_time_used (wrap32 (time_used n + q)) n) ;;
      n1 <- rd c ;;
      if time_used n1 >=? time_allotment n1 then
        mlfq_demote fuel (pid n1)
      else
        mlfq_remove_from_queue c ;;
        n2 <- rd c ;;
        mlfq_add_to_level c (level n2)
  | None => ret tt
  end.

Definition mlfq_preempt (fuel : nat) : M state unit :=
  preempt_account fuel ;;
  leave_cpu fuel.

(** The inner [while] of [mlfq_priority_boost] on one level. *)
Definition boost_level (fuel : nat) (lvl : nat) : M state unit :=
  q <- rdq (Z.of_nat lvl) ;;
  loop fuel (fun node : option nat =>
    match node with
    | None => ret (inr tt)
    | Some i =>
        n <- rd i ;;
        let nx := next n in
        mlfq_remove_from_queue i ;;
        a0 <- rd_allotment 0 ;;
        upd i (set_time_allotment a0) ;;
        upd i (set_time_used 0) ;;
        tk <- gets mlfq_ticks ;;
        upd i (set_arrival_time tk) ;;
        mlfq_add_to_level i 0 ;;
        ret (inl nx)
    end) (head q).

Fixpoint boost_from (levels : nat) (lvl : nat) (fuel : nat) : M state unit :=
  match levels with
  | O => ret tt
  | Datatypes.S r => boost_level fuel lvl ;; boost_from r (Datatypes.S lvl) fuel
  end.

Definition mlfq_priority_boost (fuel : nat) : M state unit :=
  boost_from 7 1 fuel ;;
  upd_stats (fun x => set_priority_boosts (wrap32 (priority_boosts x + 1)) x).

Definition mlfq_set_boost_interval (ticks : Z) : M state unit :=
  modify (set_boost_interval ticks).

Definition mlfq_boost_enable (enable : bool) : M state unit :=
  modify (set_boost_enabled enable).

Definition mlfq_set_quantum (lvl : Z) (q : Z) : M state unit :=
  if lvl >=? MLFQ_NUM_LEVELS then ret tt else
  modify (fun s => set_level_quantums (<[Z.to_nat lvl := q]> (level_quantums s)) s) ;;
  updq lvl (set_quantum q) ;;
  modify (fun s => set_level_allotments
                     (<[Z.to_nat lvl := wrap32 (q * 2)]> (level_allotments s)) s) ;;
  updq lvl (set_allotment (wrap32 (q * 2))).

Definition mlfq_tick (fuel : nat) : M state unit :=
  modify (fun s => set_mlfq_ticks (wrap64 (mlfq_ticks s + 1)) s) ;;
  modify (fun s => set_current_time_used (wrap32 (current_time_used s + 1)) s) ;;
  cur <- gets current_node ;;
  match cur with
  | Some c =>
      n <- rd c ;;
      incr_level_time (level n) ;;
      n1 <- rd c ;;
      q <- rd_quantum (level n1) ;;
      used <- gets current_time_used ;;
      when (used >=? q) (in_env (modify (Env.set_need_resched true)))
  | None => ret tt
  end ;;
  en <- gets boost_enabled ;;
  when en
       (modify (fun s => set_boost_counter (wrap32 (boost_counter s + 1)) s) ;;
        bc <- gets boost_counter ;;
        bi <- gets boost_interval ;;
        when (bc >=? bi)
             (mlfq_priority_boost fuel ;;
              modify (set_boost_counter 0))).

(** Calls of the interface, as one type. *)
Inductive op :=
| Enqueue (p : Z)
| Dequeue (p : Z)
| Schedule
| Yield
| Preempt
| Tick
| Demote (p : Z)
| Promote (p : Z).

Definition run_op (fuel : nat) (o : op) : M state unit :=
  match o with
  | Enqueue p => mlfq_enqueue fuel p
  | Dequeue p => mlfq_dequeue fuel p
  | Schedule => mlfq_schedule fuel
  | Yield => mlfq_yield fuel
  | Preempt => mlfq_preempt fuel
  | Tick => mlfq_tick fuel
  | Demote p => mlfq_demote fuel p
  | Promote p => mlfq_promote fuel p
  end.

Fixpoint run_ops (fuel : nat) (os : list op) : M state unit :=
  match os with
  | [] => ret tt
  | o :: os' => run_op fuel o ;; run_ops fuel os'
  end.

End WithConfig.

(** The quanta of the specification, 2 * 2^k for level k, with NPROC = 4;
    and a process table in which process 0 runs and process 1 is ready
    at priority 75. *)
Definition sample_config : config := mk_config 4 [2; 4; 8; 16; 32; 64; 128; 256].

Definition env_cpu : Env.t :=
  Env.mk_env [Env.mk_proc Env.PR_CURR 10; Env.mk_proc Env.PR_READY 75;
              Env.mk_proc Env.PR_READY 75; Env.mk_proc Env.PR_FREE 0] 0 false [].

(** The state after the given calls on a freshly initialised policy. *)
Definition after (os : list op) : option state :=
  exec (mlfq_init sample_config ;; run_ops sample_config 8 os)
       (boot sample_config env_cpu).

(** A pointer is [NULL] or points into a pool of [N] nodes. *)
Definition in_pool (N : nat) (p : option nat) : Prop :=
  match p with
  | Some j => (j < N)%nat
  | None => True
  end.

Definition ok_node (N : nat) (n : mlfq_node) : Prop :=
  in_pool N (next n) /\ in_pool N (prev n) /\ 0 <= level n < MLFQ_NUM_LEVELS.

Definition ok_queue (N : nat) (q : mlfq_queue) : Prop :=
  in_pool N (head q) /\ in_pool N (tail q).

(** Every pointer of the policy points into the node pool, every node
    records one of the eight levels, and the arrays have their declared
    length. *)
Definition closed (s : state) : Prop :=
  Forall (ok_node (length (mlfq_node_pool s))) (mlfq_node_pool s) /\
  Forall (ok_queue (length (mlfq_node_pool s))) (mlfq_queues s) /\
  length (mlfq_queues s) = 8%nat /\
  length (level_quantums s) = 8%nat /\
  length (level_allotments s) = 8%nat /\
  length (per_level_count (mlfq_stats s)) = 8%nat /\
  length (per_level_time (mlfq_stats s)) = 8%nat.

(** A node without its links. *)
Definition unlink (n : mlfq_node) : mlfq_node := set_next None (set_prev None n).

(** Slot [i] of the pool holds [v], up to the links. *)
Definition holds (i : nat) (v : mlfq_node) (s : state) : Prop :=
  exists n, mlfq_node_pool s !! i = Some n /\ unlink n = v.

(** From [s] to [s'] every node's [time_used] is kept or reset to 0. *)
Definition kept_or_reset (s s' : state) : Prop :=
  forall i n', mlfq_node_pool s' !! i = Some n' ->
    exists n, mlfq_node_pool s !! i = Some n /\
              (time_used n' = time_used n \/ time_used n' = 0).

(** The invariant carried through a run that follows node [i]: the state
    is closed over a pool of [N] nodes, slot [i] holds [v] up to its links,
    and the quanta, the allotments and the clock are the given ones. *)
Definition tracked (N : nat) (i : nat) (v : mlfq_node) (LQ LA : list Z) (TK : Z)
    (s : state) : Prop :=
  closed s /\ length (mlfq_node_pool s) = N /\ holds i v s /\
  level_quantums s = LQ /\ level_allotments s = LA /\ mlfq_ticks s = TK.

(** Two states with the same queues and, slot by slot, the same [pid] and
    [next]: all that [mlfq_find_node] reads. *)
Definition same_chains (s s2 : state) : Prop :=
  mlfq_queues s2 = mlfq_queues s /\
  forall j, (fun n => (pid n, next n)) <$> (mlfq_node_pool s2 !! j)
            = (fun n => (pid n, next n)) <$> (mlfq_node_pool s !! j).

(** Processes 1 and 2 share level 0; each has been preempted once, and
    process 1 runs again with half its allotment used. *)
Definition half_used : state :=
  Eval vm_compute in
    default (boot sample_config env_cpu)
      (after [Enqueue 1; Enqueue 2; Schedule; Preempt; Preempt]).

(** No priority boost is due at the next tick. *)
Definition boost_not_due (s : state) : Prop :=
  boost_enabled s = false \/ wrap32 (boost_counter s + 1) < boost_interval s.

End MLFQ.

(** ** realtime.h, realtime.c: EDF, RMS, DMS and LLF *)

Module RT.

Definition RT_MAX_TASKS : nat := 64.

Inductive rt_algorithm_t := RT_ALGO_EDF | RT_ALGO_RMS | RT_ALGO_DMS | RT_ALGO_LLF.

Definition RT_DEFAULT_ALGO : rt_algorithm_t := RT_ALGO_EDF.
Definition RT_DEFAULT_PERIOD : Z := 100.
Definition RT_DEFAULT_DEADLINE : Z := 100.
Definition RT_DEFAULT_WCET : Z := 10.

Inductive rt_miss_policy_t := RT_MISS_SKIP | RT_MISS_CONTINUE | RT_MISS_ABORT | RT_MISS_NOTIFY.

Definition RT_DEFAULT_MISS_POLICY : rt_miss_policy_t := RT_MISS_NOTIFY.

Inductive rt_task_state_t :=
| RT_STATE_INACTIVE | RT_STATE_READY | RT_STATE_RUNNING
| RT_STATE_BLOCKED | RT_STATE_COMPLETED | RT_STATE_MISSED.

Definition state_eqb (a b : rt_task_state_t) : bool :=
  match a, b with
  | RT_STATE_INACTIVE, RT_STATE_INACTIVE | RT_STATE_READY, RT_STATE_READY
  | RT_STATE_RUNNING, RT_STATE_RUNNING | RT_STATE_BLOCKED, RT_STATE_BLOCKED
  | RT_STATE_COMPLETED, RT_STATE_COMPLETED | RT_STATE_MISSED, RT_STATE_MISSED => true
  | _, _ => false
  end.

(** [rt_task_params_t]. *)
Record rt_task_params_t := mk_params {
  period : Z;
  deadline : Z;
  wcet : Z;
  phase : Z;
  miss_policy : rt_miss_policy_t
}.

(** [rt_task_t]; [laxity] is the signed reading of its 64 bits. *)
Record rt_task := mk_task {
  pid : Z;
  params : rt_task_params_t;
  state : rt_task_state_t;
  release_time : Z;
  absolute_deadline : Z;
  remaining_time : Z;
  start_time : Z;
  instances : Z;
  completions : Z;
  deadline_misses : Z;
  total_response_time : Z;
  worst_response_time : Z;
  total_exec_time : Z;
  rms_priority : Z;
  laxity : Z;
  next : option nat
}.

(** A task after [memset (task, 0, sizeof (rt_task_t))]. *)
Definition zero_task : rt_task :=
  mk_task 0 (mk_params 0 0 0 0 RT_MISS_SKIP) RT_STATE_INACTIVE
          0 0 0 0 0 0 0 0 0 0 0 0 None.

Definition set_pid v t := mk_task v (params t) (state t) (release_time t) (absolute_deadline t) (remaining_time t) (start_time t) (instances t) (completions t) (deadline_misses t) (total_response_time t) (worst_response_time t) (total_exec_time t) (rms_priority t) (laxity t) (next t).
Definition set_params v t := mk_task (pid t) v (state t) (release_time t) (absolute_deadline t) (remaining_time t) (start_time t) (instances t) (completions t) (deadline_misses t) (total_response_time t) (worst_response_time t) (total_exec_time t) (rms_priority t) (laxity t) (next t).
Definition set_state v t := mk_task (pid t) (params t) v (release_time t) (absolute_deadline t) (remaining_time t) (start_time t) (instances t) (completions t) (deadline_misses t) (total_response_time t) (worst_response_time t) (total_exec_time t) (rms_priority t) (laxity t) (next t).
Definition set_release_time v t := mk_task (pid t) (params t) (state t) v (absolute_deadline t) (remaining_time t) (start_time t) (instances t) (completions t) (deadline_misses t) (total_response_time t) (worst_response_time t) (total_exec_time t) (rms_priority t) (laxity t) (next t).
Definition set_absolute_deadline v t := mk_task (pid t) (params t) (state t) (release_time t) v (remaining_time t) (start_time t) (instances t) (completions t) (deadline_misses t) (total_response_time t) (worst_response_time t) (total_exec_time t) (rms_priority t) (laxity t) (next t).
Definition set_remaining_time v t := mk_task (pid t) (params t) (state t) (release_time t) (absolute_deadline t) v (start_time t) (instances t) (completions t) (deadline_misses t) (total_response_time t) (worst_response_time t) (total_exec_time t) (rms_priority t) (laxity t) (next t).
Definition set_start_time v t := mk_task (pid t) (params t) (state t) (release_time t) (absolute_deadline t) (remaining_time t) v (instances t) (completions t) (deadline_misses t) (total_response_time t) (worst_response_time t) (total_exec_time t) (rms_priority t) (laxity t) (next t).
Definition set_instances v t := mk_task (pid t) (params t) (state t) (release_time t) (absolute_deadline t) (remaining_time t) (start_time t) v (completions t) (deadline_misses t) (total_response_time t) (worst_response_time t) (total_exec_time t) (rms_priority t) (laxity t) (next t).
Definition set_completions v t := mk_task (pid t) (params t) (state t) (release_time t) (absolute_deadline t) (remaining_time t) (start_time t) (instances t) v (deadline_misses t) (total_response_time t) (worst_response_time t) (total_exec_time t) (rms_priority t) (laxity t) (next t).
Definition set_deadline_misses v t := mk_task (pid t) (params t) (state t) (release_time t) (absolute_deadline t) (remaining_time t) (start_time t) (instances t) (completions t) v (total_response_time t) (worst_response_time t) (total_exec_time t) (rms_priority t) (laxity t) (next t).
Definition set_total_response_time v t := mk_task (pid t) (params t) (state t) (release_time t) (absolute_deadline t) (remaining_time t) (start_time t) (instances t) (completions t) (deadline_misses t) v (worst_response_time t) (total_exec_time t) (rms_priority t) (laxity t) (next t).
Definition set_worst_response_time v t := mk_task (pid t) (params t) (state t) (release_time t) (absolute_deadline t) (remaining_time t) (start_time t) (instances t) (completions t) (deadline_misses t) (total_response_time t) v (total_exec_time t) (rms_priority t) (laxity t) (next t).
Definition set_total_exec_time v t := mk_task (pid t) (params t) (state t) (release_time t) (absolute_deadline t) (remaining_time t) (start_time t) (instances t) (completions t) (deadline_misses t) (total_response_time t) (worst_response_time t) v (rms_priority t) (laxity t) (next t).
Definition set_rms_priority v t := mk_task (pid t) (params t) (state t) (release_time t) (absolute_deadline t) (remaining_time t) (start_time t) (instances t) (completions t) (deadline_misses t) (total_response_time t) (worst_response_time t) (total_exec_time t) v (laxity t) (next t).
Definition set_laxity v t := mk_task (pid t) (params t) (state t) (release_time t) (absolute_deadline t) (remaining_time t) (start_time t) (instances t) (completions t) (deadline_misses t) (total_response_time t) (worst_response_time t) (total_exec_time t) (rms_priority t) v (next t).
Definition set_next v t := mk_task (pid t) (params t) (state t) (release_time t) (absolute_deadline t) (remaining_time t) (start_time t) (instances t) (completions t) (deadline_misses t) (total_response_time t) (worst_response_time t) (total_exec_time t) (rms_priority t) (laxity t) v.

(** [rt_stats_t]; [utilization] as an exact rational, and without the
    bound that needs [pow]. *)
Record rt_stats_t := mk_stats {
  total_releases : Z;
  total_completions : Z;
  total_deadline_misses : Z;
  preemptions : Z;
  context_switches : Z;
  utilization : Q;
  schedulable : bool
}.

Definition zero_stats : rt_stats_t := mk_stats 0 0 0 0 0 0%Q false.

Definition set_total_releases v x := mk_stats v (total_completions x) (total_deadline_misses x) (preemptions x) (context_switches x) (utilization x) (schedulable x).
Definition set_total_completions v x := mk_stats (total_releases x) v (total_deadline_misses x) (preemptions x) (context_switches x) (utilization x) (schedulable x).
Definition set_total_deadline_misses v x := mk_stats (total_releases x) (total_completions x) v (preemptions x) (context_switches x) (utilization x) (schedulable x).
Definition set_preemptions v x := mk_stats (total_releases x) (total_completions x) (total_deadline_misses x) v (context_switches x) (utilization x) (schedulable x).
Definition set_context_switches v x := mk_stats (total_releases x) (total_completions x) (total_deadline_misses x) (preemptions x) v (utilization x) (schedulable x).
Definition set_utilization v x := mk_stats (total_releases x) (total_completions x) (total_deadline_misses x) (preemptions x) (context_switches x) v (schedulable x).
Definition set_schedulable v x := mk_stats (total_releases x) (total_completions x) (total_deadline_misses x) (preemptions x) (context_switches x) (utilization x) v.

(** The statics of realtime.c, and the log of [context_switch] calls. *)
Record rt_state := mk_state {
  task_pool : list rt_task;
  free_tasks : option nat;
  ready_queue : option nat;
  current_task : option nat;
  task_count : Z;
  current_algo : rt_algorithm_t;
  system_time : Z;
  stats : rt_stats_t;
  all_tasks : option nat;
  ctx_log : list (Z * Z)
}.

Definition set_task_pool v s := mk_state v (free_tasks s) (ready_queue s) (current_task s) (task_count s) (current_algo s) (system_time s) (stats s) (all_tasks s) (ctx_log s).
Definition set_free_tasks v s := mk_state (task_pool s) v (ready_queue s) (current_task s) (task_count s) (current_algo s) (system_time s) (stats s) (all_tasks s) (ctx_log s).
Definition set_ready_queue v s := mk_state (task_pool s) (free_tasks s) v (current_task s) (task_count s) (current_algo s) (system_time s) (stats s) (all_tasks s) (ctx_log s).
Definition set_current_task v s := mk_state (task_pool s) (free_tasks s) (ready_queue s) v (task_count s) (current_algo s) (system_time s) (stats s) (all_tasks s) (ctx_log s).
Definition set_task_count v s := mk_state (task_pool s) (free_tasks s) (ready_queue s) (current_task s) v (current_algo s) (system_time s) (stats s) (all_tasks s) (ctx_log s).
Definition set_current_algo v s := mk_state (task_pool s) (free_tasks s) (ready_queue s) (current_task s) (task_count s) v (system_time s) (stats s) (all_tasks s) (ctx_log s).
Definition set_system_time v s := mk_state (task_pool s) (free_tasks s) (ready_queue s) (current_task s) (task_count s) (current_algo s) v (stats s) (all_tasks s) (ctx_log s).
Definition set_stats v s := mk_state (task_pool s) (free_tasks s) (ready_queue s) (current_task s) (task_count s) (current_algo s) (system_time s) v (all_tasks s) (ctx_log s).
Definition set_all_tasks v s := mk_state (task_pool s) (free_tasks s) (ready_queue s) (current_task s) (task_count s) (current_algo s) (system_time s) (stats s) v (ctx_log s).
Definition set_ctx_log v s := mk_state (task_pool s) (free_tasks s) (ready_queue s) (current_task s) (task_count s) (current_algo s) (system_time s) (stats s) (all_tasks s) v.

Definition boot : rt_state :=
  mk_state (replicate RT_MAX_TASKS zero_task) None None None 0 RT_DEFAULT_ALGO 0
           zero_stats None [].

Definition rd (i : nat) : M rt_state rt_task :=
  fun s => match task_pool s !! i with
           | Some t => Some (t, s)
           | None => None
           end.

Definition upd (i : nat) (f : rt_task -> rt_task) : M rt_state unit :=
  fun s => match task_pool s !! i with
           | Some t => Some (tt, set_task_pool (<[i := f t]> (task_pool s)) s)
           | None => None
           end.

Definition upd_stats (f : rt_stats_t -> rt_stats_t) : M rt_state unit :=
  modify (fun s => set_stats (f (stats s)) s).

Definition context_switch (old new : Z) : M rt_state unit :=
  modify (fun s => set_ctx_log ((old, new) :: ctx_log s) s).

Definition alloc_task : M rt_state (option nat) :=
  f <- gets free_tasks ;;
  match f with
  | None => ret None
  | Some i =>
      t <- rd i ;;
      modify (set_free_tasks (next t)) ;;
      upd i (fun _ => zero_task) ;;
      ret (Some i)
  end.

Definition free_task (task : option nat) : M rt_state unit :=
  match task with
  | None => ret tt
  | Some i =>
      f <- gets free_tasks ;;
      upd i (set_next f) ;;
      modify (set_free_tasks (Some i))
  end.

Definition find_task (fuel : nat) (p : Z) : M rt_state (option nat) :=
  hd <- gets all_tasks ;;
  loop fuel (fun task : option nat =>
    match task with
    | None => ret (inr None)
    | Some i =>
        t <- rd i ;;
        if pid t =? p then ret (inr (Some i)) else ret (inl (next t))
    end) hd.

(** The [switch] of [insert_ready]: does [task] go before [curr]? *)
Definition insert_here (algo : rt_algorithm_t) (task curr : rt_task) : bool :=
  match algo with
  | RT_ALGO_EDF => absolute_deadline task <? absolute_deadline curr
  | RT_ALGO_RMS | RT_ALGO_DMS => rms_priority task >? rms_priority curr
  | RT_ALGO_LLF => laxity task <? laxity curr
  end.

Definition insert_ready (fuel : nat) (task : option nat) : M rt_state unit :=
  match task with
  | None => ret tt
  | Some i =>
      upd i (set_state RT_STATE_READY) ;;
      rq <- gets ready_queue ;;
      match rq with
      | None =>
          upd i (set_next None) ;;
          modify (set_ready_queue (Some i))
      | Some _ =>
          '(pv, cur) <- loop fuel (fun '(pv, cur) =>
              match cur with
              | None => ret (inr (pv, cur))
              | Some c =>
                  algo <- gets current_algo ;;
                  t <- rd i ;;
                  ct <- rd c ;;
                  if insert_here algo t ct
                  then ret (inr (pv, cur))
                  else ret (inl (Some c, next ct))
              end) (@None nat, rq) ;;
          match pv with
          | None =>
              rq' <- gets ready_queue ;;
              upd i (set_next rq') ;;
              modify (set_ready_queue (Some i))
          | Some pi =>
              pt <- rd pi ;;
              upd i (set_next (next pt)) ;;
              upd pi (set_next (Some i))
          end
      end
  end.

Definition remove_ready (fuel : nat) (task : option nat) : M rt_state unit :=
  rq <- gets ready_queue ;;
  match task, rq with
  | None, _ | _, None => ret tt
  | Some i, Some h =>
      if Nat.eqb h i then
        t <- rd i ;;
        modify (set_ready_queue (next t)) ;;
        upd i (set_next None)
      else
        pv <- loop fuel (fun pv : nat =>
                pt <- rd pv ;;
                if negb (is_null (next pt)) && negb (ptr_eqb (next pt) (Some i))
                then match next pt with
                     | Some nx => ret (inl nx)
                     | None => fault
                     end
                else ret (inr pv)) h ;;
        pt <- rd pv ;;
        when (ptr_eqb (next pt) (Some i))
             (t <- rd i ;;
              upd pv (set_next (next t)) ;;
              upd i (set_next None))
  end.

(** The [for] of [realtime_init], from slot [n - 1] down to slot 0. *)
Fixpoint init_free_list (n : nat) : M rt_state unit :=
  match n with
  | O => ret tt
  | Datatypes.S i =>
      f <- gets free_tasks ;;
      upd i (set_next f) ;;
      modify (set_free_tasks (Some i)) ;;
      init_free_list i
  end.

Definition realtime_init : M rt_state unit :=
  modify (set_free_tasks None) ;;
  init_free_list RT_MAX_TASKS ;;
  modify (set_ready_queue None) ;;
  modify (set_all_tasks None) ;;
  modify (set_current_task None) ;;
  modify (set_task_count 0) ;;
  modify (set_system_time 0) ;;
  modify (set_current_algo RT_DEFAULT_ALGO) ;;
  modify (set_stats zero_stats).

Definition realtime_shutdown (fuel : nat) : M rt_state unit :=
  hd <- gets all_tasks ;;
  loop fuel (fun task : option nat =>
    match task with
    | None => ret (inr tt)
    | Some i =>
        t <- rd i ;;
        free_task (Some i) ;;
        ret (inl (next t))
    end) hd ;;
  modify (set_ready_queue None) ;;
  modify (set_all_tasks None) ;;
  modify (set_current_task None) ;;
  modify (set_task_count 0).

(** [sorted[count++] = task] along [all_tasks], for at most RT_MAX_TASKS
    tasks. *)
Fixpoint collect (n : nat) (task : option nat) (sorted : list nat)
  : M rt_state (list nat) :=
  match n, task with
  | Datatypes.S n', Some i =>
      t <- rd i ;;
      collect n' (next t) (sorted ++ [i])
  | _, _ => ret sorted
  end.

(** The inner [for] of the bubble sort, from index [j], [steps] times. *)
Fixpoint bubble_pass (key : rt_task -> Z) (steps : nat) (j : nat) (sorted : list nat)
  : M rt_state (list nat) :=
  match steps with
  | O => ret sorted
  | Datatypes.S k =>
      a <- lift (sorted !! j) ;;
      b <- lift (sorted !! Datatypes.S j) ;;
      ta <- rd a ;;
      tb <- rd b ;;
      bubble_pass key k (Datatypes.S j)
        (if key ta >? key tb then <[j := b]> (<[Datatypes.S j := a]> sorted)
         else sorted)
  end.

(** The outer [for], from round [i], [rounds] times. *)
Fixpoint bubble (key : rt_task -> Z) (rounds : nat) (i : nat) (count : nat)
    (sorted : list nat) : M rt_state (list nat) :=
  match rounds with
  | O => ret sorted
  | Datatypes.S r =>
      sorted' <- bubble_pass key (count - i - 1) 0 sorted ;;
      bubble key r (Datatypes.S i) count sorted'
  end.

(** [sorted[i]->rms_priority = count - i] from index [i] on. *)
Fixpoint assign (count : nat) (i : nat) (rest : list nat) : M rt_state unit :=
  match rest with
  | [] => ret tt
  | a :: rest' =>
      upd a (set_rms_priority (wrap32 (Z.of_nat count - Z.of_nat i))) ;;
      assign count (Datatypes.S i) rest'
  end.

Definition assign_priorities (key : rt_task -> Z) : M rt_state unit :=
  hd <- gets all_tasks ;;
  sorted <- collect RT_MAX_TASKS hd [] ;;
  let count := length sorted in
  sorted' <- bubble key (count - 1) 0 count sorted ;;
  assign count 0 sorted'.

Definition rms_assign_priorities : M rt_state unit :=
  assign_priorities (fun t => period (params t)).

Definition dms_assign_priorities : M rt_state unit :=
  assign_priorities (fun t => deadline (params t)).

Definition llf_update_laxity (fuel : nat) : M rt_state unit :=
  hd <- gets all_tasks ;;
  loop fuel (fun task : option nat =>
    match task with
    | None => ret (inr tt)
    | Some i =>
        t <- rd i ;;
        when (state_eqb (state t) RT_STATE_READY || state_eqb (state t) RT_STATE_RUNNING)
             (now <- gets system_time ;;
              upd i (fun t => set_laxity
                                (swrap64 (absolute_deadline t - now - remaining_time t)) t)) ;;
        t' <- rd i ;;
        ret (inl (next t'))
    end) hd.

(** The re-sort of the ready queue in [realtime_set_algorithm] and
    [realtime_tick]. *)
Definition requeue_all (fuel : nat) : M rt_state unit :=
  old <- gets ready_queue ;;
  modify (set_ready_queue None) ;;
  loop fuel (fun old_queue : option nat =>
    match old_queue with
    | None => ret (inr tt)
    | Some i =>
        t <- rd i ;;
        upd i (set_next None) ;;
        insert_ready fuel (Some i) ;;
        ret (inl (next t))
    end) old.

Definition algo_eqb (a b : rt_algorithm_t) : bool :=
  match a, b with
  | RT_ALGO_EDF, RT_ALGO_EDF | RT_ALGO_RMS, RT_ALGO_RMS
  | RT_ALGO_DMS, RT_ALGO_DMS | RT_ALGO_LLF, RT_ALGO_LLF => true
  | _, _ => false
  end.

Definition realtime_set_algorithm (fuel : nat) (algo : rt_algorithm_t) : M rt_state unit :=
  cur <- gets current_algo ;;
  if algo_eqb algo cur then ret tt else
  modify (set_current_algo algo) ;;
  match algo with
  | RT_ALGO_RMS => rms_assign_priorities
  | RT_ALGO_DMS => dms_assign_priorities
  | RT_ALGO_LLF => llf_update_laxity fuel
  | RT_ALGO_EDF => ret tt
  end ;;
  requeue_all fuel.

Definition INT64_MAX : Z := 2 ^ 63 - 1.

Definition llf_pick_next (fuel : nat) : M rt_state (option nat) :=
  llf_update_laxity fuel ;;
  rq <- gets ready_queue ;;
  '(min_task, _) <- loop fuel (fun '(min_task, min_laxity, task) =>
      match task with
      | None => ret (inr (min_task, min_laxity))
      | Some i =>
          t <- rd i ;;
          if state_eqb (state t) RT_STATE_READY && (laxity t <? min_laxity)
          then ret (inl (Some i, laxity t, next t))
          else ret (inl (min_task, min_laxity, next t))
      end) (@None nat, INT64_MAX, rq) ;;
  ret min_task.

Definition realtime_schedule (fuel : nat) : M rt_state unit :=
  algo <- gets current_algo ;;
  nxt <- match algo with
         | RT_ALGO_EDF | RT_ALGO_RMS | RT_ALGO_DMS => gets ready_queue
         | RT_ALGO_LLF => llf_pick_next fuel
         end ;;
  match nxt with
  | None => modify (set_current_task None)
  | Some n =>
      remove_ready fuel (Some n) ;;
      cur <- gets current_task ;;
      if negb (ptr_eqb (Some n) cur) then
        old_pid <- match cur with
                   | Some c => ct <- rd c ;; ret (pid ct)
                   | None => ret (-1)
                   end ;;
        match cur with
        | Some c =>
            ct <- rd c ;;
            when (state_eqb (state ct) RT_STATE_RUNNING)
                 (upd c (set_state RT_STATE_READY) ;;
                  insert_ready fuel (Some c) ;;
                  upd_stats (fun x => set_preemptions (wrap64 (preemptions x + 1)) x))
        | None => ret tt
        end ;;
        modify (set_current_task (Some n)) ;;
        upd n (set_state RT_STATE_RUNNING) ;;
        now <- gets system_time ;;
        upd n (set_start_time now) ;;
        upd_stats (fun x => set_context_switches (wrap64 (context_switches x + 1)) x) ;;
        nt <- rd n ;;
        context_switch old_pid (pid nt)
      else ret tt
  end.

(** [elapsed = system_time - start_time; if (elapsed < remaining_time)
    remaining_time -= elapsed; else remaining_time = 0;] on one task. *)
Definition charge_elapsed (now : Z) (t : rt_task) : rt_task :=
  let elapsed := wrap64 (now - start_time t) in
  if elapsed <? remaining_time t
  then set_remaining_time (wrap64 (remaining_time t - elapsed)) t
  else set_remaining_time 0 t.

Definition realtime_yield (fuel : nat) : M rt_state unit :=
  cur <- gets current_task ;;
  match cur with
  | Some c =>
      now <- gets system_time ;;
      upd c (charge_elapsed now) ;;
      upd c (set_state RT_STATE_READY) ;;
      insert_ready fuel (Some c) ;;
      modify (set_current_task None)
  | None => ret tt
  end ;;
  realtime_schedule fuel.

Definition realtime_preempt (fuel : nat) : M rt_state unit :=
  realtime_schedule fuel.

Definition realtime_check_preempt (fuel : nat) : M rt_state bool :=
  cur <- gets current_task ;;
  rq <- gets ready_queue ;;
  match cur, rq with
  | None, _ => ret (negb (is_null rq))
  | Some _, None => ret false
  | Some c, Some h =>
      algo <- gets current_algo ;;
      match algo with
      | RT_ALGO_EDF =>
          ht <- rd h ;; ct <- rd c ;;
          ret (absolute_deadline ht <? absolute_deadline ct)
      | RT_ALGO_RMS | RT_ALGO_DMS =>
          ht <- rd h ;; ct <- rd c ;;
          ret (rms_priority ht >? rms_priority ct)
      | RT_ALGO_LLF =>
          llf_update_laxity fuel ;;
          ht <- rd h ;; ct <- rd c ;;
          ret (laxity ht <? laxity ct)
      end
  end.

(** The five stores at the head of [realtime_release]. *)
Definition release_fields (now : Z) (t : rt_task) : rt_task :=
  set_instances (wrap64 (instances t + 1))
    (set_state RT_STATE_READY
       (set_remaining_time (wcet (params t))
          (set_absolute_deadline (wrap64 (now + deadline (params t)))
             (set_release_time now t)))).

Definition realtime_release (fuel : nat) (task : option nat) : M rt_state unit :=
  match task with
  | None => ret tt
  | Some i =>
      now <- gets system_time ;;
      upd i (release_fields now) ;;
      algo <- gets current_algo ;;
      when (algo_eqb algo RT_ALGO_LLF)
           (upd i (fun t => set_laxity
                              (swrap64 (deadline (params t) - wcet (params t))) t)) ;;
      insert_ready fuel (Some i) ;;
      upd_stats (fun x => set_total_releases (wrap64 (total_releases x + 1)) x) ;;
      p <- realtime_check_preempt fuel ;;
      when p (realtime_schedule fuel)
  end.

Definition realtime_calc_utilization (fuel : nat) : M rt_state Q :=
  hd <- gets all_tasks ;;
  util <- loop fuel (fun '(util, task) =>
      match task with
      | None => ret (inr util)
      | Some i =>
          t <- rd i ;;
          let util' :=
            if period (params t) >? 0
            then (util + inject_Z (wcet (params t)) / inject_Z (period (params t)))%Q
            else util in
          ret (inl (util', next t))
      end) (0%Q, hd) ;;
  upd_stats (set_utilization util) ;;
  ret util.

Definition update_stats_completion (fuel : nat) : M rt_state unit :=
  realtime_calc_utilization fuel ;; ret tt.

Definition realtime_create_task (fuel : nat) (p : Z) (ps : rt_task_params_t)
  : M rt_state Z :=
  found <- find_task fuel p ;;
  if negb (is_null found) then ret (-1) else
  a <- alloc_task ;;
  match a with
  | None => ret (-1)
  | Some i =>
      upd i (set_pid p) ;;
      upd i (set_params ps) ;;
      upd i (set_state RT_STATE_INACTIVE) ;;
      upd i (set_remaining_time (wcet ps)) ;;
      hd <- gets all_tasks ;;
      upd i (set_next hd) ;;
      modify (set_all_tasks (Some i)) ;;
      modify (fun s => set_task_count (wrap32 (task_count s + 1)) s) ;;
      algo <- gets current_algo ;;
      match algo with
      | RT_ALGO_RMS => rms_assign_priorities
      | RT_ALGO_DMS => dms_assign_priorities
      | _ => upd i (set_rms_priority 1)
      end ;;
      ret 0
  end.

Definition realtime_set_params (fuel : nat) (p : Z) (ps : rt_task_params_t)
  : M rt_state Z :=
  found <- find_task fuel p ;;
  match found with
  | None => ret (-1)
  | Some i =>
      upd i (set_params ps) ;;
      algo <- gets current_algo ;;
      match algo with
      | RT_ALGO_RMS => rms_assign_priorities
      | RT_ALGO_DMS => dms_assign_priorities
      | _ => ret tt
      end ;;
      ret 0
  end.

Definition default_params : rt_task_params_t :=
  mk_params RT_DEFAULT_PERIOD RT_DEFAULT_DEADLINE RT_DEFAULT_WCET 0
            RT_DEFAULT_MISS_POLICY.

Definition realtime_enqueue (fuel : nat) (p : Z) : M rt_state unit :=
  found <- find_task fuel p ;;
  task <- match found with
          | None =>
              realtime_create_task fuel p default_params ;;
              find_task fuel p
          | Some _ => ret found
          end ;;
  match task with
  | Some i =>
      t <- rd i ;;
      when (negb (state_eqb (state t) RT_STATE_READY) &&
            negb (state_eqb (state t) RT_STATE_RUNNING))
           (realtime_release fuel (Some i))
  | None => ret tt
  end.

Definition realtime_dequeue (fuel : nat) (p : Z) : M rt_state unit :=
  found <- find_task fuel p ;;
  match found with
  | None => ret tt
  | Some i =>
      remove_ready fuel (Some i) ;;
      hd <- gets all_tasks ;;
      (if ptr_eqb hd (Some i) then
         t <- rd i ;;
         modify (set_all_tasks (next t))
       else
         pv <- loop fuel (fun pv : option nat =>
                 match pv with
                 | None => ret (inr pv)
                 | Some j =>
                     pt <- rd j ;;
                     if negb (ptr_eqb (next pt) (Some i))
                     then ret (inl (next pt))
                     else ret (inr pv)
                 end) hd ;;
         match pv with
         | Some j => t <- rd i ;; upd j (set_next (next t))
         | None => ret tt
         end) ;;
      cur <- gets current_task ;;
      when (ptr_eqb cur (Some i)) (modify (set_current_task None)) ;;
      modify (fun s => set_task_count (wrap32 (task_count s - 1)) s) ;;
      free_task (Some i)
  end.

Definition realtime_complete (fuel : nat) (p : Z) : M rt_state unit :=
  found <- find_task fuel p ;;
  match found with
  | None => ret tt
  | Some i =>
      now <- gets system_time ;;
      t <- rd i ;;
      let response_time := wrap64 (now - release_time t) in
      upd i (fun t => set_total_response_time
                        (wrap64 (total_response_time t + response_time)) t) ;;
      t1 <- rd i ;;
      when (response_time >? worst_response_time t1)
           (upd i (set_worst_response_time response_time)) ;;
      t2 <- rd i ;;
      let exec_time := wrap64 (wcet (params t2) - remaining_time t2) in
      upd i (fun t => set_total_exec_time (wrap64 (total_exec_time t + exec_time)) t) ;;
      upd i (set_state RT_STATE_COMPLETED) ;;
      upd i (fun t => set_completions (wrap64 (completions t + 1)) t) ;;
      upd_stats (fun x => set_total_completions (wrap64 (total_completions x + 1)) x) ;;
      update_stats_completion fuel ;;
      cur <- gets current_task ;;
      when (ptr_eqb cur (Some i)) (modify (set_current_task None)) ;;
      remove_ready fuel (Some i) ;;
      realtime_schedule fuel
  end.

Definition realtime_check_deadline (task : option nat) : M rt_state bool :=
  match task with
  | None => ret false
  | Some i =>
      t <- rd i ;;
      now <- gets system_time ;;
      ret (now >? absolute_deadline t)
  end.

Definition realtime_handle_miss (fuel : nat) (task : option nat) : M rt_state unit :=
  match task with
  | None => ret tt
  | Some i =>
      upd i (set_state RT_STATE_MISSED) ;;
      upd i (fun t => set_deadline_misses (wrap64 (deadline_misses t + 1)) t) ;;
      upd_stats (fun x => set_total_deadline_misses
                            (wrap64 (total_deadline_misses x + 1)) x) ;;
      t <- rd i ;;
      match miss_policy (params t) with
      | RT_MISS_SKIP => remove_ready fuel (Some i)
      | RT_MISS_CONTINUE => ret tt
      | RT_MISS_ABORT =>
          remove_ready fuel (Some i) ;;
          cur <- gets current_task ;;
          when (ptr_eqb cur (Some i)) (modify (set_current_task None))
      | RT_MISS_NOTIFY => ret tt
      end
  end.

Definition realtime_check_releases (fuel : nat) : M rt_state unit :=
  hd <- gets all_tasks ;;
  loop fuel (fun task : option nat =>
    match task with
    | None => ret (inr tt)
    | Some i =>
        t <- rd i ;;
        when (state_eqb (state t) RT_STATE_COMPLETED ||
              state_eqb (state t) RT_STATE_MISSED ||
              state_eqb (state t) RT_STATE_INACTIVE)
             (let next_release := wrap64 (release_time t + period (params t)) in
              now <- gets system_time ;;
              when (now >=? next_release) (realtime_release fuel (Some i))) ;;
        t' <- rd i ;;
        ret (inl (next t'))
    end) hd.

Definition realtime_check_deadlines (fuel : nat) : M rt_state unit :=
  hd <- gets all_tasks ;;
  loop fuel (fun task : option nat =>
    match task with
    | None => ret (inr tt)
    | Some i =>
        t <- rd i ;;
        (if state_eqb (state t) RT_STATE_READY || state_eqb (state t) RT_STATE_RUNNING
         then late <- realtime_check_deadline (Some i) ;;
              when late (realtime_handle_miss fuel (Some i))
         else ret tt) ;;
        t' <- rd i ;;
        ret (inl (next t'))
    end) hd.

(** [if (remaining_time > 0) remaining_time--;] on one task. *)
Definition consume_tick (t : rt_task) : rt_task :=
  if remaining_time t >? 0
  then set_remaining_time (wrap64 (remaining_time t - 1)) t
  else t.

Definition realtime_tick (fuel : nat) : M rt_state unit :=
  modify (fun s => set_system_time (wrap64 (system_time s + 1)) s) ;;
  cur <- gets current_task ;;
  match cur with
  | Some c =>
      t <- rd c ;;
      when (state_eqb (state t) RT_STATE_RUNNING)
           (upd c consume_tick ;;
            t1 <- rd c ;;
            when (remaining_time t1 =? 0) (realtime_complete fuel (pid t1)))
  | None => ret tt
  end ;;
  realtime_check_deadlines fuel ;;
  realtime_check_releases fuel ;;
  algo <- gets current_algo ;;
  when (algo_eqb algo RT_ALGO_LLF)
       (llf_update_laxity fuel ;;
        requeue_all fuel) ;;
  p <- realtime_check_preempt fuel ;;
  when p (realtime_schedule fuel).

(** Calls of the interface, as one type. *)
Inductive op :=
| Tick
| Yield
| Schedule
| Preempt
| Release (task : option nat)
| Complete (p : Z)
| Enqueue (p : Z)
| Dequeue (p : Z)
| CreateTask (p : Z) (ps : rt_task_params_t)
| SetParams (p : Z) (ps : rt_task_params_t).

Definition run_op (fuel : nat) (o : op) : M rt_state unit :=
  match o with
  | Tick => realtime_tick fuel
  | Yield => realtime_yield fuel
  | Schedule => realtime_schedule fuel
  | Preempt => realtime_preempt fuel
  | Release task => realtime_release fuel task
  | Complete p => realtime_complete fuel p
  | Enqueue p => realtime_enqueue fuel p
  | Dequeue p => realtime_dequeue fuel p
  | CreateTask p ps => realtime_create_task fuel p ps ;; ret tt
  | SetParams p ps => realtime_set_params fuel p ps ;; ret tt
  end.

Fixpoint run_ops (fuel : nat) (os : list op) : M rt_state unit :=
  match os with
  | [] => ret tt
  | o :: os' => run_op fuel o ;; run_ops fuel os'
  end.

(** The state after the given calls on a freshly initialised policy. *)
Definition after (os : list op) : option rt_state :=
  exec (realtime_init ;; run_ops 100 os) boot.

(** The invariant of the specification on one task. *)
Definition deadline_ok (t : rt_task) : Prop :=
  absolute_deadline t = wrap64 (release_time t + deadline (params t)) /\
  remaining_time t <= wcet (params t).

(** The same, decided. *)
Definition deadline_okb (t : rt_task) : bool :=
  (absolute_deadline t =? wrap64 (release_time t + deadline (params t))) &&
  (remaining_time t <=? wcet (params t)).

(** From [s] to [s'] every slot keeps its parameters, and keeps the
    invariant if it had it (its [wcet] being a [uint32_t], so not
    negative). *)
Definition keeps_deadlines (s s' : rt_state) : Prop :=
  forall i t, task_pool s !! i = Some t ->
    exists t', task_pool s' !! i = Some t' /\
               params t' = params t /\
               (0 <= wcet (params t) -> deadline_ok t -> deadline_ok t').

(** Tasks 1 and 2 have been enqueued with the default parameters; task 1
    runs. *)
Definition two_released : rt_state :=
  Eval vm_compute in default boot (after [Enqueue 1; Enqueue 2]).

(** Task 1 is being released on an idle processor: the task is in the
    ready queue, and [realtime_release] is about to call
    [realtime_schedule]. *)
Definition released_idle : rt_state :=
  Eval vm_compute in
    default boot
      (exec (realtime_init ;;
             realtime_create_task 100 1 default_params ;;
             upd 0 (release_fields 0) ;;
             insert_ready 100 (Some 0%nat)) boot).

(** The clock of the policy stands still from [s] to [s']. *)
Definition same_clock (s s' : rt_state) : Prop :=
  system_time s' = system_time s.

(** The calls that keep the invariant. *)
Definition keeps (o : op) : bool :=
  match o with
  | Tick | Yield | Schedule | Preempt | Release _ | Complete _ | Dequeue _ => true
  | Enqueue _ | CreateTask _ _ | SetParams _ _ => false
  end.

End RT.

(** ** scheduler.h, scheduler.c: the framework's ready queue *)

Module Ready.

(** [ready_node_t]. *)
Record ready_node := mk_node {
  pid : Z;
  priority : Z;
  time_slice : Z;
  enqueue_time : Z;
  next : option nat;
  prev : option nat
}.

Definition zero_node : ready_node := mk_node 0 0 0 0 None None.

Definition set_pid v n := mk_node v (priority n) (time_slice n) (enqueue_time n) (next n) (prev n).
Definition set_priority v n := mk_node (pid n) v (time_slice n) (enqueue_time n) (next n) (prev n).
Definition set_time_slice v n := mk_node (pid n) (priority n) v (enqueue_time n) (next n) (prev n).
Definition set_enqueue_time v n := mk_node (pid n) (priority n) (time_slice n) v (next n) (prev n).
Definition set_next v n := mk_node (pid n) (priority n) (time_slice n) (enqueue_time n) v (prev n).
Definition set_prev v n := mk_node (pid n) (priority n) (time_slice n) (enqueue_time n) (next n) v.

(** [ready_queue_t]. *)
Record ready_queue_t := mk_queue {
  head : option nat;
  tail : option nat;
  count : Z;
  queue_priority : Z
}.

Definition set_head v q := mk_queue v (tail q) (count q) (queue_priority q).
Definition set_tail v q := mk_queue (head q) v (count q) (queue_priority q).
Definition set_count v q := mk_queue (head q) (tail q) v (queue_priority q).
Definition set_queue_priority v q := mk_queue (head q) (tail q) (count q) v.

(** The globals and statics of scheduler.c that the ready queue reads or
    writes: the queue, the node pool and its free list, [current_quantum],
    [system_ticks], the two members of [sched_stats] that count runnable
    processes, and the process table. *)
Record state := mk_state {
  ready_queue : ready_queue_t;
  node_pool : list ready_node;
  free_nodes : option nat;
  current_quantum : Z;
  system_ticks : Z;
  runnable_count : Z;
  max_runnable : Z;
  env : Env.t
}.

Definition set_ready_queue v s := mk_state v (node_pool s) (free_nodes s) (current_quantum s) (system_ticks s) (runnable_count s) (max_runnable s) (env s).
Definition set_node_pool v s := mk_state (ready_queue s) v (free_nodes s) (current_quantum s) (system_ticks s) (runnable_count s) (max_runnable s) (env s).
Definition set_free_nodes v s := mk_state (ready_queue s) (node_pool s) v (current_quantum s) (system_ticks s) (runnable_count s) (max_runnable s) (env s).
Definition set_current_quantum v s := mk_state (ready_queue s) (node_pool s) (free_nodes s) v (system_ticks s) (runnable_count s) (max_runnable s) (env s).
Definition set_system_ticks v s := mk_state (ready_queue s) (node_pool s) (free_nodes s) (current_quantum s) v (runnable_count s) (max_runnable s) (env s).
Definition set_runnable_count v s := mk_state (ready_queue s) (node_pool s) (free_nodes s) (current_quantum s) (system_ticks s) v (max_runnable s) (env s).
Definition set_max_runnable v s := mk_state (ready_queue s) (node_pool s) (free_nodes s) (current_quantum s) (system_ticks s) (runnable_count s) v (env s).
Definition set_env v s := mk_state (ready_queue s) (node_pool s) (free_nodes s) (current_quantum s) (system_ticks s) (runnable_count s) (max_runnable s) v.

Definition rd (i : nat) : M state ready_node :=
  fun s => match node_pool s !! i with
           | Some n => Some (n, s)
           | None => None
           end.

Definition upd (i : nat) (f : ready_node -> ready_node) : M state unit :=
  fun s => match node_pool s !! i with
           | Some n => Some (tt, set_node_pool (<[i := f n]> (node_pool s)) s)
           | None => None
           end.

Definition updq (f : ready_queue_t -> ready_queue_t) : M state unit :=
  modify (fun s => set_ready_queue (f (ready_queue s)) s).

Definition in_env {A} (m : M Env.t A) : M state A := zoom env set_env m.

Section WithNPROC.
Variable NPROC : nat.

(** The statics before [ready_queue_init]: zeroed storage, and
    [current_quantum] at DEFAULT_QUANTUM. *)
Definition boot (e : Env.t) : state :=
  mk_state (mk_queue None None 0 0) (replicate NPROC zero_node) None 10 0 0 0 e.

(** The [for] of [node_pool_init]. *)
Fixpoint pool_init_loop (n : nat) (i : nat) (pool : list ready_node) : list ready_node :=
  match n with
  | O => pool
  | Datatypes.S n' =>
      pool_init_loop n' (Datatypes.S i)
        (alter (fun x => set_pid (-1) (set_prev None (set_next (Some (Datatypes.S i)) x))) i pool)
  end.

Definition node_pool_init : M state unit :=
  if Nat.eqb NPROC 0 then fault else
  modify (set_free_nodes (Some 0%nat)) ;;
  modify (fun s => set_node_pool (pool_init_loop (NPROC - 1) 0 (node_pool s)) s) ;;
  upd (NPROC - 1) (set_next None).

Definition node_alloc : M state (option nat) :=
  f <- gets free_nodes ;;
  match f with
  | None => ret None
  | Some i =>
      n <- rd i ;;
      modify (set_free_nodes (next n)) ;;
      upd i (set_next None) ;;
      upd i (set_prev None) ;;
      upd i (set_pid (-1)) ;;
      upd i (set_priority 0) ;;
      q <- gets current_quantum ;;
      upd i (set_time_slice q) ;;
      upd i (set_enqueue_time 0) ;;
      ret (Some i)
  end.

Definition node_free (node : option nat) : M state unit :=
  match node with
  | None => ret tt
  | Some i =>
      f <- gets free_nodes ;;
      upd i (set_next f) ;;
      modify (set_free_nodes (Some i))
  end.

Definition ready_queue_init : M state unit :=
  updq (set_head None) ;;
  updq (set_tail None) ;;
  updq (set_count 0) ;;
  updq (set_queue_priority 0) ;;
  node_pool_init.

Definition ready_enqueue (p : Z) : M state unit :=
  if (p <? 0) || (p >=? Z.of_nat NPROC) then ret tt else
  a <- node_alloc ;;
  match a with
  | None => ret tt
  | Some node =>
      upd node (set_pid p) ;;
      pr <- in_env (Env.rd_proc p) ;;
      upd node (set_priority (Env.pprio pr)) ;;
      q <- gets current_quantum ;;
      upd node (set_time_slice q) ;;
      tk <- gets system_ticks ;;
      upd node (set_enqueue_time tk) ;;
      upd node (set_next None) ;;
      tl <- gets (fun s => tail (ready_queue s)) ;;
      upd node (set_prev tl) ;;
      tl' <- gets (fun s => tail (ready_queue s)) ;;
      match tl' with
      | Some t => upd t (set_next (Some node))
      | None => updq (set_head (Some node))
      end ;;
      updq (set_tail (Some node)) ;;
      updq (fun q => set_count (wrap32 (count q + 1)) q) ;;
      modify (fun s => set_runnable_count (wrap32 (runnable_count s + 1)) s) ;;
      rc <- gets runnable_count ;;
      mx <- gets max_runnable ;;
      when (rc >? mx)
           (rc' <- gets runnable_count ;; modify (set_max_runnable rc'))
  end.

Definition ready_dequeue (fuel : nat) (p : Z) : M state unit :=
  if (p <? 0) || (p >=? Z.of_nat NPROC) then ret tt else
  hd <- gets (fun s => head (ready_queue s)) ;;
  found <- loop fuel (fun node : option nat =>
      match node with
      | None => ret (inr None)
      | Some i =>
          n <- rd i ;;
          if negb (pid n =? p) then ret (inl (next n)) else ret (inr (Some i))
      end) hd ;;
  match found with
  | None => ret tt
  | Some node =>
      n <- rd node ;;
      match prev n with
      | Some pv => n1 <- rd node ;; upd pv (set_next (next n1))
      | None => n1 <- rd node ;; updq (set_head (next n1))
      end ;;
      n2 <- rd node ;;
      match next n2 with
      | Some nx => n3 <- rd node ;; upd nx (set_prev (prev n3))
      | None => n3 <- rd node ;; updq (set_tail (prev n3))
      end ;;
      updq (fun q => set_count (wrap32 (count q - 1)) q) ;;
      modify (fun s => set_runnable_count (wrap32 (runnable_count s - 1)) s) ;;
      node_free (Some node)
  end.

Definition ready_peek : M state Z :=
  hd <- gets (fun s => head (ready_queue s)) ;;
  match hd with
  | None => ret (-1)
  | Some i => n <- rd i ;; ret (pid n)
  end.

Definition ready_pop : M state Z :=
  hd <- gets (fun s => head (ready_queue s)) ;;
  match hd with
  | None => ret (-1)
  | Some node =>
      n <- rd node ;;
      let p := pid n in
      n1 <- rd node ;;
      updq (set_head (next n1)) ;;
      hd' <- gets (fun s => head (ready_queue s)) ;;
      match hd' with
      | Some h => upd h (set_prev None)
      | None => updq (set_tail None)
      end ;;
      updq (fun q => set_count (wrap32 (count q - 1)) q) ;;
      modify (fun s => set_runnable_count (wrap32 (runnable_count s - 1)) s) ;;
      node_free (Some node) ;;
      ret p
  end.

Definition ready_queue_empty : M state bool :=
  hd <- gets (fun s => head (ready_queue s)) ;;
  ret (is_null hd).

Definition ready_queue_count : M state Z :=
  gets (fun s => count (ready_queue s)).

End WithNPROC.

(** The queue after [ready_queue_init] and the enqueues of pids 1 and 2,
    with NPROC = 4: pid 1 in slot 0 at the head, pid 2 in slot 1 behind
    it. *)
Definition two_queued : state :=
  Eval vm_compute in
    default (boot 4 Env.env4)
      (exec (ready_queue_init 4 ;; ready_enqueue 4 1 ;; ready_enqueue 4 2)
            (boot 4 Env.env4)).

(** The [prev] links along a list of slots: each slot points back to the
    one before it, the first one to [pv]. *)
Fixpoint back_linked (pool : list ready_node) (pv : option nat) (l : list nat) : Prop :=
  match l with
  | [] => True
  | i :: l' => exists n, pool !! i = Some n /\ prev n = pv /\ back_linked pool (Some i) l'
  end.

(** The ready queue of [s] is the doubly linked list of the slots [l]. *)
Definition queue_wf (s : state) (l : list nat) : Prop :=
  Links.linked next (node_pool s) (head (ready_queue s)) l /\
  back_linked (node_pool s) None l /\
  tail (ready_queue s) = last l.

End Ready.

(** ** scheduler.h, scheduler.c: the framework's policy switch *)

Module Core.

(** [scheduler_type_t].  The enumeration itself is not in the sources; its
    six constants are the case labels of [scheduler_switch], and every
    other value of the underlying integer takes the [default] branch. *)
Inductive scheduler_type_t :=
| SCHEDULER_ROUND_ROBIN
| SCHEDULER_PRIORITY
| SCHEDULER_MLFQ
| SCHEDULER_LOTTERY
| SCHEDULER_CFS
| SCHEDULER_EDF
| SCHEDULER_UNKNOWN (v : Z).

(** The six operation tables a [scheduler_ops_t *] can point to. *)
Inductive ops_table := rr_ops | prio_ops | mlfq_ops | lottery_ops | cfs_ops | realtime_ops.

(** The status a [syscall] returns; kernel.h, which gives the two their
    values, is not in the sources. *)
Inductive syscall := OK | SYSERR.

(** The globals of scheduler.c that [scheduler_switch] reads or writes,
    the statics of the six policies, and, for the three tables that are
    filled in by their policy's init function, whether that has happened
    (so whether their [shutdown] member is set).  Each of the three
    policies that read the process table carries its own view of it; none
    of the functions called here touches it. *)
Record state := mk_state {
  current_scheduler : option ops_table;
  sched_policy : scheduler_type_t;
  rr : RR.state;
  prio : Prio.state;
  mlfq : MLFQ.state;
  lottery : Lottery.state;
  cfs : CFS.state;
  rt : RT.rt_state;
  lottery_ops_filled : bool;
  cfs_ops_filled : bool;
  realtime_ops_filled : bool
}.

Definition set_current_scheduler v s := mk_state v (sched_policy s) (rr s) (prio s) (mlfq s) (lottery s) (cfs s) (rt s) (lottery_ops_filled s) (cfs_ops_filled s) (realtime_ops_filled s).
Definition set_sched_policy v s := mk_state (current_scheduler s) v (rr s) (prio s) (mlfq s) (lottery s) (cfs s) (rt s) (lottery_ops_filled s) (cfs_ops_filled s) (realtime_ops_filled s).
Definition set_rr v s := mk_state (current_scheduler s) (sched_policy s) v (prio s) (mlfq s) (lottery s) (cfs s) (rt s) (lottery_ops_filled s) (cfs_ops_filled s) (realtime_ops_filled s).
Definition set_prio v s := mk_state (current_scheduler s) (sched_policy s) (rr s) v (mlfq s) (lottery s) (cfs s) (rt s) (lottery_ops_filled s) (cfs_ops_filled s) (realtime_ops_filled s).
Definition set_mlfq v s := mk_state (current_scheduler s) (sched_policy s) (rr s) (prio s) v (lottery s) (cfs s) (rt s) (lottery_ops_filled s) (cfs_ops_filled s) (realtime_ops_filled s).
Definition set_lottery v s := mk_state (current_scheduler s) (sched_policy s) (rr s) (prio s) (mlfq s) v (cfs s) (rt s) (lottery_ops_filled s) (cfs_ops_filled s) (realtime_ops_filled s).
Definition set_cfs v s := mk_state (current_scheduler s) (sched_policy s) (rr s) (prio s) (mlfq s) (lottery s) v (rt s) (lottery_ops_filled s) (cfs_ops_filled s) (realtime_ops_filled s).
Definition set_rt v s := mk_state (current_scheduler s) (sched_policy s) (rr s) (prio s) (mlfq s) (lottery s) (cfs s) v (lottery_ops_filled s) (cfs_ops_filled s) (realtime_ops_filled s).
Definition set_lottery_ops_filled v s := mk_state (current_scheduler s) (sched_policy s) (rr s) (prio s) (mlfq s) (lottery s) (cfs s) (rt s) v (cfs_ops_filled s) (realtime_ops_filled s).
Definition set_cfs_ops_filled v s := mk_state (current_scheduler s) (sched_policy s) (rr s) (prio s) (mlfq s) (lottery s) (cfs s) (rt s) (lottery_ops_filled s) v (realtime_ops_filled s).
Definition set_realtime_ops_filled v s := mk_state (current_scheduler s) (sched_policy s) (rr s) (prio s) (mlfq s) (lottery s) (cfs s) (rt s) (lottery_ops_filled s) (cfs_ops_filled s) v.

(** NPROC and the tunables of the policies that the sources do not
    define. *)
Record config := mk_config {
  NPROC : nat;
  PRIO_AGING_ENABLED : bool;
  PRIO_AGING_INTERVAL : Z;
  PRIO_AGING_AMOUNT : Z;
  PRIO_STARVATION_THRESHOLD : Z;
  PRIO_STARVATION_BOOST : Z;
  MLFQ_QUANTUMS : list Z
}.

Definition prio_config (cfg : config) : Prio.config :=
  Prio.mk_config (NPROC cfg) (PRIO_AGING_ENABLED cfg) (PRIO_AGING_INTERVAL cfg)
                 (PRIO_AGING_AMOUNT cfg) (PRIO_STARVATION_THRESHOLD cfg)
                 (PRIO_STARVATION_BOOST cfg).

Definition mlfq_config (cfg : config) : MLFQ.config :=
  MLFQ.mk_config (NPROC cfg) (MLFQ_QUANTUMS cfg).

Section WithConfig.

Variable cfg : config.

(** The statics as the loader leaves them; [policy] is the initial value
    of [sched_policy], DEFAULT_SCHED_POLICY. *)
Definition boot (policy : scheduler_type_t) (e : Env.t) : state :=
  mk_state None policy (RR.boot (NPROC cfg) e) (Prio.boot (prio_config cfg) e)
           (MLFQ.boot (mlfq_config cfg) e) Lottery.boot CFS.boot RT.boot
           false false false.

(** [t->shutdown != NULL]. *)
Definition has_shutdown (t : ops_table) : M state bool :=
  match t with
  | rr_ops | prio_ops | mlfq_ops => ret true
  | lottery_ops => gets lottery_ops_filled
  | cfs_ops => gets cfs_ops_filled
  | realtime_ops => gets realtime_ops_filled
  end.

(** [t->shutdown ()], for a table whose member is set. *)
Definition call_shutdown (fuel : nat) (t : ops_table) : M state unit :=
  match t with
  | rr_ops => zoom rr set_rr RR.round_robin_shutdown
  | prio_ops => zoom prio set_prio Prio.priority_shutdown
  | mlfq_ops => zoom mlfq set_mlfq MLFQ.mlfq_shutdown
  | lottery_ops => zoom lottery set_lottery (Lottery.lottery_shutdown fuel)
  | cfs_ops => zoom cfs set_cfs (CFS.cfs_shutdown fuel)
  | realtime_ops => zoom rt set_rt (RT.realtime_shutdown fuel)
  end.

(** [if (current_scheduler != NULL && current_scheduler->shutdown != NULL)
    current_scheduler->shutdown ();] *)
Definition shutdown_current (fuel : nat) : M state unit :=
  cur <- gets current_scheduler ;;
  match cur with
  | None => ret tt
  | Some t =>
      set <- has_shutdown t ;;
      when set (call_shutdown fuel t)
  end.

Definition scheduler_shutdown (fuel : nat) : M state unit :=
  shutdown_current fuel.

Definition scheduler_switch (fuel : nat) (type : scheduler_type_t) : M state syscall :=
  shutdown_current fuel ;;
  match type with
  | SCHEDULER_ROUND_ROBIN =>
      zoom rr set_rr (RR.round_robin_init (NPROC cfg)) ;;
      modify (set_current_scheduler (Some rr_ops)) ;;
      modify (set_sched_policy type) ;;
      ret OK
  | SCHEDULER_PRIORITY =>
      zoom prio set_prio (Prio.priority_init (prio_config cfg)) ;;
      modify (set_current_scheduler (Some prio_ops)) ;;
      modify (set_sched_policy type) ;;
      ret OK
  | SCHEDULER_MLFQ =>
      zoom mlfq set_mlfq (MLFQ.mlfq_init (mlfq_config cfg)) ;;
      modify (set_current_scheduler (Some mlfq_ops)) ;;
      modify (set_sched_policy type) ;;
      ret OK
  | SCHEDULER_LOTTERY =>
      zoom lottery set_lottery Lottery.lottery_init ;;
      modify (set_lottery_ops_filled true) ;;
      modify (set_current_scheduler (Some lottery_ops)) ;;
      modify (set_sched_policy type) ;;
      ret OK
  | SCHEDULER_CFS =>
      zoom cfs set_cfs CFS.cfs_init ;;
      modify (set_cfs_ops_filled true) ;;
      modify (set_current_scheduler (Some cfs_ops)) ;;
      modify (set_sched_policy type) ;;
      ret OK
  | SCHEDULER_EDF =>
      zoom rt set_rt RT.realtime_init ;;
      modify (set_realtime_ops_filled true) ;;
      modify (set_current_scheduler (Some realtime_ops)) ;;
      modify (set_sched_policy type) ;;
      ret OK
  | SCHEDULER_UNKNOWN _ => ret SYSERR
  end.

(** A call of a round-robin function, on the round-robin statics. *)
Definition in_rr {A} (m : M RR.state A) : M state A := zoom rr set_rr m.

End WithConfig.

(** The operation table each case of the [switch] installs. *)
Definition ops_of (t : scheduler_type_t) : option ops_table :=
  match t with
  | SCHEDULER_ROUND_ROBIN => Some rr_ops
  | SCHEDULER_PRIORITY => Some prio_ops
  | SCHEDULER_MLFQ => Some mlfq_ops
  | SCHEDULER_LOTTERY => Some lottery_ops
  | SCHEDULER_CFS => Some cfs_ops
  | SCHEDULER_EDF => Some realtime_ops
  | SCHEDULER_UNKNOWN _ => None
  end.

(** The policy behind a table has nothing queued and nothing running. *)
Definition idle (t : ops_table) (s : state) : Prop :=
  match t with
  | rr_ops =>
      RR.rr_queue_head (rr s) = None /\ RR.rr_current (rr s) = None /\
      RR.rr_queue_count (rr s) = 0
  | prio_ops =>
      Prio.prio_queue (prio s) = None /\ Prio.prio_queue_count (prio s) = 0
  | mlfq_ops =>
      MLFQ.current_node (mlfq s) = None /\
      forall j q, (j < 8)%nat -> MLFQ.mlfq_queues (mlfq s) !! j = Some q ->
                  MLFQ.head q = None /\ MLFQ.tail q = None /\ MLFQ.count q = 0
  | lottery_ops =>
      Lottery.lottery_pool (lottery s) = None /\
      Lottery.total_tickets (lottery s) = 0 /\
      Lottery.participant_count (lottery s) = 0 /\
      Lottery.current_pid (lottery s) = -1
  | cfs_ops =>
      CFS.tasks_timeline (CFS.rq (cfs s)) = None /\
      CFS.curr (CFS.rq (cfs s)) = None /\
      CFS.nr_running (CFS.rq (cfs s)) = 0
  | realtime_ops =>
      RT.ready_queue (rt s) = None /\ RT.all_tasks (rt s) = None /\
      RT.current_task (rt s) = None /\ RT.task_count (rt s) = 0
  end.

(** One of the six known types. *)
Definition known (t : scheduler_type_t) : bool :=
  match t with
  | SCHEDULER_UNKNOWN _ => false
  | _ => true
  end.

Definition sample_config : config :=
  mk_config 4 true 100 1 1000 10 [2; 4; 8; 16; 32; 64; 128; 256].

(** Round-robin is the active policy and processes 1 and 2 are in its
    ring. *)
Definition rr_active : state :=
  Eval vm_compute in
    default (boot sample_config SCHEDULER_PRIORITY Env.env4)
      (exec (scheduler_switch sample_config 8 SCHEDULER_ROUND_ROBIN ;;
             in_rr (RR.round_robin_enqueue 4 8 1) ;;
             in_rr (RR.round_robin_enqueue 4 8 2))
            (boot sample_config SCHEDULER_PRIORITY Env.env4)).

End Core.

(** * Part II: theorems *)

(** ** Reasoning rules for [preserves] *)

Module MonadFacts.

Section Rules.
Context {S : Type} (R : S -> S -> Prop) `{!PreOrder R}.

Lemma preserves_ret {A} (a : A) : preserves R (ret a).
Proof. intros s a' s' H. injection H as _ <-. reflexivity. Qed.

Lemma preserves_gets {A} (f : S -> A) : preserves R (gets f).
Proof. intros s a' s' H. injection H as _ <-. reflexivity. Qed.

Lemma preserves_fault {A} : preserves R (@fault S A).
Proof. intros s a' s' H. discriminate H. Qed.

Lemma preserves_lift {A} (o : option A) : preserves R (lift o).
Proof.
  intros s a' s' H. unfold lift in H. destruct o; [|discriminate].
  injection H as _ <-. reflexivity.
Qed.

Lemma preserves_modify (f : S -> S) :
  (forall s, R s (f s)) -> preserves R (modify f).
Proof. intros Hf s a' s' H. injection H as _ <-. apply Hf. Qed.

Lemma preserves_bind {A B} (m : M S A) (k : A -> M S B) :
  preserves R m -> (forall a, preserves R (k a)) -> preserves R (bind m k).
Proof.
  intros Hm Hk s b s' H. unfold bind in H.
  destruct (m s) as [[a s1]|] eqn:E; [|discriminate].
  transitivity s1; [eapply Hm; eassumption | eapply Hk; eassumption].
Qed.

Lemma preserves_when (b : bool) (m : M S unit) :
  preserves R m -> preserves R (when b m).
Proof. intros Hm. destruct b; simpl; [exact Hm | apply preserves_ret]. Qed.

Lemma preserves_loop {L X} (fuel : nat) (step : L -> M S (L + X)) :
  (forall l, preserves R (step l)) -> forall l, preserves R (loop fuel step l).
Proof.
  intros Hstep. induction fuel as [|f IH]; intros l; simpl.
  - apply preserves_fault.
  - apply preserves_bind; [apply Hstep|].
    intros [l'|r]; [apply IH | apply preserves_ret].
Qed.

End Rules.

Lemma loop_S {S L R} (f : nat) (step : L -> M S (L + R)) (l : L) :
  loop (Datatypes.S f) step l =
  bind (step l) (fun x => match x with
                          | inl l' => loop f step l'
                          | inr r => ret r
                          end).
Proof. reflexivity. Qed.

(** Rules for [returns]: runs that end normally. *)
Section ReturnsRules.
Context {S : Type}.

Lemma returns_ret {A} (a : A) (Q : A -> S -> Prop) s :
  Q a s -> returns (ret a) Q s.
Proof. intros H. exists a, s. split; [reflexivity | exact H]. Qed.

Lemma returns_gets {A} (f : S -> A) (Q : A -> S -> Prop) s :
  Q (f s) s -> returns (gets f) Q s.
Proof. intros H. exists (f s), s. split; [reflexivity | exact H]. Qed.

Lemma returns_modify (f : S -> S) (Q : unit -> S -> Prop) s :
  Q tt (f s) -> returns (modify f) Q s.
Proof. intros H. exists tt, (f s). split; [reflexivity | exact H]. Qed.

Lemma returns_bind {A B} (m : M S A) (k : A -> M S B) (Q : B -> S -> Prop) s :
  returns m (fun a s1 => returns (k a) Q s1) s -> returns (bind m k) Q s.
Proof.
  intros (a & s1 & Hm & b & s2 & Hk & HQ).
  exists b, s2. split; [|exact HQ]. unfold bind. rewrite Hm. exact Hk.
Qed.

Lemma returns_mono {A} (m : M S A) (Q Q' : A -> S -> Prop) s :
  returns m Q s -> (forall a s', Q a s' -> Q' a s') -> returns m Q' s.
Proof. intros (a & s' & Hm & HQ) H. exists a, s'. split; [exact Hm | apply H, HQ]. Qed.

Lemma returns_exec {A} (m : M S A) (Q : A -> S -> Prop) s :
  returns m Q s -> exists s', exec m s = Some s' /\ exists a, Q a s'.
Proof.
  intros (a & s' & Hm & HQ). exists s'. unfold exec. rewrite Hm.
  split; [reflexivity | exists a; exact HQ].
Qed.
End ReturnsRules.

(** Decompose a [preserves] goal along the structure of the computation. *)
Ltac pres_step :=
  first
    [ apply preserves_ret; [typeclasses eauto ..]
    | apply preserves_gets; [typeclasses eauto ..]
    | apply preserves_fault
    | apply preserves_lift; [typeclasses eauto ..]
    | apply preserves_when; [typeclasses eauto .. | idtac]
    | apply preserves_loop; [typeclasses eauto .. | intros ?]
    | apply preserves_bind; [typeclasses eauto .. | idtac | intros ?]
    | progress cbv zeta
    | match goal with
      | |- preserves _ (match ?x with _ => _ end) => destruct x
      end ].

(** [pres_with tac]: close the goal with [tac] where it applies, and split
    the computation one construct further where it does not. *)
Ltac pres_with tac := repeat first [ solve [tac] | pres_step ].

End MonadFacts.

Import MonadFacts.

(** ** CFS *)

Module CFSFacts.
Import CFS.

(** *** Scheduling latency *)

Lemma cfs_sched_latency_run (s : state) :
  cfs_sched_latency s =
  Some (if nr_running (rq s) >? 8
        then wrap32 (CFS_MIN_GRANULARITY * nr_running (rq s))
        else CFS_TARGET_LATENCY, s).
Proof.
  unfold cfs_sched_latency, bind, gets, ret.
  destruct (nr_running (rq s) >? 8); reflexivity.
Qed.

(** *** [min_vruntime] only moves forward *)


#[local] Instance mv_le_preorder : PreOrder mv_le.
Proof.
  split; unfold mv_le; [intros s; lia | intros a b c; lia].
Qed.

Lemma max64_ge_l (a b : Z) : a <= max64 a b.
Proof. unfold max64. destruct (Z.gtb_spec a b); lia. Qed.

Lemma mv_rd i : preserves mv_le (rd i).
Proof.
  intros s a s' H. unfold rd in H.
  destruct (task_pool s !! i); [|discriminate].
  injection H as _ <-. reflexivity.
Qed.

Lemma mv_upd i f : preserves mv_le (upd i f).
Proof.
  intros s a s' H. unfold upd in H.
  destruct (task_pool s !! i); [|discriminate].
  injection H as _ <-. unfold mv_le. simpl. lia.
Qed.

Lemma mv_upd_rq f :
  (forall q, min_vruntime q <= min_vruntime (f q)) -> preserves mv_le (upd_rq f).
Proof. intros Hf. apply preserves_modify; [typeclasses eauto .. | intros s; apply Hf]. Qed.

Lemma mv_upd_stats f : preserves mv_le (upd_stats f).
Proof. apply preserves_modify; [typeclasses eauto .. | intros s; unfold mv_le; simpl; lia]. Qed.

Lemma mv_set_free p : preserves mv_le (modify (set_free_tasks p)).
Proof. apply preserves_modify; [typeclasses eauto .. | intros s; unfold mv_le; simpl; lia]. Qed.

Lemma mv_context_switch a b : preserves mv_le (context_switch a b).
Proof. apply preserves_modify; [typeclasses eauto .. | intros s; unfold mv_le; simpl; lia]. Qed.

Create HintDb mv discriminated.
#[local] Hint Resolve mv_rd mv_upd mv_upd_stats mv_set_free mv_context_switch : mv.
#[local] Hint Extern 1 (preserves mv_le (upd_rq _)) =>
  (apply mv_upd_rq; intros ?; simpl; first [lia | apply max64_ge_l]) : mv.

Ltac mv_auto := pres_with ltac:(auto with mv).

Lemma mv_alloc_task : preserves mv_le alloc_task.
Proof. unfold alloc_task. mv_auto. Qed.

Lemma mv_free_task p : preserves mv_le (free_task p).
Proof. unfold free_task. mv_auto. Qed.

Lemma mv_find_task fuel p : preserves mv_le (find_task fuel p).
Proof. unfold find_task. mv_auto. Qed.

Lemma mv_insert_task fuel i : preserves mv_le (insert_task fuel i).
Proof. unfold insert_task. mv_auto. Qed.

Lemma mv_remove_task i : preserves mv_le (remove_task i).
Proof. unfold remove_task. mv_auto. Qed.

Lemma mv_update_vruntime p d : preserves mv_le (cfs_update_vruntime p d).
Proof. unfold cfs_update_vruntime. mv_auto. Qed.

Lemma mv_update_min_vruntime : preserves mv_le cfs_update_min_vruntime.
Proof. unfold cfs_update_min_vruntime. mv_auto. Qed.

Lemma mv_sched_latency : preserves mv_le cfs_sched_latency.
Proof. unfold cfs_sched_latency. mv_auto. Qed.

#[local] Hint Resolve mv_alloc_task mv_free_task mv_find_task mv_insert_task
  mv_remove_task mv_update_vruntime mv_update_min_vruntime mv_sched_latency : mv.

Lemma mv_place_task i b : preserves mv_le (cfs_place_task i b).
Proof. unfold cfs_place_task. mv_auto. Qed.

Lemma mv_timeslice p : preserves mv_le (cfs_timeslice p).
Proof. unfold cfs_timeslice. mv_auto. Qed.

Lemma mv_update_current : preserves mv_le update_current.
Proof. unfold update_current. mv_auto. Qed.

Lemma mv_check_preempt : preserves mv_le cfs_check_preempt.
Proof. unfold cfs_check_preempt. mv_auto. Qed.

#[local] Hint Resolve mv_place_task mv_timeslice mv_update_current
  mv_check_preempt : mv.

Lemma mv_put_prev_task fuel : preserves mv_le (cfs_put_prev_task fuel).
Proof. unfold cfs_put_prev_task. mv_auto. Qed.

Lemma mv_set_curr_task i : preserves mv_le (cfs_set_curr_task i).
Proof. unfold cfs_set_curr_task. mv_auto. Qed.

Lemma mv_sleeper_credit i d : preserves mv_le (cfs_sleeper_credit i d).
Proof. unfold cfs_sleeper_credit. mv_auto. Qed.

#[local] Hint Resolve mv_put_prev_task mv_set_curr_task mv_sleeper_credit : mv.

Lemma mv_schedule fuel : preserves mv_le (cfs_schedule fuel).
Proof. unfold cfs_schedule, cfs_pick_next_task. mv_auto. Qed.

#[local] Hint Resolve mv_schedule : mv.

Lemma mv_yield fuel : preserves mv_le (cfs_yield fuel).
Proof. unfold cfs_yield. mv_auto. Qed.

Lemma mv_enqueue fuel p : preserves mv_le (cfs_enqueue fuel p).
Proof. unfold cfs_enqueue. mv_auto. Qed.

Lemma mv_dequeue fuel p : preserves mv_le (cfs_dequeue fuel p).
Proof. unfold cfs_dequeue. mv_auto. Qed.

Lemma mv_sleep fuel p : preserves mv_le (cfs_sleep fuel p).
Proof. unfold cfs_sleep. mv_auto. Qed.

Lemma mv_wakeup fuel p : preserves mv_le (cfs_wakeup fuel p).
Proof. unfold cfs_wakeup. mv_auto. Qed.

Lemma mv_tick fuel : preserves mv_le (cfs_tick fuel).
Proof.
  unfold cfs_tick. mv_auto.
  apply preserves_modify; [typeclasses eauto .. | intros s; unfold mv_le; simpl; lia].
Qed.

Lemma mv_run_op fuel o : preserves mv_le (run_op fuel o).
Proof.
  destruct o; simpl; unfold cfs_preempt;
    auto using mv_tick, mv_schedule, mv_yield, mv_enqueue, mv_dequeue,
      mv_sleep, mv_wakeup.
Qed.

Lemma mv_run_ops fuel os : preserves mv_le (run_ops fuel os).
Proof.
  induction os as [|o os IH]; simpl.
  - apply preserves_ret; typeclasses eauto.
  - apply preserves_bind; [typeclasses eauto | apply mv_run_op | intros _; exact IH].
Qed.

(** *** [cfs_schedule] never switches *)


#[local] Instance quiet_preorder : PreOrder quiet.
Proof.
  split; unfold quiet.
  - intros s; split; reflexivity.
  - intros a b c [H1 H2] [H3 H4]; split; congruence.
Qed.

Lemma quiet_rd i : preserves quiet (rd i).
Proof.
  intros s a s' H. unfold rd in H.
  destruct (task_pool s !! i); [|discriminate].
  injection H as _ <-. reflexivity.
Qed.

Lemma quiet_upd i f : preserves quiet (upd i f).
Proof.
  intros s a s' H. unfold upd in H.
  destruct (task_pool s !! i); [|discriminate].
  injection H as _ <-. split; reflexivity.
Qed.

Lemma quiet_upd_rq f : preserves quiet (upd_rq f).
Proof.
  apply preserves_modify; [typeclasses eauto .. | intros s; split; reflexivity].
Qed.

Lemma quiet_upd_stats f :
  (forall x, switches (f x) = switches x) -> preserves quiet (upd_stats f).
Proof.
  intros Hf. apply preserves_modify; [typeclasses eauto .. |].
  intros s; split; [reflexivity | apply Hf].
Qed.

Lemma quiet_set_free p : preserves quiet (modify (set_free_tasks p)).
Proof.
  apply preserves_modify; [typeclasses eauto .. | intros s; split; reflexivity].
Qed.

Create HintDb quiet discriminated.
#[local] Hint Resolve quiet_rd quiet_upd quiet_upd_rq quiet_set_free : quiet.
#[local] Hint Extern 1 (preserves quiet (upd_stats _)) =>
  (apply quiet_upd_stats; intros ?; reflexivity) : quiet.

Ltac quiet_auto := pres_with ltac:(auto with quiet).

Lemma quiet_insert_task fuel i : preserves quiet (insert_task fuel i).
Proof. unfold insert_task. quiet_auto. Qed.

Lemma quiet_remove_task i : preserves quiet (remove_task i).
Proof. unfold remove_task. quiet_auto. Qed.

Lemma quiet_update_current : preserves quiet update_current.
Proof.
  unfold update_current, cfs_update_vruntime, cfs_update_min_vruntime.
  quiet_auto.
Qed.

#[local] Hint Resolve quiet_insert_task quiet_remove_task
  quiet_update_current : quiet.

Lemma quiet_put_prev_task fuel : preserves quiet (cfs_put_prev_task fuel).
Proof. unfold cfs_put_prev_task. quiet_auto. Qed.

#[local] Hint Resolve quiet_put_prev_task : quiet.

(** What [cfs_schedule] does once [next] is off the timeline: it makes
    [next] the current task and only then reads the "old" pid, through
    [cfs_rq.curr], so that the two pids it compares are one and the same. *)
Lemma quiet_schedule_tail (n : nat) :
  preserves quiet
    (cfs_set_curr_task n ;;
     c' <- gets (fun s => curr (rq s)) ;;
     old_pid <- match c' with
                | Some ci => t <- rd ci ;; ret (pid t)
                | None => ret (-1)
                end ;;
     nt <- rd n ;;
     if negb (old_pid =? pid nt) then
       upd_stats (fun x => set_switches (wrap64 (switches x + 1)) x) ;;
       nt' <- rd n ;;
       context_switch old_pid (pid nt')
     else ret tt).
Proof.
  intros s a s' H.
  unfold cfs_set_curr_task, bind, gets, upd, upd_rq, modify, rd, ret in H.
  simpl in H.
  destruct (task_pool s !! n) as [t|] eqn:E; [|discriminate].
  simpl in H.
  assert (Hn : (n < length (task_pool s))%nat) by (eapply lookup_lt_Some; eassumption).
  repeat (rewrite (list_lookup_insert_eq _ _ _ Hn) in H; simpl in H).
  rewrite Z.eqb_refl in H. simpl in H.
  injection H as _ <-. split; reflexivity.
Qed.

Lemma quiet_schedule fuel : preserves quiet (cfs_schedule fuel).
Proof.
  unfold cfs_schedule, cfs_pick_next_task.
  repeat first
    [ solve [auto with quiet]
    | apply quiet_schedule_tail
    | pres_step ].
Qed.

Lemma cfs_sched_latency_eval (s : state) :
  eval cfs_sched_latency s =
  Some (if nr_running (rq s) <=? 8 then 20
        else wrap32 (4 * nr_running (rq s))).
Proof.
  unfold eval. rewrite cfs_sched_latency_run.
  unfold CFS_MIN_GRANULARITY, CFS_TARGET_LATENCY.
  destruct (Z.gtb_spec (nr_running (rq s)) 8), (Z.leb_spec (nr_running (rq s)) 8);
    try lia; reflexivity.
Qed.

(** Where the code and max (20, 4 * n) agree: up to 5 runnable tasks, and
    from 9 on as long as 4 * n fits 32 bits. *)
Lemma cfs_sched_latency_agrees (s : state) :
  nr_running (rq s) <= 5 \/ 9 <= nr_running (rq s) < 2 ^ 30 ->
  eval cfs_sched_latency s = Some (spec_latency (nr_running (rq s))).
Proof.
  intros H. rewrite cfs_sched_latency_eval. f_equal.
  unfold spec_latency, CFS_MIN_GRANULARITY, CFS_TARGET_LATENCY, wrap32.
  destruct (Z.leb_spec (nr_running (rq s)) 8).
  - lia.
  - rewrite Z.mod_small by lia. lia.
Qed.

(** C5 (as the code has it).  [cfs_sched_latency] returns TARGET_LATENCY
    (20) as long as at most 8 tasks are runnable, and
    MIN_GRANULARITY * nr_running, in 32-bit arithmetic, from 9 tasks on;
    this is max (20, 4 * n) for n <= 5 and for 9 <= n < 2^30, and 20
    where the maximum is 24, 28, 32 (n = 6, 7, 8). *)
Theorem cfs_sched_latency_threshold (s : state) :
  eval cfs_sched_latency s =
  Some (if nr_running (rq s) <=? 8 then 20
        else wrap32 (4 * nr_running (rq s))) /\
  (eval cfs_sched_latency s = Some (spec_latency (nr_running (rq s))) <->
   nr_running (rq s) <= 5 \/ 9 <= nr_running (rq s) /\
     wrap32 (4 * nr_running (rq s)) = 4 * nr_running (rq s)).
Proof.
  split; [apply cfs_sched_latency_eval|].
  rewrite cfs_sched_latency_eval.
  unfold spec_latency, CFS_MIN_GRANULARITY, CFS_TARGET_LATENCY.
  destruct (Z.leb_spec (nr_running (rq s)) 8); split.
  - intros [= H1]. lia.
  - intros H1. f_equal. lia.
  - intros [= H1]. right. split; [lia|]. lia.
  - intros [H1|[H1 H2]]; [lia|]. f_equal. lia.
Qed.

(** C5 (as stated) fails: after [cfs_init] and six [cfs_enqueue]s,
    nr_running is 6, the code answers 20 and max (20, 4 * 6) is 24. *)
Lemma cfs_sched_latency_counterexample :
  exists s,
    after [Enqueue 1; Enqueue 2; Enqueue 3; Enqueue 4; Enqueue 5; Enqueue 6] = Some s /\
    nr_running (rq s) = 6 /\
    eval cfs_sched_latency s = Some 20 /\
    spec_latency (nr_running (rq s)) = 24 /\
    eval cfs_sched_latency s <> Some (spec_latency (nr_running (rq s))).
Proof.
  eexists. split; [vm_compute; reflexivity|].
  split; [reflexivity|]. split; [reflexivity|]. split; [reflexivity|].
  vm_compute. discriminate.
Qed.

(** C6.  No operation of the policy moves [cfs_rq.min_vruntime] backwards:
    whenever tick, schedule, yield, preempt, enqueue, dequeue, sleep or
    wakeup returns, min_vruntime is at least what it was before. *)
Theorem cfs_min_vruntime_monotone (fuel : nat) (o : op) (s s' : state) :
  exec (run_op fuel o) s = Some s' ->
  min_vruntime (rq s) <= min_vruntime (rq s').
Proof.
  unfold exec. intros H.
  destruct (run_op fuel o s) as [[[] s1]|] eqn:E; [|discriminate].
  injection H as <-. exact (mv_run_op fuel o s tt s1 E).
Qed.

(** The same over any sequence of operations. *)
Lemma cfs_min_vruntime_monotone_seq (fuel : nat) (os : list op) (s s' : state) :
  exec (run_ops fuel os) s = Some s' ->
  min_vruntime (rq s) <= min_vruntime (rq s').
Proof.
  unfold exec. intros H.
  destruct (run_ops fuel os s) as [[[] s1]|] eqn:E; [|discriminate].
  injection H as <-. exact (mv_run_ops fuel os s tt s1 E).
Qed.

(** A run of C6: with pids 1 and 2 queued, dequeuing pid 2 returns and
    advances min_vruntime from 0 to 10. *)
Lemma cfs_min_vruntime_monotone_witness :
  exists s s',
    after [Enqueue 1; Enqueue 2] = Some s /\
    exec (run_op 300 (Dequeue 2)) s = Some s' /\
    min_vruntime (rq s) = 0 /\ min_vruntime (rq s') = 10 /\
    min_vruntime (rq s) <= min_vruntime (rq s').
Proof.
  eexists. eexists.
  split; [vm_compute; reflexivity|].
  split; [vm_compute; reflexivity|].
  split; [reflexivity|]. split; [reflexivity|].
  apply (cfs_min_vruntime_monotone 300 (Dequeue 2)).
  vm_compute. reflexivity.
Defined.

(** C10.  [cfs_schedule] never calls [context_switch] and never counts a
    switch: the log of calls and [stats.switches] are the same after every
    run of it that returns. *)
Theorem cfs_schedule_never_switches (fuel : nat) (s s' : state) :
  exec (cfs_schedule fuel) s = Some s' ->
  ctx_log s' = ctx_log s /\ switches (stats s') = switches (stats s).
Proof.
  unfold exec. intros H.
  destruct (cfs_schedule fuel s) as [[[] s1]|] eqn:E; [|discriminate].
  injection H as <-. exact (quiet_schedule fuel s tt s1 E).
Qed.

(** A run of C10: pid 1 is running and pid 2 is leftmost; [cfs_schedule]
    makes pid 2 the current task, and still no switch is made or counted. *)
Lemma cfs_schedule_never_switches_witness :
  exists s s',
    after [Enqueue 1; Enqueue 2; Schedule; Tick; Tick] = Some s /\
    exec (cfs_schedule 300) s = Some s' /\
    (pid <$> (curr (rq s) ≫= fun i => task_pool s !! i)) = Some 1 /\
    (pid <$> (curr (rq s') ≫= fun i => task_pool s' !! i)) = Some 2 /\
    ctx_log s' = ctx_log s /\ switches (stats s') = switches (stats s).
Proof.
  eexists. eexists.
  split; [vm_compute; reflexivity|].
  split; [vm_compute; reflexivity|].
  split; [reflexivity|]. split; [reflexivity|].
  apply (cfs_schedule_never_switches 300).
  vm_compute. reflexivity.
Defined.

End CFSFacts.

(** ** Lottery *)

Module LotteryFacts.
Import Lottery.

(** *** The generator *)

Lemma lcg_output_bits (st : Z) :
  lcg_output st = (st / 2 ^ 16) mod 2 ^ 15.
Proof.
  unfold lcg_output. rewrite Z.shiftr_div_pow2 by lia.
  change 32767 with (Z.ones 15). rewrite Z.land_ones by lia. reflexivity.
Qed.

Lemma lcg_output_testbit (st k : Z) :
  0 <= k ->
  Z.testbit (lcg_output st) k = (k <? 15) && Z.testbit st (k + 16).
Proof.
  intros Hk. unfold lcg_output. rewrite Z.land_spec, Z.shiftr_spec by lia.
  change 32767 with (Z.ones 15).
  destruct (Z.ltb_spec k 15).
  - rewrite Z.ones_spec_low by lia. rewrite andb_true_r. reflexivity.
  - rewrite Z.ones_spec_high by lia. rewrite andb_false_r. reflexivity.
Qed.

Lemma lcg_output_range (st : Z) : 0 <= lcg_output st < 2 ^ 15.
Proof. rewrite lcg_output_bits. apply Z.mod_pos_bound. lia. Qed.

Lemma random_range_run (tot : Z) (s : state) :
  tot <> 0 ->
  random_range tot s =
  Some (lcg_output (lcg_step (random_state s)) mod tot,
        set_random_state (lcg_step (random_state s)) s).
Proof.
  intros Htot. unfold random_range.
  destruct (Z.eqb_spec tot 0); [contradiction|]. reflexivity.
Qed.

(** *** Walking the pool *)

Lemma chain_lookup pool p l i :
  chain pool p l -> In i l -> exists e, pool !! i = Some e.
Proof.
  revert p. induction l as [|j l IH]; intros p Hc Hin; [destruct Hin|].
  destruct Hc as [_ (e & He & Hc)]. destruct Hin as [->|Hin]; eauto.
Qed.

Lemma sum_tickets_cons pool i e l :
  pool !! i = Some e ->
  sum_tickets (tickets_of pool (i :: l)) =
  current_tickets e + sum_tickets (tickets_of pool l).
Proof. intros He. unfold tickets_of. simpl. rewrite He. reflexivity. Qed.

Lemma sum_tickets_nonneg pool l :
  (forall i e, In i l -> pool !! i = Some e -> 0 <= current_tickets e) ->
  0 <= sum_tickets (tickets_of pool l).
Proof.
  induction l as [|i l IH]; intros H; [simpl; lia|].
  destruct (pool !! i) as [e|] eqn:He.
  - rewrite (sum_tickets_cons _ _ _ _ He).
    specialize (H i e (or_introl eq_refl) He) as H0.
    specialize (IH (fun j e' Hj => H j e' (or_intror Hj))). lia.
  - unfold tickets_of. simpl. rewrite He. simpl.
    apply IH. intros j e' Hj. apply H. right. exact Hj.
Qed.

(** Some entry is reached whose running sum is above the winning ticket,
    as soon as the tickets add up to more than it. *)
Lemma first_exceeding_exists pool w :
  forall l p acc,
    chain pool p l ->
    acc <= w < acc + sum_tickets (tickets_of pool l) ->
    exists i, In i l /\ first_exceeding pool w acc l = Some i.
Proof.
  induction l as [|j l IH]; intros p acc Hc Hw.
  - simpl in Hw. lia.
  - destruct Hc as [_ (e & He & Hc)].
    rewrite (sum_tickets_cons _ _ _ _ He) in Hw.
    simpl. rewrite He.
    destruct (Z.gtb_spec (acc + current_tickets e) w).
    + exists j. split; [left|]; reflexivity.
    + destruct (IH (next e) (acc + current_tickets e) Hc) as (i & Hi & Hf); [lia|].
      exists i. split; [right; exact Hi | exact Hf].
Qed.

(** The walk of [lottery_draw] stops at that entry and lets it win. *)
Lemma draw_walk (s : state) (w : Z) :
  forall l fuel p acc i,
    chain (entry_pool s) p l ->
    (length l <= fuel)%nat ->
    (forall j e, In j l -> entry_pool s !! j = Some e -> 0 <= current_tickets e) ->
    0 <= acc ->
    acc + sum_tickets (tickets_of (entry_pool s) l) < 2 ^ 32 ->
    first_exceeding (entry_pool s) w acc l = Some i ->
    loop fuel (draw_step w) (p, acc) s =
    bind (win i) (fun p => ret (Some p)) s.
Proof.
  induction l as [|j l IH]; intros fuel p acc i Hc Hfuel Hpos Hacc Hsum Hfirst.
  - discriminate Hfirst.
  - destruct Hc as [-> (e & He & Hc)].
    destruct fuel as [|f]; [simpl in Hfuel; lia|].
    rewrite (sum_tickets_cons _ _ _ _ He) in Hsum.
    assert (He0 : 0 <= current_tickets e) by (eapply Hpos; [left; reflexivity | exact He]).
    assert (Hrest : 0 <= sum_tickets (tickets_of (entry_pool s) l)).
    { apply sum_tickets_nonneg. intros j' e' Hj'. apply Hpos. right. exact Hj'. }
    simpl in Hfirst. rewrite He in Hfirst.
    simpl loop. unfold bind at 1. unfold draw_step at 1.
    unfold bind at 1. unfold rd at 1. rewrite He.
    unfold wrap32. rewrite Z.mod_small by lia.
    destruct (acc + current_tickets e >? w).
    + injection Hfirst as <-.
      unfold bind. destruct (win j s) as [[q s1]|]; reflexivity.
    + unfold ret at 1.
      apply IH; try assumption; try lia.
      * simpl in Hfuel. lia.
      * intros j' e' Hj'. apply Hpos. right. exact Hj'.
Qed.

Lemma win_run (s : state) (i : nat) (e : lottery_entry) :
  entry_pool s !! i = Some e ->
  win i s =
  Some (pid e,
        set_stats (set_total_lotteries (wrap64 (total_lotteries (stats s) + 1)) (stats s))
          (set_entry_pool (<[i := set_wins (wrap64 (wins e + 1)) e]> (entry_pool s)) s)).
Proof.
  intros He. unfold win, bind, upd, upd_stats, modify, rd, ret.
  rewrite He. simpl.
  rewrite list_lookup_insert_eq by (eapply lookup_lt_Some; exact He).
  reflexivity.
Qed.



(** *** The cached total after [lottery_compensate] *)

(** C2 fails on the code.  After [lottery_init], [lottery_enqueue (1)] and
    [lottery_compensate (1, 1.0f)] the one entry holds 100 current
    tickets (base 100, compensation 0) but the cached total_tickets is
    200, and [lottery_validate] reports the mismatch.  Before the call of
    [lottery_compensate] the invariant holds and [lottery_validate]
    succeeds. *)
Theorem lottery_compensate_breaks_total :
  exists s0 s,
    after [Enqueue 1] = Some s0 /\
    pool_invariant s0 [0%nat] /\
    eval (lottery_validate 300) s0 = Some true /\
    exec (lottery_compensate 300 1 1%Q) s0 = Some s /\
    chain (entry_pool s) (lottery_pool s) [0%nat] /\
    sum_tickets (tickets_of (entry_pool s) [0%nat]) = 100 /\
    total_tickets s = 200 /\
    eval (lottery_validate 300) s = Some false /\
    (forall l, ~ pool_invariant s l).
Proof.
  eexists. eexists.
  split; [vm_compute; reflexivity|].
  split.
  { split; [|split].
    - vm_compute. eauto.
    - intros i e [<-|[]] H. vm_compute in H. injection H as <-.
      vm_compute. repeat split; discriminate.
    - reflexivity. }
  split; [vm_compute; reflexivity|].
  split; [vm_compute; reflexivity|].
  split; [vm_compute; eauto|].
  split; [reflexivity|]. split; [reflexivity|].
  split; [vm_compute; reflexivity|].
  intros l (Hc & _ & Hsum).
  destruct l as [|i l]; [discriminate Hc|].
  destruct Hc as [Hi (e & He & Hc)].
  vm_compute in Hi. injection Hi as <-.
  vm_compute in He. injection He as <-.
  destruct l as [|j l]; [|destruct Hc as [Hc _]; discriminate Hc].
  vm_compute in Hsum. discriminate Hsum.
Qed.

(** *** Enqueue, then dequeue *)

#[local] Arguments wrap32 : simpl never.
#[local] Arguments Z.add : simpl never.
#[local] Arguments Z.sub : simpl never.

Lemma find_entry_none (s : state) (p : Z) :
  forall l fuel q,
    chain (entry_pool s) q l ->
    (forall j e, In j l -> entry_pool s !! j = Some e -> pid e <> p) ->
    (length l < fuel)%nat ->
    loop fuel (find_step p) q s = Some (None, s).
Proof.
  induction l as [|j l IH]; intros fuel q Hc Hp Hfuel.
  - simpl in Hc. subst q. destruct fuel; [simpl in Hfuel; lia|]. reflexivity.
  - destruct Hc as [-> (e & He & Hc)].
    destruct fuel as [|f]; [simpl in Hfuel; lia|].
    simpl loop. unfold bind at 1, find_step at 1, bind at 1, rd at 1. rewrite He.
    destruct (Z.eqb_spec (pid e) p) as [Heq|_].
    + exfalso. eapply Hp; [left; reflexivity | exact He | exact Heq].
    + unfold ret at 1. apply IH; [exact Hc | | simpl in Hfuel; lia].
      intros j' e' Hj'. apply Hp. right. exact Hj'.
Qed.

Lemma wrap32_add_sub (t d : Z) :
  0 <= t < 2 ^ 32 -> wrap32 (wrap32 (t + d) - d) = t.
Proof.
  intros Ht. unfold wrap32.
  rewrite Zminus_mod_idemp_l. replace (t + d - d) with t by lia.
  apply Z.mod_small. exact Ht.
Qed.

Lemma dequeue_none (s : state) (p : Z) :
  forall l fuel pv q,
    chain (entry_pool s) q l ->
    (forall j e, In j l -> entry_pool s !! j = Some e -> pid e <> p) ->
    (length l < fuel)%nat ->
    loop fuel (dequeue_step p) (pv, q) s = Some (tt, s).
Proof.
  induction l as [|j l IH]; intros fuel pv q Hc Hp Hfuel.
  - simpl in Hc. subst q. destruct fuel; [simpl in Hfuel; lia|]. reflexivity.
  - destruct Hc as [-> (e & He & Hc)].
    destruct fuel as [|f]; [simpl in Hfuel; lia|].
    simpl loop. unfold bind at 1, dequeue_step at 1, bind at 1, rd at 1. rewrite He.
    destruct (Z.eqb_spec (pid e) p) as [Heq|_].
    + exfalso. eapply Hp; [left; reflexivity | exact He | exact Heq].
    + unfold ret at 1. apply IH; [exact Hc | | simpl in Hfuel; lia].
      intros j' e' Hj'. apply Hp. right. exact Hj'.
Qed.

Lemma lottery_enqueue_dequeue (fuel : nat) (s : state) (p : Z) (l : list nat) :
  chain (entry_pool s) (lottery_pool s) l ->
  (forall j e, In j l -> entry_pool s !! j = Some e -> pid e <> p) ->
  (length l < fuel)%nat ->
  current_pid s <> p ->
  0 <= total_tickets s < 2 ^ 32 ->
  0 <= participant_count s < 2 ^ 32 ->
  st_total_tickets (stats s) = total_tickets s ->
  st_participant_count (stats s) = participant_count s ->
  exec (lottery_enqueue fuel p ;; lottery_dequeue fuel p) s = recycled s p.
Proof.
  intros Hc Hp Hfuel Hcp Htot Hcnt Hst Hsc.
  assert (Hfind : find_entry fuel p s = Some (None, s)).
  { unfold find_entry, bind, gets. eapply find_entry_none; eassumption. }
  assert (Hdeq : lottery_dequeue fuel p s = Some (tt, s)).
  { unfold lottery_dequeue, bind, gets. eapply dequeue_none; eassumption. }
  unfold exec, recycled, lottery_enqueue.
  cbv [bind]. rewrite Hfind. cbn [is_null negb].
  destruct (free_entries s) as [i|] eqn:Hfree.
  2:{ unfold alloc_entry. cbv [bind gets ret]. rewrite Hfree, Hdeq. reflexivity. }
  destruct fuel as [|f]; [lia|].
  unfold lottery_dequeue.
  cbv [alloc_entry free_entry dequeue_step loop sync_total sync_count when
       bind gets modify ret rd upd].
  rewrite Hfree.
  destruct (entry_pool s !! i) as [e|] eqn:He; [|reflexivity].
  assert (Hi : (i < length (entry_pool s))%nat) by (eapply lookup_lt_Some; exact He).
  repeat (simpl;
          first [ rewrite He
                | rewrite list_lookup_insert_eq by (rewrite ?length_insert; exact Hi)
                | rewrite Z.eqb_refl ]).
  simpl.
  destruct (Z.eqb_spec (current_pid s) p) as [Heq|_]; [contradiction|].
  simpl. rewrite !list_insert_insert_eq.
  rewrite !wrap32_add_sub by assumption.
  f_equal. destruct s as [a b c d e0 g [x1 x2 x3 x4 x5] h pool fr lg].
  simpl in *. subst. reflexivity.
Qed.

End LotteryFacts.

(** ** Round-robin *)

Module RRFacts.
Import RR.
#[local] Arguments wrap32 : simpl never.
#[local] Arguments Z.add : simpl never.
#[local] Arguments Z.sub : simpl never.

Lemma ring_seg_ext (pool pool' : list rr_node) :
  forall l from to,
    ring_seg pool from l to ->
    (forall j n, In j l -> pool !! j = Some n ->
                 exists n', pool' !! j = Some n' /\ next n' = next n) ->
    ring_seg pool' from l to.
Proof.
  induction l as [|i l IH]; intros from to Hs Hext; [exact Hs|].
  destruct Hs as [-> (n & n' & Hn & Hnx & Hs)].
  destruct (Hext i n (or_introl eq_refl) Hn) as (m & Hm & Hmx).
  split; [reflexivity|]. exists m, n'. split; [exact Hm|]. split; [congruence|].
  apply IH; [exact Hs|]. intros j k Hj. apply Hext. right. exact Hj.
Qed.

Lemma ring_seg_snoc (pool : list rr_node) :
  forall l from t tn x,
    ring_seg pool from l t ->
    pool !! t = Some tn -> next tn = Some x ->
    ring_seg pool from (l ++ [t]) x.
Proof.
  induction l as [|i l IH]; intros from t tn x Hs Ht Hx.
  - simpl in Hs. subst from. simpl. split; [reflexivity|]. exists tn, x. auto.
  - destruct Hs as [-> (n & n' & Hn & Hnx & Hs)].
    simpl. split; [reflexivity|]. exists n, n'. split; [exact Hn|]. split; [exact Hnx|].
    eapply IH; eassumption.
Qed.

Lemma ring_seg_unsnoc (pool : list rr_node) :
  forall l from t x,
    ring_seg pool from (l ++ [t]) x ->
    ring_seg pool from l t /\ exists tn, pool !! t = Some tn /\ next tn = Some x.
Proof.
  induction l as [|i l IH]; intros from t x Hs.
  - destruct Hs as [-> (n & n' & Hn & Hnx & Hs)]. simpl in Hs. subst n'.
    split; [reflexivity|]. eauto.
  - destruct Hs as [-> (n & n' & Hn & Hnx & Hs)].
    destruct (IH _ _ _ Hs) as [Hs' Ht].
    split; [|exact Ht]. split; [reflexivity|]. exists n, n'. auto.
Qed.

Lemma ring_seg_lookup (pool : list rr_node) :
  forall l from to j, ring_seg pool from l to -> In j l -> exists n, pool !! j = Some n.
Proof.
  induction l as [|i l IH]; intros from to j Hs Hj; [destruct Hj|].
  destruct Hs as [-> (n & n' & Hn & Hnx & Hs)].
  destruct Hj as [<-|Hj]; [eauto | eapply IH; eassumption].
Qed.

Lemma ring_seg_head (pool : list rr_node) l from to :
  ring_seg pool from l to -> l <> [] -> hd_error l = Some from.
Proof. destruct l; [contradiction|]. intros [-> _] _. reflexivity. Qed.

(** Walking a segment none of whose nodes carries [p] and none of whose
    successors is the head takes [rr_find_node] to the end of it. *)
Lemma find_walk (s : state) (p : Z) (head : nat) :
  forall l from to fuel,
    ring_seg (rr_node_pool s) from l to ->
    (forall j n, In j l -> rr_node_pool s !! j = Some n -> pid n <> p) ->
    ~ In head (succs l to) ->
    loop (length l + fuel) (find_step p head) (Some from) s =
    loop fuel (find_step p head) (Some to) s.
Proof.
  induction l as [|i l IH]; intros from to fuel Hs Hp Hh.
  - simpl in Hs. subst from. reflexivity.
  - destruct Hs as [-> (n & n' & Hn & Hnx & Hs)].
    change (length (i :: l) + fuel)%nat with (Datatypes.S (length l + fuel)).
    rewrite loop_S.
    unfold bind at 1, find_step at 1, bind at 1, rd at 1. rewrite Hn.
    destruct (Z.eqb_spec (pid n) p) as [Heq|_].
    { exfalso. eapply Hp; [left; reflexivity | exact Hn | exact Heq]. }
    rewrite Hnx.
    assert (Hn' : n' <> head).
    { intros ->. apply Hh. simpl. destruct l as [|k l'].
      - simpl in Hs. subst. left. reflexivity.
      - destruct Hs as [-> _]. left. reflexivity. }
    change (ptr_eqb (Some n') (Some head)) with (Nat.eqb n' head).
    destruct (Nat.eqb_spec n' head); [contradiction|].
    unfold ret at 1. apply IH; [exact Hs | |].
    + intros j k Hj. apply Hp. right. exact Hj.
    + intros Hin. apply Hh. simpl. destruct l as [|k l']; simpl in *; [tauto|].
      right. exact Hin.
Qed.

Lemma ring_head_not_succ (h : nat) (l0 : list nat) (t : nat) (pool : list rr_node) :
  ring_seg pool h l0 t -> NoDup (l0 ++ [t]) -> ~ In h (succs l0 t).
Proof.
  intros Hs Hnd. destruct l0 as [|k l0']; simpl; [tauto|].
  destruct Hs as [-> _]. simpl in Hnd. apply NoDup_cons_1_1 in Hnd.
  rewrite list_elem_of_In in Hnd. exact Hnd.
Qed.

Lemma find_none (s : state) (p : Z) (h : nat) (l : list nat) (fuel : nat) :
  ring s h l ->
  (forall j n, In j l -> rr_node_pool s !! j = Some n -> pid n <> p) ->
  (length l <= fuel)%nat ->
  rr_find_node fuel p s = Some (None, s).
Proof.
  intros (Hh & Hne & Hnd & Hs & _) Hp Hfuel.
  unfold rr_find_node, bind, gets. rewrite Hh.
  destruct (exists_last Hne) as (l0 & t & ->).
  apply ring_seg_unsnoc in Hs. destruct Hs as (Hs & tn & Ht & Htx).
  rewrite length_app in Hfuel. simpl in Hfuel.
  replace fuel with (length l0 + (fuel - length l0))%nat by lia.
  rewrite (find_walk s p h l0 h t).
  - destruct (fuel - length l0)%nat as [|f] eqn:Ef; [lia|].
    rewrite loop_S. unfold bind, find_step, bind, rd. rewrite Ht.
    destruct (Z.eqb_spec (pid tn) p) as [Heq|_].
    { exfalso. eapply Hp; [apply in_or_app; right; left; reflexivity | exact Ht | exact Heq]. }
    rewrite Htx. change (ptr_eqb (Some h) (Some h)) with (Nat.eqb h h).
    rewrite Nat.eqb_refl. reflexivity.
  - exact Hs.
  - intros j n Hj. apply Hp. apply in_or_app. left. exact Hj.
  - eapply ring_head_not_succ; eassumption.
Qed.

(** The same walk finds [p] when the segment ends at a node that carries
    it. *)
Lemma find_some (s : state) (p : Z) (h i : nat) (l : list nat) (ni : rr_node) (fuel : nat) :
  rr_queue_head s = Some h ->
  ring_seg (rr_node_pool s) h l i ->
  (forall j n, In j l -> rr_node_pool s !! j = Some n -> pid n <> p) ->
  ~ In h (succs l i) ->
  rr_node_pool s !! i = Some ni -> pid ni = p ->
  (length l < fuel)%nat ->
  rr_find_node fuel p s = Some (Some i, s).
Proof.
  intros Hh Hs Hp Hsucc Hi Hpid Hfuel.
  unfold rr_find_node, bind, gets. rewrite Hh.
  replace fuel with (length l + (fuel - length l))%nat by lia.
  rewrite (find_walk s p h l h i _ Hs Hp Hsucc).
  destruct (fuel - length l)%nat as [|f] eqn:Ef; [lia|].
  rewrite loop_S. unfold bind, find_step, bind, rd. rewrite Hi.
  rewrite Hpid, Z.eqb_refl. reflexivity.
Qed.

#[local] Arguments rr_find_node : simpl never.

(** Put states and nodes into constructor form. *)
Ltac norm :=
  cbv beta delta
    [set_rr_queue_head set_rr_current set_rr_node_pool set_rr_free_nodes
     set_rr_queue_count set_rr_quantum set_rr_quantum_remaining set_rr_stats
     set_env set_pid set_time_remaining set_total_time set_rounds set_next
     set_prev set_total_processes set_total_context_switches
     set_total_quantum_expires set_current_queue_length set_max_queue_length];
  simpl.

Lemma rr_wrap32_add_sub (t d : Z) :
  0 <= t < 2 ^ 32 -> wrap32 (wrap32 (t + d) - d) = t.
Proof.
  intros Ht. unfold wrap32.
  rewrite Zminus_mod_idemp_l. replace (t + d - d) with t by lia.
  apply Z.mod_small. exact Ht.
Qed.

(** After an enqueue at the tail of a ring of at least two slots, the
    search for the new pid walks the old ring and ends on the new node. *)
Lemma find_enqueued (s2 : state) (p : Z) (fuel : nat) (pool : list rr_node)
    (h t i : nat) (l0 : list nat) (hn tn NI HN TN : rr_node) :
  rr_queue_head s2 = Some h ->
  rr_node_pool s2 = <[h := HN]> (<[t := TN]> (<[i := NI]> pool)) ->
  ring_seg pool h l0 t -> l0 <> [] ->
  NoDup (l0 ++ [t]) -> ~ In i (l0 ++ [t]) ->
  pool !! h = Some hn -> pool !! t = Some tn -> (i < length pool)%nat ->
  pid HN = pid hn -> next HN = next hn ->
  pid TN = pid tn -> next TN = Some i ->
  pid NI = p ->
  (forall j n, In j (l0 ++ [t]) -> pool !! j = Some n -> pid n <> p) ->
  (length (l0 ++ [t]) < fuel)%nat ->
  rr_find_node fuel p s2 = Some (Some i, s2).
Proof.
  intros Hh Hpool Hseg Hl0 Hnd Hfree Hhn Htn Hi HpH HnH HpT HnT HpN Hp Hfuel.
  assert (Hhlen : (h < length pool)%nat) by (eapply lookup_lt_Some; exact Hhn).
  assert (Htlen : (t < length pool)%nat) by (eapply lookup_lt_Some; exact Htn).
  assert (Hhd : exists l0', l0 = h :: l0').
  { destruct l0 as [|k l0']; [contradiction|]. destruct Hseg as [<- _]. eauto. }
  destruct Hhd as [l0' ->].
  assert (Hht : h <> t).
  { intros ->. simpl in Hnd. apply NoDup_cons_1_1 in Hnd. apply Hnd.
    apply list_elem_of_In, in_or_app. right. left. reflexivity. }
  assert (Hih : i <> h) by (intros ->; apply Hfree; left; reflexivity).
  assert (Hit : i <> t).
  { intros ->. apply Hfree, in_or_app. right. left. reflexivity. }
  assert (Hlk : forall j, In j (h :: l0') -> forall n, pool !! j = Some n ->
                exists n', rr_node_pool s2 !! j = Some n' /\ next n' = next n /\ pid n' = pid n).
  { intros j Hj n Hn. rewrite Hpool.
    assert (Hjt : j <> t).
    { intros ->. apply NoDup_app in Hnd. destruct Hnd as (_ & Hd & _).
      apply (Hd t); [apply list_elem_of_In; exact Hj | left]. }
    assert (Hji : j <> i).
    { intros ->. apply Hfree, in_or_app. left. exact Hj. }
    destruct (decide (j = h)) as [->|Hjh].
    - rewrite list_lookup_insert_eq by (rewrite !length_insert; assumption).
      exists HN. split; [reflexivity|]. split; congruence.
    - rewrite !list_lookup_insert_ne by congruence. eauto. }
  assert (Hlt : rr_node_pool s2 !! t = Some TN).
  { rewrite Hpool. rewrite list_lookup_insert_ne by congruence.
    apply list_lookup_insert_eq. rewrite length_insert. assumption. }
  assert (Hli : rr_node_pool s2 !! i = Some NI).
  { rewrite Hpool. rewrite !list_lookup_insert_ne by congruence.
    apply list_lookup_insert_eq. assumption. }
  eapply (find_some s2 p h i ((h :: l0') ++ [t]) NI).
  - exact Hh.
  - eapply ring_seg_snoc; [|exact Hlt|exact HnT].
    eapply ring_seg_ext; [exact Hseg|].
    intros j n Hj Hn. destruct (Hlk j Hj n Hn) as (n' & H1 & H2 & _). eauto.
  - intros j n Hj Hn. apply in_app_or in Hj. destruct Hj as [Hj|[<-|[]]].
    + destruct (ring_seg_lookup _ _ _ _ j Hseg Hj) as (n0 & Hn0).
      destruct (Hlk j Hj n0 Hn0) as (n' & H1 & _ & H3).
      assert (n' = n) by congruence. subst n'. rewrite H3.
      eapply Hp; [apply in_or_app; left; exact Hj | exact Hn0].
    + assert (n = TN) by congruence. subst n. rewrite HpT.
      eapply Hp; [apply in_or_app; right; left; reflexivity | exact Htn].
  - simpl. intros Hin. apply in_app_or in Hin. destruct Hin as [Hin|[Heq|[]]].
    + simpl in Hnd. apply NoDup_cons_1_1 in Hnd. apply Hnd.
      apply list_elem_of_In. exact Hin.
    + congruence.
  - exact Hli.
  - exact HpN.
  - exact Hfuel.
Qed.

Section RRRoundTrip.
Variable NPROC : nat.

Lemma rr_enqueue_dequeue (fuel : nat) (s : state) (p : Z) (l : list nat) :
  queue_wf s l ->
  (forall j n, In j l -> rr_node_pool s !! j = Some n -> pid n <> p) ->
  (forall i, rr_free_nodes s = Some i -> ~ In i l) ->
  (length l < fuel)%nat ->
  0 <= rr_queue_count s < 2 ^ 32 ->
  exec (round_robin_enqueue NPROC fuel p ;; round_robin_dequeue NPROC fuel p) s =
  recycled NPROC s p.
Proof.
  intros Hwf Hp Hfree Hfuel Hcnt.
  unfold exec, recycled, round_robin_enqueue, round_robin_dequeue.
  cbv [bind].
  destruct ((p <? 0) || (p >=? Z.of_nat NPROC)) eqn:Hrange; [reflexivity|].
  assert (Hfind : rr_find_node fuel p s = Some (None, s)).
  { unfold queue_wf in Hwf. destruct (rr_queue_head s) as [h|] eqn:Hh.
    - destruct Hwf as [Hring _]. eapply find_none; [exact Hring | exact Hp | lia].
    - unfold rr_find_node, bind, gets. rewrite Hh. reflexivity. }
  rewrite Hfind. cbn [is_null negb].
  unfold rr_node_alloc. cbv [bind gets].
  destruct (rr_free_nodes s) as [i|] eqn:Hfr.
  2:{ cbv [ret]. rewrite Hfind. reflexivity. }
  unfold rd at 1.
  destruct (rr_node_pool s !! i) as [e|] eqn:He; [|reflexivity].
  assert (Hi : (i < length (rr_node_pool s))%nat) by (eapply lookup_lt_Some; exact He).
  specialize (Hfree i eq_refl). clear Hfind.
  unfold queue_wf in Hwf.
  destruct s as [hd cur pool fr cnt q qr [tp tcs tqe awt cql mql] ev].
  simpl in Hwf, Hp, Hfr, He, Hi, Hcnt. subst fr.
  destruct hd as [h|].
  - destruct Hwf as [(_ & Hne & Hnd & Hseg & hn & Hhn & Hprev) (c & -> & Hc)].
    simpl in Hseg, Hhn.
    destruct (exists_last Hne) as (l0 & t & ->).
    rewrite last_snoc in Hprev.
    destruct (ring_seg_unsnoc _ _ _ _ _ Hseg) as (Hseg0 & tn & Htn & Htx).
    assert (Hhl : In h (l0 ++ [t])).
    { destruct l0 as [|k l0']; simpl in *; [left; congruence|].
      destruct Hseg0 as [-> _]. left. reflexivity. }
    assert (Hih : i <> h) by (intros ->; contradiction).
    assert (Hit : i <> t) by (intros ->; apply Hfree, in_or_app; right; left; reflexivity).
    assert (Hic : c <> i) by (intros ->; contradiction).
    assert (Hhlen : (h < length pool)%nat) by (eapply lookup_lt_Some; exact Hhn).
    assert (Htlen : (t < length pool)%nat) by (eapply lookup_lt_Some; exact Htn).
    cbv [modify upd rd ret when lift rr_node_free bind gets upd_stats].
    destruct l0 as [|k l0'].
    + simpl in Hseg0. subst t. clear Hit Htlen.
      assert (tn = hn) by congruence. subst tn. clear Htn.
      repeat (norm;
        first [ rewrite He | rewrite Hhn
              | rewrite list_lookup_insert_eq by (rewrite ?length_insert; assumption)
              | rewrite list_lookup_insert_ne by congruence
              | rewrite list_insert_insert_eq
              | rewrite Hprev ]).
      norm.
      destruct (wrap32 (cnt + 1) >? mql) eqn:Hmax; norm;
      (match goal with
       | |- context [rr_find_node fuel p ?s2] =>
           assert (Hf2 : rr_find_node fuel p s2 = Some (Some i, s2))
       end;
       [ eapply (find_some _ p h i [h]);
         [ reflexivity
         | simpl; split; [reflexivity|]; eexists; exists i;
           rewrite list_lookup_insert_eq by (rewrite ?length_insert; assumption);
           split; [reflexivity|]; split; reflexivity
         | intros j n [<-|[]]; simpl;
           rewrite list_lookup_insert_eq by (rewrite ?length_insert; assumption);
           intros [= <-]; simpl; eapply Hp; [left; reflexivity | exact Hhn]
         | simpl; intros [Heq|[]]; congruence
         | simpl; rewrite list_lookup_insert_ne by congruence;
           apply list_lookup_insert_eq; assumption
         | reflexivity
         | simpl in Hfuel |- *; lia ]
       | rewrite Hf2;
         repeat (norm;
           first [ rewrite list_lookup_insert_eq by (rewrite ?length_insert; assumption)
                 | rewrite list_lookup_insert_ne by congruence
                 | rewrite list_insert_insert_eq
                 | rewrite (proj2 (Nat.eqb_neq _ _)) by congruence ]);
         norm; rewrite rr_wrap32_add_sub by assumption
         ]).
      all: do 2 f_equal; apply list_eq; intros k;
        (destruct (decide (k = i)) as [->|Hki];
         [ rewrite !list_lookup_insert_eq by (rewrite ?length_insert; assumption);
           reflexivity |]);
        rewrite !(list_lookup_insert_ne _ i k) by congruence;
        (destruct (decide (k = h)) as [->|Hkh];
         [ rewrite list_lookup_insert_eq by (rewrite ?length_insert; assumption);
           rewrite Hhn; f_equal; destruct hn; simpl in *; congruence |]);
        rewrite !list_lookup_insert_ne by congruence; reflexivity.
    + assert (Hk : k = h) by (destruct Hseg0 as [<- _]; reflexivity). subst k.
      assert (Hht : h <> t).
      { intros ->. simpl in Hnd. apply NoDup_cons_1_1 in Hnd. apply Hnd.
        apply list_elem_of_In, in_or_app. right. left. reflexivity. }
      repeat (norm;
        first [ rewrite He | rewrite Hhn | rewrite Htn
              | rewrite list_lookup_insert_eq by (rewrite ?length_insert; assumption)
              | rewrite list_lookup_insert_ne by congruence
              | rewrite list_insert_insert_eq
              | rewrite Hprev ]).
      norm.
      destruct (wrap32 (cnt + 1) >? mql) eqn:Hmax; norm;
      (match goal with
       | |- context [rr_find_node fuel p ?s2] =>
           assert (Hf2 : rr_find_node fuel p s2 = Some (Some i, s2))
       end;
       [ eapply (find_enqueued _ p fuel pool h t i (h :: l0') hn tn);
         [ reflexivity | reflexivity | exact Hseg0 | discriminate | exact Hnd
         | exact Hfree | exact Hhn | exact Htn | exact Hi
         | reflexivity | reflexivity | reflexivity | reflexivity | reflexivity
         | exact Hp | exact Hfuel ]
       | rewrite Hf2;
         repeat (norm;
           first [ rewrite list_lookup_insert_eq by (rewrite ?length_insert; assumption)
                 | rewrite list_lookup_insert_ne by congruence
                 | rewrite list_insert_insert_eq
                 | rewrite (proj2 (Nat.eqb_neq _ _)) by congruence ]);
         norm; rewrite rr_wrap32_add_sub by assumption
         ]).
      all: do 2 f_equal; apply list_eq; intros k;
        (destruct (decide (k = i)) as [->|Hki];
         [ rewrite !list_lookup_insert_eq by (rewrite ?length_insert; assumption);
           reflexivity |]);
        rewrite !(list_lookup_insert_ne _ i k) by congruence;
        (destruct (decide (k = h)) as [->|Hkh];
         [ rewrite list_lookup_insert_eq by (rewrite ?length_insert; assumption);
           rewrite Hhn; f_equal; destruct hn; simpl in *; congruence |]);
        rewrite !(list_lookup_insert_ne _ h k) by congruence;
        (destruct (decide (k = t)) as [->|Hkt];
         [ rewrite list_lookup_insert_eq by (rewrite ?length_insert; assumption);
           rewrite Htn; f_equal; destruct tn; simpl in *; congruence |]);
        rewrite !list_lookup_insert_ne by congruence; reflexivity.
  - destruct Hwf as [-> ->].
    cbv [modify upd rd ret when lift rr_node_free bind gets upd_stats].
    repeat (simpl;
            first [ rewrite He
                  | rewrite list_lookup_insert_eq by (rewrite ?length_insert; exact Hi)
                  | rewrite list_insert_insert_eq ]).
    simpl.
    destruct (wrap32 (cnt + 1) >? mql) eqn:Hmax; simpl;
      (match goal with
       | |- context [rr_find_node fuel p ?s2] =>
           assert (Hf2 : rr_find_node fuel p s2 = Some (Some i, s2))
       end;
       [ eapply (find_some _ p i i []);
         [ reflexivity | reflexivity | intros j n [] | simpl; tauto
         | simpl; apply list_lookup_insert_eq; exact Hi | reflexivity | simpl; lia ]
       | rewrite Hf2;
         repeat (simpl;
            first [ rewrite list_lookup_insert_eq by (rewrite ?length_insert; exact Hi)
                  | rewrite list_insert_insert_eq
                  | rewrite Nat.eqb_refl ]);
         simpl; rewrite rr_wrap32_add_sub by assumption; reflexivity ]).
Qed.
End RRRoundTrip.

End RRFacts.

(** ** Enqueue, then dequeue *)

Module RoundTrip.




End RoundTrip.

(** ** Priority *)

Module PrioFacts.
Import Prio.

(** Put states and nodes into constructor form. *)
Ltac pnorm :=
  cbv beta delta
    [set_prio_queue set_prio_node_pool set_prio_free_nodes set_prio_queue_count
     set_aging_enabled set_aging_interval set_aging_counter set_prio_stats
     set_prio_ticks set_env set_pid set_base_priority set_current_priority
     set_wait_time set_last_run set_cpu_burst set_io_bound set_next
     set_total_schedules set_context_switches set_priority_changes
     set_aging_boosts set_starvation_boosts set_preemptions
     set_current_queue_length set_avg_wait_time];
  simpl.

Lemma priorities_two (pool : list prio_node) (i j : nat) (a b : prio_node) :
  pool !! i = Some a -> next a = Some j -> pool !! j = Some b -> next b = None ->
  i <> j ->
  priorities (Datatypes.S (length pool)) pool (Some i)
  = Some [current_priority a; current_priority b].
Proof.
  intros Hi Ha Hj Hb Hij.
  assert (2 <= length pool)%nat as Hlen.
  { apply lookup_lt_Some in Hi. apply lookup_lt_Some in Hj. lia. }
  destruct (length pool) as [|[|n]]; try lia.
  simpl. rewrite Hi. simpl. rewrite Ha, Hj. simpl. rewrite Hb. reflexivity.
Qed.

Section Starvation.
Variable cfg : config.

(** One tick on a two-node list in which only the second node starves. *)
Lemma tick_two (fuel : nat) (s : state) (i j : nat) (a b : prio_node) :
  (3 <= fuel)%nat ->
  prio_queue s = Some i ->
  prio_node_pool s !! i = Some a -> next a = Some j ->
  prio_node_pool s !! j = Some b -> next b = None ->
  i <> j ->
  aging_enabled s = false \/ wrap32 (aging_counter s + 1) < aging_interval s ->
  wrap64 (wait_time a + 1) <= PRIO_STARVATION_THRESHOLD cfg ->
  PRIO_STARVATION_THRESHOLD cfg < wrap64 (wait_time b + 1) ->
  Env.currpid (env s) < 0 \/
  (exists x y, 0 <= pid a /\ Env.proctab (env s) !! Z.to_nat (pid a) = Some x /\
               Env.proctab (env s) !! Z.to_nat (Env.currpid (env s)) = Some y) ->
  exists s',
    exec (priority_tick cfg fuel) s = Some s' /\
    prio_queue s' = Some i /\
    prio_queue_count s' = prio_queue_count s /\
    prio_node_pool s' =
      <[j := set_wait_time 0
               (set_current_priority
                  (Z.min PRIORITY_MAX
                     (wrap32 (current_priority b + PRIO_STARVATION_BOOST cfg))) b)]>
        (<[i := set_wait_time (wrap64 (wait_time a + 1)) a]> (prio_node_pool s)).
Proof.
  intros Hf Hq Hi Ha Hj Hb Hij Hage Hwa Hwb Hcp.
  destruct s as [q pool fr cnt ae ai ac st tk e]. simpl in *. subst q.
  destruct fuel as [|[|[|f]]]; try lia.
  pose proof (lookup_lt_Some _ _ _ Hi) as Hli.
  pose proof (lookup_lt_Some _ _ _ Hj) as Hlj.
  assert ((wrap64 (wait_time a + 1) >? PRIO_STARVATION_THRESHOLD cfg) = false) as Ea by lia.
  assert ((wrap64 (wait_time b + 1) >? PRIO_STARVATION_THRESHOLD cfg) = true) as Eb by lia.
  assert (ae = true -> (wrap32 (ac + 1) >=? ai) = false) as Eage.
  { intros ->. destruct Hage as [H|H]; [discriminate|lia]. }
  assert (Z.min PRIORITY_MAX (wrap32 (current_priority b + PRIO_STARVATION_BOOST cfg))
          = if wrap32 (current_priority b + PRIO_STARVATION_BOOST cfg) >? PRIORITY_MAX
            then PRIORITY_MAX
            else wrap32 (current_priority b + PRIO_STARVATION_BOOST cfg)) as Emin.
  { destruct (Z.gtb_spec (wrap32 (current_priority b + PRIO_STARVATION_BOOST cfg))
                         PRIORITY_MAX); lia. }
  rewrite Emin. clear Emin.
  destruct a as [pa ba ca wa la ua ia na], b as [pb bb cb wb lb ub ib nb].
  destruct e as [tab cp nr lg].
  simpl in *. subst na nb.
  unfold exec, priority_tick, priority_check_starvation.
  assert (0 <= cp -> (cp <? 0) = false) as Ecp' by lia.
  assert (cp < 0 -> (cp >=? 0) = false) as Ecp by lia.
  assert (exists x y, 0 <= cp ->
            (pa <? 0) = false /\ tab !! Z.to_nat pa = Some x /\
            tab !! Z.to_nat cp = Some y) as (x & y & Hxy).
  { destruct Hcp as [Hcp|(x & y & H1 & H2 & H3)].
    - exists (Env.mk_proc Env.PR_FREE 0), (Env.mk_proc Env.PR_FREE 0). lia.
    - exists x, y. intros _. repeat split; [lia|assumption..]. }
  repeat first
    [ rewrite Hi | rewrite Hj | rewrite Ea | rewrite Eb
    | rewrite Eage by reflexivity
    | rewrite Ecp by lia | rewrite Ecp' by lia
    | rewrite (proj1 (Hxy ltac:(lia)))
    | rewrite (proj1 (proj2 (Hxy ltac:(lia))))
    | rewrite (proj2 (proj2 (Hxy ltac:(lia))))
    | rewrite list_lookup_insert_eq by (rewrite ?length_insert; lia)
    | rewrite list_lookup_insert_ne by lia
    | progress cbv [bind gets modify ret rd upd when upd_stats in_env zoom Env.rd_proc]
    | progress pnorm
    | match goal with
      | |- context [if ?c then _ else _] => destruct c eqn:?
      end ].
  all: (eexists; split; [reflexivity|]); pnorm;
    rewrite ?list_insert_insert_eq; auto.
Qed.


(** [priority_validate] rejects a list whose second node outranks the
    first. *)
Lemma validate_two (s : state) (i j : nat) (a b : prio_node) :
  prio_queue s = Some i ->
  prio_node_pool s !! i = Some a -> next a = Some j ->
  prio_node_pool s !! j = Some b -> next b = None ->
  current_priority a < current_priority b ->
  eval (priority_validate cfg) s = Some false.
Proof.
  intros Hq Hi Ha Hj Hb Hlt.
  destruct s as [q pool fr cnt ae ai ac st tk e]. simpl in *. subst q.
  destruct a as [pa ba ca wa la ua ia na], b as [pb bb cb wb lb ub ib nb].
  simpl in *. subst na nb.
  assert ((cb >? ca) = true) as Eo by lia.
  unfold eval, priority_validate.
  destruct (NPROC cfg) as [|[|n]].
  all: repeat first
    [ rewrite Hi | rewrite Hj | rewrite Eo
    | progress cbv [bind gets modify ret rd]
    | progress pnorm
    | match goal with
      | |- context [if ?c then _ else _] => destruct c eqn:?
      end ]; try reflexivity.
Qed.

(** C3 (refuted): a tick whose starvation guard boosts a waiting node does
    not re-sort the ready list.  Let the list be [a; b], sorted, with [b]
    waiting longer than PRIO_STARVATION_THRESHOLD on this tick and [a]
    not, and the boost lifting [b] above [a] (and no aging round due).
    Then [priority_tick] returns, the list it leaves is no longer sorted
    descending by [current_priority], and [priority_validate] reports the
    order violation.  This holds for every value of the tunables. *)
Theorem priority_tick_starvation_unsorts (fuel : nat) (s : state) (i j : nat)
    (a b : prio_node) :
  (3 <= fuel)%nat ->
  prio_queue s = Some i ->
  prio_node_pool s !! i = Some a -> next a = Some j ->
  prio_node_pool s !! j = Some b -> next b = None ->
  i <> j ->
  aging_enabled s = false \/ wrap32 (aging_counter s + 1) < aging_interval s ->
  wrap64 (wait_time a + 1) <= PRIO_STARVATION_THRESHOLD cfg ->
  PRIO_STARVATION_THRESHOLD cfg < wrap64 (wait_time b + 1) ->
  Env.currpid (env s) < 0 \/
  (exists x y, 0 <= pid a /\ Env.proctab (env s) !! Z.to_nat (pid a) = Some x /\
               Env.proctab (env s) !! Z.to_nat (Env.currpid (env s)) = Some y) ->
  current_priority b <= current_priority a < PRIORITY_MAX ->
  current_priority a < wrap32 (current_priority b + PRIO_STARVATION_BOOST cfg) ->
  sorted_queue s /\
  exists s',
    exec (priority_tick cfg fuel) s = Some s' /\
    ~ sorted_queue s' /\
    eval (priority_validate cfg) s' = Some false.
Proof.
  intros Hf Hq Hi Ha Hj Hb Hij Hage Hwa Hwb Hcp Hab Hboost.
  split.
  - exists [current_priority a; current_priority b]. split.
    + rewrite Hq. eapply priorities_two; eassumption.
    + simpl. lia.
  - destruct (tick_two fuel s i j a b Hf Hq Hi Ha Hj Hb Hij Hage Hwa Hwb Hcp)
      as (s' & Hrun & Hq' & _ & Hpool).
    pose proof (lookup_lt_Some _ _ _ Hi) as Hli.
    pose proof (lookup_lt_Some _ _ _ Hj) as Hlj.
    set (a' := set_wait_time (wrap64 (wait_time a + 1)) a) in *.
    set (b' := set_wait_time 0
                 (set_current_priority
                    (Z.min PRIORITY_MAX
                       (wrap32 (current_priority b + PRIO_STARVATION_BOOST cfg))) b)) in *.
    assert (prio_node_pool s' !! i = Some a') as Hi'.
    { rewrite Hpool, list_lookup_insert_ne by lia.
      apply list_lookup_insert_eq. exact Hli. }
    assert (prio_node_pool s' !! j = Some b') as Hj'.
    { rewrite Hpool. apply list_lookup_insert_eq. rewrite length_insert. exact Hlj. }
    assert (current_priority a' < current_priority b') as Hlt.
    { subst a' b'. destruct a, b. simpl in *. unfold PRIORITY_MAX in *. lia. }
    exists s'. split; [exact Hrun|]. split.
    + intros (l & Hl & Hd). rewrite Hq' in Hl.
      rewrite (priorities_two _ i j a' b') in Hl;
        [| exact Hi' | subst a'; destruct a; exact Ha | exact Hj'
         | subst b'; destruct b; exact Hb | exact Hij].
      injection Hl as <-. simpl in Hd. lia.
    + apply (validate_two s' i j a' b');
        [ exact Hq' | exact Hi' | subst a'; destruct a; exact Ha | exact Hj'
        | subst b'; destruct b; exact Hb | exact Hlt ].
Qed.
End Starvation.

(** The hypotheses are met by a state the code reaches: with the sample
    tunables, process 2 (priority 49) is enqueued, one tick later process
    1 (priority 50), and after 1000 ticks in all the list is [1; 2] with
    process 2 one tick short of the threshold.  The next tick leaves
    priorities 60 and 69 in that order. *)
Lemma priority_tick_starvation_unsorts_witness :
  exec (priority_init sample_config ;; run_ops sample_config 8 starving_run)
       (boot sample_config env3) = Some starving /\
  eval (priority_validate sample_config) starving = Some true /\
  sorted_queue starving /\
  exists s',
    exec (priority_tick sample_config 8) starving = Some s' /\
    ~ sorted_queue s' /\
    eval (priority_validate sample_config) s' = Some false.
Proof.
  split; [vm_compute; reflexivity|].
  split; [vm_compute; reflexivity|].
  apply (priority_tick_starvation_unsorts sample_config 8 starving 1 0
           (mk_node 1 50 60 999 1 0 false (Some 0%nat))
           (mk_node 2 49 59 1000 0 0 false None));
    try reflexivity; try lia.
  - right. reflexivity.
  - right. exists (Env.mk_proc Env.PR_READY 50), (Env.mk_proc Env.PR_CURR 60).
    repeat split. discriminate.
  - split; [discriminate|reflexivity].
Defined.


End PrioFacts.

(** ** Multi-level feedback queue *)

Module MLFQFacts.
Import MLFQ.

#[local] Instance kept_or_reset_preorder : PreOrder kept_or_reset.
Proof.
  split.
  - intros s i n' H. exists n'. split; [exact H | left; reflexivity].
  - intros a b c Hab Hbc i n' H.
    destruct (Hbc i n' H) as (n1 & H1 & E1).
    destruct (Hab i n1 H1) as (n0 & H0 & E0).
    exists n0. split; [exact H0|]. destruct E1 as [->| ->]; [exact E0 | right; reflexivity].
Qed.

Lemma kor_same_pool (s s' : state) :
  mlfq_node_pool s' = mlfq_node_pool s -> kept_or_reset s s'.
Proof.
  intros E i n' H. rewrite E in H. exists n'. split; [exact H | left; reflexivity].
Qed.

Lemma kor_rd i : preserves kept_or_reset (rd i).
Proof.
  intros s a s' H. unfold rd in H.
  destruct (mlfq_node_pool s !! i); [|discriminate].
  injection H as _ <-. reflexivity.
Qed.

Lemma kor_upd i f :
  (forall n, time_used (f n) = time_used n \/ time_used (f n) = 0) ->
  preserves kept_or_reset (upd i f).
Proof.
  intros Hf s a s' H. unfold upd in H.
  destruct (mlfq_node_pool s !! i) as [n|] eqn:E; [|discriminate].
  injection H as _ <-. intros j n' Hj. simpl in Hj.
  destruct (decide (i = j)) as [->|Hne].
  - rewrite list_lookup_insert_eq in Hj by (eapply lookup_lt_Some; eassumption).
    injection Hj as <-. exists n. split; [exact E | apply Hf].
  - rewrite list_lookup_insert_ne in Hj by exact Hne.
    exists n'. split; [exact Hj | left; reflexivity].
Qed.

Lemma kor_pool_free {A} (m : M state A) :
  (forall s a s', m s = Some (a, s') -> mlfq_node_pool s' = mlfq_node_pool s) ->
  preserves kept_or_reset m.
Proof. intros H s a s' E. apply kor_same_pool. eapply H. exact E. Qed.

Lemma kor_rdq l : preserves kept_or_reset (rdq l).
Proof.
  apply kor_pool_free. intros s a s' H. unfold rdq in H.
  destruct (at_index _ _); [|discriminate]. injection H as _ <-. reflexivity.
Qed.

Lemma kor_updq l f : preserves kept_or_reset (updq l f).
Proof.
  apply kor_pool_free. intros s a s' H. unfold updq in H.
  destruct (at_index _ _); [|discriminate]. injection H as _ <-. reflexivity.
Qed.

Lemma kor_rd_quantum l : preserves kept_or_reset (rd_quantum l).
Proof.
  apply kor_pool_free. intros s a s' H. unfold rd_quantum in H.
  destruct (at_index _ _); [|discriminate]. injection H as _ <-. reflexivity.
Qed.

Lemma kor_rd_allotment l : preserves kept_or_reset (rd_allotment l).
Proof.
  apply kor_pool_free. intros s a s' H. unfold rd_allotment in H.
  destruct (at_index _ _); [|discriminate]. injection H as _ <-. reflexivity.
Qed.

Lemma kor_add_level_count l d : preserves kept_or_reset (add_level_count l d).
Proof.
  apply kor_pool_free. intros s a s' H. unfold add_level_count in H.
  destruct (at_index _ _); [|discriminate]. injection H as _ <-. reflexivity.
Qed.

Lemma kor_incr_level_time l : preserves kept_or_reset (incr_level_time l).
Proof.
  apply kor_pool_free. intros s a s' H. unfold incr_level_time in H.
  destruct (at_index _ _); [|discriminate]. injection H as _ <-. reflexivity.
Qed.

Lemma kor_upd_stats f : preserves kept_or_reset (upd_stats f).
Proof. apply kor_pool_free. intros s a s' H. injection H as _ <-. reflexivity. Qed.

Lemma kor_in_env {A} (m : M Env.t A) : preserves kept_or_reset (in_env m).
Proof.
  apply kor_pool_free. intros s a s' H. unfold in_env, zoom in H.
  destruct (m (env s)) as [[x t]|]; [|discriminate]. injection H as _ <-. reflexivity.
Qed.

Create HintDb kor discriminated.
#[local] Hint Resolve kor_rd kor_rdq kor_updq kor_rd_quantum kor_rd_allotment
  kor_add_level_count kor_incr_level_time kor_upd_stats kor_in_env : kor.
#[local] Hint Extern 1 (preserves kept_or_reset (upd _ _)) =>
  (apply kor_upd; intros ?; simpl; auto) : kor.
#[local] Hint Extern 1 (preserves kept_or_reset (modify _)) =>
  (apply kor_pool_free; intros ? ? ? H; injection H as _ <-; reflexivity) : kor.

Ltac kor_auto := pres_with ltac:(auto with kor).

Section WithConfig.


Lemma kor_remove i : preserves kept_or_reset (mlfq_remove_from_queue i).
Proof. unfold mlfq_remove_from_queue. kor_auto. Qed.

Lemma kor_add i l : preserves kept_or_reset (mlfq_add_to_level i l).
Proof. unfold mlfq_add_to_level. kor_auto. Qed.

#[local] Hint Resolve kor_remove kor_add : kor.

Lemma kor_boost_from fuel n l : preserves kept_or_reset (boost_from n l fuel).
Proof.
  revert l. induction n as [|n IH]; intros l; simpl.
  - kor_auto.
  - apply preserves_bind; [typeclasses eauto | | intros _; apply IH].
    unfold boost_level. kor_auto.
Qed.

#[local] Hint Resolve kor_boost_from : kor.

Lemma kor_tick fuel : preserves kept_or_reset (mlfq_tick fuel).
Proof. unfold mlfq_tick, mlfq_priority_boost. kor_auto. Qed.

End WithConfig.

Section Tracked.
Variables (N i : nat) (LQ LA : list Z) (TK : Z).

Lemma at_index_lt {A} (a : list A) (l : Z) :
  0 <= l < Z.of_nat (length a) -> exists x, at_index a l = Some x.
Proof.
  intros H. unfold at_index. destruct (Z.ltb_spec l 0); [lia|].
  apply lookup_lt_is_Some_2. lia.
Qed.

Lemma tr_rd v j (Q : mlfq_node -> state -> Prop) s :
  tracked N i v LQ LA TK s -> (j < N)%nat ->
  (forall n, mlfq_node_pool s !! j = Some n -> ok_node N n ->
             (j = i -> unlink n = v) -> Q n s) ->
  returns (rd j) Q s.
Proof.
  intros (Hc & HN & (n0 & Hi & Hv) & _) Hj HQ.
  destruct (lookup_lt_is_Some_2 (mlfq_node_pool s) j) as [n Hn]; [lia|].
  exists n, s. unfold rd. rewrite Hn. split; [reflexivity|].
  apply HQ; [exact Hn | | ].
  - destruct Hc as (Hp & _). rewrite HN in Hp.
    eapply Forall_lookup_1; eassumption.
  - intros ->. congruence.
Qed.

Lemma tr_upd_link v j f (Q : unit -> state -> Prop) s :
  tracked N i v LQ LA TK s -> (j < N)%nat ->
  (forall n, ok_node N n -> ok_node N (f n) /\ unlink (f n) = unlink n) ->
  (forall s', tracked N i v LQ LA TK s' -> Q tt s') ->
  returns (upd j f) Q s.
Proof.
  intros (Hc & HN & (n0 & Hi & Hv) & HLQ & HLA & HTK) Hj Hf HQ.
  destruct (lookup_lt_is_Some_2 (mlfq_node_pool s) j) as [n Hn]; [lia|].
  eexists tt, _. unfold upd. rewrite Hn. split; [reflexivity|].
  destruct Hc as (Hp & Hq & Hl).
  assert (ok_node N n) as Hok by (rewrite HN in Hp; eapply Forall_lookup_1; eassumption).
  destruct (Hf n Hok) as (Hok' & Hun).
  apply HQ. unfold tracked, closed, holds. simpl. rewrite length_insert.
  repeat split; try assumption; try (apply Hl).
  - apply Forall_insert; [exact Hp | rewrite HN; exact Hok'].
  - destruct (decide (j = i)) as [->|Hne].
    + exists (f n). rewrite list_lookup_insert_eq by lia. split; [reflexivity|].
      rewrite Hun. congruence.
    + exists n0. rewrite list_lookup_insert_ne by exact Hne. split; assumption.
Qed.

Lemma tr_upd_payload v v' f (Q : unit -> state -> Prop) s :
  tracked N i v LQ LA TK s ->
  (forall n, ok_node N n -> unlink n = v -> ok_node N (f n) /\ unlink (f n) = v') ->
  (forall s', tracked N i v' LQ LA TK s' -> Q tt s') ->
  returns (upd i f) Q s.
Proof.
  intros (Hc & HN & (n0 & Hi & Hv) & HLQ & HLA & HTK) Hf HQ.
  eexists tt, _. unfold upd. rewrite Hi. split; [reflexivity|].
  destruct Hc as (Hp & Hq & Hl).
  assert (ok_node N n0) as Hok by (rewrite HN in Hp; eapply Forall_lookup_1; eassumption).
  destruct (Hf n0 Hok Hv) as (Hok' & Hun).
  apply HQ. unfold tracked, closed, holds. simpl. rewrite length_insert.
  repeat split; try assumption; try (apply Hl).
  - apply Forall_insert; [exact Hp | rewrite HN; exact Hok'].
  - exists (f n0). rewrite list_lookup_insert_eq by (eapply lookup_lt_Some; eassumption).
    split; [reflexivity | exact Hun].
Qed.

Lemma tr_rdq v l (Q : mlfq_queue -> state -> Prop) s :
  tracked N i v LQ LA TK s -> 0 <= l < 8 ->
  (forall q, ok_queue N q -> Q q s) ->
  returns (rdq l) Q s.
Proof.
  intros (Hc & HN & _) Hl HQ. destruct Hc as (_ & Hq & Hlen & _).
  destruct (at_index_lt (mlfq_queues s) l) as [q E]; [lia|].
  exists q, s. unfold rdq. rewrite E. split; [reflexivity|]. apply HQ.
  unfold at_index in E. destruct (l <? 0); [discriminate|].
  rewrite HN in Hq. eapply Forall_lookup_1; eassumption.
Qed.

Lemma tr_updq v l f (Q : unit -> state -> Prop) s :
  tracked N i v LQ LA TK s -> 0 <= l < 8 ->
  (forall q, ok_queue N q -> ok_queue N (f q)) ->
  (forall s', tracked N i v LQ LA TK s' -> Q tt s') ->
  returns (updq l f) Q s.
Proof.
  intros (Hc & HN & Hh & HLQ & HLA & HTK) Hl Hf HQ.
  destruct Hc as (Hp & Hq & Hlen & Hrest).
  destruct (at_index_lt (mlfq_queues s) l) as [q E]; [lia|].
  eexists tt, _. unfold updq. rewrite E. split; [reflexivity|]. apply HQ.
  unfold at_index in E. destruct (l <? 0); [discriminate|].
  unfold tracked, closed. simpl. rewrite length_insert.
  repeat split; try assumption; try (apply Hrest).
  apply Forall_insert; [exact Hq|]. rewrite HN. apply Hf.
  rewrite HN in Hq. eapply Forall_lookup_1; eassumption.
Qed.

Lemma tr_rd_allotment v l (Q : Z -> state -> Prop) s :
  tracked N i v LQ LA TK s -> 0 <= l < 8 ->
  (forall a, at_index LA l = Some a -> Q a s) ->
  returns (rd_allotment l) Q s.
Proof.
  intros (Hc & HN & Hh & HLQ & HLA & HTK) Hl HQ.
  destruct Hc as (_ & _ & _ & _ & Hlen & _).
  destruct (at_index_lt (level_allotments s) l) as [a E]; [lia|].
  exists a, s. unfold rd_allotment. rewrite E. split; [reflexivity|].
  apply HQ. rewrite <- HLA. exact E.
Qed.

Lemma tr_rd_quantum v l (Q : Z -> state -> Prop) s :
  tracked N i v LQ LA TK s -> 0 <= l < 8 ->
  (forall a, at_index LQ l = Some a -> Q a s) ->
  returns (rd_quantum l) Q s.
Proof.
  intros (Hc & HN & Hh & HLQ & HLA & HTK) Hl HQ.
  destruct Hc as (_ & _ & _ & Hlen & _).
  destruct (at_index_lt (level_quantums s) l) as [a E]; [lia|].
  exists a, s. unfold rd_quantum. rewrite E. split; [reflexivity|].
  apply HQ. rewrite <- HLQ. exact E.
Qed.

Lemma tr_add_level_count v l d (Q : unit -> state -> Prop) s :
  tracked N i v LQ LA TK s -> 0 <= l < 8 ->
  (forall s', tracked N i v LQ LA TK s' -> Q tt s') ->
  returns (add_level_count l d) Q s.
Proof.
  intros (Hc & HN & Hh & HLQ & HLA & HTK) Hl HQ.
  destruct Hc as (Hp & Hq & H1 & H2 & H3 & H4 & H5).
  destruct (at_index_lt (per_level_count (mlfq_stats s)) l) as [a E]; [lia|].
  eexists tt, _. unfold add_level_count. rewrite E. split; [reflexivity|]. apply HQ.
  unfold tracked, closed. simpl. rewrite length_insert. repeat split; assumption.
Qed.

Lemma tr_upd_stats v f (Q : unit -> state -> Prop) s :
  tracked N i v LQ LA TK s ->
  (forall x, per_level_count (f x) = per_level_count x /\
             per_level_time (f x) = per_level_time x) ->
  (forall s', tracked N i v LQ LA TK s' -> Q tt s') ->
  returns (upd_stats f) Q s.
Proof.
  intros (Hc & HN & Hh & HLQ & HLA & HTK) Hf HQ.
  destruct Hc as (Hp & Hq & H1 & H2 & H3 & H4 & H5).
  eexists tt, _. split; [reflexivity|]. apply HQ.
  destruct (Hf (mlfq_stats s)) as (E1 & E2).
  unfold tracked, closed. simpl. rewrite E1, E2. repeat split; assumption.
Qed.

Lemma tr_ticks v (Q : Z -> state -> Prop) s :
  tracked N i v LQ LA TK s -> Q TK s -> returns (gets mlfq_ticks) Q s.
Proof.
  intros (_ & _ & _ & _ & _ & HTK) HQ. apply returns_gets. rewrite HTK. exact HQ.
Qed.

Lemma tracked_lt v s : tracked N i v LQ LA TK s -> (i < N)%nat.
Proof.
  intros (_ & HN & (n & Hi & _) & _). rewrite <- HN. eapply lookup_lt_Some; eassumption.
Qed.

Lemma tracked_upd_payload v v' f n s :
  tracked N i v LQ LA TK s ->
  mlfq_node_pool s !! i = Some n ->
  ok_node N (f n) -> unlink (f n) = v' ->
  tracked N i v' LQ LA TK
    (set_mlfq_node_pool (<[i := f n]> (mlfq_node_pool s)) s).
Proof.
  intros (Hc & HN & Hh & HLQ & HLA & HTK) Hn Hok Hun.
  destruct Hc as (Hp & Hq & Hl).
  unfold tracked, closed, holds. simpl. rewrite length_insert.
  repeat split; try assumption; try (apply Hl).
  - apply Forall_insert; [exact Hp | rewrite HN; exact Hok].
  - exists (f n). rewrite list_lookup_insert_eq by (eapply lookup_lt_Some; eassumption).
    split; [reflexivity | exact Hun].
Qed.



End Tracked.

(** Side conditions on pointers and levels. *)
Ltac ok :=
  unfold ok_node, ok_queue, unlink, MLFQ_NUM_LEVELS in *; simpl in *;
  repeat match goal with
         | H : _ /\ _ |- _ => destruct H
         end;
  repeat match goal with
         | H : ?x = Some _, H' : context [?x] |- _ => rewrite H in H'
         | H : ?x = None, H' : context [?x] |- _ => rewrite H in H'
         end;
  simpl in *; repeat split; try assumption; try lia; try reflexivity;
  try congruence.

(** One step of a run under the [tracked] invariant. *)
Ltac tr :=
  cbv zeta;
  lazymatch goal with
  | |- returns (bind _ _) _ _ => apply returns_bind
  | |- returns (ret _) _ _ => apply returns_ret
  | H : tracked _ _ _ _ _ _ ?s |- returns (rd _) _ ?s =>
      eapply tr_rd; [exact H | ok | intros ? ? ? ?]
  | H : tracked _ _ _ _ _ _ ?s |- returns (rdq _) _ ?s =>
      eapply tr_rdq; [exact H | ok | intros ? ?]
  | H : tracked _ _ _ _ _ _ ?s |- returns (updq _ _) _ ?s =>
      eapply tr_updq; [exact H | ok | intros ? ?; ok | clear H; intros ? H]
  | H : tracked _ _ _ _ _ _ ?s |- returns (rd_allotment _) _ ?s =>
      eapply tr_rd_allotment; [exact H | ok | intros ? ?]
  | H : tracked _ _ _ _ _ _ ?s |- returns (rd_quantum _) _ ?s =>
      eapply tr_rd_quantum; [exact H | ok | intros ? ?]
  | H : tracked _ _ _ _ _ _ ?s |- returns (add_level_count _ _) _ ?s =>
      eapply tr_add_level_count; [exact H | ok | clear H; intros ? H]
  | H : tracked _ _ _ _ _ _ ?s |- returns (upd_stats _) _ ?s =>
      eapply tr_upd_stats; [exact H | intros ?; split; reflexivity | clear H; intros ? H]
  | H : tracked _ _ _ _ _ _ ?s |- returns (gets mlfq_ticks) _ ?s =>
      eapply tr_ticks; [exact H |]
  end.

(** A store that only rewrites links. *)
Ltac tr_link :=
  lazymatch goal with
  | H : tracked _ _ _ _ _ _ ?s |- returns (upd _ _) _ ?s =>
      eapply tr_upd_link; [exact H | ok | intros ? ?; ok | clear H; intros ? H]
  end.

Lemma remove_spec N i LQ LA TK v j (Q : unit -> state -> Prop) s :
  tracked N i v LQ LA TK s -> (j < N)%nat ->
  (forall s', tracked N i v LQ LA TK s' -> Q tt s') ->
  returns (mlfq_remove_from_queue j) Q s.
Proof.
  intros Ht Hj HQ. unfold mlfq_remove_from_queue.
  tr. tr. tr.
  destruct (prev n) as [pv|] eqn:Epv.
  - tr. tr. tr_link. tr. tr. tr.
    destruct (next n1) as [nx|] eqn:Enx.
    + tr. tr. tr_link. repeat first [tr | tr_link]. apply HQ. exact Ht.
    + repeat first [tr | tr_link]. apply HQ. exact Ht.
  - tr. tr. tr. tr. tr. tr.
    destruct (next n1) as [nx|] eqn:Enx.
    + repeat first [tr | tr_link]. apply HQ. exact Ht.
    + repeat first [tr | tr_link]. apply HQ. exact Ht.
Qed.

(** A store to a field of the tracked node other than its links. *)
Ltac tr_payload w :=
  lazymatch goal with
  | H : tracked _ _ _ _ _ _ ?s |- returns (upd _ _) _ ?s =>
      eapply tr_upd_payload with (v' := w);
      [ exact H
      | let n := fresh "n" in let Hn := fresh "Hn" in let E := fresh "E" in
        intros n Hn E; rewrite <- E; destruct n; ok
      | clear H; intros ? H ]
  end.

Lemma add_spec N i LQ LA TK v l (Q : unit -> state -> Prop) s :
  tracked N i v LQ LA TK s -> 0 <= l ->
  (forall s', tracked N i
                (set_level (if l >=? MLFQ_NUM_LEVELS then MLFQ_NUM_LEVELS - 1 else l) v)
                LQ LA TK s' -> Q tt s') ->
  returns (mlfq_add_to_level i l) Q s.
Proof.
  intros Ht Hl HQ. unfold mlfq_add_to_level.
  pose proof (tracked_lt _ _ _ _ _ _ _ Ht) as Hi.
  set (l' := if l >=? MLFQ_NUM_LEVELS then MLFQ_NUM_LEVELS - 1 else l) in *.
  assert (0 <= l' < 8) as Hl'.
  { subst l'. unfold MLFQ_NUM_LEVELS. destruct (Z.geb_spec l 8); lia. }
  tr. tr_payload (set_level l' v).
  tr. tr_link. tr. tr. tr. tr_link. tr. tr. tr.
  destruct (tail q0) as [t|] eqn:Et.
  - tr_link. repeat first [tr | tr_link]. apply HQ. exact Ht.
  - repeat first [tr | tr_link]. apply HQ. exact Ht.
Qed.

Lemma find_in_level_sim fuel p l s s2 r s' :
  same_chains s s2 ->
  find_in_level fuel p l s = Some (r, s') ->
  find_in_level fuel p l s2 = Some (r, s2).
Proof.
  intros (Hq & Hp). unfold find_in_level, bind, rdq. rewrite Hq.
  destruct (at_index (mlfq_queues s) (Z.of_nat l)) as [q|]; [|discriminate].
  generalize (head q). clear q. intros node. revert node.
  induction fuel as [|f IH]; intros node; simpl; [discriminate|].
  destruct node as [j|]; unfold bind, rd, ret.
  - specialize (Hp j).
    destruct (mlfq_node_pool s !! j) as [n|], (mlfq_node_pool s2 !! j) as [n2|];
      simpl in Hp; try discriminate.
    injection Hp as Hpid Hnext. rewrite Hpid, Hnext.
    destruct (pid n =? p).
    + intros H. injection H as <- _. reflexivity.
    + apply IH.
  - intros H. injection H as <- _. reflexivity.
Qed.

Lemma find_from_sim levels fuel p l s s2 r s' :
  same_chains s s2 ->
  find_from levels l fuel p s = Some (r, s') ->
  find_from levels l fuel p s2 = Some (r, s2).
Proof.
  intros Hs. revert l s'. induction levels as [|k IH]; intros l s'; simpl.
  - intros H. injection H as <- _. reflexivity.
  - unfold bind.
    destruct (find_in_level fuel p l s) as [[f s1]|] eqn:E; [|discriminate].
    rewrite (find_in_level_sim _ _ _ _ _ _ _ Hs E).
    assert (s1 = s) as ->.
    { assert (same_chains s s) as Hrefl
        by (split; [reflexivity | intros j; reflexivity]).
      pose proof (find_in_level_sim _ _ _ _ _ _ _ Hrefl E). congruence. }
    destruct f as [j|].
    + intros H. injection H as <- _. reflexivity.
    + apply IH.
Qed.

Lemma find_node_sim fuel p s s2 r :
  same_chains s s2 ->
  eval (mlfq_find_node fuel p) s = Some r ->
  mlfq_find_node fuel p s2 = Some (r, s2).
Proof.
  intros Hs H. unfold eval in H.
  destruct (mlfq_find_node fuel p s) as [[r' s']|] eqn:E; [|discriminate].
  injection H as ->. eapply find_from_sim; eassumption.
Qed.

Lemma demote_spec N i LQ LA TK v fuel p k (Q : unit -> state -> Prop) s :
  tracked N i v LQ LA TK s ->
  mlfq_find_node fuel p s = Some (Some (i, k), s) ->
  level v = k ->
  (forall v' s', tracked N i v' LQ LA TK s' ->
     pid v' = pid v -> level v' = Z.min (k + 1) 7 -> time_used v' = 0 ->
     at_index LA (level v') = Some (time_allotment v') -> Q tt s') ->
  returns (mlfq_demote fuel p) Q s.
Proof.
  intros Ht Hfind Hk HQ.
  pose proof (tracked_lt _ _ _ _ _ _ _ Ht) as Hi.
  assert (0 <= k < 8) as Hk8.
  { destruct Ht as (Hc & HN & (n & Hn & Hv) & _). destruct Hc as (Hp & _).
    rewrite HN in Hp. pose proof (Forall_lookup_1 _ _ _ _ Hp Hn) as Hok.
    rewrite <- Hk, <- Hv. ok. }
  unfold mlfq_demote. apply returns_bind. exists (Some (i, k)), s.
  split; [exact Hfind|]. simpl.
  destruct (Z.geb_spec k (MLFQ_NUM_LEVELS - 1)) as [Hge|Hlt];
    unfold MLFQ_NUM_LEVELS in *.
  - assert (k = 7) as -> by lia.
    tr. tr_payload (set_time_used 0 v). tr. tr.
    tr_payload (set_time_allotment a (set_time_used 0 v)).
    eapply HQ; [exact Ht | ok..].
  - assert (wrap32 (k + 1) = k + 1) as Ew by (unfold wrap32; apply Z.mod_small; lia).
    rewrite Ew.
    tr. eapply remove_spec; [exact Ht | exact Hi |]. clear Ht. intros s1 Ht.
    tr. tr. tr. tr_payload (set_time_allotment a v).
    tr. tr_payload (set_time_used 0 (set_time_allotment a v)).
    tr. tr. tr. tr_payload (set_arrival_time TK (set_time_used 0 (set_time_allotment a v))).
    tr. eapply add_spec; [exact Ht | lia |]. clear Ht. intros s2 Ht.
    tr. eapply HQ; [exact Ht | ..]; simpl; unfold MLFQ_NUM_LEVELS.
    + reflexivity.
    + destruct (Z.geb_spec (k + 1) 8); lia.
    + reflexivity.
    + destruct (Z.geb_spec (k + 1) 8); [lia | assumption].
Qed.

Lemma unlink_fields n v :
  unlink n = v ->
  pid n = pid v /\ level n = level v /\ time_allotment n = time_allotment v /\
  time_used n = time_used v.
Proof. intros <-. destruct n. repeat split. Qed.

Lemma preempt_account_run (fuel : nat) (s : state) (i : nat) (n : mlfq_node) (q : Z) :
  closed s ->
  current_node s = Some i ->
  mlfq_node_pool s !! i = Some n ->
  at_index (level_quantums s) (level n) = Some q ->
  eval (mlfq_find_node fuel (pid n)) s = Some (Some (i, level n)) ->
  exists s' n',
    exec (preempt_account fuel) s = Some s' /\
    closed s' /\
    mlfq_node_pool s' !! i = Some n' /\
    pid n' = pid n /\
    if wrap32 (time_used n + q) >=? time_allotment n
    then level n' = Z.min (level n + 1) 7 /\
         time_used n' = 0 /\
         at_index (level_allotments s) (level n') = Some (time_allotment n')
    else level n' = level n /\
         time_used n' = wrap32 (time_used n + q) /\
         time_allotment n' = time_allotment n.
Proof.
  intros Hc Hcur Hn Hq Hfind.
  set (N := length (mlfq_node_pool s)).
  set (u := wrap32 (time_used n + q)).
  assert (tracked N i (unlink n) (level_quantums s) (level_allotments s)
                  (mlfq_ticks s) s) as Ht.
  { repeat split; try reflexivity; try apply Hc. exists n. split; [exact Hn | reflexivity]. }
  assert (ok_node N n) as Hok.
  { destruct Hc as (Hp & _). eapply Forall_lookup_1; eassumption. }
  set (s1 := set_mlfq_node_pool (<[i := set_time_used u n]> (mlfq_node_pool s)) s).
  assert (tracked N i (set_time_used u (unlink n)) (level_quantums s)
                  (level_allotments s) (mlfq_ticks s) s1) as Ht1.
  { apply (tracked_upd_payload _ _ _ _ _ _ _ (set_time_used u) n s Ht Hn);
      [destruct n; ok | destruct n; reflexivity]. }
  assert (mlfq_find_node fuel (pid n) s1 = Some (Some (i, level n), s1)) as Hfind1.
  { apply (find_node_sim _ _ s); [|exact Hfind]. split; [reflexivity|].
    intros j. subst s1. simpl. destruct (decide (i = j)) as [<-|Hne].
    - rewrite list_lookup_insert_eq by (eapply lookup_lt_Some; eassumption).
      rewrite Hn. destruct n; reflexivity.
    - rewrite list_lookup_insert_ne by exact Hne. reflexivity. }
  cut (returns (preempt_account fuel)
         (fun _ s' => exists v', tracked N i v' (level_quantums s) (level_allotments s)
                                   (mlfq_ticks s) s' /\
            pid v' = pid n /\
            if u >=? time_allotment n
            then level v' = Z.min (level n + 1) 7 /\ time_used v' = 0 /\
                 at_index (level_allotments s) (level v') = Some (time_allotment v')
            else level v' = level n /\ time_used v' = u /\
                 time_allotment v' = time_allotment n) s).
  { intros (a & s' & Hrun & v' & Ht' & Hv').
    destruct Ht' as (Hc' & _ & (n' & Hn' & Hun) & _).
    destruct (unlink_fields _ _ Hun) as (E1 & E2 & E3 & E4).
    exists s', n'. unfold exec. rewrite Hrun. rewrite E1, E2, E3, E4.
    split; [reflexivity|]. split; [exact Hc'|]. split; [exact Hn'|]. exact Hv'. }
  unfold preempt_account.
  apply returns_bind, returns_gets. rewrite Hcur.
  apply returns_bind. exists n, s. split; [unfold rd; rewrite Hn; reflexivity|].
  apply returns_bind. exists q, s. split; [unfold rd_quantum; rewrite Hq; reflexivity|].
  apply returns_bind. exists tt, s1. split; [unfold upd; rewrite Hn; reflexivity|].
  apply returns_bind. eapply tr_rd; [exact Ht1 | eapply tracked_lt; exact Ht1 |].
  intros n1 Hn1 Hok1 E1. specialize (E1 eq_refl).
  destruct (unlink_fields _ _ E1) as (Ep & El & Ea & Eu).
  assert (pid n1 = pid n /\ level n1 = level n /\ time_allotment n1 = time_allotment n /\
          time_used n1 = u) as (Ep' & El' & Ea' & Eu').
  { rewrite Ep, El, Ea, Eu. destruct n; repeat split. }
  rewrite Ep', Ea', Eu'.
  destruct (u >=? time_allotment n) eqn:Ecmp.
  - eapply demote_spec; [exact Ht1 | exact Hfind1 | destruct n; reflexivity |].
    intros v' s' Ht' Hp' Hl' Hu' Hal'. exists v'. split; [exact Ht'|].
    split; [rewrite Hp'; destruct n; reflexivity|]. repeat split; assumption.
  - apply returns_bind. eapply remove_spec; [exact Ht1 | eapply tracked_lt; exact Ht1 |].
    intros s2 Ht2.
    apply returns_bind. eapply tr_rd; [exact Ht2 | eapply tracked_lt; exact Ht2 |].
    intros n2 Hn2 Hok2 E2. specialize (E2 eq_refl).
    destruct (unlink_fields _ _ E2) as (_ & El2 & _).
    assert (level n2 = level n) as El2' by (rewrite El2; destruct n; reflexivity).
    rewrite El2'.
    eapply add_spec; [exact Ht2 | destruct Hok as (_ & _ & H); lia |].
    intros s3 Ht3. eexists. split; [exact Ht3|].
    assert ((level n >=? MLFQ_NUM_LEVELS) = false) as ->
      by (destruct Hok as (_ & _ & H); unfold MLFQ_NUM_LEVELS in *; lia).
    destruct n; repeat split.
Qed.

Lemma tick_run (fuel : nat) (s : state) (i : nat) (n : mlfq_node) (q : Z) :
  closed s ->
  current_node s = Some i ->
  mlfq_node_pool s !! i = Some n ->
  at_index (level_quantums s) (level n) = Some q ->
  boost_not_due s ->
  exists s',
    exec (mlfq_tick fuel) s = Some s' /\
    mlfq_node_pool s' = mlfq_node_pool s /\
    mlfq_queues s' = mlfq_queues s /\
    current_node s' = Some i /\
    current_time_used s' = wrap32 (current_time_used s + 1) /\
    Env.need_resched (env s') =
      (wrap32 (current_time_used s + 1) >=? q) || Env.need_resched (env s).
Proof.
  intros Hc Hcur Hn Hq Hb.
  assert (ok_node (length (mlfq_node_pool s)) n) as Hok.
  { destruct Hc as (Hp & _). eapply Forall_lookup_1; eassumption. }
  destruct (at_index_lt (per_level_time (mlfq_stats s)) (level n)) as [t Et].
  { destruct Hc as (_ & _ & _ & _ & _ & _ & ->). destruct Hok as (_ & _ & H).
    unfold MLFQ_NUM_LEVELS in H. lia. }
  destruct s as [qs pool fr lq la be bi bc io cur ctu st tk e].
  destruct e as [tab cp nr lg].
  unfold boost_not_due in Hb. simpl in *. subst cur.
  assert (be = true -> (wrap32 (bc + 1) >=? bi) = false) as Eb.
  { intros ->. destruct Hb as [Hb|Hb]; [discriminate | lia]. }
  unfold exec, mlfq_tick.
  cbv [bind gets modify ret rd when incr_level_time rd_quantum in_env zoom].
  simpl. rewrite Hn. simpl. rewrite Et. simpl. rewrite Hn. simpl. rewrite Hq. simpl.
  destruct (wrap32 (ctu + 1) >=? q); simpl;
    (destruct be; simpl; [rewrite (Eb eq_refl); simpl|]);
    (eexists; split; [reflexivity|]; simpl; repeat split; try reflexivity).
  all: destruct nr; reflexivity.
Qed.




End MLFQFacts.

(** ** Real-time *)

Module RTFacts.
Import RT.

#[local] Instance keeps_deadlines_preorder : PreOrder keeps_deadlines.
Proof.
  split.
  - intros s i t H. exists t. split; [exact H|]. split; [reflexivity | auto].
  - intros a b c Hab Hbc i t H.
    destruct (Hab i t H) as (t1 & H1 & P1 & K1).
    destruct (Hbc i t1 H1) as (t2 & H2 & P2 & K2).
    exists t2. split; [exact H2|]. split; [congruence|].
    intros Hw Hok. apply K2; [rewrite P1; exact Hw | apply K1; assumption].
Qed.

Lemma kd_same_pool (s s' : rt_state) :
  task_pool s' = task_pool s -> keeps_deadlines s s'.
Proof.
  intros E i t H. rewrite E. exists t.
  split; [exact H|]. split; [reflexivity | auto].
Qed.

Lemma kd_pool_free {A} (m : M rt_state A) :
  (forall s a s', m s = Some (a, s') -> task_pool s' = task_pool s) ->
  preserves keeps_deadlines m.
Proof. intros H s a s' E. apply kd_same_pool. eapply H. exact E. Qed.

Lemma kd_rd i : preserves keeps_deadlines (rd i).
Proof.
  apply kd_pool_free. intros s a s' H. unfold rd in H.
  destruct (task_pool s !! i); [|discriminate]. injection H as _ <-. reflexivity.
Qed.

Lemma kd_upd i f :
  (forall t, params (f t) = params t /\
             (0 <= wcet (params t) -> deadline_ok t -> deadline_ok (f t))) ->
  preserves keeps_deadlines (upd i f).
Proof.
  intros Hf s a s' H. unfold upd in H.
  destruct (task_pool s !! i) as [t0|] eqn:E; [|discriminate].
  injection H as _ <-. intros j t Hj. simpl.
  destruct (decide (i = j)) as [->|Hne].
  - rewrite list_lookup_insert_eq by (eapply lookup_lt_Some; eassumption).
    assert (t = t0) as -> by congruence.
    exists (f t0). split; [reflexivity | apply Hf].
  - rewrite list_lookup_insert_ne by exact Hne.
    exists t. split; [exact Hj|]. split; [reflexivity | auto].
Qed.

Lemma wrap64_le (x : Z) : 0 <= x -> wrap64 x <= x.
Proof. intros H. unfold wrap64. apply Z.mod_le; lia. Qed.

Lemma wrap64_nonneg (x : Z) : 0 <= wrap64 x.
Proof. unfold wrap64. apply Z.mod_pos_bound. lia. Qed.

Lemma kd_consume_tick i : preserves keeps_deadlines (upd i consume_tick).
Proof.
  apply kd_upd. intros t. unfold consume_tick.
  destruct (Z.gtb_spec (remaining_time t) 0) as [Hpos|Hz].
  - destruct t. unfold deadline_ok. simpl in *. split; [reflexivity|].
    intros Hw (Ha & Hr). split; [exact Ha|].
    pose proof (wrap64_le (remaining_time0 - 1)). lia.
  - split; [reflexivity | auto].
Qed.

Lemma kd_charge_elapsed i now : preserves keeps_deadlines (upd i (charge_elapsed now)).
Proof.
  apply kd_upd. intros t. unfold charge_elapsed.
  pose proof (wrap64_nonneg (now - start_time t)) as He.
  destruct (Z.ltb_spec (wrap64 (now - start_time t)) (remaining_time t)) as [Hlt|Hge];
    destruct t; unfold deadline_ok; simpl in *; (split; [reflexivity|]);
    intros Hw (Ha & Hr); (split; [exact Ha|]).
  - pose proof (wrap64_le (remaining_time0 - wrap64 (now - start_time0))). lia.
  - exact Hw.
Qed.

Lemma release_fields_ok now t : deadline_ok (release_fields now t).
Proof. destruct t. unfold deadline_ok. simpl. split; [reflexivity | lia]. Qed.

Lemma kd_release_fields i now : preserves keeps_deadlines (upd i (release_fields now)).
Proof.
  apply kd_upd. intros t. split; [destruct t; reflexivity|].
  intros _ _. apply release_fields_ok.
Qed.

Create HintDb kd discriminated.
#[local] Hint Resolve kd_rd kd_consume_tick kd_charge_elapsed kd_release_fields : kd.
#[local] Hint Extern 2 (preserves keeps_deadlines (upd _ _)) =>
  (apply kd_upd; intros [];
   (split; [reflexivity | intros _ H; exact H])) : kd.
#[local] Hint Extern 1 (preserves keeps_deadlines (modify _)) =>
  (apply kd_pool_free; intros ? ? ? H; injection H as _ <-; reflexivity) : kd.
#[local] Hint Extern 1 (preserves keeps_deadlines (upd_stats _)) =>
  (apply kd_pool_free; intros ? ? ? H; injection H as _ <-; reflexivity) : kd.
#[local] Hint Extern 1 (preserves keeps_deadlines (context_switch _ _)) =>
  (apply kd_pool_free; intros ? ? ? H; injection H as _ <-; reflexivity) : kd.

Ltac kd_auto := pres_with ltac:(auto with kd).

Lemma kd_free_task t : preserves keeps_deadlines (free_task t).
Proof. unfold free_task. kd_auto. Qed.

Lemma kd_find_task fuel p : preserves keeps_deadlines (find_task fuel p).
Proof. unfold find_task. kd_auto. Qed.

Lemma kd_insert_ready fuel t : preserves keeps_deadlines (insert_ready fuel t).
Proof. unfold insert_ready. kd_auto. Qed.

Lemma kd_remove_ready fuel t : preserves keeps_deadlines (remove_ready fuel t).
Proof. unfold remove_ready. kd_auto. Qed.

#[local] Hint Resolve kd_free_task kd_find_task kd_insert_ready kd_remove_ready : kd.

Lemma kd_llf_update_laxity fuel : preserves keeps_deadlines (llf_update_laxity fuel).
Proof. unfold llf_update_laxity. kd_auto. Qed.

#[local] Hint Resolve kd_llf_update_laxity : kd.

Lemma kd_llf_pick_next fuel : preserves keeps_deadlines (llf_pick_next fuel).
Proof. unfold llf_pick_next. kd_auto. Qed.

Lemma kd_requeue_all fuel : preserves keeps_deadlines (requeue_all fuel).
Proof. unfold requeue_all. kd_auto. Qed.

#[local] Hint Resolve kd_llf_pick_next kd_requeue_all : kd.

Lemma kd_schedule fuel : preserves keeps_deadlines (realtime_schedule fuel).
Proof. unfold realtime_schedule. kd_auto. Qed.

Lemma kd_check_preempt fuel : preserves keeps_deadlines (realtime_check_preempt fuel).
Proof. unfold realtime_check_preempt. kd_auto. Qed.

#[local] Hint Resolve kd_schedule kd_check_preempt : kd.

Lemma kd_yield fuel : preserves keeps_deadlines (realtime_yield fuel).
Proof. unfold realtime_yield. kd_auto. Qed.

Lemma kd_release fuel t : preserves keeps_deadlines (realtime_release fuel t).
Proof. unfold realtime_release. kd_auto. Qed.

Lemma kd_calc_utilization fuel : preserves keeps_deadlines (realtime_calc_utilization fuel).
Proof. unfold realtime_calc_utilization. kd_auto. Qed.

#[local] Hint Resolve kd_yield kd_release kd_calc_utilization : kd.

Lemma kd_complete fuel p : preserves keeps_deadlines (realtime_complete fuel p).
Proof. unfold realtime_complete, update_stats_completion. kd_auto. Qed.

Lemma kd_handle_miss fuel t : preserves keeps_deadlines (realtime_handle_miss fuel t).
Proof. unfold realtime_handle_miss. kd_auto. Qed.

Lemma kd_check_deadline t : preserves keeps_deadlines (realtime_check_deadline t).
Proof. unfold realtime_check_deadline. kd_auto. Qed.

#[local] Hint Resolve kd_complete kd_handle_miss kd_check_deadline : kd.

Lemma kd_check_releases fuel : preserves keeps_deadlines (realtime_check_releases fuel).
Proof. unfold realtime_check_releases. kd_auto. Qed.

Lemma kd_check_deadlines fuel : preserves keeps_deadlines (realtime_check_deadlines fuel).
Proof. unfold realtime_check_deadlines. kd_auto. Qed.

#[local] Hint Resolve kd_check_releases kd_check_deadlines : kd.

Lemma kd_tick fuel : preserves keeps_deadlines (realtime_tick fuel).
Proof. unfold realtime_tick. kd_auto. Qed.

Lemma kd_dequeue fuel p : preserves keeps_deadlines (realtime_dequeue fuel p).
Proof. unfold realtime_dequeue. kd_auto. Qed.




End RTFacts.

(** ** The policy switch of the framework *)

Module CoreFacts.
Import Core.

(** A call into one policy leaves the framework's own globals alone. *)
Lemma zoom_frame {T A} (get : state -> T) (set : T -> state -> state) (m : M T A)
    (s s' : state) (a : A) :
  (forall v x, current_scheduler (set v x) = current_scheduler x) ->
  (forall v x, sched_policy (set v x) = sched_policy x) ->
  zoom get set m s = Some (a, s') ->
  current_scheduler s' = current_scheduler s /\ sched_policy s' = sched_policy s.
Proof.
  intros H1 H2 H. unfold zoom in H.
  destruct (m (get s)) as [[x t]|]; [|discriminate].
  injection H as _ <-. split; [apply H1 | apply H2].
Qed.

Lemma call_shutdown_frame (fuel : nat) (t : ops_table) (s s' : state) (a : unit) :
  call_shutdown fuel t s = Some (a, s') ->
  current_scheduler s' = current_scheduler s /\ sched_policy s' = sched_policy s.
Proof.
  destruct t; simpl; intros H; (eapply zoom_frame; [| | exact H]); reflexivity.
Qed.

Section WithConfig.
Variable cfg : config.

(** With no policy active, or with a table whose [shutdown] member is not
    set, the failed call changes nothing. *)
Lemma scheduler_switch_unknown_idle (fuel : nat) (v : Z) (s : state) :
  current_scheduler s = None ->
  scheduler_switch cfg fuel (SCHEDULER_UNKNOWN v) s = Some (SYSERR, s).
Proof.
  intros Hcur. unfold scheduler_switch, shutdown_current, bind, gets.
  rewrite Hcur. reflexivity.
Qed.

(** Whenever the call with an unknown type returns, it returns SYSERR and
    the policy pointer and [sched_policy] are the old ones. *)
Lemma scheduler_switch_unknown_status (fuel : nat) (v : Z) (s s' : state) (r : syscall) :
  scheduler_switch cfg fuel (SCHEDULER_UNKNOWN v) s = Some (r, s') ->
  r = SYSERR /\
  current_scheduler s' = current_scheduler s /\
  sched_policy s' = sched_policy s.
Proof.
  unfold scheduler_switch, shutdown_current, bind, gets.
  destruct (current_scheduler s) as [t|] eqn:Hcur; simpl.
  - destruct (has_shutdown t s) as [[b s3]|] eqn:Eh; [|discriminate].
    assert (s3 = s) as ->.
    { destruct t; simpl in Eh; unfold ret, gets in Eh; congruence. }
    destruct b; simpl.
    + destruct (call_shutdown fuel t s) as [[[] s2]|] eqn:E; [|discriminate].
      intros H. injection H as <- <-. split; [reflexivity|].
      rewrite <- Hcur. eapply call_shutdown_frame; exact E.
    + intros H. injection H as <- <-. rewrite Hcur. repeat split.
  - intros H. injection H as <- <-. rewrite Hcur. repeat split.
Qed.

(** C1 (refuted): [scheduler_switch] shuts the active policy down before
    it looks at the requested type.  For an unknown type the call returns
    SYSERR and leaves [current_scheduler] and [sched_policy] as they were,
    but the state it returns in is the one the old policy's [shutdown]
    produced: the old policy's structures are not left intact. *)
Theorem scheduler_switch_unknown_shuts_down (fuel : nat) (v : Z) (s s1 : state)
    (t : ops_table) :
  current_scheduler s = Some t ->
  eval (has_shutdown t) s = Some true ->
  exec (call_shutdown fuel t) s = Some s1 ->
  scheduler_switch cfg fuel (SCHEDULER_UNKNOWN v) s = Some (SYSERR, s1) /\
  current_scheduler s1 = current_scheduler s /\
  sched_policy s1 = sched_policy s.
Proof.
  intros Hcur Hset Hrun. unfold exec in Hrun.
  destruct (call_shutdown fuel t s) as [[[] s2]|] eqn:E; [|discriminate].
  injection Hrun as ->. split; [|eapply call_shutdown_frame; exact E].
  unfold scheduler_switch, shutdown_current, bind, gets. rewrite Hcur.
  unfold eval in Hset.
  destruct (has_shutdown t s) as [[b s3]|] eqn:Eh; [|discriminate].
  injection Hset as ->.
  assert (s3 = s) as ->.
  { destruct t; simpl in Eh; unfold ret, gets in Eh; congruence. }
  simpl. rewrite E. reflexivity.
Qed.

End WithConfig.

(** At [rr_active]: round-robin is active with processes 1 and 2 in its
    ring.  The call with the unknown type 6 returns SYSERR, round-robin
    is still the current policy, and its ring is empty. *)
Lemma scheduler_switch_unknown_shuts_down_witness :
  current_scheduler rr_active = Some rr_ops /\
  RR.rr_queue_head (rr rr_active) = Some 0%nat /\
  RR.rr_queue_count (rr rr_active) = 2 /\
  exists s',
    scheduler_switch sample_config 8 (SCHEDULER_UNKNOWN 6) rr_active = Some (SYSERR, s') /\
    current_scheduler s' = Some rr_ops /\
    sched_policy s' = SCHEDULER_ROUND_ROBIN /\
    RR.rr_queue_head (rr s') = None /\
    RR.rr_queue_count (rr s') = 0 /\
    s' <> rr_active.
Proof.
  split; [reflexivity|]. split; [reflexivity|]. split; [reflexivity|].
  destruct (exec (call_shutdown 8 rr_ops) rr_active) as [s1|] eqn:E;
    [|vm_compute in E; discriminate E].
  destruct (scheduler_switch_unknown_shuts_down sample_config 8 6 rr_active s1 rr_ops
              eq_refl eq_refl E) as (Hrun & Hc & Hp).
  exists s1. split; [exact Hrun|]. split; [exact Hc|]. split; [exact Hp|].
  vm_compute in E. injection E as <-.
  split; [reflexivity|]. split; [reflexivity|]. discriminate.
Defined.

End CoreFacts.

(** ** Lottery: the pool and its invariant *)

Module LotteryMore.
Import Lottery LotteryFacts.

#[local] Arguments wrap32 : simpl never.
#[local] Arguments Z.add : simpl never.
#[local] Arguments Z.sub : simpl never.

(** *** The reach of the generator *)

Lemma chain_app pool p l1 l2 :
  chain pool p (l1 ++ l2) -> exists q, chain pool q l2.
Proof.
  revert p. induction l1 as [|j l1 IH]; intros p Hc.
  - exists p. exact Hc.
  - destruct Hc as [_ (e & _ & Hc)]. exact (IH _ Hc).
Qed.

Lemma sum_tickets_app pool l1 l2 :
  sum_tickets (tickets_of pool (l1 ++ l2)) =
  sum_tickets (tickets_of pool l1) + sum_tickets (tickets_of pool l2).
Proof.
  induction l1 as [|j l1 IH]; [simpl; lia|].
  change ((j :: l1) ++ l2) with (j :: (l1 ++ l2)).
  destruct (pool !! j) as [e|] eqn:E.
  - rewrite !(sum_tickets_cons _ _ _ _ E), IH. lia.
  - assert (Hskip : forall l, tickets_of pool (j :: l) = tickets_of pool l).
    { intros l. unfold tickets_of. simpl. rewrite E. reflexivity. }
    rewrite !Hskip. exact IH.
Qed.

Lemma first_exceeding_app pool w :
  forall l1 l2 p acc,
    chain pool p (l1 ++ l2) ->
    acc <= w < acc + sum_tickets (tickets_of pool l1) ->
    exists i, In i l1 /\ first_exceeding pool w acc (l1 ++ l2) = Some i.
Proof.
  induction l1 as [|j l1 IH]; intros l2 p acc Hc Hw.
  - simpl in Hw. lia.
  - destruct Hc as [_ (e & He & Hc)].
    rewrite (sum_tickets_cons _ _ _ _ He) in Hw.
    simpl. rewrite He.
    destruct (Z.gtb_spec (acc + current_tickets e) w).
    + exists j. split; [left|]; reflexivity.
    + destruct (IH l2 (next e) (acc + current_tickets e) Hc) as (i & Hi & Hf); [lia|].
      exists i. split; [right; exact Hi | exact Hf].
Qed.

(** The winning ticket is made of 15 bits of the generator, so it is
    always below 32768.  On a pool that holds more tickets than that,
    [lottery_draw] always returns the pid of one of the leading entries
    that together hold 2^15 tickets: the entries behind them in the list
    never win. *)
Theorem lottery_draw_reach (fuel : nat) (s : state) (l1 l2 : list nat) :
  chain (entry_pool s) (lottery_pool s) (l1 ++ l2) ->
  (forall j e, In j (l1 ++ l2) -> entry_pool s !! j = Some e -> 0 <= current_tickets e) ->
  sum_tickets (tickets_of (entry_pool s) (l1 ++ l2)) = total_tickets s ->
  total_tickets s < 2 ^ 32 ->
  2 ^ 15 <= sum_tickets (tickets_of (entry_pool s) l1) ->
  (length (l1 ++ l2) <= fuel)%nat ->
  exists i e,
    In i l1 /\ entry_pool s !! i = Some e /\
    eval (lottery_draw fuel) s = Some (pid e).
Proof.
  intros Hc Hpos Hsum Hlt Hbig Hfuel.
  set (st' := lcg_step (random_state s)).
  set (w := lcg_output st' mod total_tickets s).
  assert (Hsplit : sum_tickets (tickets_of (entry_pool s) (l1 ++ l2)) =
                   sum_tickets (tickets_of (entry_pool s) l1) +
                   sum_tickets (tickets_of (entry_pool s) l2)).
  { apply sum_tickets_app. }
  assert (Hl2 : 0 <= sum_tickets (tickets_of (entry_pool s) l2)).
  { apply sum_tickets_nonneg. intros j e Hj. apply Hpos. apply in_or_app. right. exact Hj. }
  assert (Htot : 2 ^ 15 <= total_tickets s) by lia.
  assert (Hwr : 0 <= w < 2 ^ 15).
  { pose proof (lcg_output_range st') as Hr. unfold w. split.
    - apply Z.mod_pos_bound. lia.
    - rewrite Z.mod_small by lia. apply Hr. }
  destruct (first_exceeding_app (entry_pool s) w l1 l2 (lottery_pool s) 0 Hc)
    as (i & Hi & Hfirst); [lia|].
  assert (Hin : In i (l1 ++ l2)) by (apply in_or_app; left; exact Hi).
  destruct (chain_lookup _ _ _ _ Hc Hin) as (e & He).
  exists i, e. split; [exact Hi|]. split; [exact He|].
  assert (Hh : exists h, lottery_pool s = Some h).
  { destruct (l1 ++ l2) as [|h l']; [destruct Hin|]. destruct Hc as [Hc _]. eauto. }
  destruct Hh as [h Hh].
  assert (Hz : total_tickets s <> 0) by lia.
  rewrite Hh in Hc.
  unfold eval. cbv [lottery_draw bind gets]. rewrite Hh. simpl is_null. simpl orb.
  destruct (Z.eqb_spec (total_tickets s) 0) as [Hz'|_]; [contradiction|].
  change (is_null (Some h) || false) with false. cbv beta iota.
  rewrite (random_range_run _ _ Hz).
  fold st'. fold w.
  rewrite (draw_walk (set_random_state st' s) w (l1 ++ l2) fuel (Some h) 0 i);
    try assumption; try (simpl entry_pool; lia).
  unfold bind. rewrite (win_run (set_random_state st' s) i e He). reflexivity.
Qed.

(** *** Looking a pid up *)

Lemma find_entry_some (s : state) (p : Z) :
  forall l fuel q,
    chain (entry_pool s) q l ->
    (length l < fuel)%nat ->
    exists r,
      loop fuel (find_step p) q s = Some (r, s) /\
      match r with
      | None => forall j e, In j l -> entry_pool s !! j = Some e -> pid e <> p
      | Some i => In i l /\ exists e, entry_pool s !! i = Some e /\ pid e = p
      end.
Proof.
  induction l as [|j l IH]; intros fuel q Hc Hfuel.
  - simpl in Hc. subst q. destruct fuel; [simpl in Hfuel; lia|].
    exists None. split; [reflexivity | intros j e []].
  - destruct Hc as [-> (e & He & Hc)].
    destruct fuel as [|f]; [simpl in Hfuel; lia|].
    simpl loop. unfold bind at 1, find_step at 1, bind at 1, rd at 1. rewrite He.
    destruct (Z.eqb_spec (pid e) p) as [Heq|Hne].
    + exists (Some j). split; [reflexivity|]. split; [left; reflexivity|].
      exists e. split; [exact He | exact Heq].
    + unfold ret at 1.
      destruct (IH f (next e) Hc) as (r & Hr & Hspec); [simpl in Hfuel; lia|].
      exists r. split; [exact Hr|].
      destruct r as [i|].
      * destruct Hspec as [Hi Hex]. split; [right; exact Hi | exact Hex].
      * intros j' e' [<-|Hj'] He'; [congruence | eapply Hspec; eassumption].
Qed.

(** [lottery_enqueue] of a pid that is already in the pool changes
    nothing: no second entry, no tickets added. *)
Theorem lottery_enqueue_present (fuel : nat) (s : state) (p : Z) (l : list nat)
    (j : nat) (e : lottery_entry) :
  chain (entry_pool s) (lottery_pool s) l ->
  (length l < fuel)%nat ->
  In j l -> entry_pool s !! j = Some e -> pid e = p ->
  lottery_enqueue fuel p s = Some (tt, s).
Proof.
  intros Hc Hfuel Hj He Hp.
  destruct (find_entry_some s p l fuel _ Hc Hfuel) as (r & Hr & Hspec).
  unfold lottery_enqueue, find_entry, bind, gets. rewrite Hr.
  destruct r as [i|]; [reflexivity|].
  exfalso. exact (Hspec j e Hj He Hp).
Qed.

(** [lottery_dequeue] of a pid that is not in the pool changes nothing. *)
Theorem lottery_dequeue_absent (fuel : nat) (s : state) (p : Z) (l : list nat) :
  chain (entry_pool s) (lottery_pool s) l ->
  (length l < fuel)%nat ->
  (forall j e, In j l -> entry_pool s !! j = Some e -> pid e <> p) ->
  lottery_dequeue fuel p s = Some (tt, s).
Proof.
  intros Hc Hfuel Hp.
  unfold lottery_dequeue, bind, gets. eapply dequeue_none; eassumption.
Qed.

(** *** [lottery_validate] *)

Lemma wrap32_range (x : Z) : 0 <= wrap32 x < 2 ^ 32.
Proof. unfold wrap32. apply Z.mod_pos_bound. lia. Qed.

Lemma wrap32_add_l (a b : Z) : wrap32 (wrap32 a + b) = wrap32 (a + b).
Proof. unfold wrap32. apply Zplus_mod_idemp_l. Qed.

Lemma validate_walk (s : state) :
  forall l fuel q v ct cp,
    chain (entry_pool s) q l ->
    (length l < fuel)%nat ->
    0 <= ct < 2 ^ 32 -> 0 <= cp < 2 ^ 32 ->
    exists b,
      loop fuel (fun '(entry, valid, ct, cp) =>
        match entry with
        | None => ret (inr (valid, ct, cp))
        | Some i =>
            e <- rd i ;;
            let ct := wrap32 (ct + current_tickets e) in
            let cp := wrap32 (cp + 1) in
            let valid :=
              if (base_tickets e <? LOTTERY_MIN_TICKETS) || (base_tickets e >? LOTTERY_MAX_TICKETS)
              then false else valid in
            let valid :=
              if negb (current_tickets e =? wrap32 (base_tickets e + compensation e))
              then false else valid in
            ret (inl (next e, valid, ct, cp))
        end) (q, v, ct, cp) s =
      Some ((b, wrap32 (ct + sum_tickets (tickets_of (entry_pool s) l)),
             wrap32 (cp + Z.of_nat (length l))), s) /\
      (b = true <->
       v = true /\
       forall j e, In j l -> entry_pool s !! j = Some e ->
         LOTTERY_MIN_TICKETS <= base_tickets e <= LOTTERY_MAX_TICKETS /\
         current_tickets e = wrap32 (base_tickets e + compensation e)).
Proof.
  induction l as [|j l IH]; intros fuel q v ct cp Hc Hfuel Hct Hcp.
  - simpl in Hc. subst q. destruct fuel; [simpl in Hfuel; lia|].
    exists v. split.
    + simpl. unfold wrap32. rewrite !Z.add_0_r, !Z.mod_small by lia. reflexivity.
    + split; [intros ->; split; [reflexivity | intros ? ? []] | intros [-> _]; reflexivity].
  - destruct Hc as [-> (e & He & Hc)].
    destruct fuel as [|f]; [simpl in Hfuel; lia|].
    rewrite loop_S. unfold bind at 1. unfold bind at 1, rd at 1. rewrite He.
    cbv zeta. unfold ret at 1.
    match goal with
    | |- context [loop f _ (_, ?v', ?ct', ?cp')] =>
        destruct (IH f (next e) v' ct' cp' Hc) as (b & Hb & Hspec);
          [simpl in Hfuel; lia | apply wrap32_range | apply wrap32_range |]
    end.
    exists b. split.
    + cbv beta iota zeta in Hb |- *. rewrite Hb. rewrite !wrap32_add_l.
      rewrite (sum_tickets_cons _ _ _ _ He).
      replace (cp + 1 + Z.of_nat (length l)) with (cp + Z.of_nat (length (j :: l)))
        by (simpl length; lia).
      rewrite Z.add_assoc. reflexivity.
    + rewrite Hspec. clear Hb Hspec IH.
      match goal with
      | |- ?v' = true /\ _ <-> _ =>
          assert (Hv : v' = true <->
                       v = true /\
                       (LOTTERY_MIN_TICKETS <= base_tickets e <= LOTTERY_MAX_TICKETS /\
                        current_tickets e = wrap32 (base_tickets e + compensation e)))
      end.
      { unfold LOTTERY_MIN_TICKETS, LOTTERY_MAX_TICKETS.
        destruct (Z.ltb_spec (base_tickets e) 1);
          destruct (Z.gtb_spec (base_tickets e) 10000);
          destruct (Z.eqb_spec (current_tickets e)
                      (wrap32 (base_tickets e + compensation e)));
          simpl; split; intros H'; try discriminate H';
          try (split; [exact H' | split; [lia | assumption]]);
          destruct H' as (Hv1 & Hv2 & Hv3); try lia; try contradiction; exact Hv1. }
      rewrite Hv. clear Hv. split.
      * intros [[Hv Hok] Hall]. split; [exact Hv|].
        intros j' e' [<-|Hj'] He'.
        -- assert (e' = e) as -> by congruence. exact Hok.
        -- exact (Hall j' e' Hj' He').
      * intros [Hv Hall]. split; [split; [exact Hv|]|].
        -- exact (Hall j e (or_introl eq_refl) He).
        -- intros j' e' Hj'. apply Hall. right. exact Hj'.
Qed.

(** [lottery_validate] reads the state without changing it, and answers
    true exactly when every entry of the pool has 1 <= base <= 10000 and
    current = base + compensation (as 32-bit values), the cached
    total_tickets is the 32-bit sum of the current tickets and the cached
    participant_count is the number of entries. *)
Theorem lottery_validate_spec (fuel : nat) (s : state) (l : list nat) :
  chain (entry_pool s) (lottery_pool s) l ->
  (length l < fuel)%nat ->
  exists b,
    lottery_validate fuel s = Some (b, s) /\
    (b = true <->
     (forall j e, In j l -> entry_pool s !! j = Some e ->
        LOTTERY_MIN_TICKETS <= base_tickets e <= LOTTERY_MAX_TICKETS /\
        current_tickets e = wrap32 (base_tickets e + compensation e)) /\
     wrap32 (sum_tickets (tickets_of (entry_pool s) l)) = total_tickets s /\
     wrap32 (Z.of_nat (length l)) = participant_count s).
Proof.
  intros Hc Hfuel.
  destruct (validate_walk s l fuel (lottery_pool s) true 0 0 Hc Hfuel)
    as (b & Hb & Hspec); [lia | lia |].
  unfold lottery_validate. cbv [bind gets ret] in Hb |- *. rewrite Hb.
  rewrite !Z.add_0_l.
  destruct (Z.eqb_spec (wrap32 (sum_tickets (tickets_of (entry_pool s) l)))
              (total_tickets s)) as [Ht|Ht];
    destruct (Z.eqb_spec (wrap32 (Z.of_nat (length l))) (participant_count s)) as [Hn|Hn];
    simpl.
  - exists b. split; [reflexivity|]. rewrite Hspec.
    split; [intros [_ H]; auto | intros (H & _ & _); auto].
  - exists false. split; [reflexivity|].
    split; [discriminate | intros (_ & _ & H); contradiction].
  - exists false. split; [reflexivity|].
    split; [discriminate | intros (_ & H & _); contradiction].
  - exists false. split; [reflexivity|].
    split; [discriminate | intros (_ & H & _); contradiction].
Qed.

(** *** The invariant under [lottery_set_tickets] and [lottery_enqueue] *)

Lemma chain_functional pool :
  forall l l' p, chain pool p l -> chain pool p l' -> l = l'.
Proof.
  induction l as [|i l IH]; intros [|i' l'] p H H'.
  - reflexivity.
  - simpl in H. destruct H' as [H' _]. congruence.
  - simpl in H'. destruct H as [H _]. congruence.
  - destruct H as [Hp (e & He & Hc)]. destruct H' as [Hp' (e' & He' & Hc')].
    assert (i' = i) as -> by congruence.
    assert (e' = e) as -> by congruence.
    f_equal. exact (IH _ _ Hc Hc').
Qed.

Lemma chain_tail pool :
  forall l1 l2 p, chain pool p (l1 ++ l2) -> exists q, chain pool q l2.
Proof.
  induction l1 as [|j l1 IH]; intros l2 p Hc.
  - exists p. exact Hc.
  - destruct Hc as [_ (e & _ & Hc)]. exact (IH _ _ Hc).
Qed.

Lemma chain_not_in pool i e l :
  pool !! i = Some e -> chain pool (next e) l -> ~ In i l.
Proof.
  intros He Hc Hin.
  destruct (in_split _ _ Hin) as (l1 & l2 & ->).
  destruct (chain_tail _ _ _ _ Hc) as (q & Hq).
  assert (Hq' := Hq). destruct Hq' as [-> (e' & He' & Hc')].
  assert (e' = e) as -> by congruence.
  pose proof (chain_functional _ _ _ _ Hc Hc') as Heq.
  apply (f_equal (@length nat)) in Heq.
  rewrite length_app in Heq. simpl in Heq. lia.
Qed.

Lemma chain_nodup pool : forall l p, chain pool p l -> List.NoDup l.
Proof.
  induction l as [|i l IH]; intros p Hc; [constructor|].
  destruct Hc as [_ (e & He & Hc)].
  constructor; [exact (chain_not_in _ _ _ _ He Hc) | exact (IH _ Hc)].
Qed.

Lemma chain_insert pool i e e' :
  pool !! i = Some e -> next e' = next e ->
  forall l p, chain pool p l -> chain (<[i := e']> pool) p l.
Proof.
  intros He Hn. induction l as [|j l IH]; intros p Hc; [exact Hc|].
  destruct Hc as [Hp (ej & Hej & Hc)]. split; [exact Hp|].
  destruct (decide (i = j)) as [->|Hne].
  - exists e'. split.
    + apply list_lookup_insert_eq. eapply lookup_lt_Some; exact He.
    + assert (ej = e) as -> by congruence. rewrite Hn. apply IH. exact Hc.
  - exists ej. split; [rewrite list_lookup_insert_ne by exact Hne; exact Hej|].
    apply IH. exact Hc.
Qed.

Lemma chain_insert_fresh pool i e' :
  forall l p, ~ In i l -> chain pool p l -> chain (<[i := e']> pool) p l.
Proof.
  induction l as [|j l IH]; intros p Hni Hc; [exact Hc|].
  destruct Hc as [Hp (ej & Hej & Hc)]. split; [exact Hp|].
  exists ej. split.
  - rewrite list_lookup_insert_ne; [exact Hej|]. intros ->. apply Hni. left. reflexivity.
  - apply IH; [|exact Hc]. intros H. apply Hni. right. exact H.
Qed.

Lemma tickets_of_cons pool j l :
  tickets_of pool (j :: l) =
  match pool !! j with
  | Some e => current_tickets e :: tickets_of pool l
  | None => tickets_of pool l
  end.
Proof. unfold tickets_of. simpl. destruct (pool !! j); reflexivity. Qed.

Lemma tickets_insert_fresh pool i e' :
  forall l, ~ In i l -> tickets_of (<[i := e']> pool) l = tickets_of pool l.
Proof.
  induction l as [|j l IH]; intros Hni; [reflexivity|].
  rewrite !tickets_of_cons.
  rewrite list_lookup_insert_ne by (intros ->; apply Hni; left; reflexivity).
  rewrite IH by (intros H; apply Hni; right; exact H). reflexivity.
Qed.

Lemma sum_tickets_insert pool i e e' :
  pool !! i = Some e ->
  forall l, List.NoDup l -> In i l ->
    sum_tickets (tickets_of (<[i := e']> pool) l) =
    sum_tickets (tickets_of pool l) - current_tickets e + current_tickets e'.
Proof.
  intros He. induction l as [|j l IH]; intros Hnd Hin; [destruct Hin|].
  inversion Hnd as [|? ? Hnj Hnd']; subst.
  destruct (decide (i = j)) as [->|Hne].
  - rewrite (sum_tickets_cons _ _ e' l)
      by (apply list_lookup_insert_eq; eapply lookup_lt_Some; exact He).
    rewrite (sum_tickets_cons _ _ _ _ He).
    rewrite tickets_insert_fresh by exact Hnj. lia.
  - destruct Hin as [->|Hin]; [contradiction|].
    rewrite !tickets_of_cons.
    rewrite list_lookup_insert_ne by exact Hne.
    destruct (pool !! j) as [ej|].
    + unfold sum_tickets in *. simpl. rewrite (IH Hnd' Hin). lia.
    + exact (IH Hnd' Hin).
Qed.

Lemma sum_tickets_member pool i e :
  pool !! i = Some e ->
  forall l, In i l ->
    (forall j ej, In j l -> pool !! j = Some ej -> 0 <= current_tickets ej) ->
    current_tickets e <= sum_tickets (tickets_of pool l).
Proof.
  intros He. induction l as [|j l IH]; intros Hin Hpos; [destruct Hin|].
  assert (Hrest : 0 <= sum_tickets (tickets_of pool l)).
  { apply sum_tickets_nonneg. intros j' e' Hj'. apply Hpos. right. exact Hj'. }
  destruct Hin as [->|Hin].
  - rewrite (sum_tickets_cons _ _ _ _ He). lia.
  - assert (Hle : current_tickets e <= sum_tickets (tickets_of pool l)).
    { apply IH; [exact Hin|]. intros j' e' Hj'. apply Hpos. right. exact Hj'. }
    destruct (pool !! j) as [ej|] eqn:Ej.
    + rewrite (sum_tickets_cons _ _ _ _ Ej).
      assert (0 <= current_tickets ej) by (eapply Hpos; [left; reflexivity | exact Ej]).
      lia.
    + rewrite tickets_of_cons, Ej. exact Hle.
Qed.

(** [lottery_set_tickets] keeps the invariant of the pool (compensations
    not negative, the total far from 2^32).  For a pid that is not in the
    pool it returns 0 and changes nothing; otherwise it returns the old
    base of the entry and leaves it with the requested base clamped to
    [1, 10000], its pid and its compensation as they were. *)
Theorem lottery_set_tickets_invariant (fuel : nat) (s : state) (l : list nat)
    (p tickets : Z) :
  pool_invariant s l ->
  (forall j e, In j l -> entry_pool s !! j = Some e -> 0 <= compensation e) ->
  total_tickets s + LOTTERY_MAX_TICKETS < 2 ^ 32 ->
  (length l < fuel)%nat ->
  exists old s',
    lottery_set_tickets fuel p tickets s = Some (old, s') /\
    pool_invariant s' l /\
    ((old = 0 /\ s' = s /\
      forall j e, In j l -> entry_pool s !! j = Some e -> pid e <> p) \/
     (exists i e e',
        In i l /\ entry_pool s !! i = Some e /\ pid e = p /\
        old = base_tickets e /\
        entry_pool s' !! i = Some e' /\
        pid e' = p /\
        compensation e' = compensation e /\
        base_tickets e' =
          Z.max LOTTERY_MIN_TICKETS (Z.min LOTTERY_MAX_TICKETS tickets))).
Proof.
  intros (Hc & Hok & Hsum) Hcomp Htot Hfuel.
  destruct (find_entry_some s p l fuel _ Hc Hfuel) as (r & Hr & Hspec).
  unfold lottery_set_tickets. unfold bind at 1. unfold find_entry, bind at 1, gets at 1.
  rewrite Hr. destruct r as [i|].
  2:{ exists 0, s. split; [reflexivity|].
      split; [split; [exact Hc | split; [exact Hok | exact Hsum]]|].
      left. split; [reflexivity|]. split; [reflexivity | exact Hspec]. }
  destruct Hspec as (Hi & e & He & Hp).
  set (t' := Z.max LOTTERY_MIN_TICKETS (Z.min LOTTERY_MAX_TICKETS tickets)).
  assert (Ht' : (let t1 := if tickets <? LOTTERY_MIN_TICKETS then LOTTERY_MIN_TICKETS
                           else tickets in
                 if t1 >? LOTTERY_MAX_TICKETS then LOTTERY_MAX_TICKETS else t1) = t').
  { unfold t', LOTTERY_MIN_TICKETS, LOTTERY_MAX_TICKETS. cbv zeta.
    destruct (Z.ltb_spec tickets 1);
      [destruct (Z.gtb_spec 1 10000) | destruct (Z.gtb_spec tickets 10000)]; lia. }
  cbv zeta in Ht' |- *. rewrite Ht'.
  assert (Hlen : (i < length (entry_pool s))%nat) by (eapply lookup_lt_Some; exact He).
  pose proof (Hok i e Hi He) as [Hcur Hbase].
  pose proof (Hcomp i e Hi He) as Hc0.
  assert (Hpos : forall j ej, In j l -> entry_pool s !! j = Some ej ->
                              0 <= current_tickets ej).
  { intros j ej Hj Hej. destruct (Hok j ej Hj Hej) as [H1 H2].
    pose proof (Hcomp j ej Hj Hej). unfold LOTTERY_MIN_TICKETS in H2. lia. }
  pose proof (sum_tickets_member _ _ _ He l Hi Hpos) as Hmem.
  assert (Htr : LOTTERY_MIN_TICKETS <= t' <= LOTTERY_MAX_TICKETS).
  { unfold t', LOTTERY_MIN_TICKETS, LOTTERY_MAX_TICKETS. lia. }
  set (e2 := set_current_tickets (wrap32 (t' + compensation e)) (set_base_tickets t' e)).
  assert (Hw : wrap32 (t' + compensation e) = t' + compensation e).
  { unfold wrap32. apply Z.mod_small.
    unfold LOTTERY_MIN_TICKETS, LOTTERY_MAX_TICKETS in *. lia. }
  eexists (base_tickets e), _. split.
  { cbv [bind gets modify ret rd upd sync_total].
    repeat first [ rewrite He
                 | rewrite list_lookup_insert_eq by (rewrite ?length_insert; exact Hlen)
                 | progress simpl ].
    rewrite list_insert_insert_eq. reflexivity. }
  split.
  - split; [|split].
    + simpl. apply (chain_insert _ i e); [exact He | destruct e; reflexivity | exact Hc].
    + simpl. intros j ej Hj Hej.
      destruct (decide (i = j)) as [->|Hne].
      * rewrite list_lookup_insert_eq in Hej by exact Hlen. injection Hej as <-.
        destruct e. unfold entry_ok. simpl in *. rewrite Hw. split; [reflexivity | exact Htr].
      * rewrite list_lookup_insert_ne in Hej by exact Hne. exact (Hok j ej Hj Hej).
    + simpl.
      rewrite (sum_tickets_insert _ i e _ He l (chain_nodup _ _ _ Hc) Hi).
      rewrite Hsum. destruct e. simpl in *. rewrite Hw.
      unfold wrap32. rewrite Zplus_mod_idemp_l.
      rewrite Z.mod_small; [reflexivity|].
      unfold LOTTERY_MIN_TICKETS, LOTTERY_MAX_TICKETS in *. lia.
  - right. exists i, e, e2. split; [exact Hi|]. split; [exact He|]. split; [exact Hp|].
    split; [reflexivity|]. split.
    + simpl. rewrite list_lookup_insert_eq by exact Hlen. destruct e. reflexivity.
    + destruct e. simpl in *. repeat split. exact Hp.
Qed.

(** [lottery_enqueue] of a pid that is not in the pool, with a free slot
    left: the slot at the head of the free list becomes the head of the
    pool, holding the pid with 100 base tickets and no compensation; the
    total grows by 100 and the invariant of the pool is kept. *)
Theorem lottery_enqueue_new (fuel : nat) (s : state) (l : list nat) (p : Z)
    (i : nat) (e0 : lottery_entry) :
  pool_invariant s l ->
  (forall j e, In j l -> entry_pool s !! j = Some e -> pid e <> p) ->
  (length l < fuel)%nat ->
  free_entries s = Some i ->
  entry_pool s !! i = Some e0 ->
  ~ In i l ->
  0 <= total_tickets s ->
  total_tickets s + LOTTERY_DEFAULT_TICKETS < 2 ^ 32 ->
  exists s' e,
    lottery_enqueue fuel p s = Some (tt, s') /\
    pool_invariant s' (i :: l) /\
    entry_pool s' !! i = Some e /\
    pid e = p /\
    base_tickets e = LOTTERY_DEFAULT_TICKETS /\
    compensation e = 0 /\
    total_tickets s' = total_tickets s + LOTTERY_DEFAULT_TICKETS /\
    free_entries s' = next e0.
Proof.
  intros (Hc & Hok & Hsum) Hp Hfuel Hfree He0 Hni Htot0 Htot.
  assert (Hfind : find_entry fuel p s = Some (None, s)).
  { unfold find_entry, bind, gets. eapply find_entry_none; eassumption. }
  assert (Hlen : (i < length (entry_pool s))%nat) by (eapply lookup_lt_Some; exact He0).
  set (e := mk_entry p LOTTERY_DEFAULT_TICKETS LOTTERY_DEFAULT_TICKETS 0 0 0
              (lottery_pool s)).
  assert (Hw : wrap32 (total_tickets s + LOTTERY_DEFAULT_TICKETS) =
               total_tickets s + LOTTERY_DEFAULT_TICKETS).
  { unfold wrap32. apply Z.mod_small. unfold LOTTERY_DEFAULT_TICKETS in *. lia. }
  eexists _, e. split.
  { unfold lottery_enqueue. unfold bind at 1. rewrite Hfind. cbn [is_null negb].
    cbv [alloc_entry sync_total sync_count bind gets modify ret rd upd].
    rewrite Hfree.
    repeat first [ rewrite He0
                 | rewrite list_lookup_insert_eq by (rewrite ?length_insert; exact Hlen)
                 | progress simpl ].
    rewrite !list_insert_insert_eq. rewrite Hw.
    change (set_next (lottery_pool s) _) with e. reflexivity. }
  split; [split; [|split]|].
  - simpl. split; [reflexivity|]. exists e. split.
    + apply list_lookup_insert_eq. exact Hlen.
    + apply chain_insert_fresh; [exact Hni | exact Hc].
  - simpl. intros j ej [<-|Hj] Hej.
    + rewrite list_lookup_insert_eq in Hej by exact Hlen. injection Hej as <-.
      split; [reflexivity | vm_compute; split; discriminate].
    + rewrite list_lookup_insert_ne in Hej by (intros ->; contradiction).
      exact (Hok j ej Hj Hej).
  - simpl entry_pool. simpl total_tickets.
    rewrite (sum_tickets_cons _ _ e) by (apply list_lookup_insert_eq; exact Hlen).
    rewrite tickets_insert_fresh by exact Hni. rewrite Hsum.
    change (current_tickets e) with LOTTERY_DEFAULT_TICKETS. lia.
  - simpl. split; [apply list_lookup_insert_eq; exact Hlen|].
    repeat split.
Qed.

(** *** Runs *)

(** Go through the slots of a concrete list. *)
Ltac entries :=
  let H := fresh in
  intros ? ? H; repeat (destruct H as [<-|H]); [..|destruct H].

(** On the pool of 40100 tickets the winner is never pid 1, in slot 0. *)
Lemma lottery_draw_reach_witness :
  exists i e,
    In i [4%nat; 3%nat; 2%nat; 1%nat] /\ entry_pool heavy_pool !! i = Some e /\
    eval (lottery_draw 5) heavy_pool = Some (pid e).
Proof.
  apply (lottery_draw_reach 5 heavy_pool [4%nat; 3%nat; 2%nat; 1%nat] [0%nat]).
  - vm_compute. repeat first [reflexivity | eexists | split].
  - entries; intros H0; vm_compute in H0; injection H0 as <-; vm_compute; discriminate.
  - reflexivity.
  - reflexivity.
  - vm_compute. discriminate.
  - simpl. lia.
Defined.

(** Pid 1 is in the pool of two entries. *)
Lemma lottery_enqueue_present_witness :
  lottery_enqueue 3 1 two_entries = Some (tt, two_entries).
Proof.
  apply (lottery_enqueue_present 3 two_entries 1 [1%nat; 0%nat] 0%nat
           (mk_entry 1 100 100 0 0 0 None)).
  - vm_compute. repeat first [reflexivity | eexists | split].
  - simpl. lia.
  - right. left. reflexivity.
  - reflexivity.
  - reflexivity.
Defined.

(** Pid 7 is not. *)
Lemma lottery_dequeue_absent_witness :
  lottery_dequeue 3 7 two_entries = Some (tt, two_entries).
Proof.
  apply (lottery_dequeue_absent 3 two_entries 7 [1%nat; 0%nat]).
  - vm_compute. repeat first [reflexivity | eexists | split].
  - simpl. lia.
  - entries; intros H0; vm_compute in H0; injection H0 as <-; vm_compute; discriminate.
Defined.

(** The check on the pool of two entries. *)
Lemma lottery_validate_spec_witness :
  exists b,
    lottery_validate 3 two_entries = Some (b, two_entries) /\
    (b = true <->
     (forall j e, In j [1%nat; 0%nat] -> entry_pool two_entries !! j = Some e ->
        LOTTERY_MIN_TICKETS <= base_tickets e <= LOTTERY_MAX_TICKETS /\
        current_tickets e = wrap32 (base_tickets e + compensation e)) /\
     wrap32 (sum_tickets (tickets_of (entry_pool two_entries) [1%nat; 0%nat])) =
       total_tickets two_entries /\
     wrap32 (Z.of_nat (length [1%nat; 0%nat])) = participant_count two_entries).
Proof.
  apply (lottery_validate_spec 3 two_entries [1%nat; 0%nat]).
  - vm_compute. repeat first [reflexivity | eexists | split].
  - simpl. lia.
Defined.

Lemma two_entries_invariant : pool_invariant two_entries [1%nat; 0%nat].
Proof.
  split; [|split].
  - vm_compute. repeat first [reflexivity | eexists | split].
  - entries; intros H0; vm_compute in H0; injection H0 as <-;
      vm_compute; repeat split; discriminate.
  - reflexivity.
Qed.

(** 20000 tickets asked for pid 2 in the pool of two entries. *)
Lemma lottery_set_tickets_invariant_witness :
  exists old s',
    lottery_set_tickets 3 2 20000 two_entries = Some (old, s') /\
    pool_invariant s' [1%nat; 0%nat].
Proof.
  destruct (lottery_set_tickets_invariant 3 two_entries [1%nat; 0%nat] 2 20000)
    as (old & s' & Hrun & Hinv & _).
  - exact two_entries_invariant.
  - entries; intros H0; vm_compute in H0; injection H0 as <-; vm_compute; discriminate.
  - vm_compute. reflexivity.
  - simpl. lia.
  - exists old, s'. split; [exact Hrun | exact Hinv].
Defined.

(** Pid 3 joins the pool of two entries, in slot 2. *)
Lemma lottery_enqueue_new_witness :
  exists s' e,
    lottery_enqueue 3 3 two_entries = Some (tt, s') /\
    pool_invariant s' [2%nat; 1%nat; 0%nat] /\
    entry_pool s' !! 2%nat = Some e /\ pid e = 3 /\
    total_tickets s' = 300.
Proof.
  destruct (lottery_enqueue_new 3 two_entries [1%nat; 0%nat] 3 2%nat
              (mk_entry 0 0 0 0 0 0 (Some 3%nat)))
    as (s' & e & Hrun & Hinv & He & Hp & _ & _ & Htot & _).
  - exact two_entries_invariant.
  - entries; intros H0; vm_compute in H0; injection H0 as <-; vm_compute; discriminate.
  - simpl. lia.
  - reflexivity.
  - reflexivity.
  - intros [H|[H|[]]]; discriminate H.
  - vm_compute. discriminate.
  - vm_compute. reflexivity.
  - exists s', e. repeat (split; [assumption|]). exact Htot.
Defined.

End LotteryMore.

(** ** Real-time: the clock *)

Module RTMore.
Import RT.

#[local] Instance same_clock_preorder : PreOrder same_clock.
Proof.
  split; unfold same_clock; [intros s; reflexivity | intros a b c; congruence].
Qed.

Lemma sc_rd i : preserves same_clock (rd i).
Proof.
  intros s a s' H. unfold rd in H.
  destruct (task_pool s !! i); [|discriminate]. injection H as _ <-. reflexivity.
Qed.

Lemma sc_upd i f : preserves same_clock (upd i f).
Proof.
  intros s a s' H. unfold upd in H.
  destruct (task_pool s !! i); [|discriminate]. injection H as _ <-. reflexivity.
Qed.

Create HintDb sc discriminated.
#[local] Hint Resolve sc_rd sc_upd : sc.
#[local] Hint Extern 1 (preserves same_clock (modify _)) =>
  (intros ? ? ? H; injection H as _ <-; reflexivity) : sc.
#[local] Hint Extern 1 (preserves same_clock (upd_stats _)) =>
  (intros ? ? ? H; injection H as _ <-; reflexivity) : sc.
#[local] Hint Extern 1 (preserves same_clock (context_switch _ _)) =>
  (intros ? ? ? H; injection H as _ <-; reflexivity) : sc.

Ltac sc_auto := pres_with ltac:(auto with sc).

Lemma sc_alloc_task : preserves same_clock alloc_task.
Proof. unfold alloc_task. sc_auto. Qed.
Lemma sc_free_task t : preserves same_clock (free_task t).
Proof. unfold free_task. sc_auto. Qed.
Lemma sc_find_task fuel p : preserves same_clock (find_task fuel p).
Proof. unfold find_task. sc_auto. Qed.
Lemma sc_insert_ready fuel t : preserves same_clock (insert_ready fuel t).
Proof. unfold insert_ready. sc_auto. Qed.
Lemma sc_remove_ready fuel t : preserves same_clock (remove_ready fuel t).
Proof. unfold remove_ready. sc_auto. Qed.
#[local] Hint Resolve sc_alloc_task sc_free_task sc_find_task sc_insert_ready
  sc_remove_ready : sc.

Lemma sc_collect n t l : preserves same_clock (collect n t l).
Proof. revert t l. induction n as [|n IH]; intros [i|] l; simpl; sc_auto. Qed.
Lemma sc_bubble_pass key steps j l : preserves same_clock (bubble_pass key steps j l).
Proof. revert j l. induction steps as [|k IH]; intros j l; simpl; sc_auto. Qed.
#[local] Hint Resolve sc_collect sc_bubble_pass : sc.
Lemma sc_bubble key rounds i count l : preserves same_clock (bubble key rounds i count l).
Proof. revert i l. induction rounds as [|r IH]; intros i l; simpl; sc_auto. Qed.
Lemma sc_assign count i l : preserves same_clock (assign count i l).
Proof. revert i. induction l as [|a l IH]; intros i; simpl; sc_auto. Qed.
#[local] Hint Resolve sc_bubble sc_assign : sc.
Lemma sc_assign_priorities key : preserves same_clock (assign_priorities key).
Proof. unfold assign_priorities. sc_auto. Qed.
#[local] Hint Resolve sc_assign_priorities : sc.

Lemma sc_llf_update_laxity fuel : preserves same_clock (llf_update_laxity fuel).
Proof. unfold llf_update_laxity. sc_auto. Qed.
#[local] Hint Resolve sc_llf_update_laxity : sc.
Lemma sc_llf_pick_next fuel : preserves same_clock (llf_pick_next fuel).
Proof. unfold llf_pick_next. sc_auto. Qed.
Lemma sc_requeue_all fuel : preserves same_clock (requeue_all fuel).
Proof. unfold requeue_all. sc_auto. Qed.
#[local] Hint Resolve sc_llf_pick_next sc_requeue_all : sc.
Lemma sc_schedule fuel : preserves same_clock (realtime_schedule fuel).
Proof. unfold realtime_schedule. sc_auto. Qed.
Lemma sc_check_preempt fuel : preserves same_clock (realtime_check_preempt fuel).
Proof. unfold realtime_check_preempt. sc_auto. Qed.
#[local] Hint Resolve sc_schedule sc_check_preempt : sc.
Lemma sc_yield fuel : preserves same_clock (realtime_yield fuel).
Proof. unfold realtime_yield. sc_auto. Qed.
Lemma sc_release fuel t : preserves same_clock (realtime_release fuel t).
Proof. unfold realtime_release. sc_auto. Qed.
Lemma sc_calc_utilization fuel : preserves same_clock (realtime_calc_utilization fuel).
Proof. unfold realtime_calc_utilization. sc_auto. Qed.
#[local] Hint Resolve sc_yield sc_release sc_calc_utilization : sc.
Lemma sc_complete fuel p : preserves same_clock (realtime_complete fuel p).
Proof. unfold realtime_complete, update_stats_completion. sc_auto. Qed.
Lemma sc_handle_miss fuel t : preserves same_clock (realtime_handle_miss fuel t).
Proof. unfold realtime_handle_miss. sc_auto. Qed.
Lemma sc_check_deadline t : preserves same_clock (realtime_check_deadline t).
Proof. unfold realtime_check_deadline. sc_auto. Qed.
#[local] Hint Resolve sc_complete sc_handle_miss sc_check_deadline : sc.
Lemma sc_check_releases fuel : preserves same_clock (realtime_check_releases fuel).
Proof. unfold realtime_check_releases. sc_auto. Qed.
Lemma sc_check_deadlines fuel : preserves same_clock (realtime_check_deadlines fuel).
Proof. unfold realtime_check_deadlines. sc_auto. Qed.
#[local] Hint Resolve sc_check_releases sc_check_deadlines : sc.
Lemma sc_create_task fuel p ps : preserves same_clock (realtime_create_task fuel p ps).
Proof. unfold realtime_create_task, rms_assign_priorities, dms_assign_priorities. sc_auto. Qed.
Lemma sc_set_params fuel p ps : preserves same_clock (realtime_set_params fuel p ps).
Proof. unfold realtime_set_params, rms_assign_priorities, dms_assign_priorities. sc_auto. Qed.
#[local] Hint Resolve sc_create_task sc_set_params : sc.
Lemma sc_enqueue fuel p : preserves same_clock (realtime_enqueue fuel p).
Proof. unfold realtime_enqueue. sc_auto. Qed.
Lemma sc_dequeue fuel p : preserves same_clock (realtime_dequeue fuel p).
Proof. unfold realtime_dequeue. sc_auto. Qed.



End RTMore.

(** ** CFS: weights *)

Module CFSMore.
Import CFS.

(** The table falls from index to index. *)
Lemma weight_table_antitone (i j : nat) :
  (i <= j < 40)%nat ->
  nth j cfs_weight_table 0 <= nth i cfs_weight_table 0.
Proof.
  intros H.
  assert (forallb (fun a => forallb (fun b =>
            implb (a <=? b)%nat (nth b cfs_weight_table 0 <=? nth a cfs_weight_table 0))
            (seq 0 40)) (seq 0 40) = true) as Hall by (vm_compute; reflexivity).
  rewrite forallb_forall in Hall.
  specialize (Hall i). rewrite forallb_forall in Hall.
  assert (In i (seq 0 40)) as Hi by (apply in_seq; lia).
  assert (In j (seq 0 40)) as Hj by (apply in_seq; lia).
  specialize (Hall Hi j Hj).
  destruct (Nat.leb_spec i j); [|lia]. cbn [implb] in Hall. apply Z.leb_le in Hall. exact Hall.
Qed.

(** The index [cfs_nice_to_weight] reads the table at. *)
Lemma weight_index (n : Z) :
  exists i : nat, (i < 40)%nat /\ cfs_nice_to_weight n = nth i cfs_weight_table 0 /\
    Z.of_nat i = Z.max 0 (Z.min 39 (n + 20)).
Proof.
  unfold cfs_nice_to_weight, CFS_NICE_LEVELS.
  destruct (Z.ltb_spec (n + 20) 0).
  - exists 0%nat. simpl. repeat split; lia.
  - destruct (Z.geb_spec (n + 20) 40).
    + exists 39%nat. simpl. repeat split; lia.
    + exists (Z.to_nat (n + 20)). repeat split; lia.
Qed.

(** [cfs_nice_to_weight] never gives a weight outside [15, 88761], gives
    less weight to a larger nice value, and treats every nice value below
    -20 as -20 and every one above 19 as 19.  ([nice + 20] is computed in
    an [int]: the nice values are those for which it does not overflow.) *)
Theorem cfs_nice_to_weight_antitone (a b : Z) :
  - 2 ^ 31 <= a -> b < 2 ^ 31 - 20 ->
  a <= b ->
  15 <= cfs_nice_to_weight b <= cfs_nice_to_weight a /\
  cfs_nice_to_weight a <= 88761 /\
  (a <= -20 -> cfs_nice_to_weight a = 88761) /\
  (19 <= b -> cfs_nice_to_weight b = 15).
Proof.
  intros _ _ Hab.
  destruct (weight_index a) as (i & Hi & -> & Ei).
  destruct (weight_index b) as (j & Hj & -> & Ej).
  assert (i <= j)%nat as Hij by lia.
  pose proof (weight_table_antitone i j ltac:(lia)) as H1.
  pose proof (weight_table_antitone j 39 ltac:(lia)) as H2.
  pose proof (weight_table_antitone 0 i ltac:(lia)) as H3.
  change (nth 39 cfs_weight_table 0) with 15 in H2.
  change (nth 0 cfs_weight_table 0) with 88761 in H3.
  split; [lia|]. split; [lia|]. split.
  - intros Ha. assert (i = 0)%nat as -> by lia. reflexivity.
  - intros Hb. assert (j = 39)%nat as -> by lia. reflexivity.
Qed.

(** Nice 0 weighs 1024, nice 5 less. *)
Lemma cfs_nice_to_weight_antitone_witness :
  cfs_nice_to_weight 0 = 1024 /\
  15 <= cfs_nice_to_weight 5 <= cfs_nice_to_weight 0.
Proof.
  split; [reflexivity|].
  apply (cfs_nice_to_weight_antitone 0 5); lia.
Defined.

End CFSMore.

(** ** The switch to a known policy *)

Module CoreMore.
Import Core.

Lemma zoom_inv {T A} (get : state -> T) (set : T -> state -> state) (m : M T A)
    (s s' : state) (a : A) :
  zoom get set m s = Some (a, s') ->
  exists t, m (get s) = Some (a, t) /\ s' = set t s.
Proof.
  unfold zoom. destruct (m (get s)) as [[x t]|]; [|discriminate].
  intros H. injection H as <- <-. exists t. split; reflexivity.
Qed.

Lemma bind_inv {S A B} (m : M S A) (k : A -> M S B) (s s' : S) (b : B) :
  bind m k s = Some (b, s') ->
  exists a s1, m s = Some (a, s1) /\ k a s1 = Some (b, s').
Proof.
  unfold bind. destruct (m s) as [[a s1]|]; [|discriminate].
  intros H. exists a, s1. split; [reflexivity | exact H].
Qed.

(** Take a sequence apart, from its first step on. *)
Ltac unbind H :=
  repeat (let a := fresh "a" in let s1 := fresh "s" in let H1 := fresh "H" in
          apply bind_inv in H; destruct H as (a & s1 & H1 & H)).

Lemma modify_inv {S} (f : S -> S) (s s' : S) (a : unit) :
  modify f s = Some (a, s') -> s' = f s.
Proof. intros H. injection H as _ <-. reflexivity. Qed.

Lemma ret_inv {S A} (x a : A) (s s' : S) :
  ret x s = Some (a, s') -> a = x /\ s' = s.
Proof. intros H. injection H as <- <-. split; reflexivity. Qed.

Ltac modified H :=
  match type of H with
  | modify _ _ = Some _ => apply modify_inv in H; subst
  | ret _ _ = Some _ => apply ret_inv in H; destruct H as [-> ->]
  end.

Lemma updq_inv (i : nat) (f : MLFQ.mlfq_queue -> MLFQ.mlfq_queue)
    (s s' : MLFQ.state) (a : unit) :
  MLFQ.updq (Z.of_nat i) f s = Some (a, s') ->
  exists q, MLFQ.mlfq_queues s !! i = Some q /\
            s' = MLFQ.set_mlfq_queues (<[i := f q]> (MLFQ.mlfq_queues s)) s.
Proof.
  unfold MLFQ.updq, MLFQ.at_index.
  destruct (Z.of_nat i <? 0); [discriminate|]. rewrite Nat2Z.id.
  destruct (MLFQ.mlfq_queues s !! i) as [q|]; [|discriminate].
  intros H. injection H as _ <-. exists q. split; reflexivity.
Qed.

Lemma rd_quantum_inv (l : Z) (s s' : MLFQ.state) (a : Z) :
  MLFQ.rd_quantum l s = Some (a, s') -> s' = s.
Proof.
  unfold MLFQ.rd_quantum. destruct (MLFQ.at_index _ _); [|discriminate].
  intros H. injection H as _ <-. reflexivity.
Qed.

Lemma mlfq_init_levels_empty (n i : nat) (s s' : MLFQ.state) (a : unit) :
  MLFQ.init_levels n i s = Some (a, s') ->
  MLFQ.current_node s' = MLFQ.current_node s /\
  forall j q, MLFQ.mlfq_queues s' !! j = Some q ->
    ((i <= j < i + n)%nat ->
     MLFQ.head q = None /\ MLFQ.tail q = None /\ MLFQ.count q = 0) /\
    ((j < i)%nat -> MLFQ.mlfq_queues s !! j = Some q).
Proof.
  revert i s. induction n as [|n IH]; intros i s; simpl.
  - intros H. injection H as _ <-. split; [reflexivity|].
    intros j q Hq. split; [lia | intros _; exact Hq].
  - intros H. unbind H.
    repeat match goal with
           | H : MLFQ.rd_quantum _ _ = Some _ |- _ => apply rd_quantum_inv in H; subst
           | H : modify _ _ = Some _ |- _ => modified H
           end.
    repeat match goal with
           | H : MLFQ.updq _ _ _ = Some _ |- _ =>
               apply updq_inv in H; destruct H as (? & ? & ->)
           end.
    apply IH in H. destruct H as (Hc & H). split; [exact Hc|].
    match goal with H0 : MLFQ.mlfq_queues s !! i = Some _ |- _ =>
      pose proof (lookup_lt_Some _ _ _ H0) as Hlt end.
    simpl in *.
    repeat match goal with
           | H0 : <[i := _]> _ !! i = Some _ |- _ =>
               rewrite list_lookup_insert_eq in H0 by (rewrite ?length_insert; exact Hlt);
               injection H0 as <-
           end.
    intros j q Hq. destruct (H j q Hq) as (Hin & Hout). split.
    + intros Hr. destruct (decide (j = i)) as [->|Hne].
      * assert (i < S i)%nat as Hi by lia. specialize (Hout Hi). simpl in Hout.
        rewrite list_lookup_insert_eq in Hout by (rewrite ?length_insert; exact Hlt).
        injection Hout as <-. repeat split.
      * apply Hin. lia.
    + intros Hr. assert (j < S i)%nat as Hj by lia. specialize (Hout Hj).
      simpl in Hout. rewrite !list_lookup_insert_ne in Hout by lia. exact Hout.
Qed.

Section WithConfig.
Variable cfg : config.

Lemma rr_init_idle (s t : RR.state) (a : unit) :
  RR.round_robin_init (NPROC cfg) s = Some (a, t) ->
  RR.rr_queue_head t = None /\ RR.rr_current t = None /\ RR.rr_queue_count t = 0.
Proof.
  unfold RR.round_robin_init. intros H. unbind H.
  repeat match goal with H : modify _ _ = Some _ |- _ => modified H end.
  repeat split.
Qed.

Lemma prio_init_idle (s t : Prio.state) (a : unit) :
  Prio.priority_init (prio_config cfg) s = Some (a, t) ->
  Prio.prio_queue t = None /\ Prio.prio_queue_count t = 0.
Proof.
  unfold Prio.priority_init. intros H. unbind H.
  repeat match goal with H : modify _ _ = Some _ |- _ => modified H end.
  repeat split.
Qed.

Lemma mlfq_init_idle (s t : MLFQ.state) (a : unit) :
  MLFQ.mlfq_init (mlfq_config cfg) s = Some (a, t) ->
  MLFQ.current_node t = None /\
  forall j q, (j < 8)%nat -> MLFQ.mlfq_queues t !! j = Some q ->
              MLFQ.head q = None /\ MLFQ.tail q = None /\ MLFQ.count q = 0.
Proof.
  unfold MLFQ.mlfq_init. intros H. unbind H.
  repeat match goal with H : modify _ _ = Some _ |- _ => modified H end.
  split; [reflexivity|]. simpl.
  match goal with H0 : MLFQ.init_levels _ _ _ = Some _ |- _ =>
    apply mlfq_init_levels_empty in H0; destruct H0 as (_ & Hlev) end.
  intros j q Hj Hq. apply (Hlev j q Hq). lia.
Qed.

Lemma lottery_init_idle (s t : Lottery.state) (a : unit) :
  Lottery.lottery_init s = Some (a, t) ->
  Lottery.lottery_pool t = None /\ Lottery.total_tickets t = 0 /\
  Lottery.participant_count t = 0 /\ Lottery.current_pid t = -1.
Proof.
  unfold Lottery.lottery_init. intros H. unbind H.
  repeat match goal with H : modify _ _ = Some _ |- _ => modified H end.
  repeat split.
Qed.

Lemma cfs_init_idle (s t : CFS.state) (a : unit) :
  CFS.cfs_init s = Some (a, t) ->
  CFS.tasks_timeline (CFS.rq t) = None /\ CFS.curr (CFS.rq t) = None /\
  CFS.nr_running (CFS.rq t) = 0.
Proof.
  unfold CFS.cfs_init, CFS.upd_rq. intros H. unbind H.
  repeat match goal with H : modify _ _ = Some _ |- _ => modified H end.
  repeat split.
Qed.

Lemma realtime_init_idle (s t : RT.rt_state) (a : unit) :
  RT.realtime_init s = Some (a, t) ->
  RT.ready_queue t = None /\ RT.all_tasks t = None /\
  RT.current_task t = None /\ RT.task_count t = 0.
Proof.
  unfold RT.realtime_init. intros H. unbind H.
  repeat match goal with H : modify _ _ = Some _ |- _ => modified H end.
  repeat split.
Qed.

(** Whenever [scheduler_switch] to one of the six known policies returns,
    it returns OK, the policy pointer is the table of that policy,
    [sched_policy] is the requested type, and the new policy starts
    empty: its [init] has run, so it holds no process of the old policy. *)
Theorem scheduler_switch_known (fuel : nat) (type : scheduler_type_t)
    (tbl : ops_table) (s s' : state) (r : syscall) :
  ops_of type = Some tbl ->
  scheduler_switch cfg fuel type s = Some (r, s') ->
  r = OK /\ current_scheduler s' = Some tbl /\ sched_policy s' = type /\ idle tbl s'.
Proof.
  intros Hops H. unfold scheduler_switch in H.
  apply bind_inv in H. destruct H as ([] & s0 & _ & H).
  destruct type; simpl in Hops; try discriminate; injection Hops as <-;
    unbind H;
    repeat match goal with
           | H : modify _ _ = Some _ |- _ => modified H
           | H : ret _ _ = Some _ |- _ => modified H
           end;
    match goal with
    | H : zoom _ _ _ _ = Some _ |- _ =>
        apply zoom_inv in H; destruct H as (t & H & ->)
    end;
    (split; [reflexivity|]); (split; [reflexivity|]); (split; [reflexivity|]); simpl.
  - eapply rr_init_idle; eassumption.
  - eapply prio_init_idle; eassumption.
  - eapply mlfq_init_idle; eassumption.
  - eapply lottery_init_idle; eassumption.
  - eapply cfs_init_idle; eassumption.
  - eapply realtime_init_idle; eassumption.
Qed.

End WithConfig.

(** From round-robin with two processes in its ring to the lottery. *)
Lemma scheduler_switch_known_witness :
  exists s',
    scheduler_switch sample_config 100 SCHEDULER_LOTTERY rr_active = Some (OK, s') /\
    current_scheduler s' = Some lottery_ops /\
    idle lottery_ops s'.
Proof.
  destruct (scheduler_switch sample_config 100 SCHEDULER_LOTTERY rr_active)
    as [[r s']|] eqn:E; [|vm_compute in E; discriminate E].
  destruct (scheduler_switch_known sample_config 100 SCHEDULER_LOTTERY lottery_ops
              rr_active s' r eq_refl E) as (-> & Hcur & _ & Hidle).
  exists s'. split; [reflexivity|]. split; [exact Hcur | exact Hidle].
Defined.

End CoreMore.

(** ** Round-robin: pids queued once *)

Module RRMore.
Import RR RRFacts.

(** The walk of [rr_find_node] over the rest of a ring: it ends at the
    first node that carries [p], or at the node whose successor is the
    head. *)
Lemma find_ring_walk (s : state) (p : Z) (h : nat) :
  forall l from fuel,
    ring_seg (rr_node_pool s) from l h ->
    l <> [] ->
    ~ In h (tl l) ->
    (length l <= fuel)%nat ->
    exists r,
      loop fuel (find_step p h) (Some from) s = Some (r, s) /\
      match r with
      | None => forall j n, In j l -> rr_node_pool s !! j = Some n -> pid n <> p
      | Some i => In i l /\ exists n, rr_node_pool s !! i = Some n /\ pid n = p
      end.
Proof.
  induction l as [|i l IH]; intros from fuel Hs Hne Hh Hfuel; [contradiction|].
  destruct Hs as [-> (n & n' & Hn & Hnx & Hs)].
  destruct fuel as [|f]; [simpl in Hfuel; lia|].
  rewrite loop_S. unfold bind at 1, find_step at 1, bind at 1, rd at 1. rewrite Hn.
  destruct (Z.eqb_spec (pid n) p) as [Heq|Hneq].
  { exists (Some i). split; [reflexivity|]. split; [left; reflexivity|].
    exists n. split; [exact Hn | exact Heq]. }
  rewrite Hnx. change (ptr_eqb (Some n') (Some h)) with (Nat.eqb n' h).
  destruct (Nat.eqb_spec n' h) as [->|Hnh].
  - exists None. split; [reflexivity|].
    destruct l as [|k l'].
    + intros j m [<-|[]] Hm. congruence.
    + exfalso. destruct Hs as [<- _]. apply Hh. left. reflexivity.
  - destruct l as [|k l']; [simpl in Hs; contradiction|].
    unfold ret at 1.
    destruct (IH n' f Hs) as (r & Hr & Hspec).
    + discriminate.
    + intros Hin. apply Hh. right. exact Hin.
    + simpl in Hfuel |- *. lia.
    + exists r. split; [exact Hr|]. destruct r as [x|].
      * destruct Hspec as [Hx Hex]. split; [right; exact Hx | exact Hex].
      * intros j m [<-|Hj] Hm; [congruence | exact (Hspec j m Hj Hm)].
Qed.

(** [rr_find_node] on a ring: the state is left as it is, and the answer
    is a node of the ring that carries [p], or NULL when none does. *)
Lemma find_ring (s : state) (p : Z) (h : nat) (l : list nat) (fuel : nat) :
  ring s h l ->
  (length l <= fuel)%nat ->
  exists r,
    rr_find_node fuel p s = Some (r, s) /\
    match r with
    | None => forall j n, In j l -> rr_node_pool s !! j = Some n -> pid n <> p
    | Some i => In i l /\ exists n, rr_node_pool s !! i = Some n /\ pid n = p
    end.
Proof.
  intros (Hh & Hne & Hnd & Hs & _) Hfuel.
  unfold rr_find_node, bind, gets. rewrite Hh.
  apply find_ring_walk; try assumption.
  destruct l as [|k l']; [contradiction|].
  destruct Hs as [-> _]. simpl.
  apply NoDup_cons_1_1 in Hnd. rewrite list_elem_of_In in Hnd. exact Hnd.
Qed.

Section WithNPROC.
Variable NPROC : nat.

(** [round_robin_enqueue] of a pid that is already in the ring changes
    nothing: a process is never queued twice. *)
Theorem round_robin_enqueue_present (fuel : nat) (s : state) (p : Z) (h i : nat)
    (l : list nat) (n : rr_node) :
  ring s h l ->
  (length l <= fuel)%nat ->
  In i l -> rr_node_pool s !! i = Some n -> pid n = p ->
  round_robin_enqueue NPROC fuel p s = Some (tt, s).
Proof.
  intros Hr Hfuel Hi Hn Hp. unfold round_robin_enqueue.
  destruct ((p <? 0) || (p >=? Z.of_nat NPROC)); [reflexivity|].
  destruct (find_ring s p h l fuel Hr Hfuel) as (r & Hrun & Hspec).
  unfold bind. rewrite Hrun. destruct r as [x|]; [reflexivity|].
  exfalso. exact (Hspec i n Hi Hn Hp).
Qed.

(** [round_robin_dequeue] of a pid that is not queued changes nothing,
    on an empty queue as on a ring. *)
Theorem round_robin_dequeue_absent (fuel : nat) (s : state) (p : Z) (l : list nat) :
  queue_wf s l ->
  (forall j n, In j l -> rr_node_pool s !! j = Some n -> pid n <> p) ->
  (length l <= fuel)%nat ->
  round_robin_dequeue NPROC fuel p s = Some (tt, s).
Proof.
  intros Hwf Hp Hfuel. unfold round_robin_dequeue.
  destruct ((p <? 0) || (p >=? Z.of_nat NPROC)); [reflexivity|].
  unfold queue_wf in Hwf.
  destruct (rr_queue_head s) as [h|] eqn:Hh.
  - destruct Hwf as [Hr _].
    unfold bind. rewrite (find_none s p h l fuel Hr Hp Hfuel). reflexivity.
  - unfold bind, rr_find_node, bind, gets. rewrite Hh. reflexivity.
Qed.

End WithNPROC.

(** The ring of [two_nodes]: slots 0 and 1. *)
Lemma two_nodes_ring : ring two_nodes 0%nat [0%nat; 1%nat].
Proof.
  split; [reflexivity|]. split; [discriminate|]. split.
  - apply NoDup_cons. split; [|apply NoDup_singleton].
    intros H. apply list_elem_of_In in H. destruct H as [H|[]]. discriminate H.
  - split.
    + vm_compute. repeat first [reflexivity | eexists | split].
    + vm_compute. eexists. split; reflexivity.
Qed.

(** Pid 2 is queued in [two_nodes]. *)
Lemma round_robin_enqueue_present_witness :
  round_robin_enqueue 4 2 2 two_nodes = Some (tt, two_nodes).
Proof.
  destruct (rr_node_pool two_nodes !! 1%nat) as [n|] eqn:E;
    [|vm_compute in E; discriminate E].
  apply (round_robin_enqueue_present 4 2 two_nodes 2 0%nat 1%nat [0%nat; 1%nat] n).
  - exact two_nodes_ring.
  - simpl. lia.
  - right. left. reflexivity.
  - exact E.
  - vm_compute in E. injection E as <-. reflexivity.
Defined.

(** Pid 3 is not. *)
Lemma round_robin_dequeue_absent_witness :
  round_robin_dequeue 4 2 3 two_nodes = Some (tt, two_nodes).
Proof.
  apply (round_robin_dequeue_absent 4 2 two_nodes 3 [0%nat; 1%nat]).
  - split; [exact two_nodes_ring|]. exists 0%nat. split; [reflexivity | left; reflexivity].
  - intros j n [<-|[<-|[]]] H0; vm_compute in H0; injection H0 as <-; vm_compute; discriminate.
  - simpl. lia.
Defined.

End RRMore.

(** ** Lists threaded through a pool *)

Module LinksFacts.
Import Links.

Section Seg.
Context {N : Type} (nx : N -> option nat).

Lemma seg_app (pool : list N) :
  forall l1 l2 p q,
    seg nx pool p (l1 ++ l2) q <->
    exists m, seg nx pool p l1 m /\ seg nx pool m l2 q.
Proof.
  induction l1 as [|i l1 IH]; intros l2 p q; simpl.
  - split; [intros H; exists p; split; [reflexivity | exact H]|].
    intros (m & -> & H). exact H.
  - split.
    + intros (Hp & n & Hn & Hs). apply IH in Hs. destruct Hs as (m & H1 & H2).
      exists m. split; [|exact H2]. split; [exact Hp|]. exists n. split; assumption.
    + intros (m & (Hp & n & Hn & H1) & H2). split; [exact Hp|].
      exists n. split; [exact Hn|]. apply IH. exists m. split; assumption.
Qed.

Lemma seg_lookup (pool : list N) :
  forall l p q j, seg nx pool p l q -> In j l -> exists n, pool !! j = Some n.
Proof.
  induction l as [|i l IH]; intros p q j Hs Hj; [destruct Hj|].
  destruct Hs as (_ & n & Hn & Hs). destruct Hj as [<-|Hj]; [eauto|].
  exact (IH _ _ _ Hs Hj).
Qed.

Lemma linked_functional (pool : list N) :
  forall l l' p, linked nx pool p l -> linked nx pool p l' -> l = l'.
Proof.
  unfold linked. induction l as [|i l IH]; intros [|i' l'] p H H'.
  - reflexivity.
  - simpl in H. destruct H' as [H' _]. congruence.
  - simpl in H'. destruct H as [H _]. congruence.
  - destruct H as [Hp (n & Hn & Hs)]. destruct H' as [Hp' (n' & Hn' & Hs')].
    assert (i' = i) as -> by congruence.
    assert (n' = n) as -> by congruence.
    f_equal. exact (IH _ _ Hs Hs').
Qed.

Lemma linked_not_in (pool : list N) i n l :
  pool !! i = Some n -> linked nx pool (nx n) l -> ~ In i l.
Proof.
  intros Hn Hl Hin.
  destruct (in_split _ _ Hin) as (l1 & l2 & ->).
  assert (Hl' := Hl). unfold linked in Hl'.
  apply seg_app in Hl'. destruct Hl' as (m & _ & Hm).
  destruct Hm as [_ (n' & Hn' & Hs')].
  assert (n' = n) as -> by congruence.
  pose proof (linked_functional _ _ _ _ Hl Hs') as Heq.
  apply (f_equal (@length nat)) in Heq.
  rewrite length_app in Heq. simpl in Heq. lia.
Qed.

Lemma linked_nodup (pool : list N) :
  forall l p, linked nx pool p l -> NoDup l.
Proof.
  induction l as [|i l IH]; intros p Hl; [apply NoDup_nil_2|].
  destruct Hl as [_ (n & Hn & Hl)].
  apply NoDup_cons_2; [|exact (IH _ Hl)].
  rewrite list_elem_of_In. exact (linked_not_in _ _ _ _ Hn Hl).
Qed.

(** A segment only depends on the links of its own slots. *)
Lemma seg_ext (pool pool' : list N) :
  forall l p q,
    seg nx pool p l q ->
    (forall j n, In j l -> pool !! j = Some n ->
                 exists n', pool' !! j = Some n' /\ nx n' = nx n) ->
    seg nx pool' p l q.
Proof.
  induction l as [|i l IH]; intros p q Hs Hx; [exact Hs|].
  destruct Hs as [Hp (n & Hn & Hs)]. split; [exact Hp|].
  destruct (Hx i n (or_introl eq_refl) Hn) as (n' & Hn' & Hnx).
  exists n'. split; [exact Hn'|]. rewrite Hnx. apply IH; [exact Hs|].
  intros j m Hj. apply Hx. right. exact Hj.
Qed.

Lemma seg_insert_fresh (pool : list N) i x :
  forall l p q, ~ In i l -> seg nx pool p l q -> seg nx (<[i := x]> pool) p l q.
Proof.
  intros l p q Hni Hs. eapply seg_ext; [exact Hs|].
  intros j n Hj Hn. exists n. split; [|reflexivity].
  rewrite list_lookup_insert_ne; [exact Hn|]. intros ->. contradiction.
Qed.

Lemma seg_insert_fresh_inv (pool : list N) i x :
  forall l p q, ~ In i l -> seg nx (<[i := x]> pool) p l q -> seg nx pool p l q.
Proof.
  intros l p q Hni Hs. eapply seg_ext; [exact Hs|].
  intros j n Hj Hn. exists n. split; [|reflexivity].
  rewrite list_lookup_insert_ne in Hn; [exact Hn|]. intros ->. contradiction.
Qed.

Lemma seg_snoc (pool : list N) :
  forall l p t n q,
    seg nx pool p l (Some t) -> pool !! t = Some n -> nx n = q ->
    seg nx pool p (l ++ [t]) q.
Proof.
  intros l p t n q Hs Hn Hq. apply seg_app. exists (Some t). split; [exact Hs|].
  split; [reflexivity|]. exists n. split; [exact Hn | exact Hq].
Qed.

End Seg.

(** Facts on ascending lists. *)
Lemma ascending_tail (a : Z) (l : list Z) : ascending (a :: l) -> ascending l.
Proof. destruct l as [|b l]; simpl; [intros _; exact I | intros [_ H]; exact H]. Qed.

Lemma ascending_bound (a : Z) (l : list Z) :
  ascending (a :: l) -> Forall (fun x => a <= x) l.
Proof.
  revert a. induction l as [|b l IH]; intros a H; [constructor|].
  destruct H as [Hab H]. constructor; [exact Hab|].
  specialize (IH b H). eapply Forall_impl; [exact IH|]. simpl. intros x Hx. lia.
Qed.

Lemma ascending_app_r (l1 l2 : list Z) : ascending (l1 ++ l2) -> ascending l2.
Proof.
  induction l1 as [|a l1 IH]; intros H; [exact H|].
  apply IH. eapply ascending_tail. exact H.
Qed.

(** Putting [x] behind the values that are at most [x] and before the
    larger ones keeps the order. *)
Lemma ascending_insert (x : Z) (l1 l2 : list Z) :
  ascending (l1 ++ l2) ->
  Forall (fun y => y <= x) l1 ->
  Forall (fun y => x < y) (firstn 1 l2) ->
  ascending (l1 ++ x :: l2).
Proof.
  induction l1 as [|a l1 IH]; intros Hd H1 H2.
  - simpl in *. destruct l2 as [|b l2]; [exact I|].
    inversion H2; subst. split; [lia | exact Hd].
  - inversion H1 as [|? ? Ha H1']; subst.
    specialize (IH (ascending_tail _ _ Hd) H1' H2).
    destruct l1 as [|b l1]; simpl in *.
    + split; [exact Ha | exact IH].
    + split; [apply Hd | exact IH].
Qed.

Lemma ascending_above (x : Z) (l : list Z) :
  ascending l -> Forall (fun y => x < y) (firstn 1 l) -> Forall (fun y => x < y) l.
Proof.
  destruct l as [|b l]; intros Hd H; [constructor|].
  inversion H; subst. constructor; [assumption|].
  pose proof (ascending_bound _ _ Hd) as Hb.
  eapply Forall_impl; [exact Hb|]. simpl. intros y Hy. lia.
Qed.

(** A list that is not empty has a last element. *)
Lemma last_cons_some {A} (k : A) (l : list A) : exists t, last (k :: l) = Some t.
Proof.
  revert k. induction l as [|a l IH]; intros k; [eexists; reflexivity|].
  destruct (IH a) as [t Ht]. exists t. exact Ht.
Qed.

Lemma along_cons {N A} (f : N -> A) (pool : list N) (j : nat) (l : list nat) :
  along f pool (j :: l) =
  match pool !! j with
  | Some n => f n :: along f pool l
  | None => along f pool l
  end.
Proof. unfold along. simpl. destruct (pool !! j); reflexivity. Qed.

Lemma along_app {N A} (f : N -> A) (pool : list N) (l1 l2 : list nat) :
  along f pool (l1 ++ l2) = along f pool l1 ++ along f pool l2.
Proof.
  induction l1 as [|j l1 IH]; [reflexivity|].
  change ((j :: l1) ++ l2) with (j :: (l1 ++ l2)). rewrite !along_cons, IH.
  destruct (pool !! j); reflexivity.
Qed.

Lemma along_ext {N A} (f : N -> A) (pool pool' : list N) (l : list nat) :
  (forall j, In j l -> f <$> pool' !! j = f <$> pool !! j) ->
  along f pool' l = along f pool l.
Proof.
  induction l as [|j l IH]; intros H; [reflexivity|].
  rewrite !along_cons.
  pose proof (H j (or_introl eq_refl)) as Hj.
  rewrite IH by (intros k Hk; apply H; right; exact Hk).
  destruct (pool' !! j), (pool !! j); simpl in Hj; congruence.
Qed.

Lemma along_insert_fresh {N A} (f : N -> A) (pool : list N) (i : nat) (x : N)
    (l : list nat) :
  ~ In i l -> along f (<[i := x]> pool) l = along f pool l.
Proof.
  intros Hni. apply along_ext. intros j Hj.
  rewrite list_lookup_insert_ne; [reflexivity|]. intros ->. contradiction.
Qed.

(** The values along a list into which slot [i] was linked. *)
Lemma along_inserted {N A} (f : N -> A) (pool pool' : list N) (l1 l2 : list nat)
    (i : nat) (x : N) :
  pool' !! i = Some x ->
  (forall j, In j (l1 ++ l2) -> f <$> pool' !! j = f <$> pool !! j) ->
  along f pool' (l1 ++ i :: l2) = along f pool l1 ++ f x :: along f pool l2.
Proof.
  intros Hi Hsame. rewrite along_app, along_cons, Hi.
  rewrite (along_ext f pool pool' l1)
    by (intros j Hj; apply Hsame, in_or_app; left; exact Hj).
  rewrite (along_ext f pool pool' l2)
    by (intros j Hj; apply Hsame, in_or_app; right; exact Hj).
  reflexivity.
Qed.

End LinksFacts.

(** ** Priority: the ordered ready list *)

Module PrioMore.
Import Links LinksFacts Prio PrioFacts.

#[local] Arguments wrap32 : simpl never.

(** Facts on descending lists. *)
Lemma descending_cons (a : Z) (l : list Z) :
  descending (a :: l) <-> Forall (fun x => a >= x) (firstn 1 l) /\ descending l.
Proof.
  destruct l as [|b l]; simpl.
  - split; [intros _; split; [constructor | exact I] | intros _; exact I].
  - split.
    + intros [H1 H2]. split; [constructor; [exact H1 | constructor] | exact H2].
    + intros [H1 H2]. inversion H1; subst. split; assumption.
Qed.

Lemma descending_tail (a : Z) (l : list Z) : descending (a :: l) -> descending l.
Proof. intros H. apply descending_cons in H. apply H. Qed.

Lemma descending_bound (a : Z) (l : list Z) :
  descending (a :: l) -> Forall (fun x => a >= x) l.
Proof.
  revert a. induction l as [|b l IH]; intros a H; [constructor|].
  destruct H as [Hab H]. constructor; [exact Hab|].
  specialize (IH b H). eapply Forall_impl; [exact IH|]. simpl. intros x Hx. lia.
Qed.

Lemma descending_app_r (l1 l2 : list Z) : descending (l1 ++ l2) -> descending l2.
Proof.
  induction l1 as [|a l1 IH]; intros H; [exact H|].
  apply IH. eapply descending_tail. exact H.
Qed.

(** Putting [x] behind the values that are at least [x] and before the
    smaller ones keeps the order. *)
Lemma descending_insert (x : Z) (l1 l2 : list Z) :
  descending (l1 ++ l2) ->
  Forall (fun y => y >= x) l1 ->
  Forall (fun y => y < x) (firstn 1 l2) ->
  descending (l1 ++ x :: l2).
Proof.
  induction l1 as [|a l1 IH]; intros Hd H1 H2.
  - simpl in *. destruct l2 as [|b l2]; [exact I|].
    inversion H2; subst. split; [lia | exact Hd].
  - inversion H1 as [|? ? Ha H1']; subst.
    specialize (IH (descending_tail _ _ Hd) H1' H2).
    destruct l1 as [|b l1]; simpl in *.
    + split; [exact Ha | exact IH].
    + split; [apply Hd | exact IH].
Qed.

Lemma descending_below (x : Z) (l : list Z) :
  descending l -> Forall (fun y => y < x) (firstn 1 l) -> Forall (fun y => y < x) l.
Proof.
  destruct l as [|b l]; intros Hd H; [constructor|].
  inversion H; subst. constructor; [assumption|].
  pose proof (descending_bound _ _ Hd) as Hb.
  eapply Forall_impl; [exact Hb|]. simpl. intros y Hy. lia.
Qed.

(** The walk of [priority_insert_ordered]: it goes past the nodes whose
    priority is at least the new one and stops before the first smaller
    one, or at the end. *)
Lemma insert_walk (s : state) (priority : Z) :
  forall l fuel pv cur,
    linked next (prio_node_pool s) cur l ->
    (length l < fuel)%nat ->
    exists l1 l2 pv' cur',
      loop fuel (fun '(pv, cur) =>
          match cur with
          | None => ret (inr (pv, cur))
          | Some c =>
              cn <- rd c ;;
              if current_priority cn >=? priority
              then ret (inl (Some c, next cn))
              else ret (inr (pv, cur))
          end) (pv, cur) s = Some ((pv', cur'), s) /\
      l = l1 ++ l2 /\
      seg next (prio_node_pool s) cur l1 cur' /\
      linked next (prio_node_pool s) cur' l2 /\
      pv' = match last l1 with Some t => Some t | None => pv end /\
      Forall (fun y => y >= priority) (along current_priority (prio_node_pool s) l1) /\
      Forall (fun y => y < priority)
             (firstn 1 (along current_priority (prio_node_pool s) l2)).
Proof.
  induction l as [|i l IH]; intros fuel pv cur Hl Hfuel.
  - unfold linked in Hl. simpl in Hl. subst cur.
    destruct fuel as [|f]; [simpl in Hfuel; lia|].
    exists [], [], pv, None. simpl.
    repeat split; constructor.
  - destruct Hl as [-> (n & Hn & Hl)].
    destruct fuel as [|f]; [simpl in Hfuel; lia|].
    rewrite loop_S. unfold bind at 1. unfold bind at 1, rd at 1. rewrite Hn.
    destruct (Z.geb_spec (current_priority n) priority) as [Hge|Hlt].
    + unfold ret at 1. cbv beta iota.
      destruct (IH f (Some i) (next n) Hl) as (l1 & l2 & pv' & cur' & Hrun & -> & Hs & Hl2 & Hpv & H1 & H2);
        [simpl in Hfuel; lia|].
      exists (i :: l1), l2, pv', cur'.
      split; [exact Hrun|]. split; [reflexivity|].
      split; [split; [reflexivity|]; exists n; split; assumption|].
      split; [exact Hl2|].
      split.
      { rewrite Hpv. destruct l1 as [|k l1']; [reflexivity|].
        change (last (i :: k :: l1')) with (last (k :: l1')).
        destruct (last_cons_some k l1') as [t ->]. reflexivity. }
      split; [|exact H2].
      rewrite along_cons, Hn. constructor; [lia | exact H1].
    + exists [], (i :: l), pv, (Some i).
      split; [reflexivity|]. split; [reflexivity|].
      split; [reflexivity|].
      split; [split; [reflexivity|]; exists n; split; assumption|].
      split; [reflexivity|]. split; [constructor|].
      rewrite along_cons, Hn. simpl. constructor; [lia | constructor].
Qed.

Lemma prio_find_none (s : state) (p : Z) :
  forall l fuel,
    linked next (prio_node_pool s) (prio_queue s) l ->
    (forall j n, In j l -> prio_node_pool s !! j = Some n -> pid n <> p) ->
    (length l < fuel)%nat ->
    prio_find_node fuel p s = Some (None, s).
Proof.
  intros l fuel. unfold prio_find_node, bind at 1, gets at 1.
  generalize (prio_queue s) as q. revert fuel.
  induction l as [|i l IH]; intros fuel q Hl Hp Hfuel.
  - unfold linked in Hl. simpl in Hl. subst q.
    destruct fuel; [simpl in Hfuel; lia|]. reflexivity.
  - destruct Hl as [-> (n & Hn & Hl)].
    destruct fuel as [|f]; [simpl in Hfuel; lia|].
    rewrite loop_S. unfold bind at 1. unfold bind at 1, rd at 1. rewrite Hn.
    destruct (Z.eqb_spec (pid n) p) as [Heq|_].
    + exfalso. eapply Hp; [left; reflexivity | exact Hn | exact Heq].
    + unfold ret at 1. apply IH; [exact Hl | | simpl in Hfuel; lia].
      intros j m Hj. apply Hp. right. exact Hj.
Qed.

Lemma descending_remove (x : Z) (l1 l2 : list Z) :
  descending (l1 ++ x :: l2) -> descending (l1 ++ l2).
Proof.
  induction l1 as [|a l1 IH]; intros H.
  - exact (descending_tail _ _ H).
  - pose proof (descending_bound _ _ H) as Hb.
    specialize (IH (descending_tail _ _ H)).
    change ((a :: l1) ++ l2) with (a :: (l1 ++ l2)).
    apply descending_cons. split; [|exact IH].
    destruct l1 as [|b l1]; simpl in *.
    + destruct l2 as [|c l2]; simpl; [constructor|].
      inversion Hb as [|? ? _ Hb']; subst. inversion Hb'; subst.
      constructor; [assumption | constructor].
    + inversion Hb; subst. constructor; [assumption | constructor].
Qed.

(** The walk of [priority_dequeue]: it goes past the nodes that do not
    carry [p] and stops at the first that does, or at the end. *)
Lemma dequeue_walk (s : state) (p : Z) :
  forall l fuel pv cur,
    linked next (prio_node_pool s) cur l ->
    (length l < fuel)%nat ->
    exists l1 l2 pv' cur',
      loop fuel (fun '(pv, cur) =>
          match cur with
          | None => ret (inr (pv, cur))
          | Some c =>
              cn <- rd c ;;
              if negb (pid cn =? p)
              then ret (inl (Some c, next cn))
              else ret (inr (pv, cur))
          end) (pv, cur) s = Some ((pv', cur'), s) /\
      l = l1 ++ l2 /\
      seg next (prio_node_pool s) cur l1 cur' /\
      linked next (prio_node_pool s) cur' l2 /\
      pv' = match last l1 with Some t => Some t | None => pv end /\
      (forall j n, In j l1 -> prio_node_pool s !! j = Some n -> pid n <> p) /\
      (forall c n, hd_error l2 = Some c -> prio_node_pool s !! c = Some n -> pid n = p).
Proof.
  induction l as [|i l IH]; intros fuel pv cur Hl Hfuel.
  - unfold linked in Hl. simpl in Hl. subst cur.
    destruct fuel as [|f]; [simpl in Hfuel; lia|].
    exists [], [], pv, None.
    split; [reflexivity|]. split; [reflexivity|]. split; [reflexivity|].
    split; [reflexivity|]. split; [reflexivity|]. split; [intros ? ? []|].
    intros c n Hc. discriminate Hc.
  - destruct Hl as [-> (n & Hn & Hl)].
    destruct fuel as [|f]; [simpl in Hfuel; lia|].
    rewrite loop_S. unfold bind at 1. unfold bind at 1, rd at 1. rewrite Hn.
    destruct (Z.eqb_spec (pid n) p) as [Heq|Hne]; cbn [negb].
    + exists [], (i :: l), pv, (Some i).
      split; [reflexivity|]. split; [reflexivity|].
      split; [reflexivity|].
      split; [split; [reflexivity|]; exists n; split; assumption|].
      split; [reflexivity|]. split; [intros ? ? []|].
      intros c m Hc Hm. simpl in Hc. injection Hc as <-. congruence.
    + unfold ret at 1. cbv beta iota.
      destruct (IH f (Some i) (next n) Hl)
        as (l1 & l2 & pv' & cur' & Hrun & -> & Hs & Hl2 & Hpv & H1 & H2);
        [simpl in Hfuel; lia|].
      exists (i :: l1), l2, pv', cur'.
      split; [exact Hrun|]. split; [reflexivity|].
      split; [split; [reflexivity|]; exists n; split; assumption|].
      split; [exact Hl2|].
      split.
      { rewrite Hpv. destruct l1 as [|k l1']; [reflexivity|].
        change (last (i :: k :: l1')) with (last (k :: l1')).
        destruct (last_cons_some k l1') as [t ->]. reflexivity. }
      split; [|exact H2].
      intros j m [<-|Hj] Hm; [congruence | exact (H1 j m Hj Hm)].
Qed.

Section WithConfig.
Variable cfg : config.

(** [priority_dequeue] on a ready list: when no node carries the pid
    nothing changes; otherwise the first node that carries it is unlinked
    and put at the head of the free list, the count drops by one, the
    other nodes keep their order, pids and priorities, and a sorted list
    stays sorted. *)
Theorem priority_dequeue_removes (fuel : nat) (s : state) (l : list nat) (p : Z) :
  linked next (prio_node_pool s) (prio_queue s) l ->
  0 <= p < Z.of_nat (NPROC cfg) ->
  (length l < fuel)%nat ->
  exists s',
    priority_dequeue cfg fuel p s = Some (tt, s') /\
    ((s' = s /\
      forall j n, In j l -> prio_node_pool s !! j = Some n -> pid n <> p) \/
     (exists l1 c l2 n,
        l = l1 ++ c :: l2 /\
        prio_node_pool s !! c = Some n /\ pid n = p /\
        (forall j m, In j l1 -> prio_node_pool s !! j = Some m -> pid m <> p) /\
        linked next (prio_node_pool s') (prio_queue s') (l1 ++ l2) /\
        along pid (prio_node_pool s') (l1 ++ l2) =
          along pid (prio_node_pool s) (l1 ++ l2) /\
        along current_priority (prio_node_pool s') (l1 ++ l2) =
          along current_priority (prio_node_pool s) (l1 ++ l2) /\
        prio_free_nodes s' = Some c /\
        prio_queue_count s' = wrap32 (prio_queue_count s - 1) /\
        (descending (along current_priority (prio_node_pool s) l) ->
         descending (along current_priority (prio_node_pool s') (l1 ++ l2))))).
Proof.
  intros Hl Hrange Hfuel.
  destruct (dequeue_walk s p l fuel None (prio_queue s) Hl Hfuel)
    as (l1 & l2 & pv' & cur' & Hrun & -> & Hs & Hl2 & Hpv & H1 & H2).
  assert (Hnd : NoDup (l1 ++ l2)) by (eapply linked_nodup; exact Hl).
  unfold priority_dequeue.
  destruct (Z.ltb_spec p 0) as [?|_]; [lia|].
  destruct (Z.geb_spec p (Z.of_nat (NPROC cfg))) as [?|_]; [lia|].
  cbn [orb].
  cbv [bind gets modify ret rd upd upd_stats prio_node_free] in Hrun |- *.
  rewrite Hrun. clear Hrun. cbv beta iota.
  destruct l2 as [|c l2].
  { unfold linked in Hl2. simpl in Hl2. subst cur'.
    exists s. split; [reflexivity|]. left. split; [reflexivity|].
    rewrite app_nil_r. exact H1. }
  destruct Hl2 as [-> (n & Hn & Hl2)].
  specialize (H2 c n eq_refl Hn).
  assert (Hclen : (c < length (prio_node_pool s))%nat) by (eapply lookup_lt_Some; exact Hn).
  assert (Hc2 : ~ In c l2) by (eapply linked_not_in; eassumption).
  assert (Hc1 : ~ In c l1).
  { intros H. pose proof (proj1 (NoDup_app l1 (c :: l2)) Hnd) as (_ & Hd' & _).
    apply (Hd' c); [apply list_elem_of_In; exact H | left]. }
  assert (Hrem : forall a1 a2 : list Z, True) by (intros; exact I).
  destruct s as [hd pool fr cnt ae ai ac st tk ev].
  simpl in Hl, Hs, Hn, Hl2, H1, Hclen |- *.
  assert (Hfinal : forall pool' q,
            (forall j, In j (l1 ++ l2) -> pid <$> pool' !! j = pid <$> pool !! j) ->
            (forall j, In j (l1 ++ l2) ->
                       current_priority <$> pool' !! j = current_priority <$> pool !! j) ->
            linked next pool' q (l1 ++ l2) ->
            linked next pool' q (l1 ++ l2) /\
            along pid pool' (l1 ++ l2) = along pid pool (l1 ++ l2) /\
            along current_priority pool' (l1 ++ l2) =
              along current_priority pool (l1 ++ l2) /\
            Some c = Some c /\
            wrap32 (cnt - 1) = wrap32 (cnt - 1) /\
            (descending (along current_priority pool (l1 ++ c :: l2)) ->
             descending (along current_priority pool' (l1 ++ l2)))).
  { intros pool' q Hpid Hcp Hlk.
    split; [exact Hlk|].
    split; [apply along_ext; exact Hpid|].
    pose proof (along_ext current_priority pool pool' (l1 ++ l2) Hcp) as Hal.
    split; [exact Hal|]. split; [reflexivity|]. split; [reflexivity|].
    intros Hd. rewrite Hal. rewrite along_app, along_cons, Hn in Hd.
    rewrite along_app. eapply descending_remove. exact Hd. }
  assert (Hsplit : l1 = [] \/ exists l1' t, l1 = l1' ++ [t]).
  { destruct l1 as [|k l1']; [left; reflexivity|]. right.
    destruct (exists_last (l := k :: l1') ltac:(discriminate)) as (l0 & t & ->). eauto. }
  destruct Hsplit as [->|(l1' & t & ->)].
  - simpl in Hpv. subst pv'. simpl in Hs. subst hd.
    eexists. split; [repeat first [ rewrite Hn | progress pnorm ]; reflexivity|]. right.
    exists [], c, l2, n. split; [reflexivity|]. split; [exact Hn|].
    split; [exact H2|]. split; [exact H1|].
    apply Hfinal; simpl.
    + intros j Hj. rewrite list_lookup_insert_ne; [reflexivity|]. intros ->. contradiction.
    + intros j Hj. rewrite list_lookup_insert_ne; [reflexivity|]. intros ->. contradiction.
    + apply seg_insert_fresh; assumption.
  - rewrite last_snoc in Hpv. subst pv'.
    apply seg_app in Hs. destruct Hs as (m & Hs & Ht).
    destruct Ht as [-> (tn & Htn & Hcur)]. simpl in Hcur.
    assert (Htc : t <> c).
    { intros ->. apply Hc1, in_or_app. right. left. reflexivity. }
    assert (Htlen : (t < length pool)%nat) by (eapply lookup_lt_Some; exact Htn).
    assert (Hnt1 : ~ In t l1').
    { intros H. rewrite <- app_assoc in Hnd.
      pose proof (proj1 (NoDup_app l1' ([t] ++ c :: l2)) Hnd) as (_ & Hd' & _).
      apply (Hd' t); [apply list_elem_of_In; exact H | left]. }
    assert (Hnt2 : ~ In t l2).
    { intros H.
      pose proof (proj1 (NoDup_app (l1' ++ [t]) (c :: l2)) Hnd) as (_ & Hd' & _).
      apply (Hd' t).
      - apply list_elem_of_In, in_or_app. right. left. reflexivity.
      - right. apply list_elem_of_In. exact H. }
    eexists. split.
    { repeat first
        [ rewrite Hn | rewrite Htn
        | rewrite list_lookup_insert_ne by congruence
        | rewrite list_lookup_insert_eq by (rewrite ?length_insert; assumption)
        | progress pnorm ].
      reflexivity. }
    right.
    exists (l1' ++ [t]), c, l2, n. split; [reflexivity|]. split; [exact Hn|].
    split; [exact H2|]. split; [exact H1|].
    apply Hfinal; simpl.
    + intros j Hj. assert (j <> c) by (intros ->; apply in_app_or in Hj; tauto).
      rewrite list_lookup_insert_ne by congruence.
      destruct (decide (j = t)) as [->|Hjt].
      * rewrite list_lookup_insert_eq by exact Htlen. rewrite Htn. reflexivity.
      * rewrite list_lookup_insert_ne by congruence. reflexivity.
    + intros j Hj. assert (j <> c) by (intros ->; apply in_app_or in Hj; tauto).
      rewrite list_lookup_insert_ne by congruence.
      destruct (decide (j = t)) as [->|Hjt].
      * rewrite list_lookup_insert_eq by exact Htlen. rewrite Htn. reflexivity.
      * rewrite list_lookup_insert_ne by congruence. reflexivity.
    + unfold linked. apply seg_app. exists (next n). split.
      * apply seg_insert_fresh; [exact Hc1|].
        apply seg_snoc with (n := set_next (next n) tn).
        -- apply seg_insert_fresh; [exact Hnt1 | exact Hs].
        -- apply list_lookup_insert_eq. exact Htlen.
        -- reflexivity.
      * apply seg_insert_fresh; [exact Hc2|].
        apply seg_insert_fresh; [exact Hnt2 | exact Hl2].
Qed.

(** [priority_enqueue] of a process that is not queued, on a sorted ready
    list with a free node left: the new node is linked in behind every
    queued process of the same or a higher priority and before every one
    of a lower priority (first come, first served among equals); the
    other nodes keep their order, pids and priorities, and the list stays
    sorted. *)
Theorem priority_enqueue_sorted (fuel : nat) (s : state) (l : list nat) (p : Z)
    (i : nat) (e0 : prio_node) (pr : Env.proc_t) :
  linked next (prio_node_pool s) (prio_queue s) l ->
  descending (along current_priority (prio_node_pool s) l) ->
  (forall j n, In j l -> prio_node_pool s !! j = Some n -> pid n <> p) ->
  prio_free_nodes s = Some i ->
  prio_node_pool s !! i = Some e0 ->
  ~ In i l ->
  0 <= p < Z.of_nat (NPROC cfg) ->
  Env.proctab (env s) !! Z.to_nat p = Some pr ->
  (length l < fuel)%nat ->
  exists s' l1 l2,
    priority_enqueue cfg fuel p s = Some (tt, s') /\
    l = l1 ++ l2 /\
    linked next (prio_node_pool s') (prio_queue s') (l1 ++ i :: l2) /\
    along pid (prio_node_pool s') (l1 ++ i :: l2) =
      along pid (prio_node_pool s) l1 ++ p :: along pid (prio_node_pool s) l2 /\
    along current_priority (prio_node_pool s') (l1 ++ i :: l2) =
      along current_priority (prio_node_pool s) l1 ++ Env.pprio pr ::
      along current_priority (prio_node_pool s) l2 /\
    Forall (fun y => y >= Env.pprio pr) (along current_priority (prio_node_pool s) l1) /\
    Forall (fun y => y < Env.pprio pr) (along current_priority (prio_node_pool s) l2) /\
    descending (along current_priority (prio_node_pool s') (l1 ++ i :: l2)).
Proof.
  intros Hl Hd Hp Hfree He0 Hni Hrange Hproc Hfuel.
  assert (Hfind := prio_find_none s p l fuel Hl Hp Hfuel).
  unfold priority_enqueue.
  destruct (Z.ltb_spec p 0) as [?|_]; [lia|].
  destruct (Z.geb_spec p (Z.of_nat (NPROC cfg))) as [?|_]; [lia|].
  cbn [orb]. unfold bind at 1. rewrite Hfind. cbn [is_null negb].
  clear Hfind.
  assert (Hilen : (i < length (prio_node_pool s))%nat) by (eapply lookup_lt_Some; exact He0).
  destruct s as [hd pool fr cnt ae ai ac st tk ev].
  simpl in Hl, Hd, Hp, Hfree, He0, Hproc, Hilen. subst fr.
  set (NI0 := mk_node p (Env.pprio pr) (Env.pprio pr) 0 tk 0 false None).
  set (S1 := mk_state hd (<[i := NI0]> pool) (next e0) cnt ae ai ac st tk ev).
  assert (Hl1 : linked next (prio_node_pool S1) hd l).
  { simpl. apply seg_insert_fresh; assumption. }
  destruct (insert_walk S1 (Env.pprio pr) l fuel None hd Hl1 Hfuel)
    as (l1 & l2 & pv' & cur' & Hrun & -> & Hs & Hl2 & Hpv & H1 & H2).
  unfold priority_insert_ordered, prio_node_alloc.
  cbv [bind gets modify ret rd upd in_env zoom Env.rd_proc upd_stats] in Hrun |- *.
  destruct (Z.ltb_spec p 0) as [?|_]; [lia|].
  repeat first
    [ rewrite He0
    | rewrite Hproc
    | rewrite list_lookup_insert_eq by (rewrite ?length_insert; exact Hilen)
    | rewrite list_insert_insert_eq
    | progress pnorm ].
  unfold S1, NI0 in Hrun. simpl in Hrun.
  rewrite Hrun. clear Hrun.
  repeat first
    [ rewrite list_lookup_insert_eq by (rewrite ?length_insert; exact Hilen)
    | rewrite list_insert_insert_eq
    | progress pnorm ].
  set (NI := mk_node p (Env.pprio pr) (Env.pprio pr) 0 tk 0 false cur').
  assert (Hnd : NoDup (l1 ++ l2)) by (eapply linked_nodup; exact Hl).
  assert (Hni1 : ~ In i l1) by (intros H; apply Hni, in_or_app; left; exact H).
  assert (Hni2 : ~ In i l2) by (intros H; apply Hni, in_or_app; right; exact H).
  simpl in Hs, Hl2, H1, H2.
  apply seg_insert_fresh_inv in Hs; [|exact Hni1].
  unfold linked in Hl2. apply seg_insert_fresh_inv in Hl2; [|exact Hni2].
  rewrite along_insert_fresh in H1 by exact Hni1.
  rewrite along_insert_fresh in H2 by exact Hni2.
  rewrite along_app in Hd.
  assert (H2all : Forall (fun y => y < Env.pprio pr) (along current_priority pool l2)).
  { apply descending_below; [eapply descending_app_r; exact Hd | exact H2]. }
  assert (Hfinal : forall pool' q,
            pool' !! i = Some NI ->
            (forall j, In j (l1 ++ l2) -> pid <$> pool' !! j = pid <$> pool !! j) ->
            (forall j, In j (l1 ++ l2) ->
                       current_priority <$> pool' !! j = current_priority <$> pool !! j) ->
            linked next pool' q (l1 ++ i :: l2) ->
            linked next pool' q (l1 ++ i :: l2) /\
            along pid pool' (l1 ++ i :: l2) = along pid pool l1 ++ p :: along pid pool l2 /\
            along current_priority pool' (l1 ++ i :: l2) =
              along current_priority pool l1 ++ Env.pprio pr ::
              along current_priority pool l2 /\
            Forall (fun y => y >= Env.pprio pr) (along current_priority pool l1) /\
            Forall (fun y => y < Env.pprio pr) (along current_priority pool l2) /\
            descending (along current_priority pool' (l1 ++ i :: l2))).
  { intros pool' q Hi Hpid Hcp Hlk.
    split; [exact Hlk|].
    split; [exact (along_inserted pid pool pool' l1 l2 i NI Hi Hpid)|].
    pose proof (along_inserted current_priority pool pool' l1 l2 i NI Hi Hcp) as Hal.
    split; [exact Hal|]. split; [exact H1|]. split; [exact H2all|].
    rewrite Hal. apply descending_insert; assumption. }
  assert (Hsplit : l1 = [] \/ exists l1' t, l1 = l1' ++ [t]).
  { destruct l1 as [|k l1']; [left; reflexivity|]. right.
    destruct (exists_last (l := k :: l1') ltac:(discriminate)) as (l0 & t & ->). eauto. }
  destruct Hsplit as [->|(l1' & t & ->)].
  - simpl in Hpv. subst pv'. simpl in Hs. subst cur'. pnorm.
    eexists _, [], l2. split; [reflexivity|]. split; [reflexivity|].
    apply Hfinal; simpl.
    + apply list_lookup_insert_eq. exact Hilen.
    + intros j Hj. rewrite list_lookup_insert_ne; [reflexivity|]. intros ->. contradiction.
    + intros j Hj. rewrite list_lookup_insert_ne; [reflexivity|]. intros ->. contradiction.
    + split; [reflexivity|]. exists NI.
      split; [apply list_lookup_insert_eq; exact Hilen|].
      apply seg_insert_fresh; assumption.
  - rewrite last_snoc in Hpv. subst pv'.
    apply seg_app in Hs. destruct Hs as (m & Hs & Ht).
    destruct Ht as [-> (tn & Htn & Hcur)]. simpl in Hcur.
    assert (Hti : t <> i).
    { intros ->. apply Hni1, in_or_app. right. left. reflexivity. }
    assert (Htlen : (t < length pool)%nat) by (eapply lookup_lt_Some; exact Htn).
    cbv beta iota. simpl prio_node_pool.
    rewrite list_lookup_insert_ne by congruence. rewrite Htn. pnorm.
    eexists _, (l1' ++ [t]), l2. split; [reflexivity|]. split; [reflexivity|].
    assert (Hnt1 : ~ In t l1').
    { intros H. rewrite <- app_assoc in Hnd.
      pose proof (proj1 (NoDup_app l1' ([t] ++ l2)) Hnd) as (_ & Hd' & _). apply (Hd' t).
      - apply list_elem_of_In. exact H.
      - left. }
    assert (Hnt2 : ~ In t l2).
    { intros H.
      pose proof (proj1 (NoDup_app (l1' ++ [t]) l2) Hnd) as (_ & Hd' & _). apply (Hd' t).
      - apply list_elem_of_In, in_or_app. right. left. reflexivity.
      - apply list_elem_of_In. exact H. }
    apply Hfinal; simpl.
    + rewrite list_lookup_insert_ne by congruence.
      apply list_lookup_insert_eq. exact Hilen.
    + intros j Hj. destruct (decide (j = t)) as [->|Hjt].
      * rewrite list_lookup_insert_eq by (rewrite length_insert; exact Htlen).
        rewrite Htn. reflexivity.
      * rewrite !list_lookup_insert_ne; [reflexivity | | congruence].
        intros ->. contradiction.
    + intros j Hj. destruct (decide (j = t)) as [->|Hjt].
      * rewrite list_lookup_insert_eq by (rewrite length_insert; exact Htlen).
        rewrite Htn. reflexivity.
      * rewrite !list_lookup_insert_ne; [reflexivity | | congruence].
        intros ->. contradiction.
    + unfold linked. rewrite <- app_assoc. apply seg_app. exists (Some t). split.
      * apply seg_insert_fresh; [exact Hnt1|].
        apply seg_insert_fresh; [|exact Hs].
        intros H. apply Hni1, in_or_app. left. exact H.
      * split; [reflexivity|]. eexists. split.
        { apply list_lookup_insert_eq. rewrite length_insert. exact Htlen. }
        simpl. split; [reflexivity|]. exists NI. split.
        { rewrite list_lookup_insert_ne by congruence.
          apply list_lookup_insert_eq. exact Hilen. }
        simpl. rewrite <- Hcur.
        apply seg_insert_fresh; [exact Hnt2|].
        apply seg_insert_fresh; [exact Hni2|]. rewrite Hcur. exact Hl2.
Qed.

(** [priority_pick_next] changes nothing; it returns -1 on an empty
    list, and on a sorted list the pid at the head, whose priority is at
    least that of every other queued process. *)
Theorem priority_pick_next_highest (s : state) (l : list nat) :
  linked next (prio_node_pool s) (prio_queue s) l ->
  descending (along current_priority (prio_node_pool s) l) ->
  exists r,
    priority_pick_next s = Some (r, s) /\
    match l with
    | [] => r = -1
    | i :: l' =>
        exists n, prio_node_pool s !! i = Some n /\ r = pid n /\
                  Forall (fun y => current_priority n >= y)
                         (along current_priority (prio_node_pool s) l')
    end.
Proof.
  intros Hl Hd. unfold priority_pick_next, bind, gets, rd, ret.
  destruct l as [|i l'].
  - unfold linked in Hl. simpl in Hl. rewrite Hl. exists (-1). split; reflexivity.
  - destruct Hl as [-> (n & Hn & Hl)].
    exists (pid n). split; [rewrite Hn; reflexivity|]. exists n.
    split; [exact Hn|]. split; [reflexivity|].
    rewrite along_cons, Hn in Hd. exact (descending_bound _ _ Hd).
Qed.

End WithConfig.

(** The ready list of [two_ready]: slot 1, then slot 0. *)
Lemma two_ready_linked :
  linked next (prio_node_pool two_ready) (prio_queue two_ready) [1%nat; 0%nat].
Proof. vm_compute. repeat first [reflexivity | eexists | split]. Qed.

Lemma two_ready_descending :
  descending (along current_priority (prio_node_pool two_ready) [1%nat; 0%nat]).
Proof. vm_compute. split; [discriminate | exact I]. Qed.

(** Process 3 (priority 0) joins the two, in slot 2. *)
Lemma priority_enqueue_sorted_witness :
  exists s' l1 l2,
    priority_enqueue sample_config 8 3 two_ready = Some (tt, s') /\
    [1%nat; 0%nat] = l1 ++ l2 /\
    linked next (prio_node_pool s') (prio_queue s') (l1 ++ 2%nat :: l2) /\
    descending (along current_priority (prio_node_pool s') (l1 ++ 2%nat :: l2)).
Proof.
  destruct (prio_node_pool two_ready !! 2%nat) as [e0|] eqn:E0;
    [|vm_compute in E0; discriminate E0].
  destruct (priority_enqueue_sorted sample_config 8 two_ready [1%nat; 0%nat] 3 2%nat e0
              (Env.mk_proc Env.PR_FREE 0))
    as (s' & l1 & l2 & Hrun & Hl & Hlk & _ & _ & _ & _ & Hd).
  - exact two_ready_linked.
  - exact two_ready_descending.
  - intros j n [<-|[<-|[]]] H0; vm_compute in H0; injection H0 as <-; vm_compute; discriminate.
  - reflexivity.
  - exact E0.
  - intros [H|[H|[]]]; discriminate H.
  - vm_compute. split; [discriminate | reflexivity].
  - reflexivity.
  - simpl. lia.
  - exists s', l1, l2. split; [exact Hrun|]. split; [exact Hl|]. split; [exact Hlk | exact Hd].
Defined.

(** Process 2 leaves. *)
Lemma priority_dequeue_removes_witness :
  exists s',
    priority_dequeue sample_config 8 2 two_ready = Some (tt, s') /\
    s' <> two_ready.
Proof.
  destruct (priority_dequeue_removes sample_config 8 two_ready [1%nat; 0%nat] 2)
    as (s' & Hrun & Hcase).
  - exact two_ready_linked.
  - vm_compute. split; [discriminate | reflexivity].
  - simpl. lia.
  - exists s'. split; [exact Hrun|].
    destruct Hcase as [[_ Hno]|(l1 & c & l2 & n & _ & _ & _ & _ & _ & _ & _ & _ & Hcnt & _)].
    + exfalso. apply (Hno 0%nat (mk_node 2 49 49 0 0 0 false None)).
      * right. left. reflexivity.
      * reflexivity.
      * reflexivity.
    + intros ->. vm_compute in Hcnt. discriminate Hcnt.
Defined.

(** Process 1 is picked. *)
Lemma priority_pick_next_highest_witness :
  exists r, priority_pick_next two_ready = Some (r, two_ready) /\ r = 1.
Proof.
  destruct (priority_pick_next_highest two_ready [1%nat; 0%nat])
    as (r & Hrun & n & Hn & -> & _).
  - exact two_ready_linked.
  - exact two_ready_descending.
  - exists (pid n). split; [exact Hrun|].
    vm_compute in Hn. injection Hn as <-. reflexivity.
Defined.

End PrioMore.

(** ** MLFQ: strict priority between the levels *)

Module MLFQMore.
Import MLFQ MLFQFacts.

Lemma rdq_run (s : state) (j : nat) (q : mlfq_queue) :
  mlfq_queues s !! j = Some q -> rdq (Z.of_nat j) s = Some (q, s).
Proof.
  intros H. unfold rdq, at_index.
  destruct (Z.ltb_spec (Z.of_nat j) 0); [lia|].
  rewrite Nat2Z.id, H. reflexivity.
Qed.

Lemma pick_from_found (s : state) (lvl : nat) (q : mlfq_queue) (h : nat) (n : mlfq_node) :
  mlfq_queues s !! lvl = Some q -> head q = Some h -> mlfq_node_pool s !! h = Some n ->
  forall levels i,
    (i <= lvl < i + levels)%nat ->
    (forall j, (i <= j < lvl)%nat ->
               exists qj, mlfq_queues s !! j = Some qj /\ head qj = None) ->
    pick_from levels i s = Some (pid n, s).
Proof.
  intros Hq Hh Hn. induction levels as [|r IH]; intros i Hi Hlow; [lia|].
  simpl. unfold bind at 1.
  destruct (decide (i = lvl)) as [->|Hne].
  - rewrite (rdq_run s lvl q Hq), Hh. unfold bind, rd. rewrite Hn. reflexivity.
  - destruct (Hlow i) as (qi & Hqi & Hhi); [lia|].
    rewrite (rdq_run s i qi Hqi), Hhi.
    apply IH; [lia|]. intros j Hj. apply Hlow. lia.
Qed.

Lemma pick_from_empty (s : state) :
  forall levels i,
    (forall j, (i <= j < i + levels)%nat ->
               exists qj, mlfq_queues s !! j = Some qj /\ head qj = None) ->
    pick_from levels i s = Some (-1, s).
Proof.
  induction levels as [|r IH]; intros i Hall; [reflexivity|].
  simpl. unfold bind at 1.
  destruct (Hall i) as (qi & Hqi & Hhi); [lia|].
  rewrite (rdq_run s i qi Hqi), Hhi.
  apply IH. intros j Hj. apply Hall. lia.
Qed.

(** [mlfq_pick_next] changes nothing and serves the levels in strict
    order: it returns the pid at the head of the first level that is not
    empty, whatever waits in the levels below it, and -1 when all eight
    levels are empty. *)
Theorem mlfq_pick_next_strict (s : state) :
  length (mlfq_queues s) = 8%nat ->
  (forall lvl q h n,
     mlfq_queues s !! lvl = Some q -> head q = Some h ->
     mlfq_node_pool s !! h = Some n ->
     (forall j qj, (j < lvl)%nat -> mlfq_queues s !! j = Some qj -> head qj = None) ->
     mlfq_pick_next s = Some (pid n, s)) /\
  ((forall j qj, mlfq_queues s !! j = Some qj -> head qj = None) ->
   mlfq_pick_next s = Some (-1, s)).
Proof.
  intros Hlen.
  assert (Hget : forall j, (j < 8)%nat -> exists qj, mlfq_queues s !! j = Some qj).
  { intros j Hj. apply lookup_lt_is_Some_2. rewrite Hlen. exact Hj. }
  split.
  - intros lvl q h n Hq Hh Hn Hlow. unfold mlfq_pick_next.
    assert (lvl < 8)%nat as Hl by (rewrite <- Hlen; eapply lookup_lt_Some; exact Hq).
    apply (pick_from_found s lvl q h n Hq Hh Hn); [lia|].
    intros j Hj. destruct (Hget j) as (qj & Hqj); [lia|].
    exists qj. split; [exact Hqj|]. apply (Hlow j qj); [lia | exact Hqj].
  - intros Hall. unfold mlfq_pick_next. apply pick_from_empty.
    intros j Hj. destruct (Hget j) as (qj & Hqj); [lia|].
    exists qj. split; [exact Hqj | exact (Hall j qj Hqj)].
Qed.

(** In [half_used] processes 1 and 2 wait at level 0: the head is picked. *)
Lemma mlfq_pick_next_strict_witness :
  exists r, mlfq_pick_next half_used = Some (r, half_used) /\ 0 <= r.
Proof.
  destruct (mlfq_queues half_used !! 0%nat) as [q|] eqn:Eq;
    [|vm_compute in Eq; discriminate Eq].
  destruct (head q) as [h|] eqn:Eh;
    [|vm_compute in Eq; injection Eq as <-; vm_compute in Eh; discriminate Eh].
  destruct (mlfq_node_pool half_used !! h) as [n|] eqn:En;
    [|vm_compute in Eq; injection Eq as <-; vm_compute in Eh; injection Eh as <-;
      vm_compute in En; discriminate En].
  exists (pid n). split.
  - apply (proj1 (mlfq_pick_next_strict half_used eq_refl) 0%nat q h n Eq Eh En).
    intros j qj Hj. lia.
  - vm_compute in Eq. injection Eq as <-. vm_compute in Eh. injection Eh as <-.
    vm_compute in En. injection En as <-. vm_compute. discriminate.
Defined.

(** The level at which [mlfq_enqueue] starts a process of priority [prio]. *)
Lemma start_level_range (prio : Z) :
  0 <= (if prio >=? 75 then 0 else if prio >=? 50 then 2
        else if prio >=? 25 then 4 else 6) < 8.
Proof.
  destruct (prio >=? 75); [lia|]. destruct (prio >=? 50); [lia|].
  destruct (prio >=? 25); lia.
Qed.

Section WithConfig.
Variable cfg : config.


End WithConfig.

(** [half_used] is closed. *)
Lemma half_used_closed : closed half_used.
Proof.
  unfold closed. simpl.
  repeat split; try reflexivity;
    repeat (constructor; [unfold ok_node, ok_queue, in_pool, MLFQ_NUM_LEVELS; simpl;
                          repeat split; lia|]);
    constructor.
Qed.


End MLFQMore.

(** ** Real-time: the ready queue under EDF *)

Module RTQueue.
Import Links LinksFacts RT.

(** The walk of [insert_ready] under EDF: it goes past the tasks whose
    deadline is not later than the new one and stops before the first
    later one, or at the end. *)
Lemma insert_ready_walk (s : rt_state) (i : nat) (t : rt_task) :
  current_algo s = RT_ALGO_EDF ->
  task_pool s !! i = Some t ->
  forall l fuel pv cur,
    linked next (task_pool s) cur l ->
    (length l < fuel)%nat ->
    exists l1 l2 pv' cur',
      loop fuel (fun '(pv, cur) =>
          match cur with
          | None => ret (inr (pv, cur))
          | Some c =>
              algo <- gets current_algo ;;
              t <- rd i ;;
              ct <- rd c ;;
              if insert_here algo t ct
              then ret (inr (pv, cur))
              else ret (inl (Some c, next ct))
          end) (pv, cur) s = Some ((pv', cur'), s) /\
      l = l1 ++ l2 /\
      seg next (task_pool s) cur l1 cur' /\
      linked next (task_pool s) cur' l2 /\
      pv' = match last l1 with Some x => Some x | None => pv end /\
      Forall (fun y => y <= absolute_deadline t)
             (along absolute_deadline (task_pool s) l1) /\
      Forall (fun y => absolute_deadline t < y)
             (firstn 1 (along absolute_deadline (task_pool s) l2)).
Proof.
  intros Halgo Ht.
  induction l as [|c l IH]; intros fuel pv cur Hl Hfuel.
  - unfold linked in Hl. simpl in Hl. subst cur.
    destruct fuel as [|f]; [simpl in Hfuel; lia|].
    exists [], [], pv, None. simpl.
    repeat split; constructor.
  - destruct Hl as [-> (n & Hn & Hl)].
    destruct fuel as [|f]; [simpl in Hfuel; lia|].
    rewrite loop_S. unfold bind at 1.
    unfold bind at 1, gets at 1. rewrite Halgo.
    unfold bind at 1, rd at 1. rewrite Ht.
    unfold bind at 1, rd at 1. rewrite Hn.
    unfold insert_here.
    destruct (Z.ltb_spec (absolute_deadline t) (absolute_deadline n)) as [Hlt|Hge].
    + exists [], (c :: l), pv, (Some c).
      split; [reflexivity|]. split; [reflexivity|].
      split; [reflexivity|].
      split; [split; [reflexivity|]; exists n; split; assumption|].
      split; [reflexivity|]. split; [constructor|].
      rewrite along_cons, Hn. simpl. constructor; [lia | constructor].
    + unfold ret at 1. cbv beta iota.
      destruct (IH f (Some c) (next n) Hl)
        as (l1 & l2 & pv' & cur' & Hrun & -> & Hs & Hl2 & Hpv & H1 & H2);
        [simpl in Hfuel; lia|].
      exists (c :: l1), l2, pv', cur'.
      split; [exact Hrun|]. split; [reflexivity|].
      split; [split; [reflexivity|]; exists n; split; assumption|].
      split; [exact Hl2|].
      split.
      { rewrite Hpv. destruct l1 as [|k l1']; [reflexivity|].
        change (last (c :: k :: l1')) with (last (k :: l1')).
        destruct (last_cons_some k l1') as [x ->]. reflexivity. }
      split; [|exact H2].
      rewrite along_cons, Hn. constructor; [lia | exact H1].
Qed.

#[local] Arguments wrap32 : simpl never.

(** Put states into constructor form. *)
Ltac rnorm :=
  cbv beta delta
    [set_task_pool set_free_tasks set_ready_queue set_current_task set_task_count
     set_current_algo set_system_time set_stats set_all_tasks set_ctx_log];
  simpl.

(** Under EDF, [insert_ready] on a ready queue in deadline order links
    the task in behind every queued task whose deadline is not later and
    before every one whose deadline is later (first come, first served
    among equal deadlines); the task becomes READY, the other tasks keep
    their order, pids and deadlines, and the queue stays in deadline
    order. *)
Theorem insert_ready_edf (fuel : nat) (s : rt_state) (l : list nat) (i : nat)
    (t0 : rt_task) :
  current_algo s = RT_ALGO_EDF ->
  linked next (task_pool s) (ready_queue s) l ->
  ascending (along absolute_deadline (task_pool s) l) ->
  task_pool s !! i = Some t0 ->
  ~ In i l ->
  (length l < fuel)%nat ->
  exists s' l1 l2 t',
    insert_ready fuel (Some i) s = Some (tt, s') /\
    l = l1 ++ l2 /\
    linked next (task_pool s') (ready_queue s') (l1 ++ i :: l2) /\
    task_pool s' !! i = Some t' /\
    state t' = RT_STATE_READY /\ pid t' = pid t0 /\
    along pid (task_pool s') (l1 ++ i :: l2) =
      along pid (task_pool s) l1 ++ pid t0 :: along pid (task_pool s) l2 /\
    along absolute_deadline (task_pool s') (l1 ++ i :: l2) =
      along absolute_deadline (task_pool s) l1 ++ absolute_deadline t0 ::
      along absolute_deadline (task_pool s) l2 /\
    Forall (fun y => y <= absolute_deadline t0)
           (along absolute_deadline (task_pool s) l1) /\
    Forall (fun y => absolute_deadline t0 < y)
           (along absolute_deadline (task_pool s) l2) /\
    ascending (along absolute_deadline (task_pool s') (l1 ++ i :: l2)).
Proof.
  intros Halgo Hl Hd Ht0 Hni Hfuel.
  assert (Hilen : (i < length (task_pool s))%nat) by (eapply lookup_lt_Some; exact Ht0).
  destruct s as [pool fr rq cur cnt algo now st al lg].
  simpl in Halgo, Hl, Hd, Ht0, Hilen. subst algo.
  set (t1 := set_state RT_STATE_READY t0).
  set (S1 := mk_state (<[i := t1]> pool) fr rq cur cnt RT_ALGO_EDF now st al lg).
  assert (Hl1 : linked next (task_pool S1) rq l).
  { simpl. apply seg_insert_fresh; assumption. }
  assert (Ht1 : task_pool S1 !! i = Some t1).
  { simpl. apply list_lookup_insert_eq. exact Hilen. }
  destruct (insert_ready_walk S1 i t1 eq_refl Ht1 l fuel None rq Hl1 Hfuel)
    as (l1 & l2 & pv' & cur' & Hrun & -> & Hs & Hl2 & Hpv & H1 & H2).
  assert (Hnd : NoDup (l1 ++ l2)) by (eapply linked_nodup; exact Hl).
  assert (Hni1 : ~ In i l1) by (intros H; apply Hni, in_or_app; left; exact H).
  assert (Hni2 : ~ In i l2) by (intros H; apply Hni, in_or_app; right; exact H).
  simpl in Hs, Hl2, H1, H2.
  apply seg_insert_fresh_inv in Hs; [|exact Hni1].
  unfold linked in Hl2. apply seg_insert_fresh_inv in Hl2; [|exact Hni2].
  rewrite along_insert_fresh in H1 by exact Hni1.
  rewrite along_insert_fresh in H2 by exact Hni2.
  change (absolute_deadline t1) with (absolute_deadline t0) in H1, H2.
  rewrite along_app in Hd.
  assert (H2all : Forall (fun y => absolute_deadline t0 < y)
                         (along absolute_deadline pool l2)).
  { apply ascending_above; [eapply ascending_app_r; exact Hd | exact H2]. }
  assert (Hfinal : forall pool' q t',
            pool' !! i = Some t' ->
            state t' = RT_STATE_READY -> pid t' = pid t0 ->
            absolute_deadline t' = absolute_deadline t0 ->
            (forall j, In j (l1 ++ l2) -> pid <$> pool' !! j = pid <$> pool !! j) ->
            (forall j, In j (l1 ++ l2) ->
                       absolute_deadline <$> pool' !! j = absolute_deadline <$> pool !! j) ->
            linked next pool' q (l1 ++ i :: l2) ->
            linked next pool' q (l1 ++ i :: l2) /\
            pool' !! i = Some t' /\
            state t' = RT_STATE_READY /\ pid t' = pid t0 /\
            along pid pool' (l1 ++ i :: l2) =
              along pid pool l1 ++ pid t0 :: along pid pool l2 /\
            along absolute_deadline pool' (l1 ++ i :: l2) =
              along absolute_deadline pool l1 ++ absolute_deadline t0 ::
              along absolute_deadline pool l2 /\
            Forall (fun y => y <= absolute_deadline t0) (along absolute_deadline pool l1) /\
            Forall (fun y => absolute_deadline t0 < y) (along absolute_deadline pool l2) /\
            ascending (along absolute_deadline pool' (l1 ++ i :: l2))).
  { intros pool' q t' Hi Hst Hpt Hdt Hpid Hdl Hlk.
    split; [exact Hlk|]. split; [exact Hi|]. split; [exact Hst|]. split; [exact Hpt|].
    split; [rewrite <- Hpt; exact (along_inserted pid pool pool' l1 l2 i t' Hi Hpid)|].
    pose proof (along_inserted absolute_deadline pool pool' l1 l2 i t' Hi Hdl) as Hal.
    rewrite Hdt in Hal.
    split; [exact Hal|]. split; [exact H1|]. split; [exact H2all|].
    rewrite Hal. apply ascending_insert; assumption. }
  unfold insert_ready.
  cbv [bind gets modify ret rd upd] in Hrun |- *.
  simpl task_pool. rewrite Ht0. rnorm.
  destruct rq as [h|].
  2:{ (* the queue is empty *)
    assert (l1 ++ l2 = []) as Hnil.
    { destruct (l1 ++ l2) as [|k l']; [reflexivity|].
      destruct Hl as [Hl _]. discriminate Hl. }
    apply app_eq_nil in Hnil. destruct Hnil as [-> ->].
    eexists _, [], [], _. split.
    { repeat first
        [ rewrite list_lookup_insert_eq by (rewrite ?length_insert; exact Hilen)
        | rewrite list_insert_insert_eq
        | progress rnorm ].
      reflexivity. }
    split; [reflexivity|].
    apply Hfinal; simpl.
    - apply list_lookup_insert_eq. exact Hilen.
    - reflexivity.
    - destruct t0; reflexivity.
    - destruct t0; reflexivity.
    - intros j [].
    - intros j [].
    - split; [reflexivity|]. eexists. split; [apply list_lookup_insert_eq; exact Hilen|].
      reflexivity. }
  unfold S1, t1 in Hrun. simpl in Hrun. rewrite Hrun. clear Hrun.
  assert (Hsplit : l1 = [] \/ exists l1' t, l1 = l1' ++ [t]).
  { destruct l1 as [|k l1']; [left; reflexivity|]. right.
    destruct (exists_last (l := k :: l1') ltac:(discriminate)) as (l0 & t & ->). eauto. }
  destruct Hsplit as [->|(l1' & t & ->)].
  - simpl in Hpv. subst pv'. simpl in Hs. subst cur'.
    eexists _, [], l2, _. split.
    { repeat first
        [ rewrite list_lookup_insert_eq by (rewrite ?length_insert; exact Hilen)
        | rewrite list_insert_insert_eq
        | progress rnorm ].
      reflexivity. }
    split; [reflexivity|].
    apply Hfinal; simpl.
    + apply list_lookup_insert_eq. exact Hilen.
    + reflexivity.
    + destruct t0; reflexivity.
    + destruct t0; reflexivity.
    + intros j Hj. rewrite list_lookup_insert_ne; [reflexivity|]. intros ->. contradiction.
    + intros j Hj. rewrite list_lookup_insert_ne; [reflexivity|]. intros ->. contradiction.
    + split; [reflexivity|]. eexists.
      split; [apply list_lookup_insert_eq; exact Hilen|].
      simpl. apply seg_insert_fresh; assumption.
  - rewrite last_snoc in Hpv. subst pv'.
    apply seg_app in Hs. destruct Hs as (m & Hs & Ht).
    destruct Ht as [-> (tn & Htn & Hcur)]. simpl in Hcur.
    assert (Hti : t <> i).
    { intros ->. apply Hni1, in_or_app. right. left. reflexivity. }
    assert (Htlen : (t < length pool)%nat) by (eapply lookup_lt_Some; exact Htn).
    assert (Hnt1 : ~ In t l1').
    { intros H. rewrite <- app_assoc in Hnd.
      pose proof (proj1 (NoDup_app l1' ([t] ++ l2)) Hnd) as (_ & Hd' & _).
      apply (Hd' t); [apply list_elem_of_In; exact H | left]. }
    assert (Hnt2 : ~ In t l2).
    { intros H.
      pose proof (proj1 (NoDup_app (l1' ++ [t]) l2) Hnd) as (_ & Hd' & _).
      apply (Hd' t).
      - apply list_elem_of_In, in_or_app. right. left. reflexivity.
      - apply list_elem_of_In. exact H. }
    eexists _, (l1' ++ [t]), l2, _. split.
    { repeat first
        [ rewrite Htn
        | rewrite list_lookup_insert_ne by congruence
        | rewrite list_lookup_insert_eq by (rewrite ?length_insert; assumption)
        | rewrite list_insert_insert_eq
        | progress rnorm ].
      reflexivity. }
    split; [reflexivity|].
    apply Hfinal; simpl.
    + rewrite list_lookup_insert_ne by congruence.
      apply list_lookup_insert_eq. exact Hilen.
    + reflexivity.
    + destruct t0; reflexivity.
    + destruct t0; reflexivity.
    + intros j Hj. destruct (decide (j = t)) as [->|Hjt].
      * rewrite list_lookup_insert_eq by (rewrite length_insert; exact Htlen).
        rewrite Htn. reflexivity.
      * rewrite !list_lookup_insert_ne; [reflexivity | | congruence].
        intros ->. contradiction.
    + intros j Hj. destruct (decide (j = t)) as [->|Hjt].
      * rewrite list_lookup_insert_eq by (rewrite length_insert; exact Htlen).
        rewrite Htn. reflexivity.
      * rewrite !list_lookup_insert_ne; [reflexivity | | congruence].
        intros ->. contradiction.
    + unfold linked. rewrite <- app_assoc. apply seg_app. exists (Some t). split.
      * apply seg_insert_fresh; [exact Hnt1|].
        apply seg_insert_fresh; [|exact Hs].
        intros H. apply Hni1, in_or_app. left. exact H.
      * split; [reflexivity|]. eexists. split.
        { apply list_lookup_insert_eq. rewrite length_insert. exact Htlen. }
        simpl. split; [reflexivity|]. eexists. split.
        { rewrite list_lookup_insert_ne by congruence.
          apply list_lookup_insert_eq. exact Hilen. }
        simpl. rewrite Hcur.
        apply seg_insert_fresh; [exact Hnt2|].
        apply seg_insert_fresh; [exact Hni2|]. exact Hl2.
Qed.

(** Under EDF, [realtime_schedule] on an idle processor takes the task at
    the head of the ready queue, whose deadline on a queue in deadline
    order is the earliest: the task is unlinked and becomes the current
    task, RUNNING, with [start_time] the present time; the rest of the
    queue stays as it was. *)
Theorem realtime_schedule_edf (fuel : nat) (s : rt_state) (h : nat) (l : list nat)
    (th : rt_task) :
  current_algo s = RT_ALGO_EDF ->
  current_task s = None ->
  linked next (task_pool s) (ready_queue s) (h :: l) ->
  ascending (along absolute_deadline (task_pool s) (h :: l)) ->
  task_pool s !! h = Some th ->
  exists s' t',
    realtime_schedule fuel s = Some (tt, s') /\
    current_task s' = Some h /\
    task_pool s' !! h = Some t' /\
    pid t' = pid th /\ state t' = RT_STATE_RUNNING /\
    start_time t' = system_time s /\
    absolute_deadline t' = absolute_deadline th /\
    Forall (fun d => absolute_deadline th <= d)
           (along absolute_deadline (task_pool s) l) /\
    linked next (task_pool s') (ready_queue s') l.
Proof.
  intros Halgo Hcur Hl Hd Hth.
  assert (Hhlen : (h < length (task_pool s))%nat) by (eapply lookup_lt_Some; exact Hth).
  destruct Hl as [Hrq (th' & Hth' & Hl)].
  assert (th' = th) as -> by congruence.
  assert (Hnh : ~ In h l) by (eapply linked_not_in; eassumption).
  rewrite along_cons, Hth in Hd. pose proof (ascending_bound _ _ Hd) as Hmin.
  destruct s as [pool fr rq cur cnt algo now st al lg].
  simpl in Halgo, Hcur, Hrq, Hth, Hl, Hhlen, Hmin. subst algo cur rq.
  eexists _, _. split.
  { unfold realtime_schedule, remove_ready, context_switch, upd_stats.
    cbv [bind gets modify ret rd upd when].
    rnorm. rewrite Nat.eqb_refl.
    repeat first
      [ rewrite Hth
      | rewrite list_lookup_insert_eq by (rewrite ?length_insert; exact Hhlen)
      | rewrite list_insert_insert_eq
      | progress rnorm ].
    reflexivity. }
  simpl. split; [reflexivity|].
  split; [apply list_lookup_insert_eq; exact Hhlen|].
  split; [destruct th; reflexivity|]. split; [reflexivity|].
  split; [reflexivity|]. split; [destruct th; reflexivity|].
  split; [exact Hmin|].
  apply seg_insert_fresh; assumption.
Qed.

(** The ready queue of [two_released]: slot 1. *)
Lemma two_released_queue :
  linked next (task_pool two_released) (ready_queue two_released) [1%nat].
Proof. vm_compute. repeat first [reflexivity | eexists | split]. Qed.

(** The running task 1 (slot 0) is put back behind task 2, which has the
    same deadline. *)
Lemma insert_ready_edf_witness :
  exists s' l1 l2,
    insert_ready 2 (Some 0%nat) two_released = Some (tt, s') /\
    [1%nat] = l1 ++ l2 /\
    linked next (task_pool s') (ready_queue s') (l1 ++ 0%nat :: l2) /\
    ascending (along absolute_deadline (task_pool s') (l1 ++ 0%nat :: l2)).
Proof.
  destruct (task_pool two_released !! 0%nat) as [t0|] eqn:E0;
    [|vm_compute in E0; discriminate E0].
  destruct (insert_ready_edf 2 two_released [1%nat] 0%nat t0)
    as (s' & l1 & l2 & t' & Hrun & Hl & Hlk & _ & _ & _ & _ & _ & _ & _ & Ha).
  - reflexivity.
  - exact two_released_queue.
  - vm_compute. exact I.
  - exact E0.
  - intros [H|[]]. discriminate H.
  - simpl. lia.
  - exists s', l1, l2. split; [exact Hrun|]. split; [exact Hl|]. split; [exact Hlk | exact Ha].
Defined.

(** Task 1, alone in the ready queue, is dispatched. *)
Lemma realtime_schedule_edf_witness :
  exists s' t',
    realtime_schedule 2 released_idle = Some (tt, s') /\
    current_task s' = Some 0%nat /\
    task_pool s' !! 0%nat = Some t' /\
    pid t' = 1 /\ state t' = RT_STATE_RUNNING.
Proof.
  destruct (task_pool released_idle !! 0%nat) as [th|] eqn:E0;
    [|vm_compute in E0; discriminate E0].
  destruct (realtime_schedule_edf 2 released_idle 0%nat [] th)
    as (s' & t' & Hrun & Hcur & Ht' & Hp & Hst & _).
  - reflexivity.
  - reflexivity.
  - vm_compute. repeat first [reflexivity | eexists | split].
  - vm_compute. exact I.
  - exact E0.
  - exists s', t'. split; [exact Hrun|]. split; [exact Hcur|]. split; [exact Ht'|].
    split; [|exact Hst]. rewrite Hp. vm_compute in E0. injection E0 as <-. reflexivity.
Defined.

End RTQueue.

(** ** The framework's ready queue: first in, first out *)

Module ReadyFacts.
Import Links LinksFacts Ready.

#[local] Arguments wrap32 : simpl never.

(** Put states, queues and nodes into constructor form. *)
Ltac qnorm :=
  cbv beta delta
    [set_ready_queue set_node_pool set_free_nodes set_current_quantum
     set_system_ticks set_runnable_count set_max_runnable set_env
     set_head set_tail set_count set_queue_priority
     set_pid set_priority set_time_slice set_enqueue_time set_next set_prev];
  simpl.

(** The [prev] links only depend on the [prev] fields of their own slots. *)
Lemma back_linked_ext (pool pool' : list ready_node) :
  forall l pv,
    back_linked pool pv l ->
    (forall j n, In j l -> pool !! j = Some n ->
                 exists n', pool' !! j = Some n' /\ prev n' = prev n) ->
    back_linked pool' pv l.
Proof.
  induction l as [|i l IH]; intros pv Hb Hx; [exact I|].
  destruct Hb as (n & Hn & Hp & Hb).
  destruct (Hx i n (or_introl eq_refl) Hn) as (n' & Hn' & Hpn).
  exists n'. split; [exact Hn'|]. split; [congruence|].
  apply IH; [exact Hb|]. intros j m Hj. apply Hx. right. exact Hj.
Qed.

Lemma back_linked_insert_fresh (pool : list ready_node) i x :
  forall l pv, ~ In i l -> back_linked pool pv l -> back_linked (<[i := x]> pool) pv l.
Proof.
  intros l pv Hni Hb. eapply back_linked_ext; [exact Hb|].
  intros j n Hj Hn. exists n. split; [|reflexivity].
  rewrite list_lookup_insert_ne; [exact Hn|]. intros ->. contradiction.
Qed.

Lemma back_linked_snoc (pool : list ready_node) :
  forall l pv i n,
    back_linked pool pv l -> pool !! i = Some n ->
    prev n = match last l with Some t => Some t | None => pv end ->
    back_linked pool pv (l ++ [i]).
Proof.
  induction l as [|k l IH]; intros pv i n Hb Hn Hp.
  - simpl. exists n. split; [exact Hn|]. split; [exact Hp | exact I].
  - destruct Hb as (m & Hm & Hpm & Hb).
    exists m. split; [exact Hm|]. split; [exact Hpm|].
    apply (IH (Some k) i n Hb Hn). rewrite Hp.
    destruct l as [|k' l']; [reflexivity|].
    change (last (k :: k' :: l')) with (last (k' :: l')).
    destruct (last_cons_some k' l') as [t ->]. reflexivity.
Qed.

Section WithNPROC.
Variable NPROC : nat.

(** [ready_enqueue] of a valid pid, with a free node left, appends: the
    node at the head of the free list becomes the last node of the doubly
    linked ready queue, carrying the pid; the nodes already queued keep
    their order and pids, and the count goes up by one. *)
Theorem ready_enqueue_tail (s : state) (l : list nat) (p : Z) (i : nat)
    (n0 : ready_node) (pr : Env.proc_t) :
  queue_wf s l ->
  0 <= p < Z.of_nat NPROC ->
  free_nodes s = Some i ->
  node_pool s !! i = Some n0 ->
  ~ In i l ->
  Env.proctab (env s) !! Z.to_nat p = Some pr ->
  exists s',
    ready_enqueue NPROC p s = Some (tt, s') /\
    queue_wf s' (l ++ [i]) /\
    along pid (node_pool s') (l ++ [i]) = along pid (node_pool s) l ++ [p] /\
    count (ready_queue s') = wrap32 (count (ready_queue s) + 1) /\
    free_nodes s' = next n0.
Proof.
  intros (Hl & Hb & Htl) Hrange Hfree Hn0 Hni Hproc.
  assert (Hilen : (i < length (node_pool s))%nat) by (eapply lookup_lt_Some; exact Hn0).
  assert (Hnd : NoDup l) by (eapply linked_nodup; exact Hl).
  destruct s as [[hd tl cnt qp] pool fr cq tk rc mx ev].
  simpl in Hl, Hb, Htl, Hfree, Hn0, Hproc, Hilen. subst fr.
  unfold ready_enqueue.
  destruct (Z.ltb_spec p 0) as [?|_]; [lia|].
  destruct (Z.geb_spec p (Z.of_nat NPROC)) as [?|_]; [lia|].
  cbn [orb].
  cbv [node_alloc bind gets modify ret rd upd updq when in_env zoom Env.rd_proc].
  destruct (Z.ltb_spec p 0) as [?|_]; [lia|].
  set (NI := mk_node p (Env.pprio pr) cq tk None tl).
  set (mx' := if wrap32 (rc + 1) >? mx then wrap32 (rc + 1) else mx).
  assert (Hsplit : l = [] \/ exists l' t, l = l' ++ [t]).
  { destruct l as [|k l']; [left; reflexivity|]. right.
    destruct (exists_last (l := k :: l') ltac:(discriminate)) as (l0 & t & ->). eauto. }
  destruct Hsplit as [->|(l' & t & ->)].
  - simpl in Htl. subst tl. unfold linked in Hl. simpl in Hl. subst hd.
    exists (mk_state (mk_queue (Some i) (Some i) (wrap32 (cnt + 1)) qp)
                     (<[i := NI]> pool) (next n0) cq tk (wrap32 (rc + 1)) mx' ev).
    split.
    { repeat first
        [ rewrite Hn0 | rewrite Hproc
        | rewrite list_lookup_insert_eq by (rewrite ?length_insert; exact Hilen)
        | rewrite list_insert_insert_eq
        | progress qnorm ].
      unfold mx'. destruct (wrap32 (rc + 1) >? mx); reflexivity. }
    assert (Hgoal :
      queue_wf (mk_state (mk_queue (Some i) (Some i) (wrap32 (cnt + 1)) qp)
                         (<[i := NI]> pool) (next n0) cq tk (wrap32 (rc + 1)) mx' ev)
               ([] ++ [i]) /\
      along pid (<[i := NI]> pool) ([] ++ [i]) = along pid pool [] ++ [p]).
    { split; [split; [|split]; simpl|].
      - split; [reflexivity|]. exists NI.
        split; [apply list_lookup_insert_eq; exact Hilen | reflexivity].
      - exists NI. split; [apply list_lookup_insert_eq; exact Hilen|]. split; reflexivity.
      - reflexivity.
      - change ([] ++ [i]) with [i].
        rewrite along_cons, list_lookup_insert_eq by exact Hilen. reflexivity. }
    split; [apply Hgoal|]. split; [apply Hgoal|]. split; reflexivity.
  - rewrite last_snoc in Htl. subst tl.
    unfold linked in Hl. apply seg_app in Hl. destruct Hl as (m & Hs & Ht).
    destruct Ht as [-> (tn & Htn & Htnx)]. simpl in Htnx.
    assert (Hti : t <> i).
    { intros ->. apply Hni, in_or_app. right. left. reflexivity. }
    assert (Htlen : (t < length pool)%nat) by (eapply lookup_lt_Some; exact Htn).
    assert (Hnil' : ~ In i l') by (intros H; apply Hni, in_or_app; left; exact H).
    assert (Hnt : ~ In t l').
    { intros H. pose proof (proj1 (NoDup_app l' [t]) Hnd) as (_ & Hd' & _).
      apply (Hd' t); [apply list_elem_of_In; exact H | left]. }
    set (pool' := <[t := set_next (Some i) tn]> (<[i := NI]> pool)).
    exists (mk_state (mk_queue hd (Some i) (wrap32 (cnt + 1)) qp)
                     pool' (next n0) cq tk (wrap32 (rc + 1)) mx' ev).
    split.
    { repeat first
        [ rewrite Hn0 | rewrite Hproc | rewrite Htn
        | rewrite list_lookup_insert_ne by congruence
        | rewrite list_lookup_insert_eq by (rewrite ?length_insert; assumption)
        | rewrite list_insert_insert_eq
        | progress qnorm ].
      unfold mx'. destruct (wrap32 (rc + 1) >? mx); reflexivity. }
    assert (Hi' : pool' !! i = Some NI).
    { unfold pool'. rewrite list_lookup_insert_ne by congruence.
      apply list_lookup_insert_eq. exact Hilen. }
    assert (Ht' : pool' !! t = Some (set_next (Some i) tn)).
    { unfold pool'. apply list_lookup_insert_eq. rewrite length_insert. exact Htlen. }
    assert (Hgoal :
      queue_wf (mk_state (mk_queue hd (Some i) (wrap32 (cnt + 1)) qp)
                         pool' (next n0) cq tk (wrap32 (rc + 1)) mx' ev)
               ((l' ++ [t]) ++ [i]) /\
      along pid pool' ((l' ++ [t]) ++ [i]) = along pid pool (l' ++ [t]) ++ [p]).
    { split; [split; [|split]; simpl|].
      - unfold linked. rewrite <- app_assoc. apply seg_app. exists (Some t). split.
        + unfold pool'. apply seg_insert_fresh; [exact Hnt|].
          apply seg_insert_fresh; [exact Hnil' | exact Hs].
        + split; [reflexivity|]. eexists. split; [exact Ht'|]. simpl.
          split; [reflexivity|]. exists NI. split; [exact Hi' | reflexivity].
      - apply back_linked_snoc with (n := NI); [|exact Hi'|].
        + eapply back_linked_ext; [exact Hb|].
          intros j n Hj Hn. unfold pool'.
          assert (j <> i) by (intros ->; contradiction).
          destruct (decide (j = t)) as [->|Hjt].
          * rewrite list_lookup_insert_eq by (rewrite length_insert; exact Htlen).
            eexists. split; [reflexivity|]. assert (n = tn) as -> by congruence.
            reflexivity.
          * rewrite !list_lookup_insert_ne by congruence. eauto.
        + rewrite last_snoc. reflexivity.
      - rewrite last_snoc. reflexivity.
      - rewrite along_app. f_equal.
        + apply along_ext. intros j Hj. unfold pool'.
          assert (j <> i) by (intros ->; contradiction).
          destruct (decide (j = t)) as [->|Hjt].
          * rewrite list_lookup_insert_eq by (rewrite length_insert; exact Htlen).
            rewrite Htn. reflexivity.
          * rewrite !list_lookup_insert_ne by congruence. reflexivity.
        + rewrite along_cons, Hi'. reflexivity. }
    split; [apply Hgoal|]. split; [apply Hgoal|]. split; reflexivity.
Qed.

End WithNPROC.

(** [ready_pop] on an empty queue returns -1 and changes nothing; on a
    queue that is not empty it returns the pid of the first node, unlinks
    that node and puts it at the head of the free list; the other nodes
    keep their order and pids, and the count goes down by one.  With
    [ready_enqueue] appending at the tail, processes leave the queue in
    their order of arrival. *)
Theorem ready_pop_head (s : state) (l : list nat) :
  queue_wf s l ->
  match l with
  | [] => ready_pop s = Some (-1, s)
  | h :: l' =>
      exists nh s',
        node_pool s !! h = Some nh /\
        ready_pop s = Some (pid nh, s') /\
        queue_wf s' l' /\
        along pid (node_pool s') l' = along pid (node_pool s) l' /\
        count (ready_queue s') = wrap32 (count (ready_queue s) - 1) /\
        free_nodes s' = Some h
  end.
Proof.
  intros (Hl & Hb & Htl).
  destruct l as [|h l'].
  - unfold linked in Hl. simpl in Hl.
    unfold ready_pop, bind, gets. rewrite Hl. reflexivity.
  - destruct Hl as [Hhd (nh & Hnh & Hl)].
    destruct Hb as (nh' & Hnh' & Hpv & Hb).
    assert (nh' = nh) as -> by congruence. clear Hnh'.
    assert (Hhl : ~ In h l') by (eapply linked_not_in; eassumption).
    assert (Hnd : NoDup l') by (eapply linked_nodup; exact Hl).
    assert (Hhlen : (h < length (node_pool s))%nat) by (eapply lookup_lt_Some; exact Hnh).
    destruct s as [[hd tl cnt qp] pool fr cq tk rc mx ev].
    simpl in Hhd, Hnh, Hl, Hb, Htl, Hhlen. subst hd.
    exists nh. unfold ready_pop.
    cbv [node_free bind gets modify ret rd upd updq].
    destruct l' as [|j l''].
    + unfold linked in Hl. simpl in Hl.
      eexists. split; [exact Hnh|]. split.
      { repeat first
          [ rewrite Hnh | rewrite Hl
          | rewrite list_lookup_insert_eq by (rewrite ?length_insert; assumption)
          | progress qnorm ].
        reflexivity. }
      split; [|split; [reflexivity|split; reflexivity]].
      split; [reflexivity|]. split; [exact I | reflexivity].
    + destruct Hl as [Hnx (nj & Hnj & Hl)].
      destruct Hb as (nj' & Hnj' & Hpj & Hb).
      assert (nj' = nj) as -> by congruence. clear Hnj'.
      assert (Hjh : j <> h) by (intros ->; apply Hhl; left; reflexivity).
      assert (Hjlen : (j < length pool)%nat) by (eapply lookup_lt_Some; exact Hnj).
      assert (Hjl : ~ In j l'').
      { apply NoDup_cons_1_1 in Hnd. rewrite list_elem_of_In in Hnd. exact Hnd. }
      assert (Hhl' : ~ In h l'') by (intros H; apply Hhl; right; exact H).
      eexists. split; [exact Hnh|]. split.
      { repeat first
          [ rewrite Hnh | rewrite Hnx | rewrite Hnj
          | rewrite list_lookup_insert_ne by congruence
          | rewrite list_lookup_insert_eq by (rewrite ?length_insert; assumption)
          | progress qnorm ].
        reflexivity. }
      split; [|split; [|split; reflexivity]].
      * split; [|split]; simpl.
        -- split; [reflexivity|]. eexists. split.
           { rewrite list_lookup_insert_ne by congruence.
             apply list_lookup_insert_eq. exact Hjlen. }
           simpl. apply seg_insert_fresh; [exact Hhl'|].
           apply seg_insert_fresh; [exact Hjl | exact Hl].
        -- eexists. split.
           { rewrite list_lookup_insert_ne by congruence.
             apply list_lookup_insert_eq. exact Hjlen. }
           split; [reflexivity|].
           apply back_linked_insert_fresh; [exact Hhl'|].
           apply back_linked_insert_fresh; [exact Hjl | exact Hb].
        -- exact Htl.
      * cbn [node_pool]. apply along_ext. intros k Hk.
        assert (k <> h) by (intros ->; contradiction).
        rewrite list_lookup_insert_ne by congruence.
        destruct (decide (k = j)) as [->|Hkj].
        -- rewrite list_lookup_insert_eq by exact Hjlen. rewrite Hnj. reflexivity.
        -- rewrite list_lookup_insert_ne by congruence. reflexivity.
Qed.

(** The walk of [ready_dequeue]. *)
Lemma ready_find (s : state) (p : Z) :
  forall l fuel q,
    linked next (node_pool s) q l ->
    (length l < fuel)%nat ->
    exists r,
      loop fuel (fun node : option nat =>
        match node with
        | None => ret (inr None)
        | Some i =>
            n <- rd i ;;
            if negb (pid n =? p) then ret (inl (next n)) else ret (inr (Some i))
        end) q s = Some (r, s) /\
      match r with
      | None => forall j n, In j l -> node_pool s !! j = Some n -> pid n <> p
      | Some i => In i l /\ exists n, node_pool s !! i = Some n /\ pid n = p
      end.
Proof.
  induction l as [|i l IH]; intros fuel q Hl Hfuel.
  - unfold linked in Hl. simpl in Hl. subst q.
    destruct fuel; [simpl in Hfuel; lia|].
    exists None. split; [reflexivity | intros j n []].
  - destruct Hl as [-> (n & Hn & Hl)].
    destruct fuel as [|f]; [simpl in Hfuel; lia|].
    rewrite loop_S. unfold bind at 1. unfold bind at 1, rd at 1. rewrite Hn.
    destruct (Z.eqb_spec (pid n) p) as [Heq|Hne]; cbn [negb].
    + exists (Some i). split; [reflexivity|]. split; [left; reflexivity|].
      exists n. split; [exact Hn | exact Heq].
    + unfold ret at 1. cbv beta iota.
      destruct (IH f (next n) Hl) as (r & Hr & Hspec); [simpl in Hfuel; lia|].
      exists r. split; [exact Hr|]. destruct r as [x|].
      * destruct Hspec as [Hx Hex]. split; [right; exact Hx | exact Hex].
      * intros j m [<-|Hj] Hm; [congruence | exact (Hspec j m Hj Hm)].
Qed.

Section Dequeue.
Variable NPROC : nat.

(** [ready_dequeue] of a pid that no node of the queue carries changes
    nothing. *)
Theorem ready_dequeue_absent (fuel : nat) (s : state) (l : list nat) (p : Z) :
  queue_wf s l ->
  (forall j n, In j l -> node_pool s !! j = Some n -> pid n <> p) ->
  (length l < fuel)%nat ->
  ready_dequeue NPROC fuel p s = Some (tt, s).
Proof.
  intros (Hl & _ & _) Hp Hfuel. unfold ready_dequeue.
  destruct ((p <? 0) || (p >=? Z.of_nat NPROC)); [reflexivity|].
  destruct (ready_find s p l fuel _ Hl Hfuel) as (r & Hr & Hspec).
  cbv [bind gets ret rd] in Hr |- *. rewrite Hr.
  destruct r as [i|]; [|reflexivity].
  exfalso. destruct Hspec as (Hi & n & Hn & Hpid). exact (Hp i n Hi Hn Hpid).
Qed.

End Dequeue.

(** The queue of [two_queued]: slot 0, then slot 1. *)
Lemma two_queued_wf : queue_wf two_queued [0%nat; 1%nat].
Proof.
  split; [|split].
  - vm_compute. repeat first [reflexivity | eexists | split].
  - vm_compute. repeat first [reflexivity | eexists | split].
  - reflexivity.
Qed.

(** Process 3 joins the queue behind processes 1 and 2. *)
Lemma ready_enqueue_tail_witness :
  exists s',
    ready_enqueue 4 3 two_queued = Some (tt, s') /\
    queue_wf s' [0%nat; 1%nat; 2%nat] /\
    along pid (node_pool s') [0%nat; 1%nat; 2%nat] = [1; 2; 3].
Proof.
  destruct (node_pool two_queued !! 2%nat) as [n0|] eqn:E0;
    [|vm_compute in E0; discriminate E0].
  destruct (ready_enqueue_tail 4 two_queued [0%nat; 1%nat] 3 2%nat n0
              (Env.mk_proc Env.PR_READY 50))
    as (s' & Hrun & Hwf & Hal & _).
  - exact two_queued_wf.
  - vm_compute. split; [discriminate | reflexivity].
  - reflexivity.
  - exact E0.
  - intros [H|[H|[]]]; discriminate H.
  - reflexivity.
  - exists s'. split; [exact Hrun|]. split; [exact Hwf | exact Hal].
Defined.

(** Process 1, the first to arrive, is popped; process 2 stays. *)
Lemma ready_pop_head_witness :
  exists s',
    ready_pop two_queued = Some (1, s') /\
    queue_wf s' [1%nat] /\
    along pid (node_pool s') [1%nat] = [2].
Proof.
  destruct (ready_pop_head two_queued [0%nat; 1%nat] two_queued_wf)
    as (nh & s' & Hnh & Hrun & Hwf & Hal & _).
  exists s'. vm_compute in Hnh. injection Hnh as <-.
  split; [exact Hrun|]. split; [exact Hwf | exact Hal].
Defined.

(** Process 3 is not queued. *)
Lemma ready_dequeue_absent_witness :
  ready_dequeue 4 3 3 two_queued = Some (tt, two_queued).
Proof.
  apply (ready_dequeue_absent 4 3 two_queued [0%nat; 1%nat] 3).
  - exact two_queued_wf.
  - intros j n [<-|[<-|[]]] H0; vm_compute in H0; injection H0 as <-; vm_compute; discriminate.
  - simpl. lia.
Defined.

End ReadyFacts.

(** ** CFS: the timeline in virtual-runtime order *)

Module CFSQueue.
Import Links LinksFacts CFS.

#[local] Arguments wrap32 : simpl never.

(** Put states, run queues and tasks into constructor form. *)
Ltac cnorm :=
  cbv beta delta
    [set_pid set_nice set_weight set_vruntime set_exec_start set_sum_exec
     set_prev_sum_exec set_sleep_start set_on_rq set_next set_prev
     set_nr_running set_min_vruntime set_clock set_clock_task set_load_weight
     set_tasks_timeline set_curr set_leftmost
     set_rq set_task_pool set_free_tasks set_stats set_system_clock set_ctx_log];
  simpl.

Ltac cnorm_in H :=
  cbv beta delta
    [set_pid set_nice set_weight set_vruntime set_exec_start set_sum_exec
     set_prev_sum_exec set_sleep_start set_on_rq set_next set_prev
     set_nr_running set_min_vruntime set_clock set_clock_task set_load_weight
     set_tasks_timeline set_curr set_leftmost
     set_rq set_task_pool set_free_tasks set_stats set_system_clock set_ctx_log] in H;
  simpl in H.

(** The walk of [insert_task]: it goes past the tasks whose virtual
    runtime is not larger than the new one and stops before the first
    larger one, or at the end. *)
Lemma insert_task_walk (s : state) (i : nat) (t : cfs_task) :
  task_pool s !! i = Some t ->
  forall l fuel pv cur,
    linked next (task_pool s) cur l ->
    (length l < fuel)%nat ->
    exists l1 l2 pv' cur',
      loop fuel (fun '(cur, pv) =>
          match cur with
          | None => ret (inr pv)
          | Some c =>
              ct <- rd c ;;
              tt_ <- rd i ;;
              if vruntime ct <=? vruntime tt_
              then ret (inl (next ct, Some c))
              else ret (inr pv)
          end) (cur, pv) s = Some (pv', s) /\
      l = l1 ++ l2 /\
      seg next (task_pool s) cur l1 cur' /\
      linked next (task_pool s) cur' l2 /\
      pv' = match last l1 with Some x => Some x | None => pv end /\
      Forall (fun y => y <= vruntime t) (along vruntime (task_pool s) l1) /\
      Forall (fun y => vruntime t < y) (firstn 1 (along vruntime (task_pool s) l2)).
Proof.
  intros Ht.
  induction l as [|c l IH]; intros fuel pv cur Hl Hfuel.
  - unfold linked in Hl. simpl in Hl. subst cur.
    destruct fuel as [|f]; [simpl in Hfuel; lia|].
    exists [], [], pv, None. simpl.
    repeat split; constructor.
  - destruct Hl as [-> (n & Hn & Hl)].
    destruct fuel as [|f]; [simpl in Hfuel; lia|].
    rewrite loop_S. unfold bind at 1.
    unfold bind at 1, rd at 1. rewrite Hn.
    unfold bind at 1, rd at 1. rewrite Ht.
    destruct (Z.leb_spec (vruntime n) (vruntime t)) as [Hle|Hgt].
    + unfold ret at 1. cbv beta iota.
      destruct (IH f (Some c) (next n) Hl)
        as (l1 & l2 & pv' & cur' & Hrun & -> & Hs & Hl2 & Hpv & H1 & H2);
        [simpl in Hfuel; lia|].
      exists (c :: l1), l2, pv', cur'.
      split; [exact Hrun|]. split; [reflexivity|].
      split; [split; [reflexivity|]; exists n; split; assumption|].
      split; [exact Hl2|].
      split.
      { rewrite Hpv. destruct l1 as [|k l1']; [reflexivity|].
        change (last (c :: k :: l1')) with (last (k :: l1')).
        destruct (last_cons_some k l1') as [x ->]. reflexivity. }
      split; [|exact H2].
      rewrite along_cons, Hn. constructor; [lia | exact H1].
    + exists [], (c :: l), pv, (Some c).
      split; [reflexivity|]. split; [reflexivity|].
      split; [reflexivity|].
      split; [split; [reflexivity|]; exists n; split; assumption|].
      split; [reflexivity|]. split; [constructor|].
      rewrite along_cons, Hn. simpl. constructor; [lia | constructor].
Qed.

(** [insert_task] on a timeline in virtual-runtime order whose leftmost
    pointer is its head: the task is linked in behind every task whose
    virtual runtime is not larger and before every one whose virtual
    runtime is larger; the other tasks keep their order, pids and virtual
    runtimes, the timeline stays in order with [leftmost] at its head, and
    [cfs_pick_next_task] then picks the first task of the timeline, one of
    least virtual runtime. *)
Theorem insert_task_sorted (fuel : nat) (s : state) (l : list nat) (i : nat)
    (t0 : cfs_task) :
  linked next (task_pool s) (tasks_timeline (rq s)) l ->
  leftmost (rq s) = tasks_timeline (rq s) ->
  ascending (along vruntime (task_pool s) l) ->
  task_pool s !! i = Some t0 ->
  ~ In i l ->
  (length l < fuel)%nat ->
  exists s' l1 l2,
    insert_task fuel i s = Some (tt, s') /\
    l = l1 ++ l2 /\
    linked next (task_pool s') (tasks_timeline (rq s')) (l1 ++ i :: l2) /\
    leftmost (rq s') = tasks_timeline (rq s') /\
    cfs_pick_next_task s' = Some (hd_error (l1 ++ i :: l2), s') /\
    along pid (task_pool s') (l1 ++ i :: l2) =
      along pid (task_pool s) l1 ++ pid t0 :: along pid (task_pool s) l2 /\
    along vruntime (task_pool s') (l1 ++ i :: l2) =
      along vruntime (task_pool s) l1 ++ vruntime t0 :: along vruntime (task_pool s) l2 /\
    Forall (fun y => y <= vruntime t0) (along vruntime (task_pool s) l1) /\
    Forall (fun y => vruntime t0 < y) (along vruntime (task_pool s) l2) /\
    ascending (along vruntime (task_pool s') (l1 ++ i :: l2)).
Proof.
  intros Hl Hlm Hd Ht0 Hni Hfuel.
  assert (Hilen : (i < length (task_pool s))%nat) by (eapply lookup_lt_Some; exact Ht0).
  destruct s as [[nr mv ck ckt lw tl cu rn lm] pool fr st sc lg].
  simpl in Hl, Hlm, Hd, Ht0, Hilen. subst lm.
  set (t1 := set_on_rq true t0).
  set (S1 := mk_state (mk_rq nr mv ck ckt lw tl cu rn tl) (<[i := t1]> pool) fr st sc lg).
  assert (Hl1 : linked next (task_pool S1) tl l).
  { simpl. apply seg_insert_fresh; assumption. }
  assert (Ht1 : task_pool S1 !! i = Some t1).
  { simpl. apply list_lookup_insert_eq. exact Hilen. }
  destruct (insert_task_walk S1 i t1 Ht1 l fuel None tl Hl1 Hfuel)
    as (l1 & l2 & pv' & cur' & Hrun & -> & Hs & Hl2 & Hpv & H1 & H2).
  assert (Hnd : NoDup (l1 ++ l2)) by (eapply linked_nodup; exact Hl).
  assert (Hni1 : ~ In i l1) by (intros H; apply Hni, in_or_app; left; exact H).
  assert (Hni2 : ~ In i l2) by (intros H; apply Hni, in_or_app; right; exact H).
  simpl in Hs, Hl2, H1, H2.
  apply seg_insert_fresh_inv in Hs; [|exact Hni1].
  unfold linked in Hl2. apply seg_insert_fresh_inv in Hl2; [|exact Hni2].
  rewrite along_insert_fresh in H1 by exact Hni1.
  rewrite along_insert_fresh in H2 by exact Hni2.
  change (vruntime t1) with (vruntime t0) in H1, H2.
  rewrite along_app in Hd.
  assert (H2all : Forall (fun y => vruntime t0 < y) (along vruntime pool l2)).
  { apply ascending_above; [eapply ascending_app_r; exact Hd | exact H2]. }
  assert (Hfinal : forall pool' t',
            pool' !! i = Some t' ->
            pid t' = pid t0 -> vruntime t' = vruntime t0 ->
            (forall j, In j (l1 ++ l2) -> pid <$> pool' !! j = pid <$> pool !! j) ->
            (forall j, In j (l1 ++ l2) -> vruntime <$> pool' !! j = vruntime <$> pool !! j) ->
            along pid pool' (l1 ++ i :: l2) =
              along pid pool l1 ++ pid t0 :: along pid pool l2 /\
            along vruntime pool' (l1 ++ i :: l2) =
              along vruntime pool l1 ++ vruntime t0 :: along vruntime pool l2 /\
            Forall (fun y => y <= vruntime t0) (along vruntime pool l1) /\
            Forall (fun y => vruntime t0 < y) (along vruntime pool l2) /\
            ascending (along vruntime pool' (l1 ++ i :: l2))).
  { intros pool' t' Hi Hpt Hvt Hpid Hvr.
    split; [rewrite <- Hpt; exact (along_inserted pid pool pool' l1 l2 i t' Hi Hpid)|].
    pose proof (along_inserted vruntime pool pool' l1 l2 i t' Hi Hvr) as Hal.
    rewrite Hvt in Hal.
    split; [exact Hal|]. split; [exact H1|]. split; [exact H2all|].
    rewrite Hal. apply ascending_insert; assumption. }
  unfold insert_task.
  cbv [bind gets modify ret rd upd upd_rq lift] in Hrun |- *.
  simpl task_pool. rewrite Ht0. cnorm.
  destruct tl as [h|].
  2:{ (* the timeline is empty *)
    assert (l1 ++ l2 = []) as Hnil.
    { destruct (l1 ++ l2) as [|k l']; [reflexivity|].
      destruct Hl as [Hl _]. discriminate Hl. }
    apply app_eq_nil in Hnil. destruct Hnil as [-> ->].
    eexists _, [], []. split.
    { repeat first
        [ rewrite list_lookup_insert_eq by (rewrite ?length_insert; exact Hilen)
        | rewrite list_insert_insert_eq
        | progress cnorm ].
      reflexivity. }
    split; [reflexivity|]. simpl.
    split.
    { split; [reflexivity|]. eexists.
      split; [apply list_lookup_insert_eq; exact Hilen | reflexivity]. }
    split; [reflexivity|]. split; [reflexivity|].
    apply Hfinal with (t' := set_next None (set_prev None t1)).
    - apply list_lookup_insert_eq. exact Hilen.
    - destruct t0; reflexivity.
    - destruct t0; reflexivity.
    - intros j [].
    - intros j []. }
  unfold S1, t1 in Hrun. cnorm_in Hrun. rewrite Hrun. clear Hrun.
  assert (Hsplit : l1 = [] \/ exists l1' p, l1 = l1' ++ [p]).
  { destruct l1 as [|k l1']; [left; reflexivity|]. right.
    destruct (exists_last (l := k :: l1') ltac:(discriminate)) as (l0 & p & ->). eauto. }
  destruct Hsplit as [->|(l1' & p & ->)].
  - (* before the head *)
    simpl in Hpv. subst pv'. simpl in Hs. subst cur'.
    destruct l2 as [|h' l2']; [discriminate Hl2|].
    destruct Hl2 as [Hh (nh & Hnh & Hl2)]. injection Hh as <-.
    assert (Hhi : h <> i) by (intros ->; apply Hni2; left; reflexivity).
    assert (Hhlen : (h < length pool)%nat) by (eapply lookup_lt_Some; exact Hnh).
    assert (Hhl : ~ In h l2') by (eapply linked_not_in; eassumption).
    assert (Hil : ~ In i l2') by (intros H; apply Hni2; right; exact H).
    eexists _, [], (h :: l2'). split.
    { repeat first
        [ rewrite Hnh
        | rewrite list_lookup_insert_ne by congruence
        | rewrite list_lookup_insert_eq by (rewrite ?length_insert; assumption)
        | rewrite list_insert_insert_eq
        | progress cnorm ].
      reflexivity. }
    split; [reflexivity|]. simpl.
    split.
    { split; [reflexivity|]. eexists. split.
      { rewrite list_lookup_insert_ne by congruence.
        apply list_lookup_insert_eq. exact Hilen. }
      simpl. split; [reflexivity|]. eexists. split.
      { apply list_lookup_insert_eq. rewrite length_insert. exact Hhlen. }
      simpl. apply seg_insert_fresh; [exact Hhl|].
      apply seg_insert_fresh; [exact Hil | exact Hl2]. }
    split; [reflexivity|]. split; [reflexivity|].
    eapply Hfinal.
    + rewrite list_lookup_insert_ne by congruence.
      apply list_lookup_insert_eq. exact Hilen.
    + destruct t0; reflexivity.
    + destruct t0; reflexivity.
    + intros j Hj. destruct (decide (j = h)) as [->|Hjh].
      * rewrite list_lookup_insert_eq by (rewrite length_insert; exact Hhlen).
        rewrite Hnh. reflexivity.
      * rewrite !list_lookup_insert_ne; [reflexivity | | congruence].
        intros ->. contradiction.
    + intros j Hj. destruct (decide (j = h)) as [->|Hjh].
      * rewrite list_lookup_insert_eq by (rewrite length_insert; exact Hhlen).
        rewrite Hnh. reflexivity.
      * rewrite !list_lookup_insert_ne; [reflexivity | | congruence].
        intros ->. contradiction.
  - (* behind task [p] *)
    rewrite last_snoc in Hpv. subst pv'.
    apply seg_app in Hs. destruct Hs as (m & Hs & Hp).
    destruct Hp as [-> (pn & Hpn & Hcur)]. simpl in Hcur.
    assert (Hpi : p <> i).
    { intros ->. apply Hni1, in_or_app. right. left. reflexivity. }
    assert (Hplen : (p < length pool)%nat) by (eapply lookup_lt_Some; exact Hpn).
    assert (Hnp1 : ~ In p l1').
    { intros H. rewrite <- app_assoc in Hnd.
      pose proof (proj1 (NoDup_app l1' ([p] ++ l2)) Hnd) as (_ & Hd' & _).
      apply (Hd' p); [apply list_elem_of_In; exact H | left]. }
    assert (Hnp2 : ~ In p l2).
    { intros H.
      pose proof (proj1 (NoDup_app (l1' ++ [p]) l2) Hnd) as (_ & Hd' & _).
      apply (Hd' p).
      - apply list_elem_of_In, in_or_app. right. left. reflexivity.
      - apply list_elem_of_In. exact H. }
    assert (Hni1' : ~ In i l1') by (intros H; apply Hni1, in_or_app; left; exact H).
    destruct l2 as [|n l2'].
    + (* at the end of the timeline *)
      unfold linked in Hl2. simpl in Hl2. rewrite Hl2 in Hcur. clear Hl2.
      eexists _, (l1' ++ [p]), []. split.
      { repeat first
          [ rewrite Hpn | rewrite Hcur
          | rewrite list_lookup_insert_ne by congruence
          | rewrite list_lookup_insert_eq by (rewrite ?length_insert; assumption)
          | rewrite list_insert_insert_eq
          | progress cnorm ].
        reflexivity. }
      split; [reflexivity|]. simpl.
      assert (Hhd : hd_error ((l1' ++ [p]) ++ [i]) = Some h).
      { destruct l1' as [|k l1'']; simpl in Hs |- *.
        - injection Hs as ->. reflexivity.
        - destruct Hs as [Hk _]. injection Hk as ->. reflexivity. }
      split.
      { unfold linked. rewrite <- app_assoc. apply seg_app. exists (Some p). split.
        - apply seg_insert_fresh; [exact Hnp1|].
          apply seg_insert_fresh; [exact Hni1' | exact Hs].
        - split; [reflexivity|]. eexists. split.
          { apply list_lookup_insert_eq. rewrite length_insert. exact Hplen. }
          simpl. split; [reflexivity|]. eexists. split.
          { rewrite list_lookup_insert_ne by congruence.
            apply list_lookup_insert_eq. exact Hilen. }
          simpl. reflexivity. }
      split; [reflexivity|]. split; [rewrite Hhd; reflexivity|].
      eapply Hfinal.
      * rewrite list_lookup_insert_ne by congruence.
        apply list_lookup_insert_eq. exact Hilen.
      * destruct t0; reflexivity.
      * destruct t0; reflexivity.
      * intros j Hj. destruct (decide (j = p)) as [->|Hjp].
        -- rewrite list_lookup_insert_eq by (rewrite length_insert; exact Hplen).
           rewrite Hpn. reflexivity.
        -- rewrite !list_lookup_insert_ne; [reflexivity | | congruence].
           intros ->. apply Hni, in_or_app. rewrite app_nil_r in Hj. left. exact Hj.
      * intros j Hj. destruct (decide (j = p)) as [->|Hjp].
        -- rewrite list_lookup_insert_eq by (rewrite length_insert; exact Hplen).
           rewrite Hpn. reflexivity.
        -- rewrite !list_lookup_insert_ne; [reflexivity | | congruence].
           intros ->. apply Hni, in_or_app. rewrite app_nil_r in Hj. left. exact Hj.
    + (* between [p] and [n] *)
      destruct Hl2 as [-> (nn & Hnn & Hl2)].
      assert (Hni' : n <> i) by (intros ->; apply Hni2; left; reflexivity).
      assert (Hnp : n <> p) by (intros ->; apply Hnp2; left; reflexivity).
      assert (Hnlen : (n < length pool)%nat) by (eapply lookup_lt_Some; exact Hnn).
      assert (Hnl : ~ In n l2') by (eapply linked_not_in; eassumption).
      assert (Hn1 : ~ In n l1').
      { intros H. rewrite <- app_assoc in Hnd.
        pose proof (proj1 (NoDup_app l1' ([p] ++ n :: l2')) Hnd) as (_ & Hd' & _).
        apply (Hd' n); [apply list_elem_of_In; exact H | right; left]. }
      assert (Hil : ~ In i l2') by (intros H; apply Hni2; right; exact H).
      assert (Hpl : ~ In p l2') by (intros H; apply Hnp2; right; exact H).
      eexists _, (l1' ++ [p]), (n :: l2'). split.
      { repeat first
          [ rewrite Hpn | rewrite Hcur | rewrite Hnn
          | rewrite list_lookup_insert_ne by congruence
          | rewrite list_lookup_insert_eq by (rewrite ?length_insert; assumption)
          | rewrite list_insert_insert_eq
          | progress cnorm ].
        reflexivity. }
      split; [reflexivity|]. simpl.
      assert (Hhd : hd_error ((l1' ++ [p]) ++ i :: n :: l2') = Some h).
      { destruct l1' as [|k l1'']; simpl in Hs |- *.
        - injection Hs as ->. reflexivity.
        - destruct Hs as [Hk _]. injection Hk as ->. reflexivity. }
      split.
      { unfold linked. rewrite <- app_assoc. apply seg_app. exists (Some p). split.
        - apply seg_insert_fresh; [exact Hnp1|].
          apply seg_insert_fresh; [exact Hn1|].
          apply seg_insert_fresh; [exact Hni1' | exact Hs].
        - split; [reflexivity|]. eexists. split.
          { apply list_lookup_insert_eq. rewrite !length_insert. exact Hplen. }
          simpl. split; [reflexivity|]. eexists. split.
          { rewrite !list_lookup_insert_ne by congruence.
            apply list_lookup_insert_eq. exact Hilen. }
          simpl. split; [reflexivity|]. eexists. split.
          { rewrite list_lookup_insert_ne by congruence.
            apply list_lookup_insert_eq. rewrite length_insert. exact Hnlen. }
          simpl. apply seg_insert_fresh; [exact Hpl|].
          apply seg_insert_fresh; [exact Hnl|].
          apply seg_insert_fresh; [exact Hil | exact Hl2]. }
      split; [reflexivity|]. split; [rewrite Hhd; reflexivity|].
      eapply Hfinal.
      * rewrite !list_lookup_insert_ne by congruence.
        apply list_lookup_insert_eq. exact Hilen.
      * destruct t0; reflexivity.
      * destruct t0; reflexivity.
      * intros j Hj. assert (j <> i) by (intros ->; contradiction).
        destruct (decide (j = p)) as [->|Hjp].
        -- rewrite list_lookup_insert_eq by (rewrite !length_insert; exact Hplen).
           rewrite Hpn. reflexivity.
        -- rewrite list_lookup_insert_ne by congruence.
           destruct (decide (j = n)) as [->|Hjn].
           ++ rewrite list_lookup_insert_eq by (rewrite length_insert; exact Hnlen).
              rewrite Hnn. reflexivity.
           ++ rewrite !list_lookup_insert_ne by congruence. reflexivity.
      * intros j Hj. assert (j <> i) by (intros ->; contradiction).
        destruct (decide (j = p)) as [->|Hjp].
        -- rewrite list_lookup_insert_eq by (rewrite !length_insert; exact Hplen).
           rewrite Hpn. reflexivity.
        -- rewrite list_lookup_insert_ne by congruence.
           destruct (decide (j = n)) as [->|Hjn].
           ++ rewrite list_lookup_insert_eq by (rewrite length_insert; exact Hnlen).
              rewrite Hnn. reflexivity.
           ++ rewrite !list_lookup_insert_ne by congruence. reflexivity.
Qed.

(** The timeline of [two_tasks]: slot 0, then slot 1. *)
Lemma two_tasks_timeline :
  linked next (task_pool two_tasks) (tasks_timeline (rq two_tasks)) [0%nat; 1%nat].
Proof. vm_compute. repeat first [reflexivity | eexists | split]. Qed.

(** The task of slot 2, at virtual runtime 0, is put on the timeline of
    [two_tasks] and is the next to be picked. *)
Lemma insert_task_sorted_witness :
  exists s' l1 l2,
    insert_task 3 2%nat two_tasks = Some (tt, s') /\
    [0%nat; 1%nat] = l1 ++ l2 /\
    linked next (task_pool s') (tasks_timeline (rq s')) (l1 ++ 2%nat :: l2) /\
    ascending (along vruntime (task_pool s') (l1 ++ 2%nat :: l2)).
Proof.
  destruct (task_pool two_tasks !! 2%nat) as [t0|] eqn:E0;
    [|vm_compute in E0; discriminate E0].
  destruct (insert_task_sorted 3 two_tasks [0%nat; 1%nat] 2%nat t0)
    as (s' & l1 & l2 & Hrun & Hl & Hlk & _ & _ & _ & _ & _ & _ & Ha).
  - exact two_tasks_timeline.
  - reflexivity.
  - vm_compute. split; [discriminate | exact I].
  - exact E0.
  - intros [H|[H|[]]]; discriminate H.
  - simpl. lia.
  - exists s', l1, l2. split; [exact Hrun|]. split; [exact Hl|]. split; [exact Hlk | exact Ha].
Defined.

End CFSQueue.

(** ** Round-robin: arrivals join at the tail of the ring *)

Module RRQueue.
Import Links LinksFacts RR RRFacts.

#[local] Arguments wrap32 : simpl never.
#[local] Arguments rr_find_node : simpl never.

Section WithNPROC.
Variable NPROC : nat.

(** [round_robin_enqueue] of a pid that is not queued, with a free
    node left, returns and appends the new node at the tail of the ring:
    the ring keeps its order and its head, the cursor stays where it
    was, the pids of the ring are the former ones followed by the new
    pid, and the count goes up by one.  On an empty queue the new node
    is a ring of its own. *)
Theorem round_robin_enqueue_tail (fuel : nat) (s : state) (l : list nat) (p : Z)
    (i : nat) (n0 : rr_node) :
  queue_wf s l ->
  (forall j n, In j l -> rr_node_pool s !! j = Some n -> pid n <> p) ->
  0 <= p < Z.of_nat NPROC ->
  rr_free_nodes s = Some i ->
  rr_node_pool s !! i = Some n0 ->
  ~ In i l ->
  (length l <= fuel)%nat ->
  exists s',
    round_robin_enqueue NPROC fuel p s = Some (tt, s') /\
    queue_wf s' (l ++ [i]) /\
    along pid (rr_node_pool s') (l ++ [i]) = along pid (rr_node_pool s) l ++ [p] /\
    rr_queue_count s' = wrap32 (rr_queue_count s + 1) /\
    (l <> [] -> rr_queue_head s' = rr_queue_head s /\ rr_current s' = rr_current s).
Proof.
  intros Hwf Hp Hrange Hfree Hn0 Hni Hfuel.
  assert (Hilen : (i < length (rr_node_pool s))%nat) by (eapply lookup_lt_Some; exact Hn0).
  assert (Hfind : rr_find_node fuel p s = Some (None, s)).
  { unfold queue_wf in Hwf. destruct (rr_queue_head s) as [h|] eqn:Hh.
    - destruct Hwf as [Hring _]. eapply find_none; [exact Hring | exact Hp | lia].
    - unfold rr_find_node, bind, gets. rewrite Hh. reflexivity. }
  unfold round_robin_enqueue.
  destruct (Z.ltb_spec p 0) as [?|_]; [lia|].
  destruct (Z.geb_spec p (Z.of_nat NPROC)) as [?|_]; [lia|].
  cbn [orb]. unfold bind at 1. rewrite Hfind. cbn [is_null negb]. clear Hfind.
  unfold queue_wf in Hwf.
  destruct s as [hd cur pool fr cnt q qr [tp tcs tqe awt cql mql] ev].
  simpl in Hwf, Hp, Hfree, Hn0, Hilen. subst fr.
  cbv [rr_node_alloc bind gets modify ret rd upd upd_stats when lift].
  set (mql' := if wrap32 (cnt + 1) >? mql then wrap32 (cnt + 1) else mql).
  set (st' := mk_stats (wrap32 (tp + 1)) tcs tqe awt (wrap32 (cnt + 1)) mql').
  destruct hd as [h|].
  2:{ (* the queue is empty *)
    destruct Hwf as [-> ->].
    set (NI := mk_node p q 0 0 (Some i) (Some i)).
    exists (mk_state (Some i) (Some i) (<[i := NI]> pool) (next n0) (wrap32 (cnt + 1))
                     q qr st' ev).
    split.
    { repeat first
        [ rewrite Hn0
        | rewrite list_lookup_insert_eq by (rewrite ?length_insert; exact Hilen)
        | rewrite list_insert_insert_eq
        | progress norm ].
      unfold st', mql'. destruct (wrap32 (cnt + 1) >? mql); reflexivity. }
    assert (Hi' : <[i := NI]> pool !! i = Some NI)
      by (apply list_lookup_insert_eq; exact Hilen).
    split; [|split; [|split; [reflexivity | intros H; contradiction]]].
    - unfold queue_wf. simpl. split.
      + split; [reflexivity|]. split; [discriminate|]. split; [apply NoDup_singleton|].
        split.
        * simpl. split; [reflexivity|]. exists NI, i. repeat split. exact Hi'.
        * exists NI. split; [exact Hi' | reflexivity].
      + exists i. split; [reflexivity | left; reflexivity].
    - cbn [rr_node_pool app]. rewrite along_cons, Hi'. reflexivity. }
  destruct Hwf as [(_ & Hne & Hnd & Hseg & hn & Hhn & Hprev) (c & -> & Hc)].
  simpl in Hseg, Hhn.
  destruct (exists_last Hne) as (l0 & t & ->).
  rewrite last_snoc in Hprev.
  destruct (ring_seg_unsnoc _ _ _ _ _ Hseg) as (Hseg0 & tn & Htn & Htx).
  assert (Hhl : In h (l0 ++ [t])).
  { destruct l0 as [|k l0']; simpl in *; [left; congruence|].
    destruct Hseg0 as [-> _]. left. reflexivity. }
  assert (Hih : i <> h) by (intros ->; contradiction).
  assert (Hit : i <> t) by (intros ->; apply Hni, in_or_app; right; left; reflexivity).
  assert (Hhlen : (h < length pool)%nat) by (eapply lookup_lt_Some; exact Hhn).
  assert (Htlen : (t < length pool)%nat) by (eapply lookup_lt_Some; exact Htn).
  set (NI := mk_node p q 0 0 (Some h) (Some t)).
  assert (Hnil0 : ~ In i l0) by (intros H; apply Hni, in_or_app; left; exact H).
  assert (Hntl0 : ~ In t l0).
  { intros H. pose proof (proj1 (NoDup_app l0 [t]) Hnd) as (_ & Hd' & _).
    apply (Hd' t); [apply list_elem_of_In; exact H | left]. }
  (* what the new ring needs of the new pool *)
  assert (Hfinal : forall pool' TN HN,
            pool' !! i = Some NI ->
            pool' !! t = Some TN -> next TN = Some i -> pid TN = pid tn ->
            pool' !! h = Some HN -> prev HN = Some i ->
            (forall j n, In j l0 -> pool !! j = Some n ->
                         exists n', pool' !! j = Some n' /\ next n' = next n /\
                                    pid n' = pid n) ->
            queue_wf (mk_state (Some h) (Some c) pool' (next n0) (wrap32 (cnt + 1))
                               q qr st' ev) ((l0 ++ [t]) ++ [i]) /\
            along pid pool' ((l0 ++ [t]) ++ [i]) = along pid pool (l0 ++ [t]) ++ [p]).
  { intros pool' TN HN Hi' Ht' HTn HTp Hh' HHp Hkeep. split.
    - unfold queue_wf. simpl. split.
      + split; [reflexivity|]. split; [destruct (l0 ++ [t]); discriminate|].
        split.
        { apply NoDup_app. split; [exact Hnd|]. split; [|apply NoDup_singleton].
          intros x Hx Hxi. apply list_elem_of_In in Hx.
          apply list_elem_of_In in Hxi. destruct Hxi as [<-|[]]. contradiction. }
        split.
        * simpl. apply ring_seg_snoc with (tn := NI); [|exact Hi' | reflexivity].
          apply ring_seg_snoc with (tn := TN); [|exact Ht' | exact HTn].
          eapply ring_seg_ext; [exact Hseg0|].
          intros j n Hj Hn. destruct (Hkeep j n Hj Hn) as (n' & H1 & H2 & _). eauto.
        * exists HN. split; [exact Hh'|]. rewrite last_snoc. exact HHp.
      + exists c. split; [reflexivity | apply in_or_app; left; exact Hc].
    - cbn [rr_node_pool]. rewrite !along_app. f_equal; [f_equal|].
      + apply along_ext. intros j Hj.
        destruct (ring_seg_lookup _ _ _ _ j Hseg0 Hj) as (n & Hn).
        destruct (Hkeep j n Hj Hn) as (n' & H1 & _ & H3).
        rewrite H1, Hn. simpl. congruence.
      + rewrite !along_cons, Ht', Htn. simpl. rewrite HTp. reflexivity.
      + rewrite along_cons, Hi'. reflexivity. }
  destruct l0 as [|k l0'].
  - (* a ring of one node *)
    simpl in Hseg0. subst t. assert (tn = hn) as -> by congruence.
    set (pool' := <[h := set_prev (Some i) (set_next (Some i) hn)]> (<[i := NI]> pool)).
    exists (mk_state (Some h) (Some c) pool' (next n0) (wrap32 (cnt + 1)) q qr st' ev).
    split.
    { repeat first
        [ rewrite Hn0 | rewrite Hhn | rewrite Hprev
        | rewrite list_lookup_insert_ne by congruence
        | rewrite list_lookup_insert_eq by (rewrite ?length_insert; assumption)
        | rewrite list_insert_insert_eq
        | progress norm ].
      unfold st', mql'. destruct (wrap32 (cnt + 1) >? mql); reflexivity. }
    assert (Hh' : pool' !! h = Some (set_prev (Some i) (set_next (Some i) hn))).
    { unfold pool'. apply list_lookup_insert_eq. rewrite length_insert. exact Hhlen. }
    assert (Hi' : pool' !! i = Some NI).
    { unfold pool'. rewrite list_lookup_insert_ne by congruence.
      apply list_lookup_insert_eq. exact Hilen. }
    destruct (Hfinal pool' _ _ Hi' Hh' eq_refl eq_refl Hh' eq_refl) as [H1 H2].
    { intros j n []. }
    split; [exact H1|]. split; [exact H2|]. split; [reflexivity|].
    intros _. split; reflexivity.
  - (* a ring of two nodes or more *)
    assert (k = h) as -> by (destruct Hseg0 as [<- _]; reflexivity).
    assert (Hht : h <> t) by (intros ->; apply Hntl0; left; reflexivity).
    set (pool' := <[h := set_prev (Some i) hn]>
                    (<[t := set_next (Some i) tn]> (<[i := NI]> pool))).
    exists (mk_state (Some h) (Some c) pool' (next n0) (wrap32 (cnt + 1)) q qr st' ev).
    split.
    { repeat first
        [ rewrite Hn0 | rewrite Hhn | rewrite Htn | rewrite Hprev
        | rewrite list_lookup_insert_ne by congruence
        | rewrite list_lookup_insert_eq by (rewrite ?length_insert; assumption)
        | rewrite list_insert_insert_eq
        | progress norm ].
      unfold st', mql'. destruct (wrap32 (cnt + 1) >? mql); reflexivity. }
    assert (Hh' : pool' !! h = Some (set_prev (Some i) hn)).
    { unfold pool'. apply list_lookup_insert_eq. rewrite !length_insert. exact Hhlen. }
    assert (Ht' : pool' !! t = Some (set_next (Some i) tn)).
    { unfold pool'. rewrite list_lookup_insert_ne by congruence.
      apply list_lookup_insert_eq. rewrite length_insert. exact Htlen. }
    assert (Hi' : pool' !! i = Some NI).
    { unfold pool'. rewrite !list_lookup_insert_ne by congruence.
      apply list_lookup_insert_eq. exact Hilen. }
    destruct (Hfinal pool' _ _ Hi' Ht' eq_refl eq_refl Hh' eq_refl) as [H1 H2].
    { intros j n Hj Hn.
      assert (j <> t) by (intros ->; contradiction).
      assert (j <> i) by (intros ->; contradiction).
      destruct (decide (j = h)) as [->|Hjh].
      - exists (set_prev (Some i) hn). split; [exact Hh'|].
        assert (n = hn) as -> by congruence. split; reflexivity.
      - exists n. split; [|split; reflexivity].
        unfold pool'. rewrite !list_lookup_insert_ne by congruence. exact Hn. }
    split; [exact H1|]. split; [exact H2|]. split; [reflexivity|].
    intros _. split; reflexivity.
Qed.

End WithNPROC.

(** Pid 3 joins the ring of [two_nodes] behind pids 1 and 2. *)
Lemma round_robin_enqueue_tail_witness :
  exists s',
    round_robin_enqueue 4 2 3 two_nodes = Some (tt, s') /\
    queue_wf s' [0%nat; 1%nat; 2%nat] /\
    along pid (rr_node_pool s') [0%nat; 1%nat; 2%nat] = [1; 2; 3].
Proof.
  destruct (rr_node_pool two_nodes !! 2%nat) as [n0|] eqn:E;
    [|vm_compute in E; discriminate E].
  destruct (round_robin_enqueue_tail 4 2 two_nodes [0%nat; 1%nat] 3 2%nat n0)
    as (s' & Hrun & Hwf & Hpids & _).
  - split; [exact RRMore.two_nodes_ring|]. exists 0%nat. split; [reflexivity | left; reflexivity].
  - intros j n [<-|[<-|[]]] Hn; vm_compute in Hn; injection Hn as <-; discriminate.
  - simpl. lia.
  - reflexivity.
  - exact E.
  - intros [H|[H|[]]]; discriminate H.
  - simpl. lia.
  - exists s'. split; [exact Hrun|]. split; [exact Hwf | exact Hpids].
Defined.

End RRQueue.

(** ** Lottery: a participant leaves the pool *)

Module LotteryQueue.
Import Links LinksFacts Lottery LotteryFacts LotteryMore.

#[local] Arguments wrap32 : simpl never.
#[local] Arguments Z.add : simpl never.
#[local] Arguments Z.sub : simpl never.

(** The loop of [lottery_dequeue] walks past the entries of other pids. *)
Lemma dequeue_skip (s : state) (p : Z) (k : list nat) :
  forall l1 fuel pv q,
    chain (entry_pool s) q (l1 ++ k) ->
    (forall j e, In j l1 -> entry_pool s !! j = Some e -> pid e <> p) ->
    (length l1 <= fuel)%nat ->
    exists q',
      chain (entry_pool s) q' k /\
      loop fuel (dequeue_step p) (pv, q) s =
      loop (fuel - length l1) (dequeue_step p)
           (match last l1 with Some t => Some t | None => pv end, q') s /\
      match last l1 with
      | Some t => exists et, entry_pool s !! t = Some et /\ next et = q'
      | None => q' = q
      end.
Proof.
  induction l1 as [|j l1 IH]; intros fuel pv q Hc Hp Hfuel.
  - exists q. split; [exact Hc|]. simpl. rewrite Nat.sub_0_r. split; reflexivity.
  - destruct Hc as [-> (e & He & Hc)].
    destruct fuel as [|f]; [simpl in Hfuel; lia|].
    destruct (IH f (Some j) (next e) Hc) as (q' & Hq' & Hrun & Hlast).
    { intros j' e' Hj'. apply Hp. right. exact Hj'. }
    { simpl in Hfuel. lia. }
    exists q'. split; [exact Hq'|].
    assert (Hl : last (j :: l1) = match last l1 with Some t => Some t | None => Some j end).
    { destruct l1 as [|a l1']; [reflexivity|].
      destruct (last_cons_some a l1') as [t Ht].
      change (last (j :: a :: l1')) with (last (a :: l1')). rewrite Ht. reflexivity. }
    rewrite Hl. split.
    + rewrite loop_S. unfold bind at 1, dequeue_step at 1, bind at 1, rd at 1. rewrite He.
      destruct (Z.eqb_spec (pid e) p) as [Heq|_].
      * exfalso. eapply Hp; [left; reflexivity | exact He | exact Heq].
      * unfold ret at 1. rewrite Hrun.
        change (length (j :: l1)) with (S (length l1)). rewrite Nat.sub_succ.
        destruct (last l1); reflexivity.
    + destruct (last l1) as [t|]; [exact Hlast|].
      exists e. split; [exact He | symmetry; exact Hlast].
Qed.

(** Relinking the entry before [i] past it. *)
Lemma chain_unlink pool t et i e l2 :
  pool !! t = Some et -> pool !! i = Some e ->
  forall l1 p,
    chain pool p (l1 ++ t :: i :: l2) ->
    chain (<[t := set_next (next e) et]> pool) p (l1 ++ t :: l2).
Proof.
  intros Ht Hi. induction l1 as [|j l1 IH]; intros p Hc.
  - pose proof (chain_nodup _ _ _ Hc) as Hnd.
    destruct Hc as [-> (et' & Het' & _ & e' & He' & Hc)].
    assert (et' = et) as -> by congruence. assert (e' = e) as -> by congruence.
    split; [reflexivity|]. exists (set_next (next e) et). split.
    + apply list_lookup_insert_eq. eapply lookup_lt_Some; exact Ht.
    + simpl. apply chain_insert_fresh; [|exact Hc].
      inversion Hnd as [|? ? Hnt _]; subst. intros H. apply Hnt. right. exact H.
  - pose proof (chain_nodup _ _ _ Hc) as Hnd.
    destruct Hc as [-> (ej & Hej & Hc)]. split; [reflexivity|].
    exists ej. split; [|exact (IH _ Hc)].
    rewrite list_lookup_insert_ne; [exact Hej|].
    intros <-. inversion Hnd as [|? ? Hnj _]; subst. apply Hnj.
    apply in_or_app. right. left. reflexivity.
Qed.

(** [lottery_dequeue] of a pid that is in the pool returns and unlinks
    the first entry holding it: the other entries keep their order, pids
    and tickets, the invariant of the pool is kept with the total
    reduced by the current tickets of the entry, the participant count
    goes down by one, the slot becomes the head of the free list, and
    the current pid is reset to -1 when it was the removed pid. *)
Theorem lottery_dequeue_removes (fuel : nat) (s : state) (l1 l2 : list nat) (i : nat)
    (e : lottery_entry) (p : Z) :
  pool_invariant s (l1 ++ i :: l2) ->
  (forall j ej, In j (l1 ++ i :: l2) -> entry_pool s !! j = Some ej ->
                0 <= compensation ej) ->
  total_tickets s < 2 ^ 32 ->
  entry_pool s !! i = Some e -> pid e = p ->
  (forall j ej, In j l1 -> entry_pool s !! j = Some ej -> pid ej <> p) ->
  (length l1 < fuel)%nat ->
  exists s',
    lottery_dequeue fuel p s = Some (tt, s') /\
    pool_invariant s' (l1 ++ l2) /\
    along pid (entry_pool s') (l1 ++ l2) = along pid (entry_pool s) (l1 ++ l2) /\
    tickets_of (entry_pool s') (l1 ++ l2) = tickets_of (entry_pool s) (l1 ++ l2) /\
    total_tickets s' = total_tickets s - current_tickets e /\
    participant_count s' = wrap32 (participant_count s - 1) /\
    free_entries s' = Some i /\
    current_pid s' = (if current_pid s =? p then -1 else current_pid s).
Proof.
  intros (Hc & Hok & Hsum) Hcomp Htot He Hpid Hp Hfuel.
  pose proof (chain_nodup _ _ _ Hc) as Hnd.
  destruct (dequeue_skip s p (i :: l2) l1 fuel None (lottery_pool s) Hc Hp)
    as (q' & Hq' & Hrun & Hlast); [lia|].
  assert (Hq := Hq'). destruct Hq as [-> (e' & He' & Hc2)].
  assert (e' = e) as -> by congruence. clear He'.
  assert (Hilen : (i < length (entry_pool s))%nat) by (eapply lookup_lt_Some; exact He).
  (* the tickets *)
  assert (Hpos : forall j ej, In j (l1 ++ i :: l2) -> entry_pool s !! j = Some ej ->
                              0 <= current_tickets ej).
  { intros j ej Hj Hej. destruct (Hok j ej Hj Hej) as [H1 H2].
    pose proof (Hcomp j ej Hj Hej). unfold LOTTERY_MIN_TICKETS in H2. lia. }
  assert (Hsplit : sum_tickets (tickets_of (entry_pool s) (l1 ++ l2)) =
                   total_tickets s - current_tickets e).
  { rewrite <- Hsum, !sum_tickets_app, (sum_tickets_cons _ _ _ _ He). lia. }
  assert (Hrest : 0 <= sum_tickets (tickets_of (entry_pool s) (l1 ++ l2))).
  { apply sum_tickets_nonneg. intros j ej Hj. apply Hpos.
    apply in_app_or in Hj. apply in_or_app. destruct Hj; [left | right; right]; assumption. }
  assert (Hei : 0 <= current_tickets e).
  { apply (Hpos i e); [apply in_or_app; right; left; reflexivity | exact He]. }
  assert (Hw : wrap32 (total_tickets s - current_tickets e) =
               total_tickets s - current_tickets e).
  { unfold wrap32. apply Z.mod_small. lia. }
  assert (Hni : ~ In i (l1 ++ l2)).
  { apply NoDup_remove_2. exact Hnd. }
  unfold lottery_dequeue. unfold bind at 1, gets at 1. rewrite Hrun. clear Hrun.
  destruct (fuel - length l1)%nat as [|f] eqn:Hf; [lia|]. clear Hf.
  rewrite loop_S. unfold dequeue_step at 1.
  destruct s as [hd tot cnt ce cp tr st rs pool fr lg].
  simpl in Hc, Hok, Hsum, Hcomp, Htot, He, Hp, Hilen, Hpos, Hsplit, Hrest, Hw, Hc2, Hlast |- *.
  pose (mk' := fun (pool1 : list lottery_entry) (hd' : option nat) =>
                 mk_state hd' (wrap32 (tot - current_tickets e)) (wrap32 (cnt - 1)) ce
                   (if cp =? p then -1 else cp) (if cp =? p then 0 else tr)
                   (set_st_participant_count (wrap32 (cnt - 1))
                      (set_st_total_tickets (wrap32 (tot - current_tickets e)) st))
                   rs (<[i := set_next fr e]> pool1) (Some i) lg).
  assert (Hgoal : forall pool1 hd',
            chain pool1 hd' (l1 ++ l2) ->
            (forall j, In j (l1 ++ l2) -> exists ej ej',
                pool !! j = Some ej /\ pool1 !! j = Some ej' /\
                pid ej' = pid ej /\ base_tickets ej' = base_tickets ej /\
                current_tickets ej' = current_tickets ej /\
                compensation ej' = compensation ej) ->
            pool_invariant (mk' pool1 hd') (l1 ++ l2) /\
            along pid (entry_pool (mk' pool1 hd')) (l1 ++ l2) = along pid pool (l1 ++ l2) /\
            tickets_of (entry_pool (mk' pool1 hd')) (l1 ++ l2) = tickets_of pool (l1 ++ l2) /\
            total_tickets (mk' pool1 hd') = tot - current_tickets e /\
            participant_count (mk' pool1 hd') = wrap32 (cnt - 1) /\
            free_entries (mk' pool1 hd') = Some i /\
            current_pid (mk' pool1 hd') = (if cp =? p then -1 else cp)).
  { intros pool1 hd' Hc1 Hsame. unfold mk'. cbn [entry_pool total_tickets
      participant_count free_entries current_pid].
    assert (Hpids : along pid (<[i := set_next fr e]> pool1) (l1 ++ l2) =
                    along pid pool (l1 ++ l2)).
    { rewrite along_insert_fresh by exact Hni. apply along_ext. intros j Hj.
      destruct (Hsame j Hj) as (ej & ej' & -> & -> & H1 & _). simpl. congruence. }
    assert (Htk : tickets_of (<[i := set_next fr e]> pool1) (l1 ++ l2) =
                  tickets_of pool (l1 ++ l2)).
    { change (along current_tickets (<[i := set_next fr e]> pool1) (l1 ++ l2) =
              along current_tickets pool (l1 ++ l2)).
      rewrite along_insert_fresh by exact Hni. apply along_ext. intros j Hj.
      destruct (Hsame j Hj) as (ej & ej' & -> & -> & _ & _ & H1 & _). simpl. congruence. }
    split; [|split; [exact Hpids | split; [exact Htk | split; [exact Hw|]]]].
    2:{ split; [reflexivity|]. split; reflexivity. }
    split; [|split].
    - cbn [entry_pool lottery_pool]. apply chain_insert_fresh; [exact Hni | exact Hc1].
    - cbn [entry_pool]. intros j ej Hj Hej.
      rewrite list_lookup_insert_ne in Hej by (intros ->; contradiction).
      destruct (Hsame j Hj) as (e0 & e0' & H0 & H0' & _ & Hb & Hcu & Hco).
      assert (e0' = ej) as -> by congruence.
      assert (Hok0 : entry_ok e0).
      { apply (Hok j); [|exact H0]. apply in_app_or in Hj. apply in_or_app.
        destruct Hj; [left | right; right]; assumption. }
      destruct Hok0 as [Ha Hb']. split; [congruence | rewrite Hb; exact Hb']. 
    - cbn [entry_pool total_tickets]. rewrite Htk, Hsplit, Hw. reflexivity. }
  destruct (last l1) as [t|] eqn:Hl1.
  - (* an entry [t] comes before *)
    destruct Hlast as (et & Het & Hnext).
    destruct (exists_last (l := l1)) as (l1' & t' & Heq1); [intros ->; discriminate|].
    rewrite Heq1, last_snoc in Hl1. injection Hl1 as ->. subst l1.
    assert (Hti : t <> i).
    { intros ->. apply Hni. apply in_or_app. left. apply in_or_app. right. left. reflexivity. }
    assert (Htlen : (t < length pool)%nat) by (eapply lookup_lt_Some; exact Het).
    exists (mk' (<[t := set_next (next e) et]> pool) hd). split.
    { cbv [bind gets modify ret rd upd sync_total sync_count free_entry when].
      repeat first [ rewrite Het | rewrite Hpid | rewrite Z.eqb_refl
                   | rewrite list_lookup_insert_ne by congruence
                   | rewrite He
                   | rewrite list_lookup_insert_eq by (rewrite ?length_insert; assumption)
                   | progress simpl ].
      unfold mk'. destruct (cp =? p); reflexivity. }
    apply Hgoal.
    + rewrite <- app_assoc. simpl. apply (chain_unlink _ t et i e l2 Het He).
      rewrite <- app_assoc in Hc. exact Hc.
    + intros j Hj.
      assert (Hj' : In j ((l1' ++ [t]) ++ i :: l2)).
      { apply in_app_or in Hj. apply in_or_app. destruct Hj; [left | right; right]; assumption. }
      destruct (chain_lookup _ _ _ j Hc Hj') as (ej & Hej).
      destruct (decide (j = t)) as [->|Hjt].
      * exists et, (set_next (next e) et). split; [exact Het|].
        split; [apply list_lookup_insert_eq; exact Htlen|]. repeat split.
      * exists ej, ej. split; [exact Hej|].
        split; [rewrite list_lookup_insert_ne by congruence; exact Hej|]. repeat split.
  - (* [i] is the head *)
    assert (l1 = []) as ->.
    { destruct l1 as [|a l1']; [reflexivity|].
      destruct (last_cons_some a l1') as [t Ht]. congruence. }
    symmetry in Hlast. subst hd.
    exists (mk' pool (next e)). split.
    { cbv [bind gets modify ret rd upd sync_total sync_count free_entry when].
      repeat first [ rewrite He | rewrite Hpid | rewrite Z.eqb_refl
                   | rewrite list_lookup_insert_eq by (rewrite ?length_insert; assumption)
                   | progress simpl ].
      unfold mk'. destruct (cp =? p); reflexivity. }
    apply Hgoal.
    + exact Hc2.
    + intros j Hj.
      destruct (chain_lookup _ _ _ j Hc (or_intror Hj)) as (ej & Hej).
      exists ej, ej. repeat split; exact Hej.
Qed.

(** Pid 3, in the middle of the pool of 40100 tickets, leaves with its
    10000 tickets. *)
Lemma lottery_dequeue_removes_witness :
  exists s',
    lottery_dequeue 3 3 heavy_pool = Some (tt, s') /\
    pool_invariant s' [4%nat; 3%nat; 1%nat; 0%nat] /\
    along pid (entry_pool s') [4%nat; 3%nat; 1%nat; 0%nat] = [5; 4; 2; 1] /\
    total_tickets s' = 30100.
Proof.
  destruct (lottery_dequeue_removes 3 heavy_pool [4%nat; 3%nat] [1%nat; 0%nat] 2%nat
              (mk_entry 3 10000 10000 0 0 0 (Some 1%nat)) 3)
    as (s' & Hrun & Hinv & Hpids & _ & Htot & _).
  - split; [|split].
    + vm_compute. repeat first [reflexivity | eexists | split].
    + entries; intros H0; vm_compute in H0; injection H0 as <-;
        vm_compute; repeat split; discriminate.
    + reflexivity.
  - entries; intros H0; vm_compute in H0; injection H0 as <-; vm_compute; discriminate.
  - vm_compute. reflexivity.
  - reflexivity.
  - reflexivity.
  - entries; intros H0; vm_compute in H0; injection H0 as <-; vm_compute; discriminate.
  - simpl. lia.
  - exists s'. split; [exact Hrun|]. split; [exact Hinv|]. split; [exact Hpids | exact Htot].
Defined.

End LotteryQueue.

(** ** Lottery: tickets move from one participant to another *)

Module LotteryTransfer.
Import Lottery LotteryFacts LotteryMore.

#[local] Arguments wrap32 : simpl never.
#[local] Arguments Z.add : simpl never.
#[local] Arguments Z.sub : simpl never.

Lemma find_entry_only (fuel : nat) (s : state) (l : list nat) (p : Z) (i : nat)
    (e : lottery_entry) :
  chain (entry_pool s) (lottery_pool s) l ->
  (length l < fuel)%nat ->
  In i l -> entry_pool s !! i = Some e -> pid e = p ->
  only_entry s l p i ->
  find_entry fuel p s = Some (Some i, s).
Proof.
  intros Hc Hfuel Hi He Hp Honly.
  destruct (find_entry_some s p l fuel _ Hc Hfuel) as (r & Hr & Hspec).
  unfold find_entry, bind, gets. rewrite Hr. destruct r as [i'|].
  - destruct Hspec as (Hi' & e' & He' & Hp'). rewrite (Honly i' e' Hi' He' Hp'). reflexivity.
  - exfalso. exact (Hspec i e Hi He Hp).
Qed.

(** [lottery_set_tickets] with a request in [1, 10000] for a pid of the pool. *)
Lemma set_tickets_run (fuel : nat) (s : state) (l : list nat) (p t : Z) (i : nat)
    (e : lottery_entry) :
  pool_invariant s l ->
  (forall j ej, In j l -> entry_pool s !! j = Some ej -> 0 <= compensation ej) ->
  total_tickets s + LOTTERY_MAX_TICKETS < 2 ^ 32 ->
  (length l < fuel)%nat ->
  In i l -> entry_pool s !! i = Some e -> pid e = p ->
  only_entry s l p i ->
  LOTTERY_MIN_TICKETS <= t <= LOTTERY_MAX_TICKETS ->
  exists s',
    lottery_set_tickets fuel p t s = Some (base_tickets e, s') /\
    pool_invariant s' l /\
    entry_pool s' =
      <[i := set_current_tickets (t + compensation e) (set_base_tickets t e)]>
        (entry_pool s) /\
    total_tickets s' = total_tickets s - base_tickets e + t /\
    lottery_pool s' = lottery_pool s.
Proof.
  intros (Hc & Hok & Hsum) Hcomp Htot Hfuel Hi He Hp Honly Ht.
  unfold lottery_set_tickets. unfold bind at 1.
  rewrite (find_entry_only fuel s l p i e Hc Hfuel Hi He Hp Honly).
  assert (Ht' : (let t1 := if t <? LOTTERY_MIN_TICKETS then LOTTERY_MIN_TICKETS else t in
                 if t1 >? LOTTERY_MAX_TICKETS then LOTTERY_MAX_TICKETS else t1) = t).
  { cbv zeta. destruct (Z.ltb_spec t LOTTERY_MIN_TICKETS); [lia|].
    destruct (Z.gtb_spec t LOTTERY_MAX_TICKETS); [lia | reflexivity]. }
  cbv zeta in Ht' |- *. rewrite Ht'.
  assert (Hlen : (i < length (entry_pool s))%nat) by (eapply lookup_lt_Some; exact He).
  pose proof (Hok i e Hi He) as [Hcur Hbase].
  pose proof (Hcomp i e Hi He) as Hc0.
  assert (Hpos : forall j ej, In j l -> entry_pool s !! j = Some ej ->
                              0 <= current_tickets ej).
  { intros j ej Hj Hej. destruct (Hok j ej Hj Hej) as [H1 H2].
    pose proof (Hcomp j ej Hj Hej). unfold LOTTERY_MIN_TICKETS in H2. lia. }
  pose proof (sum_tickets_member _ _ _ He l Hi Hpos) as Hmem.
  assert (Hw : wrap32 (t + compensation e) = t + compensation e).
  { unfold wrap32. apply Z.mod_small.
    unfold LOTTERY_MIN_TICKETS, LOTTERY_MAX_TICKETS in *. lia. }
  assert (Hw1 : wrap32 (total_tickets s - current_tickets e) =
                total_tickets s - current_tickets e).
  { unfold wrap32. apply Z.mod_small. rewrite <- Hsum.
    unfold LOTTERY_MIN_TICKETS, LOTTERY_MAX_TICKETS in *. lia. }
  assert (Hw2 : wrap32 (total_tickets s - current_tickets e + (t + compensation e)) =
                total_tickets s - base_tickets e + t).
  { unfold wrap32. rewrite Z.mod_small; [lia|]. rewrite <- Hsum in *.
    unfold LOTTERY_MIN_TICKETS, LOTTERY_MAX_TICKETS in *. lia. }
  eexists. split.
  { cbv [bind gets modify ret rd upd sync_total].
    repeat first [ rewrite He
                 | rewrite list_lookup_insert_eq by (rewrite ?length_insert; exact Hlen)
                 | progress simpl ].
    rewrite list_insert_insert_eq, Hw, Hw1, Hw2. reflexivity. }
  split; [|split; [|split; reflexivity]].
  - split; [|split].
    + simpl. apply (chain_insert _ i e); [exact He | destruct e; reflexivity | exact Hc].
    + simpl. intros j ej Hj Hej.
      destruct (decide (i = j)) as [->|Hne].
      * rewrite list_lookup_insert_eq in Hej by exact Hlen. injection Hej as <-.
        destruct e. unfold entry_ok. simpl in *. split; [reflexivity | exact Ht].
      * rewrite list_lookup_insert_ne in Hej by exact Hne. exact (Hok j ej Hj Hej).
    + simpl.
      rewrite (sum_tickets_insert _ i e _ He l (chain_nodup _ _ _ Hc) Hi).
      rewrite Hsum. destruct e. simpl in *. lia.
  - simpl. destruct e. reflexivity.
Qed.

(** [lottery_transfer_tickets] between two participants of the pool
    moves n base tickets, where n is the least of the request, what the
    giver holds above the minimum of 1 and what the receiver lacks to the
    maximum of 10000; it returns n.  The giver's base goes down by n, the
    receiver's goes up by n, the invariant of the pool is kept and the
    total of the tickets is the same as before. *)
Theorem lottery_transfer_conserves (fuel : nat) (s : state) (l : list nat)
    (fp tp tickets : Z) (fi ti : nat) (fe te : lottery_entry) :
  pool_invariant s l ->
  (forall j ej, In j l -> entry_pool s !! j = Some ej -> 0 <= compensation ej) ->
  total_tickets s + LOTTERY_MAX_TICKETS < 2 ^ 32 ->
  (length l < fuel)%nat ->
  In fi l -> entry_pool s !! fi = Some fe -> pid fe = fp -> only_entry s l fp fi ->
  In ti l -> entry_pool s !! ti = Some te -> pid te = tp -> only_entry s l tp ti ->
  fp <> tp ->
  0 <= tickets < 2 ^ 32 ->
  let n := Z.min tickets (Z.min (base_tickets fe - LOTTERY_MIN_TICKETS)
                                (LOTTERY_MAX_TICKETS - base_tickets te)) in
  exists s' fe' te',
    lottery_transfer_tickets fuel fp tp tickets s = Some (n, s') /\
    pool_invariant s' l /\
    total_tickets s' = total_tickets s /\
    entry_pool s' !! fi = Some fe' /\ base_tickets fe' = base_tickets fe - n /\
    entry_pool s' !! ti = Some te' /\ base_tickets te' = base_tickets te + n.
Proof.
  intros Hinv Hcomp Htot Hfuel Hfi Hfe Hfp Hfo Hti Hte Htp Hto Hne Htk n.
  assert (Hinv0 := Hinv). destruct Hinv0 as (Hc & Hok & Hsum).
  destruct (Hok fi fe Hfi Hfe) as [_ Hfb]. destruct (Hok ti te Hti Hte) as [_ Htb].
  assert (Hft : fi <> ti) by (intros ->; congruence).
  unfold lottery_transfer_tickets.
  unfold bind at 1. rewrite (find_entry_only fuel s l fp fi fe Hc Hfuel Hfi Hfe Hfp Hfo).
  unfold bind at 1. rewrite (find_entry_only fuel s l tp ti te Hc Hfuel Hti Hte Htp Hto).
  unfold bind at 1, rd at 1. rewrite Hfe. cbv zeta.
  assert (Hav : wrap32 (base_tickets fe - LOTTERY_MIN_TICKETS) =
                base_tickets fe - LOTTERY_MIN_TICKETS).
  { unfold wrap32. apply Z.mod_small.
    unfold LOTTERY_MIN_TICKETS, LOTTERY_MAX_TICKETS in *. lia. }
  assert (Hsp : wrap32 (LOTTERY_MAX_TICKETS - base_tickets te) =
                LOTTERY_MAX_TICKETS - base_tickets te).
  { unfold wrap32. apply Z.mod_small.
    unfold LOTTERY_MIN_TICKETS, LOTTERY_MAX_TICKETS in *. lia. }
  rewrite Hav.
  set (n0 := if tickets <? base_tickets fe - LOTTERY_MIN_TICKETS then tickets
             else base_tickets fe - LOTTERY_MIN_TICKETS).
  assert (Hn0 : n0 = Z.min tickets (base_tickets fe - LOTTERY_MIN_TICKETS)).
  { unfold n0. destruct (Z.ltb_spec tickets (base_tickets fe - LOTTERY_MIN_TICKETS)); lia. }
  destruct (Z.eqb_spec n0 0) as [Hz|Hnz].
  { exists s, fe, te. assert (n = 0) as -> by (unfold n; lia).
    split; [reflexivity|]. split; [exact Hinv|]. split; [reflexivity|].
    split; [exact Hfe|]. split; [lia|]. split; [exact Hte | lia]. }
  unfold bind at 1, rd at 1. rewrite Hte. rewrite Hsp.
  assert (Hn : (if n0 >? LOTTERY_MAX_TICKETS - base_tickets te
                then LOTTERY_MAX_TICKETS - base_tickets te else n0) = n).
  { unfold n. destruct (Z.gtb_spec n0 (LOTTERY_MAX_TICKETS - base_tickets te)); lia. }
  rewrite Hn.
  assert (Hnr : 0 <= n <= base_tickets fe - LOTTERY_MIN_TICKETS /\
                n <= LOTTERY_MAX_TICKETS - base_tickets te) by (unfold n; lia).
  unfold bind at 1, rd at 1. rewrite Hfe.
  assert (Hwf : wrap32 (base_tickets fe - n) = base_tickets fe - n).
  { unfold wrap32. apply Z.mod_small.
    unfold LOTTERY_MIN_TICKETS, LOTTERY_MAX_TICKETS in *. lia. }
  assert (Hwt : wrap32 (base_tickets te + n) = base_tickets te + n).
  { unfold wrap32. apply Z.mod_small.
    unfold LOTTERY_MIN_TICKETS, LOTTERY_MAX_TICKETS in *. lia. }
  rewrite Hwf.
  (* the giver *)
  destruct (set_tickets_run fuel s l fp (base_tickets fe - n) fi fe Hinv Hcomp Htot Hfuel
              Hfi Hfe Hfp Hfo) as (s1 & Hrun1 & Hinv1 & Hpool1 & Htot1 & Hhd1); [lia|].
  unfold bind at 1. rewrite Hrun1.
  assert (Hflen : (fi < length (entry_pool s))%nat) by (eapply lookup_lt_Some; exact Hfe).
  assert (Hte1 : entry_pool s1 !! ti = Some te).
  { rewrite Hpool1, list_lookup_insert_ne by exact Hft. exact Hte. }
  assert (Hsame1 : forall j ej, entry_pool s1 !! j = Some ej ->
            exists ej0, entry_pool s !! j = Some ej0 /\ pid ej = pid ej0 /\
                        compensation ej = compensation ej0).
  { intros j ej Hej. rewrite Hpool1 in Hej. destruct (decide (fi = j)) as [<-|Hj].
    - rewrite list_lookup_insert_eq in Hej by exact Hflen. injection Hej as <-.
      exists fe. split; [exact Hfe|]. destruct fe. split; reflexivity.
    - rewrite list_lookup_insert_ne in Hej by exact Hj. exists ej. repeat split. exact Hej. }
  unfold bind at 1, rd at 1. rewrite Hte1. rewrite Hwt.
  (* the receiver *)
  destruct (set_tickets_run fuel s1 l tp (base_tickets te + n) ti te Hinv1)
    as (s2 & Hrun2 & Hinv2 & Hpool2 & Htot2 & Hhd2).
  { intros j ej Hj Hej. destruct (Hsame1 j ej Hej) as (ej0 & H0 & _ & Hco).
    rewrite Hco. exact (Hcomp j ej0 Hj H0). }
  { rewrite Htot1. lia. }
  { exact Hfuel. }
  { exact Hti. }
  { exact Hte1. }
  { exact Htp. }
  { intros j ej Hj Hej Hpj. destruct (Hsame1 j ej Hej) as (ej0 & H0 & Hpe & _).
    apply (Hto j ej0 Hj H0). congruence. }
  { lia. }
  unfold bind at 1. rewrite Hrun2.
  assert (Htlen : (ti < length (entry_pool s1))%nat) by (eapply lookup_lt_Some; exact Hte1).
  eexists _, (set_current_tickets (base_tickets fe - n + compensation fe)
                (set_base_tickets (base_tickets fe - n) fe)),
             (set_current_tickets (base_tickets te + n + compensation te)
                (set_base_tickets (base_tickets te + n) te)).
  split; [reflexivity|].
  destruct Hinv2 as (Hc2 & Hok2 & Hsum2).
  split; [split; [exact Hc2 | split; [exact Hok2 | exact Hsum2]]|].
  cbn [total_tickets entry_pool set_stats].
  split; [rewrite Htot2, Htot1; lia|].
  rewrite Hpool2, Hpool1.
  split; [rewrite list_lookup_insert_ne by congruence;
          apply list_lookup_insert_eq; exact Hflen|].
  split; [destruct fe; reflexivity|].
  split; [apply list_lookup_insert_eq; rewrite length_insert;
          eapply lookup_lt_Some; exact Hte|].
  destruct te; reflexivity.
Qed.

(** 30 of the 100 tickets of pid 1 go to pid 2. *)
Lemma lottery_transfer_conserves_witness :
  exists s' fe' te',
    lottery_transfer_tickets 3 1 2 30 two_entries = Some (30, s') /\
    pool_invariant s' [1%nat; 0%nat] /\
    total_tickets s' = 200 /\
    entry_pool s' !! 0%nat = Some fe' /\ base_tickets fe' = 70 /\
    entry_pool s' !! 1%nat = Some te' /\ base_tickets te' = 130.
Proof.
  apply (lottery_transfer_conserves 3 two_entries [1%nat; 0%nat] 1 2 30 0%nat 1%nat
           (mk_entry 1 100 100 0 0 0 None) (mk_entry 2 100 100 0 0 0 (Some 0%nat))).
  - exact two_entries_invariant.
  - entries; intros H0; vm_compute in H0; injection H0 as <-; vm_compute; discriminate.
  - vm_compute. reflexivity.
  - simpl. lia.
  - right. left. reflexivity.
  - reflexivity.
  - reflexivity.
  - entries; intros H0 H1; vm_compute in H0; injection H0 as <-;
      first [reflexivity | discriminate H1].
  - left. reflexivity.
  - reflexivity.
  - reflexivity.
  - entries; intros H0 H1; vm_compute in H0; injection H0 as <-;
      first [reflexivity | discriminate H1].
  - discriminate.
  - lia.
Defined.

End LotteryTransfer.

(** ** CFS: virtual time by weight *)

Module CFSWeight.
Import CFS CFSMore.

(** [cfs_calc_delta] with the weight of a nice value: for a run time
    below 2^54, where [delta_exec * 1024] fits in 64 bits, a task with a
    larger nice value is charged at least as much virtual time for the
    same run time, and a task of nice 0 is charged the run time itself.
    For any 64-bit run time a task of nice 0 is charged the run time
    modulo 2^54: the product wraps around.  (The nice values are those
    for which [nice + 20] does not overflow an [int].) *)
Theorem cfs_calc_delta_by_nice (d a b : Z) :
  0 <= d < 2 ^ 64 ->
  - 2 ^ 31 <= a -> b < 2 ^ 31 - 20 ->
  a <= b ->
  cfs_calc_delta d (cfs_nice_to_weight 0) = d mod 2 ^ 54 /\
  (d < 2 ^ 54 ->
   cfs_calc_delta d (cfs_nice_to_weight a) <= cfs_calc_delta d (cfs_nice_to_weight b) /\
   cfs_calc_delta d (cfs_nice_to_weight 0) = d).
Proof.
  intros Hd _ _ Hab.
  assert (H0 : cfs_calc_delta d (cfs_nice_to_weight 0) = d mod 2 ^ 54).
  { change (cfs_nice_to_weight 0) with 1024. unfold cfs_calc_delta, CFS_WEIGHT_NICE0, wrap64.
    change (1024 =? 0) with false. cbv iota.
    change (2 ^ 64) with (2 ^ 54 * 1024).
    rewrite Z.mul_mod_distr_r by lia. apply Z.div_mul. lia. }
  split; [exact H0|]. intros Hsmall. split.
  - destruct (weight_index a) as (i & Hi & -> & Ei).
    destruct (weight_index b) as (j & Hj & -> & Ej).
    assert (i <= j)%nat as Hij by lia.
    pose proof (weight_table_antitone i j ltac:(lia)) as H1.
    pose proof (weight_table_antitone j 39 ltac:(lia)) as H2.
    change (nth 39 cfs_weight_table 0) with 15 in H2.
    unfold cfs_calc_delta, CFS_WEIGHT_NICE0.
    destruct (Z.eqb_spec (nth i cfs_weight_table 0) 0) as [?|_]; [lia|].
    destruct (Z.eqb_spec (nth j cfs_weight_table 0) 0) as [?|_]; [lia|].
    apply Z.div_le_compat_l; [|lia].
    unfold wrap64. apply Z.mod_pos_bound. lia.
  - rewrite H0. apply Z.mod_small. lia.
Qed.

(** A run of 1000 at nice 0 and at nice 5. *)
Lemma cfs_calc_delta_by_nice_witness :
  cfs_calc_delta 1000 (cfs_nice_to_weight 0) <= cfs_calc_delta 1000 (cfs_nice_to_weight 5) /\
  cfs_calc_delta 1000 (cfs_nice_to_weight 0) = 1000.
Proof.
  apply (cfs_calc_delta_by_nice 1000 0 5); lia.
Defined.

End CFSWeight.

(** ** Real time: the table of tasks *)

Module RTTasks.
Import Links LinksFacts RT.

#[local] Arguments wrap32 : simpl never.

(** [find_task] along the list of all tasks. *)
Lemma find_task_walk (s : rt_state) (p : Z) :
  forall l fuel q,
    linked next (task_pool s) q l ->
    (length l < fuel)%nat ->
    exists r,
      loop fuel (fun task : option nat =>
        match task with
        | None => ret (inr None)
        | Some i =>
            t <- rd i ;;
            if pid t =? p then ret (inr (Some i)) else ret (inl (next t))
        end) q s = Some (r, s) /\
      match r with
      | None => forall j t, In j l -> task_pool s !! j = Some t -> pid t <> p
      | Some i => In i l /\ exists t, task_pool s !! i = Some t /\ pid t = p
      end.
Proof.
  induction l as [|j l IH]; intros fuel q Hc Hfuel.
  - unfold linked in Hc. simpl in Hc. subst q. destruct fuel; [simpl in Hfuel; lia|].
    exists None. split; [reflexivity | intros j t []].
  - destruct Hc as [-> (t & Ht & Hc)].
    destruct fuel as [|f]; [simpl in Hfuel; lia|].
    rewrite loop_S. unfold bind at 1, bind at 1, rd at 1. rewrite Ht.
    destruct (Z.eqb_spec (pid t) p) as [Heq|Hne].
    + exists (Some j). split; [reflexivity|]. split; [left; reflexivity|].
      exists t. split; [exact Ht | exact Heq].
    + unfold ret at 1.
      destruct (IH f (next t) Hc) as (r & Hr & Hspec); [simpl in Hfuel; lia|].
      exists r. split; [exact Hr|].
      destruct r as [i|].
      * destruct Hspec as [Hi Hex]. split; [right; exact Hi | exact Hex].
      * intros j' t' [<-|Hj'] Ht'; [congruence | eapply Hspec; eassumption].
Qed.

(** [realtime_create_task] for a pid that is already in the list of all
    tasks, or when no task slot is free, returns -1 and changes
    nothing. *)
Theorem realtime_create_task_rejects (fuel : nat) (s : rt_state) (l : list nat)
    (p : Z) (ps : rt_task_params_t) :
  linked next (task_pool s) (all_tasks s) l ->
  (length l < fuel)%nat ->
  (exists j t, In j l /\ task_pool s !! j = Some t /\ pid t = p) \/
  free_tasks s = None ->
  realtime_create_task fuel p ps s = Some (-1, s).
Proof.
  intros Hc Hfuel Hcase.
  destruct (find_task_walk s p l fuel _ Hc Hfuel) as (r & Hr & Hspec).
  unfold realtime_create_task. unfold bind at 1, find_task, bind at 1, gets at 1.
  rewrite Hr. destruct r as [i|]; [reflexivity|].
  destruct Hcase as [(j & t & Hj & Ht & Hp)|Hfree].
  - exfalso. exact (Hspec j t Hj Ht Hp).
  - cbn [is_null negb]. unfold bind, alloc_task, bind, gets. rewrite Hfree. reflexivity.
Qed.

(** [realtime_create_task] for a pid that is not in the list of all
    tasks, with a free slot left, under EDF or LLF: it returns 0 and the
    slot at the head of the free list becomes the head of the list of
    all tasks, holding the pid and the parameters, inactive, with the
    whole wcet remaining, priority 1 and every counter at zero.  The
    other slots, the ready queue and the running task are as before and
    the number of tasks goes up by one. *)
Theorem realtime_create_task_new (fuel : nat) (s : rt_state) (l : list nat)
    (p : Z) (ps : rt_task_params_t) (i : nat) (t0 : rt_task) :
  linked next (task_pool s) (all_tasks s) l ->
  (length l < fuel)%nat ->
  (forall j t, In j l -> task_pool s !! j = Some t -> pid t <> p) ->
  free_tasks s = Some i ->
  task_pool s !! i = Some t0 ->
  ~ In i l ->
  current_algo s = RT_ALGO_EDF \/ current_algo s = RT_ALGO_LLF ->
  exists s',
    realtime_create_task fuel p ps s = Some (0, s') /\
    linked next (task_pool s') (all_tasks s') (i :: l) /\
    task_pool s' !! i =
      Some (mk_task p ps RT_STATE_INACTIVE 0 0 (wcet ps) 0 0 0 0 0 0 0 1 0 (all_tasks s)) /\
    (forall j, j <> i -> task_pool s' !! j = task_pool s !! j) /\
    task_count s' = wrap32 (task_count s + 1) /\
    free_tasks s' = next t0 /\
    ready_queue s' = ready_queue s /\
    current_task s' = current_task s.
Proof.
  intros Hc Hfuel Hp Hfree Ht0 Hni Halgo.
  destruct (find_task_walk s p l fuel _ Hc Hfuel) as (r & Hr & Hspec).
  destruct r as [j|].
  { exfalso. destruct Hspec as (Hj & t & Ht & Hpt). exact (Hp j t Hj Ht Hpt). }
  assert (Hlen : (i < length (task_pool s))%nat) by (eapply lookup_lt_Some; exact Ht0).
  unfold realtime_create_task. unfold bind at 1, find_task, bind at 1, gets at 1.
  rewrite Hr. cbn [is_null negb].
  destruct s as [pool fr rq ct cnt algo st stt al lg].
  simpl in Hc, Hp, Hfree, Ht0, Hlen, Halgo |- *. subst fr.
  set (T := mk_task p ps RT_STATE_INACTIVE 0 0 (wcet ps) 0 0 0 0 0 0 0 1 0 al).
  exists (mk_state (<[i := T]> pool) (next t0) rq ct (wrap32 (cnt + 1)) algo st stt
                   (Some i) lg).
  split.
  { cbv [alloc_task bind gets modify ret rd upd].
    repeat first [ rewrite Ht0
                 | rewrite list_lookup_insert_eq by (rewrite ?length_insert; exact Hlen)
                 | rewrite list_insert_insert_eq
                 | progress simpl ].
    destruct Halgo as [-> | ->];
      cbv [upd bind ret]; simpl;
      rewrite list_lookup_insert_eq by exact Hlen;
      rewrite list_insert_insert_eq; reflexivity. }
  split.
  { split; [reflexivity|]. exists T. split; [apply list_lookup_insert_eq; exact Hlen|].
    apply seg_insert_fresh; [exact Hni | exact Hc]. }
  split; [apply list_lookup_insert_eq; exact Hlen|].
  split; [intros j Hj; apply list_lookup_insert_ne; congruence|].
  repeat split.
Qed.

(** Pid 1 is a task of [released_idle]. *)
Lemma realtime_create_task_rejects_witness :
  realtime_create_task 2 1 default_params released_idle = Some (-1, released_idle).
Proof.
  apply (realtime_create_task_rejects 2 released_idle [0%nat] 1 default_params).
  - vm_compute. repeat first [reflexivity | eexists | split].
  - simpl. lia.
  - left. eexists 0%nat, _. split; [left; reflexivity|]. split; reflexivity.
Defined.

(** Pid 2 is not: it gets slot 1. *)
Lemma realtime_create_task_new_witness :
  exists s',
    realtime_create_task 2 2 default_params released_idle = Some (0, s') /\
    linked next (task_pool s') (all_tasks s') [1%nat; 0%nat] /\
    task_count s' = 2.
Proof.
  destruct (task_pool released_idle !! 1%nat) as [t0|] eqn:E;
    [|vm_compute in E; discriminate E].
  destruct (realtime_create_task_new 2 released_idle [0%nat] 2 default_params 1%nat t0)
    as (s' & Hrun & Hl & _ & _ & Hcnt & _).
  - vm_compute. repeat first [reflexivity | eexists | split].
  - simpl. lia.
  - intros j t [<-|[]] Ht. vm_compute in Ht. injection Ht as <-. discriminate.
  - reflexivity.
  - exact E.
  - intros [H|[]]. discriminate H.
  - left. reflexivity.
  - exists s'. split; [exact Hrun|]. split; [exact Hl | exact Hcnt].
Defined.

End RTTasks.

(** ** Round-robin: a full turn of the ring *)

Module RRCycle.
Import Links LinksFacts RR RRFacts.

#[local] Arguments wrap32 : simpl never.

(** One rotation: the cursor moves to the next slot of the ring. *)
Lemma rotate_step (s : state) (c : nat) (rest : list nat) :
  ring_at_cursor s (c :: rest) ->
  1 < rr_queue_count s ->
  exists s' c' n',
    round_robin_rotate s = Some (tt, s') /\
    ring_at_cursor s' (rest ++ [c]) /\
    hd_error (rest ++ [c]) = Some c' /\
    rr_node_pool s' !! c' = Some n' /\
    time_remaining n' = rr_quantum s /\
    rr_queue_count s' = rr_queue_count s /\
    (forall j n, rr_node_pool s !! j = Some n ->
       exists m, rr_node_pool s' !! j = Some m /\ pid m = pid n /\ next m = next n /\
                 rounds m = if decide (j = c) then wrap32 (rounds n + 1) else rounds n).
Proof.
  intros (c0 & Hcur & Hhd & Hnd & Hseg) Hcnt.
  simpl in Hhd. injection Hhd as <-.
  destruct Hseg as [_ (cn & x & Hcn & Hnx & Hseg)].
  assert (Hclen : (c < length (rr_node_pool s))%nat) by (eapply lookup_lt_Some; exact Hcn).
  assert (Hx : hd_error (rest ++ [c]) = Some x).
  { destruct rest as [|y rest']; simpl in Hseg |- *; [congruence|].
    destruct Hseg as [-> _]. reflexivity. }
  assert (Hnd' : NoDup (rest ++ [c])).
  { apply NoDup_app. apply NoDup_cons in Hnd. destruct Hnd as [Hc Hr].
    split; [exact Hr|]. split; [|apply NoDup_singleton].
    intros y Hy Hyc. apply list_elem_of_In in Hyc. destruct Hyc as [<-|[]].
    contradiction. }
  destruct s as [hd cur pool fr cnt q qr st ev].
  simpl in Hcur, Hcn, Hclen, Hseg, Hcnt |- *. subst cur.
  set (cn1 := set_rounds (wrap32 (rounds cn + 1)) cn).
  assert (Hxn : exists xn, <[c := cn1]> pool !! x = Some xn /\
                           pid xn = (if decide (x = c) then pid cn else pid xn)).
  { destruct (decide (x = c)) as [->|Hxc].
    - exists cn1. split; [apply list_lookup_insert_eq; exact Hclen | reflexivity].
    - destruct rest as [|y rest']; simpl in Hseg; [congruence|].
      destruct Hseg as [-> (yn & ? & Hyn & _)].
      exists yn. split; [|reflexivity].
      rewrite list_lookup_insert_ne by congruence. exact Hyn. }
  destruct Hxn as (xn & Hxn & _).
  assert (Hxlen : (x < length (<[c := cn1]> pool))%nat) by (eapply lookup_lt_Some; exact Hxn).
  set (pool' := <[x := set_time_remaining q xn]> (<[c := cn1]> pool)).
  assert (Hsame : forall j n, pool !! j = Some n ->
            exists m, pool' !! j = Some m /\ pid m = pid n /\ next m = next n /\
                      rounds m = if decide (j = c) then wrap32 (rounds n + 1) else rounds n).
  { intros j n Hn. unfold pool'.
    destruct (decide (j = x)) as [->|Hjx].
    - exists (set_time_remaining q xn).
      split; [apply list_lookup_insert_eq; exact Hxlen|].
      destruct (decide (x = c)) as [->|Hxc].
      + rewrite list_lookup_insert_eq in Hxn by exact Hclen. injection Hxn as <-.
        assert (n = cn) as -> by congruence. repeat split.
      + rewrite list_lookup_insert_ne in Hxn by congruence.
        assert (n = xn) as -> by congruence. repeat split.
    - rewrite list_lookup_insert_ne by congruence.
      destruct (decide (j = c)) as [->|Hjc].
      + exists cn1. split; [apply list_lookup_insert_eq; exact Hclen|].
        assert (n = cn) as -> by congruence. repeat split.
      + exists n. split; [rewrite list_lookup_insert_ne by congruence; exact Hn|].
        repeat split. }
  exists (mk_state hd (Some x) pool' fr cnt q qr st ev), x, (set_time_remaining q xn).
  split.
  { cbv [round_robin_rotate bind gets modify ret rd upd lift].
    cbn [rr_current rr_queue_count].
    destruct (Z.gtb_spec cnt 1) as [_|?]; [|lia].
    cbn [rr_node_pool set_rr_node_pool set_rr_current rr_queue_head rr_current
         rr_free_nodes rr_queue_count rr_quantum rr_quantum_remaining rr_stats env].
    rewrite Hcn.
    cbn [rr_node_pool set_rr_node_pool set_rr_current rr_queue_head rr_current
         rr_free_nodes rr_queue_count rr_quantum rr_quantum_remaining rr_stats env].
    fold cn1. rewrite (list_lookup_insert_eq pool c cn1 Hclen).
    change (next cn1) with (next cn). rewrite Hnx.
    cbn [rr_node_pool set_rr_node_pool set_rr_current rr_queue_head rr_current
         rr_free_nodes rr_queue_count rr_quantum rr_quantum_remaining rr_stats env].
    rewrite Hxn. reflexivity. }
  split.
  { exists x. split; [reflexivity|]. split; [exact Hx|]. split; [exact Hnd'|].
    cbn [rr_node_pool].
    destruct (Hsame c cn Hcn) as (cm & Hcm & _ & Hcmx & _).
    apply ring_seg_snoc with (tn := cm); [|exact Hcm | congruence].
    eapply ring_seg_ext; [exact Hseg|].
    intros j n _ Hn. destruct (Hsame j n Hn) as (m & Hm & _ & Hmx & _). eauto. }
  split; [exact Hx|].
  split; [apply list_lookup_insert_eq; exact Hxlen|].
  split; [reflexivity|]. split; [reflexivity|]. exact Hsame.
Qed.

(** [length a] rotations along the part [a] of the ring. *)
Lemma rotate_picks_run :
  forall (a b : list nat) (s : state),
    ring_at_cursor s (a ++ b) ->
    1 < rr_queue_count s ->
    exists s',
      rotate_picks (length a) s =
        Some (along pid (rr_node_pool s) (take (length a) (tail (a ++ b ++ a))), s') /\
      ring_at_cursor s' (b ++ a) /\
      rr_queue_count s' = rr_queue_count s /\
      (forall j n, rr_node_pool s !! j = Some n ->
         exists m, rr_node_pool s' !! j = Some m /\ pid m = pid n /\
                   (In j a -> rounds m = wrap32 (rounds n + 1)) /\
                   (~ In j a -> rounds m = rounds n)).
Proof.
  induction a as [|a1 a' IH]; intros b s Hring Hcnt.
  - exists s. split; [reflexivity|]. rewrite app_nil_r. split; [exact Hring|].
    split; [reflexivity|]. intros j n Hn. exists n. split; [exact Hn|].
    split; [reflexivity|]. split; [intros []|reflexivity].
  - change ((a1 :: a') ++ b) with (a1 :: (a' ++ b)) in Hring.
    assert (Hnd : NoDup (a1 :: (a' ++ b))) by (destruct Hring as (? & _ & _ & H & _); exact H).
    destruct (rotate_step s a1 (a' ++ b) Hring Hcnt)
      as (s1 & c' & n' & Hrot & Hring1 & Hhd & Hn' & _ & Hcnt1 & Hsame1).
    rewrite <- app_assoc in Hring1.
    destruct (IH (b ++ [a1]) s1 Hring1) as (s2 & Hrun & Hring2 & Hcnt2 & Hsame2);
      [rewrite Hcnt1; exact Hcnt|].
    exists s2.
    assert (Hpids : forall L, along pid (rr_node_pool s1) L = along pid (rr_node_pool s) L).
    { intros L. apply along_ext. intros j _.
      destruct (rr_node_pool s !! j) as [n|] eqn:Hn.
      - destruct (Hsame1 j n Hn) as (m & -> & Hp & _). simpl. congruence.
      - destruct (rr_node_pool s1 !! j) as [m|] eqn:Hm; [|reflexivity].
        exfalso. apply lookup_lt_Some in Hm.
        apply lookup_ge_None in Hn.
        assert (Hlen : length (rr_node_pool s1) = length (rr_node_pool s)).
        { clear - Hrot Hring Hcnt. destruct Hring as (c & Hcur & _ & _ & Hseg).
          unfold round_robin_rotate, bind, gets in Hrot. rewrite Hcur in Hrot.
          destruct (rr_queue_count s >? 1); [|injection Hrot as <-; reflexivity].
          unfold upd at 1 in Hrot.
          destruct (rr_node_pool s !! c) as [cn|]; [|discriminate].
          unfold rd at 1 in Hrot. simpl in Hrot.
          destruct (<[c:=set_rounds (wrap32 (rounds cn + 1)) cn]> (rr_node_pool s) !! c)
            as [cn'|]; [|discriminate].
          unfold modify, lift in Hrot. simpl in Hrot.
          destruct (next cn') as [x|]; [|discriminate].
          unfold upd in Hrot. simpl in Hrot.
          destruct (<[c:=set_rounds (wrap32 (rounds cn + 1)) cn]> (rr_node_pool s) !! x);
            [|discriminate].
          injection Hrot as <-. simpl. rewrite !length_insert. reflexivity. }
        lia. }
    split.
    { change (length (a1 :: a')) with (S (length a')).
      cbn [rotate_picks]. unfold bind at 1. rewrite Hrot.
      unfold bind at 1, round_robin_pick_next, bind at 1, gets at 1.
      destruct Hring1 as (c1 & Hcur1 & Hhd1 & _).
      rewrite Hcur1.
      assert (c1 = c') as ->.
      { rewrite app_assoc in Hhd1. congruence. }
      unfold bind at 1, rd at 1. rewrite Hn'. unfold ret at 1.
      unfold bind at 1. rewrite Hrun. unfold ret.
      rewrite Hpids.
      change (tail ((a1 :: a') ++ b ++ a1 :: a')) with (a' ++ b ++ a1 :: a').
      assert (Hshape : a' ++ b ++ a1 :: a' = c' :: tail (a' ++ (b ++ [a1]) ++ a')).
      { rewrite <- !app_assoc. simpl.
        destruct a' as [|y a'']; simpl in Hhd |- *.
        - destruct b as [|z b']; simpl in Hhd |- *; congruence.
        - congruence. }
      rewrite Hshape. cbn [take].
      assert (Hc'0 : exists n0, rr_node_pool s !! c' = Some n0 /\ pid n' = pid n0).
      { destruct (rr_node_pool s !! c') as [n0|] eqn:Hn0.
        - destruct (Hsame1 c' n0 Hn0) as (m & Hm & Hp & _).
          exists n0. split; [reflexivity|]. congruence.
        - exfalso. pose proof (Hpids [c']) as HH.
          rewrite !along_cons, Hn', Hn0 in HH. discriminate HH. }
      destruct Hc'0 as (n0 & Hn0 & Hpn).
      rewrite along_cons, Hn0, Hpn. reflexivity. }
    split; [rewrite <- app_assoc in Hring2; exact Hring2|].
    split; [congruence|].
    intros j n Hn.
    destruct (Hsame1 j n Hn) as (m1 & Hm1 & Hp1 & _ & Hr1).
    destruct (Hsame2 j m1 Hm1) as (m2 & Hm2 & Hp2 & Hin2 & Hout2).
    exists m2. split; [exact Hm2|]. split; [congruence|].
    apply NoDup_cons in Hnd. destruct Hnd as [Ha1 _].
    rewrite list_elem_of_In in Ha1.
    split.
    + intros [<-|Hj].
      * rewrite Hout2 by (intros H; apply Ha1, in_or_app; left; exact H).
        rewrite Hr1. destruct (decide (a1 = a1)); [reflexivity | contradiction].
      * rewrite (Hin2 Hj), Hr1.
        destruct (decide (j = a1)) as [->|_]; [|reflexivity].
        exfalso. apply Ha1, in_or_app. left. exact Hj.
    + intros Hj. rewrite Hout2 by (intros H; apply Hj; right; exact H).
      rewrite Hr1. destruct (decide (j = a1)) as [->|_]; [|reflexivity].
      exfalso. apply Hj. left. reflexivity.
Qed.

(** A full turn of the ring.  With more than one process queued, as
    many calls of [round_robin_rotate] as the ring has nodes hand the
    turn to every process once, in ring order starting behind the
    cursor and ending on the process the cursor was on:
    [round_robin_pick_next] gives their pids in that order.  At the end
    the cursor is back where it was, the ring is the same, and every
    node has one more round. *)
Theorem round_robin_full_turn (s : state) (c : nat) (rest : list nat) :
  ring_at_cursor s (c :: rest) ->
  1 < rr_queue_count s ->
  exists s',
    rotate_picks (length (c :: rest)) s =
      Some (along pid (rr_node_pool s) (rest ++ [c]), s') /\
    ring_at_cursor s' (c :: rest) /\
    (forall j n, In j (c :: rest) -> rr_node_pool s !! j = Some n ->
       exists m, rr_node_pool s' !! j = Some m /\ pid m = pid n /\
                 rounds m = wrap32 (rounds n + 1)).
Proof.
  intros Hring Hcnt.
  destruct (rotate_picks_run (c :: rest) [] s) as (s' & Hrun & Hring' & _ & Hsame);
    [rewrite app_nil_r; exact Hring | exact Hcnt|].
  exists s'. split; [|split; [exact Hring'|]].
  - rewrite Hrun. do 2 f_equal.
    change (tail ((c :: rest) ++ [] ++ c :: rest)) with (rest ++ c :: rest).
    change (length (c :: rest)) with (S (length rest)).
    change (rest ++ c :: rest) with (rest ++ [c] ++ rest).
    rewrite app_assoc. rewrite take_app_length'; [reflexivity|].
    rewrite length_app. simpl. lia.
  - intros j n Hj Hn. destruct (Hsame j n Hn) as (m & Hm & Hp & Hin & _).
    exists m. split; [exact Hm|]. split; [exact Hp | exact (Hin Hj)].
Qed.

(** Two rotations on the ring of pids 1 and 2. *)
Lemma round_robin_full_turn_witness :
  exists s',
    rotate_picks 2 two_nodes = Some ([2; 1], s') /\
    ring_at_cursor s' [0%nat; 1%nat].
Proof.
  destruct (round_robin_full_turn two_nodes 0%nat [1%nat]) as (s' & Hrun & Hring & _).
  - exists 0%nat. split; [reflexivity|]. split; [reflexivity|].
    destruct RRMore.two_nodes_ring as (_ & _ & Hnd & Hseg & _).
    split; [exact Hnd | exact Hseg].
  - vm_compute. reflexivity.
  - exists s'. split; [exact Hrun | exact Hring].
Defined.

End RRCycle.

(** ** The ready queue: a process leaves from anywhere *)

Module ReadyRemove.
Import Links LinksFacts Ready ReadyFacts.

#[local] Arguments wrap32 : simpl never.

(** The search of [ready_dequeue] stops at the first node of the pid. *)
Lemma ready_find_first (s : state) (p : Z) (i : nat) (n : ready_node) (l2 : list nat) :
  node_pool s !! i = Some n -> pid n = p ->
  forall l1 fuel q,
    linked next (node_pool s) q (l1 ++ i :: l2) ->
    (forall j m, In j l1 -> node_pool s !! j = Some m -> pid m <> p) ->
    (length l1 < fuel)%nat ->
    loop fuel (fun node : option nat =>
      match node with
      | None => ret (inr None)
      | Some i =>
          n <- rd i ;;
          if negb (pid n =? p) then ret (inl (next n)) else ret (inr (Some i))
      end) q s = Some (Some i, s).
Proof.
  intros Hn Hp.
  induction l1 as [|k l1 IH]; intros fuel q Hl Hne Hfuel.
  - destruct Hl as [-> _]. destruct fuel as [|f]; [simpl in Hfuel; lia|].
    rewrite loop_S. unfold bind at 1, bind at 1, rd at 1. rewrite Hn.
    rewrite Hp, Z.eqb_refl. reflexivity.
  - destruct Hl as [-> (m & Hm & Hl)].
    destruct fuel as [|f]; [simpl in Hfuel; lia|].
    rewrite loop_S. unfold bind at 1, bind at 1, rd at 1. rewrite Hm.
    destruct (Z.eqb_spec (pid m) p) as [Heq|_].
    { exfalso. eapply Hne; [left; reflexivity | exact Hm | exact Heq]. }
    cbn [negb]. unfold ret at 1. apply IH; [exact Hl | | simpl in Hfuel; lia].
    intros j m' Hj. apply Hne. right. exact Hj.
Qed.

Lemma back_linked_app (pool : list ready_node) :
  forall l1 l2 pv,
    back_linked pool pv (l1 ++ l2) <->
    back_linked pool pv l1 /\
    back_linked pool (match last l1 with Some t => Some t | None => pv end) l2.
Proof.
  induction l1 as [|k l1 IH]; intros l2 pv.
  - simpl. tauto.
  - change ((k :: l1) ++ l2) with (k :: (l1 ++ l2)). simpl back_linked.
    assert (Hlast : match last (k :: l1) with Some t => Some t | None => pv end =
                    match last l1 with Some t => Some t | None => Some k end).
    { destruct l1 as [|a l1']; [reflexivity|].
      change (last (k :: a :: l1')) with (last (a :: l1')).
      destruct (last_cons_some a l1') as [t ->]. reflexivity. }
    rewrite Hlast. split.
    + intros (m & Hm & Hp & Hb). apply IH in Hb. destruct Hb as [Hb1 Hb2].
      split; [|exact Hb2]. exists m. auto.
    + intros [(m & Hm & Hp & Hb1) Hb2]. exists m. split; [exact Hm|].
      split; [exact Hp|]. apply IH. split; assumption.
Qed.

Lemma last_app_cons {A} (l1 : list A) (x : A) (l2 : list A) :
  last (l1 ++ x :: l2) = match last l2 with Some t => Some t | None => Some x end.
Proof.
  induction l1 as [|a l1 IH].
  - simpl. destruct l2 as [|b l2']; [reflexivity|].
    change (last (x :: b :: l2')) with (last (b :: l2')).
    destruct (last_cons_some b l2') as [t ->]. reflexivity.
  - change ((a :: l1) ++ x :: l2) with (a :: (l1 ++ x :: l2)).
    destruct (l1 ++ x :: l2) as [|b r] eqn:E; [destruct l1; discriminate|].
    change (last (a :: b :: r)) with (last (b :: r)). exact IH.
Qed.

(** The links of a slot inside a doubly linked list. *)
Lemma node_links (pool : list ready_node) (hd : option nat)
    (l1 l2 : list nat) (i : nat) (n : ready_node) :
  linked next pool hd (l1 ++ i :: l2) ->
  back_linked pool None (l1 ++ i :: l2) ->
  pool !! i = Some n ->
  next n = hd_error l2 /\ prev n = last l1.
Proof.
  intros Hl Hb Hn.
  unfold linked in Hl. apply seg_app in Hl.
  destruct Hl as (q & Hs1 & Hq). destruct Hq as [-> (n' & Hn' & Hl2)].
  assert (n' = n) as -> by congruence. clear Hn'.
  apply back_linked_app in Hb. destruct Hb as [Hb1 (n' & Hn' & Hprev & Hb2)].
  assert (n' = n) as -> by congruence. clear Hn'.
  split.
  - destruct l2 as [|x l2']; [exact Hl2 | destruct Hl2 as [-> _]; reflexivity].
  - rewrite Hprev. destruct (last l1); reflexivity.
Qed.

(** Taking slot [i] out of a doubly linked list: what the new pool has to
    hold for the list without [i] to be doubly linked. *)
Lemma unlink_wf (pool pool' : list ready_node) (hd : option nat)
    (l1 l2 : list nat) (i : nat) (n : ready_node) :
  linked next pool hd (l1 ++ i :: l2) ->
  back_linked pool None (l1 ++ i :: l2) ->
  pool !! i = Some n ->
  (forall j m, In j (l1 ++ l2) -> pool !! j = Some m ->
     exists m', pool' !! j = Some m' /\ pid m' = pid m /\
       next m' = (if decide (last l1 = Some j) then next n else next m) /\
       prev m' = (if decide (hd_error l2 = Some j) then prev n else prev m)) ->
  linked next pool' (match l1 with [] => next n | _ => hd end) (l1 ++ l2) /\
  back_linked pool' None (l1 ++ l2) /\
  (match l2 with [] => prev n | _ => last (l1 ++ i :: l2) end) = last (l1 ++ l2) /\
  along pid pool' (l1 ++ l2) = along pid pool (l1 ++ l2).
Proof.
  intros Hl Hb Hn Hsame.
  pose proof (linked_nodup _ _ _ _ Hl) as Hnd.
  assert (Hl0 := Hl). unfold linked in Hl0. apply seg_app in Hl0.
  destruct Hl0 as (q & Hs1 & Hq). destruct Hq as [-> (n' & Hn' & Hl2)].
  assert (n' = n) as -> by congruence. clear Hn'.
  apply back_linked_app in Hb. destruct Hb as [Hb1 (n' & Hn' & Hprev & Hb2)].
  assert (n' = n) as -> by congruence. clear Hn'.
  assert (Hnx : next n = hd_error l2).
  { destruct l2 as [|x l2']; [exact Hl2 | destruct Hl2 as [-> _]; reflexivity]. }
  assert (Hpv : prev n = last l1).
  { rewrite Hprev. destruct (last l1); reflexivity. }
  assert (Hni1 : ~ In i l1).
  { intros H. apply NoDup_app in Hnd. destruct Hnd as (_ & Hd & _).
    apply (Hd i); [apply list_elem_of_In; exact H | left]. }
  assert (Hdisj : forall j, In j l1 -> In j l2 -> False).
  { intros j H1 H2. apply NoDup_app in Hnd. destruct Hnd as (_ & Hd & _).
    apply (Hd j); [apply list_elem_of_In; exact H1 | right; apply list_elem_of_In; exact H2]. }
  assert (Hnd1 : NoDup l1) by (apply NoDup_app in Hnd; tauto).
  assert (Hnd2 : NoDup l2).
  { apply NoDup_app in Hnd. destruct Hnd as (_ & _ & H). apply NoDup_cons in H. tauto. }
  (* the slots of [l2] keep their [next] *)
  assert (Hl2' : linked next pool' (next n) l2).
  { eapply seg_ext; [exact Hl2|]. intros j m Hj Hm.
    destruct (Hsame j m (in_or_app _ _ _ (or_intror Hj)) Hm) as (m' & Hm' & _ & Hx & _).
    exists m'. split; [exact Hm'|]. rewrite Hx.
    destruct (decide (last l1 = Some j)) as [E|_]; [|reflexivity].
    exfalso. apply (Hdisj j); [|exact Hj].
    destruct (exists_last (l := l1)) as (l1' & t & ->); [intros ->; discriminate|].
    rewrite last_snoc in E. injection E as ->. apply in_or_app. right. left. reflexivity. }
  split; [|split; [|split]].
  - assert (Hsplit : l1 = [] \/ exists l1' t, l1 = l1' ++ [t]).
    { destruct l1 as [|k l1']; [left; reflexivity|]. right.
      destruct (exists_last (l := k :: l1') ltac:(discriminate)) as (l0 & t & ->). eauto. }
    destruct Hsplit as [->|(l1' & t & ->)].
    + exact Hl2'.
    + assert (Hhd : match l1' ++ [t] with [] => next n | _ => hd end = hd)
        by (destruct l1'; reflexivity).
      rewrite Hhd. unfold linked. apply seg_app. exists (next n). split; [|exact Hl2'].
      apply seg_app in Hs1. destruct Hs1 as (q & Hs1' & Ht).
      destruct Ht as [-> (tn & Htn & Htx)]. simpl in Htx.
      assert (Hin : In t ((l1' ++ [t]) ++ l2)).
      { apply in_or_app. left. apply in_or_app. right. left. reflexivity. }
      destruct (Hsame t tn Hin Htn) as (tn' & Htn' & _ & Hx & _).
      rewrite last_snoc in Hx. destruct (decide (Some t = Some t)); [|contradiction].
      apply seg_snoc with (n := tn'); [|exact Htn' | exact Hx].
      eapply seg_ext; [exact Hs1'|]. intros j m Hj Hm.
      assert (Hin' : In j ((l1' ++ [t]) ++ l2)).
      { apply in_or_app. left. apply in_or_app. left. exact Hj. }
      destruct (Hsame j m Hin' Hm) as (m' & Hm' & _ & Hx' & _).
      exists m'. split; [exact Hm'|]. rewrite Hx', last_snoc.
      destruct (decide (Some t = Some j)) as [E|_]; [|reflexivity].
      exfalso. injection E as <-. apply NoDup_app in Hnd1. destruct Hnd1 as (_ & Hd & _).
      apply (Hd t); [apply list_elem_of_In; exact Hj | left].
  - apply back_linked_app. split.
    + eapply back_linked_ext; [exact Hb1|]. intros j m Hj Hm.
      destruct (Hsame j m (in_or_app _ _ _ (or_introl Hj)) Hm) as (m' & Hm' & _ & _ & Hp).
      exists m'. split; [exact Hm'|]. rewrite Hp.
      destruct (decide (hd_error l2 = Some j)) as [E|_]; [|reflexivity].
      exfalso. apply (Hdisj j Hj). destruct l2 as [|x l2']; [discriminate|].
      injection E as ->. left. reflexivity.
    + destruct l2 as [|x l2']; [exact I|].
      destruct Hb2 as (xn & Hxn & Hxp & Hb2).
      assert (Hin : In x (l1 ++ x :: l2')) by (apply in_or_app; right; left; reflexivity).
      destruct (Hsame x xn Hin Hxn) as (xn' & Hxn' & _ & _ & Hp).
      simpl in Hp. destruct (decide (Some x = Some x)); [|contradiction].
      exists xn'. split; [exact Hxn'|]. split; [rewrite Hp; exact Hprev|].
      eapply back_linked_ext; [exact Hb2|]. intros j m Hj Hm.
      assert (Hin' : In j (l1 ++ x :: l2')) by (apply in_or_app; right; right; exact Hj).
      destruct (Hsame j m Hin' Hm) as (m' & Hm' & _ & _ & Hp').
      exists m'. split; [exact Hm'|]. rewrite Hp'. simpl.
      destruct (decide (Some x = Some j)) as [E|_]; [|reflexivity].
      exfalso. injection E as <-. apply NoDup_cons in Hnd2. destruct Hnd2 as [Hx _].
      apply Hx, list_elem_of_In. exact Hj.
  - destruct l2 as [|x l2'].
    + rewrite app_nil_r. exact Hpv.
    + rewrite !last_app_cons.
      change (last (x :: l2')) with
        (last ([] ++ x :: l2')). rewrite last_app_cons. simpl.
      destruct (last l2'); reflexivity.
  - apply along_ext. intros j Hj.
    destruct (seg_lookup next pool _ _ _ j Hl) as (m & Hm).
    { apply in_app_or in Hj. apply in_or_app. destruct Hj; [left | right; right]; assumption. }
    destruct (Hsame j m Hj Hm) as (m' & Hm' & Hp & _). rewrite Hm, Hm'. simpl. congruence.
Qed.

Section WithNPROC.
Variable NPROC : nat.

(** The lookups of a pool in which a few slots were overwritten. *)
Ltac lookups :=
  repeat first
    [ rewrite list_lookup_insert_ne by congruence
    | rewrite list_lookup_insert_eq by (rewrite ?length_insert; assumption) ].

Ltac decided :=
  repeat match goal with
         | |- context [decide ?P] => destruct (decide P)
         end;
  try congruence; repeat split; try reflexivity; try congruence.

(** [ready_dequeue] of a valid pid that a node of the queue carries
    unlinks the first such node, wherever it stands: the queue stays a
    doubly linked list from head to tail, the other nodes keep their
    order and pids, both counts go down by one and the node becomes the
    head of the free list. *)
Theorem ready_dequeue_removes (fuel : nat) (s : state) (l1 l2 : list nat) (i : nat)
    (n : ready_node) (p : Z) :
  queue_wf s (l1 ++ i :: l2) ->
  0 <= p < Z.of_nat NPROC ->
  node_pool s !! i = Some n -> pid n = p ->
  (forall j m, In j l1 -> node_pool s !! j = Some m -> pid m <> p) ->
  (length l1 < fuel)%nat ->
  exists s',
    ready_dequeue NPROC fuel p s = Some (tt, s') /\
    queue_wf s' (l1 ++ l2) /\
    along pid (node_pool s') (l1 ++ l2) = along pid (node_pool s) (l1 ++ l2) /\
    count (ready_queue s') = wrap32 (count (ready_queue s) - 1) /\
    runnable_count s' = wrap32 (runnable_count s - 1) /\
    free_nodes s' = Some i.
Proof.
  intros (Hl & Hb & Htl) Hrange Hn Hp Hne Hfuel.
  pose proof (linked_nodup _ _ _ _ Hl) as Hnd.
  pose proof (ready_find_first s p i n l2 Hn Hp l1 fuel _ Hl Hne Hfuel) as Hfind.
  assert (Hilen : (i < length (node_pool s))%nat) by (eapply lookup_lt_Some; exact Hn).
  assert (Hni : ~ In i (l1 ++ l2)).
  { apply NoDup_remove_2. apply NoDup_ListNoDup. exact Hnd. }
  unfold ready_dequeue.
  destruct (Z.ltb_spec p 0) as [?|_]; [lia|].
  destruct (Z.geb_spec p (Z.of_nat NPROC)) as [?|_]; [lia|].
  cbn [orb]. unfold bind at 1, gets at 1. unfold bind at 1.
  cbv [bind ret rd] in Hfind |- *. rewrite Hfind. clear Hfind.
  destruct s as [[hd tl cnt qp] pool fr cq tk rc mx ev].
  simpl in Hl, Hb, Htl, Hn, Hne, Hilen |- *.
  pose (mk' := fun pool' : list ready_node =>
                 mk_state (mk_queue (match l1 with [] => next n | _ => hd end)
                                    (match l2 with [] => prev n | _ => tl end)
                                    (wrap32 (cnt - 1)) qp)
                          pool' (Some i) cq tk (wrap32 (rc - 1)) mx ev).
  assert (Hgoal : forall pool',
    (forall j m, In j (l1 ++ l2) -> pool !! j = Some m ->
       exists m', pool' !! j = Some m' /\ pid m' = pid m /\
         next m' = (if decide (last l1 = Some j) then next n else next m) /\
         prev m' = (if decide (hd_error l2 = Some j) then prev n else prev m)) ->
    queue_wf (mk' pool') (l1 ++ l2) /\
    along pid (node_pool (mk' pool')) (l1 ++ l2) = along pid pool (l1 ++ l2) /\
    count (ready_queue (mk' pool')) = wrap32 (cnt - 1) /\
    runnable_count (mk' pool') = wrap32 (rc - 1) /\
    free_nodes (mk' pool') = Some i).
  { intros pool' Hsame.
    destruct (unlink_wf pool pool' hd l1 l2 i n Hl Hb Hn Hsame)
      as (Hl' & Hb' & Ht' & Hpids).
    split; [|split; [exact Hpids | repeat split]].
    split; [exact Hl'|]. split; [exact Hb'|].
    unfold mk'. cbn [ready_queue tail]. rewrite <- Ht', Htl. reflexivity. }
  destruct (node_links pool hd l1 l2 i n Hl Hb Hn) as (Hnx & Hpv).
  assert (Hlook : forall j, In j (l1 ++ l2) -> exists m, pool !! j = Some m /\ j <> i).
  { intros j Hj. destruct (seg_lookup next pool _ _ _ j Hl) as (m & Hm).
    { apply in_app_or in Hj. apply in_or_app. destruct Hj; [left | right; right]; assumption. }
    exists m. split; [exact Hm|]. intros ->. contradiction. }
  assert (Hsplit : l1 = [] \/ exists l1' t, l1 = l1' ++ [t]).
  { destruct l1 as [|k l1']; [left; reflexivity|]. right.
    destruct (exists_last (l := k :: l1') ltac:(discriminate)) as (l0 & t & ->). eauto. }
  cbv [node_free bind gets modify ret rd upd updq].
  destruct Hsplit as [->|(l1' & t & ->)]; destruct l2 as [|x l2'].
  - (* the only node *)
    simpl in Hnx, Hpv.
    set (P' := <[i := set_next fr n]> pool);
    destruct (Hgoal P') as (H1 & H2 & H3 & H4 & H5);
      [intros j m []|].
    exists (mk' P'). split; [|split; [exact H1|split; [exact H2|split; [exact H3|split;
                       [exact H4 | exact H5]]]]].
    repeat first [ rewrite Hn | rewrite Hnx | rewrite Hpv | progress lookups
                 | progress qnorm ].
    unfold mk', P'; cbv [set_next set_prev]; rewrite ?Hnx, ?Hpv; reflexivity.
  - (* the head, with a node behind *)
    simpl in Hnx, Hpv.
    destruct (Hlook x) as (xn & Hxn & Hxi); [left; reflexivity|].
    assert (Hxlen : (x < length pool)%nat) by (eapply lookup_lt_Some; exact Hxn).
    set (P' := <[i := set_next fr n]> (<[x := set_prev None xn]> pool));
    destruct (Hgoal P') as (H1 & H2 & H3 & H4 & H5).
    { intros j m Hj Hm. destruct (Hlook j Hj) as (_ & _ & Hji).
      destruct (decide (j = x)) as [->|Hjx].
      - exists (set_prev None xn). unfold P'; lookups. split; [reflexivity|].
        assert (m = xn) as -> by congruence. rewrite Hpv. simpl. decided.
      - exists m. unfold P'; lookups. split; [exact Hm|]. simpl. decided. }
    exists (mk' P'). split; [|split; [exact H1|split; [exact H2|split; [exact H3|split;
                       [exact H4 | exact H5]]]]].
    repeat first [ rewrite Hn | rewrite Hnx | rewrite Hpv | rewrite Hxn | progress lookups
                 | progress qnorm ].
    unfold mk', P'; cbv [set_next set_prev]; rewrite ?Hnx, ?Hpv; reflexivity.
  - (* the tail, with a node before *)
    rewrite last_snoc in Hpv. simpl in Hnx.
    destruct (Hlook t) as (tn & Htn & Hti);
      [rewrite app_nil_r; apply in_or_app; right; left; reflexivity|].
    assert (Htlen : (t < length pool)%nat) by (eapply lookup_lt_Some; exact Htn).
    set (P' := <[i := set_next fr n]> (<[t := set_next None tn]> pool));
    destruct (Hgoal P') as (H1 & H2 & H3 & H4 & H5).
    { intros j m Hj Hm. destruct (Hlook j Hj) as (_ & _ & Hji). rewrite last_snoc.
      destruct (decide (j = t)) as [->|Hjt].
      - exists (set_next None tn). unfold P'; lookups. split; [reflexivity|].
        assert (m = tn) as -> by congruence. rewrite Hnx. simpl. decided.
      - exists m. unfold P'; lookups. split; [exact Hm|]. simpl. decided. }
    assert (Hhd : match l1' ++ [t] with [] => next n | _ => hd end = hd)
      by (destruct l1'; reflexivity).
    exists (mk' P'). split; [|split; [exact H1|split; [exact H2|split; [exact H3|split;
                       [exact H4 | exact H5]]]]].
    repeat first [ rewrite Hn | rewrite Hnx | rewrite Hpv | rewrite Htn | progress lookups
                 | progress qnorm ].
    unfold mk', P'; rewrite Hhd; cbv [set_next set_prev]; rewrite ?Hnx, ?Hpv; reflexivity.
  - (* in the middle *)
    rewrite last_snoc in Hpv. simpl in Hnx.
    destruct (Hlook t) as (tn & Htn & Hti);
      [apply in_or_app; left; apply in_or_app; right; left; reflexivity|].
    destruct (Hlook x) as (xn & Hxn & Hxi); [apply in_or_app; right; left; reflexivity|].
    assert (Htlen : (t < length pool)%nat) by (eapply lookup_lt_Some; exact Htn).
    assert (Hxlen : (x < length pool)%nat) by (eapply lookup_lt_Some; exact Hxn).
    assert (Htx : t <> x).
    { intros ->. apply NoDup_app in Hnd. destruct Hnd as (_ & Hd & _).
      apply (Hd x); [apply list_elem_of_In, in_or_app; right; left; reflexivity|].
      right. left. }
    set (P' := <[i := set_next fr n]>
                       (<[x := set_prev (Some t) xn]>
                          (<[t := set_next (Some x) tn]> pool)));
    destruct (Hgoal P') as (H1 & H2 & H3 & H4 & H5).
    { intros j m Hj Hm. destruct (Hlook j Hj) as (_ & _ & Hji). rewrite last_snoc.
      destruct (decide (j = t)) as [->|Hjt]; [|destruct (decide (j = x)) as [->|Hjx]].
      - exists (set_next (Some x) tn). unfold P'; lookups. split; [reflexivity|].
        assert (m = tn) as -> by congruence. rewrite Hnx. simpl. decided.
      - exists (set_prev (Some t) xn). unfold P'; lookups. split; [reflexivity|].
        assert (m = xn) as -> by congruence. rewrite Hpv. simpl. decided.
      - exists m. unfold P'; lookups. split; [exact Hm|]. simpl. decided. }
    assert (Hhd : match l1' ++ [t] with [] => next n | _ => hd end = hd)
      by (destruct l1'; reflexivity).
    exists (mk' P'). split; [|split; [exact H1|split; [exact H2|split; [exact H3|split;
                       [exact H4 | exact H5]]]]].
    repeat first [ rewrite Hn | rewrite Hnx | rewrite Hpv | rewrite Htn | rewrite Hxn
                 | progress lookups | progress qnorm ].
    unfold mk', P'; rewrite Hhd; cbv [set_next set_prev]; rewrite ?Hnx, ?Hpv; reflexivity.
Qed.


End WithNPROC.

(** Process 1 leaves the head of the queue of processes 1 and 2. *)
Lemma ready_dequeue_removes_witness :
  exists s',
    ready_dequeue 4 2 1 two_queued = Some (tt, s') /\
    queue_wf s' [1%nat] /\
    along pid (node_pool s') [1%nat] = [2] /\
    free_nodes s' = Some 0%nat.
Proof.
  destruct (node_pool two_queued !! 0%nat) as [n|] eqn:E;
    [|vm_compute in E; discriminate E].
  destruct (ready_dequeue_removes 4 2 two_queued [] [1%nat] 0%nat n 1)
    as (s' & Hrun & Hwf & Hpids & _ & _ & Hfree).
  - exact two_queued_wf.
  - simpl. lia.
  - exact E.
  - vm_compute in E. injection E as <-. reflexivity.
  - intros j m [].
  - simpl. lia.
  - exists s'. split; [exact Hrun|]. split; [exact Hwf|]. split; [exact Hpids | exact Hfree].
Defined.

End ReadyRemove.
